(** * Discrete-event CPU scheduling simulator (21CS10021_LA3.c)

    A shallow embedding of the FCFS / Round-Robin simulator and the
    verification of its event heap, ready queue, dispatcher and main loop.

    Modelling conventions.
    - Integers are those of [Z].  A C [int] is 32 bits wide: wherever the
      source stores into an [int] a value it computed as a [long] (the
      time of an event, [wait_time], [used_time], the stamps of the PCB)
      or the result of adding and subtracting [int]s, the model narrows
      the value with [to_int], the two's-complement wrap-around.  A C
      [long] is 64 bits wide; the [long] variables of the scheduler hold
      sums and differences of a few such values and the accumulated idle
      time, and are kept exact.
    - [g_processes], a global array in the source, is passed explicitly.
    - The heap's [capacity], [size] and array indices, which are never
      negative, are natural numbers; the ready queue keeps [Z] because its
      [rear] index starts at -1.
    - Values of type [double] are exact rationals of [Q]; a quotient whose
      divisor is zero (inf or NaN in C) has no value.
    - What the program prints, and the calls to the event heap that the
      properties speak about, are collected in a trace of observations. *)

From Stdlib Require Import ZArith List Lia Bool Permutation QArith Sorted.
Import ListNotations.
Local Open Scope Z_scope.

(* ------------------------------------------------------------------ *)
(** ** Arrays *)

(** [a[i] = x] on an array held as a list; an index beyond the end leaves
    the list as it is (the program never writes there, see the bounds
    established below). *)
Fixpoint upd {A : Type} (l : list A) (i : nat) (x : A) : list A :=
  match l, i with
  | [], _ => []
  | _ :: t, O => x :: t
  | h :: t, S j => h :: upd t j x
  end.

(* ------------------------------------------------------------------ *)
(** ** Machine integers *)

Definition INT_MAX : Z := 2147483647.
Definition INT_MIN : Z := -2147483648.

(** The value an [int] holds after [x] is stored into it: [x] modulo
    2^32, taken between [INT_MIN] and [INT_MAX]. *)
Definition to_int (x : Z) : Z := (x + 2147483648) mod 4294967296 - 2147483648.

(** [x] is the value of an [int]. *)
Definition in_int (x : Z) : bool := (INT_MIN <=? x) && (x <=? INT_MAX).

(* ------------------------------------------------------------------ *)
(** ** Data structures *)

(** Process info / PCB.  [cpu_bursts] and [io_bursts] are the two
    [int[32]] arrays. *)
Record PCB : Type := mkPCB {
  id : Z;
  arrival_time : Z;
  num_bursts : Z;
  cpu_bursts : list Z;
  io_bursts : list Z;
  current_burst : Z;
  remaining_cpu : Z;
  total_cpu_io : Z;
  wait_time : Z;
  finish_time : Z;
  last_ready_time : Z;
  start_run_time : Z
}.

Definition MAX_BURSTS : nat := 32.

(** A zeroed PCB, as [calloc] returns it. *)
Definition PCB_zero : PCB :=
  mkPCB 0 0 0 (repeat 0 MAX_BURSTS) (repeat 0 MAX_BURSTS) 0 0 0 0 0 0 0.

Definition set_current_burst (p : PCB) (v : Z) : PCB :=
  mkPCB (id p) (arrival_time p) (num_bursts p) (cpu_bursts p) (io_bursts p)
        v (remaining_cpu p) (total_cpu_io p) (wait_time p) (finish_time p)
        (last_ready_time p) (start_run_time p).

Definition set_remaining_cpu (p : PCB) (v : Z) : PCB :=
  mkPCB (id p) (arrival_time p) (num_bursts p) (cpu_bursts p) (io_bursts p)
        (current_burst p) v (total_cpu_io p) (wait_time p) (finish_time p)
        (last_ready_time p) (start_run_time p).

Definition set_wait_time (p : PCB) (v : Z) : PCB :=
  mkPCB (id p) (arrival_time p) (num_bursts p) (cpu_bursts p) (io_bursts p)
        (current_burst p) (remaining_cpu p) (total_cpu_io p) v (finish_time p)
        (last_ready_time p) (start_run_time p).

Definition set_finish_time (p : PCB) (v : Z) : PCB :=
  mkPCB (id p) (arrival_time p) (num_bursts p) (cpu_bursts p) (io_bursts p)
        (current_burst p) (remaining_cpu p) (total_cpu_io p) (wait_time p) v
        (last_ready_time p) (start_run_time p).

Definition set_last_ready_time (p : PCB) (v : Z) : PCB :=
  mkPCB (id p) (arrival_time p) (num_bursts p) (cpu_bursts p) (io_bursts p)
        (current_burst p) (remaining_cpu p) (total_cpu_io p) (wait_time p)
        (finish_time p) v (start_run_time p).

Definition set_start_run_time (p : PCB) (v : Z) : PCB :=
  mkPCB (id p) (arrival_time p) (num_bursts p) (cpu_bursts p) (io_bursts p)
        (current_burst p) (remaining_cpu p) (total_cpu_io p) (wait_time p)
        (finish_time p) (last_ready_time p) v.

(** [g_processes[pid]].  The program only indexes the table with the
    internal identifiers [0 .. g_numProcs-1]; elsewhere the C read is out
    of bounds and the model answers with the zeroed PCB. *)
Definition get_proc (g : list PCB) (pid : Z) : PCB :=
  nth (Z.to_nat pid) g PCB_zero.

(** [g_processes[pid].field = ...], as an update of the entry by [f]. *)
Definition upd_proc (g : list PCB) (pid : Z) (f : PCB -> PCB) : list PCB :=
  upd g (Z.to_nat pid) (f (get_proc g pid)).

(** [arr[i]] on one of the burst arrays. *)
Definition burst_at (arr : list Z) (i : Z) : Z := nth (Z.to_nat i) arr 0.

(** Event types, with the integer values of the enum. *)
Inductive EventType : Type :=
| EVT_ARRIVE
| EVT_CPU_COMPLETE
| EVT_CPU_TIMEOUT.

Definition type_code (t : EventType) : Z :=
  match t with
  | EVT_ARRIVE => 0
  | EVT_CPU_COMPLETE => 1
  | EVT_CPU_TIMEOUT => 2
  end.

Record Event : Type := mkEvent {
  time : Z;
  type : EventType;
  pid : Z
}.


(** What an uninitialised array slot holds is irrelevant; the model puts
    this event there. *)
Definition Event_zero : Event := mkEvent 0 EVT_ARRIVE 0.

(** Min-heap for events. *)
Record EventMinHeap : Type := mkHeap {
  heapArray : list Event;
  capacity : nat;
  size : nat
}.

(** Ready queue (FIFO), a circular buffer. *)
Record ReadyQueue : Type := mkRQ {
  data : list Z;
  rq_capacity : Z;
  front : Z;
  rear : Z;
  count : Z
}.

(** Observations, oldest first: what the program prints on stdout and
    stderr, and the calls of the event heap the properties speak about.
    [ObsDispatch] stands where the source has the VERBOSE line
    "%ld : Process %d is scheduled to run for time %ld"; it keeps the
    internal pid and the wait that was charged. *)
Inductive Obs : Type :=
| ObsPop (e : Event)
    (* main loop: [Event evt = eventHeap_pop(&eventQ)] *)
| ObsPush (e : Event)
    (* [eventHeap_push] stored [e] *)
| ObsHeapOverflow
    (* stderr: "EventHeap overflow!" *)
| ObsReadyOverflow
    (* stderr: "ReadyQueue overflow!" *)
| ObsDispatch (p : Z) (now waited slice : Z)
    (* [schedule_next] gives the CPU to internal pid [p] at [now] for
       [slice], after it waited [now - last_ready_time] *)
| ObsExit (now ext_id tat : Z) (perc : option Q) (wtime : Z).
    (* "%ld : Process %d exits. Turnaround time = %d (%.0f%%), Wait time = %d" *)

(* ------------------------------------------------------------------ *)
(** ** Ready queue *)

Definition RQ_init (cap : Z) : ReadyQueue :=
  mkRQ (repeat 0 (Z.to_nat cap)) cap 0 (-1) 0.

Definition RQ_isEmpty (q : ReadyQueue) : bool := count q =? 0.

(** Enqueue a process and stamp the time it joined the queue.  Returns the
    process table, the queue and what was printed. *)
Definition RQ_enqueue (g : list PCB) (q : ReadyQueue) (p : Z) (current_time : Z)
  : list PCB * ReadyQueue * list Obs :=
  if count q =? rq_capacity q then (g, q, [ObsReadyOverflow])
  else
    let rear' := Z.rem (rear q + 1) (rq_capacity q) in
    let q' := mkRQ (upd (data q) (Z.to_nat rear') p) (rq_capacity q)
                   (front q) rear' (count q + 1) in
    (upd_proc g p (fun pc => set_last_ready_time pc current_time), q', []).

Definition RQ_dequeue (q : ReadyQueue) : Z * ReadyQueue :=
  if RQ_isEmpty q then (-1, q)
  else
    let p := nth (Z.to_nat (front q)) (data q) 0 in
    (p, mkRQ (data q) (rq_capacity q) (Z.rem (front q + 1) (rq_capacity q))
             (rear q) (count q - 1)).

(* ------------------------------------------------------------------ *)
(** ** Event min-heap *)

Definition eventHeap_init (cap : nat) : EventMinHeap :=
  mkHeap (repeat Event_zero cap) cap 0.

Definition eventHeap_empty (mh : EventMinHeap) : bool := (size mh =? 0)%nat.

Definition swapEvents (a : list Event) (i j : nat) : list Event :=
  let tmp := nth i a Event_zero in
  upd (upd a i (nth j a Event_zero)) j tmp.

Section Heap.

(** The process table the comparison reads external identifiers from. *)
Variable g : list PCB.

(** Compare events by time, then type, then external PID. *)
Definition compareEvents (a b : Event) : Z :=
  if time a <? time b then -1
  else if time a >? time b then 1
  else if type_code (type a) <? type_code (type b) then -1
  else if type_code (type a) >? type_code (type b) then 1
  else
    let idA := id (get_proc g (pid a)) in
    let idB := id (get_proc g (pid b)) in
    if idA <? idB then -1
    else if idA >? idB then 1
    else 0.

(** The loop of [bubbleUp]; [idx] decreases at every turn, so [fuel = idx]
    turns are enough. *)
Fixpoint bubbleUp_loop (fuel : nat) (a : list Event) (idx : nat) : list Event :=
  match fuel with
  | O => a
  | S fuel' =>
    if (0 <? idx)%nat then
      let parent := ((idx - 1) / 2)%nat in
      if compareEvents (nth idx a Event_zero) (nth parent a Event_zero) <? 0
      then bubbleUp_loop fuel' (swapEvents a idx parent) parent
      else a
    else a
  end.

Definition bubbleUp (mh : EventMinHeap) (idx : nat) : EventMinHeap :=
  mkHeap (bubbleUp_loop idx (heapArray mh) idx) (capacity mh) (size mh).

(** The loop of [bubbleDown]; [idx] grows at every turn and stays below
    [n = mh->size], so [n] turns are enough. *)
Fixpoint bubbleDown_loop (fuel : nat) (a : list Event) (n idx : nat) : list Event :=
  match fuel with
  | O => a
  | S fuel' =>
    let left := (2 * idx + 1)%nat in
    let right := (2 * idx + 2)%nat in
    let smallest := idx in
    let smallest :=
      if (left <? n)%nat &&
         (compareEvents (nth left a Event_zero) (nth smallest a Event_zero) <? 0)
      then left else smallest in
    let smallest :=
      if (right <? n)%nat &&
         (compareEvents (nth right a Event_zero) (nth smallest a Event_zero) <? 0)
      then right else smallest in
    if negb (smallest =? idx)%nat
    then bubbleDown_loop fuel' (swapEvents a idx smallest) n smallest
    else a
  end.

Definition bubbleDown (mh : EventMinHeap) (idx : nat) : EventMinHeap :=
  mkHeap (bubbleDown_loop (size mh) (heapArray mh) (size mh) idx)
         (capacity mh) (size mh).

Definition eventHeap_push (mh : EventMinHeap) (ev : Event)
  : EventMinHeap * list Obs :=
  if (capacity mh <=? size mh)%nat then (mh, [ObsHeapOverflow])
  else
    let mh1 := mkHeap (upd (heapArray mh) (size mh) ev) (capacity mh) (size mh) in
    let mh2 := bubbleUp mh1 (size mh1) in
    (mkHeap (heapArray mh2) (capacity mh2) (S (size mh2)), [ObsPush ev]).

Definition eventHeap_pop (mh : EventMinHeap) : Event * EventMinHeap :=
  if (size mh =? 0)%nat then (mkEvent INT_MAX EVT_ARRIVE (-1), mh)
  else
    let top := nth 0 (heapArray mh) Event_zero in
    let mh1 := mkHeap (heapArray mh) (capacity mh) (size mh - 1) in
    if (0 <? size mh1)%nat then
      let mh2 := mkHeap (upd (heapArray mh1) 0
                             (nth (size mh1) (heapArray mh1) Event_zero))
                        (capacity mh1) (size mh1) in
      (top, bubbleDown mh2 0)
    else (top, mh1).

End Heap.

(* ------------------------------------------------------------------ *)
(** ** Reading the input *)

(** The [while (1)] loop of [read_input_file] that reads alternating CPU
    and IO times.  [toks] is what is left of the file, as the integers
    [fscanf] would deliver.  The result is [None] where the C code has no
    defined behaviour: the file ends before the -1 marker, a number does
    not fit an [int], or a process has more bursts than the arrays hold.
    [total] is [g_processes[i].total_cpu_io], an [int]. *)
Fixpoint read_bursts (toks : list Z) (cpus ios : list Z) (total : Z)
         (cpu_idx io_idx : nat) : option (list Z * list Z * Z * nat * list Z) :=
  match toks with
  | [] => None
  | cpu :: rest =>
    if negb (in_int cpu) then None
    else if cpu =? -1 then Some (cpus, ios, total, cpu_idx, rest)
    else if (MAX_BURSTS <=? cpu_idx)%nat then None
    else
      let cpus := upd cpus cpu_idx cpu in
      let total := to_int (total + cpu) in
      let cpu_idx := S cpu_idx in
      match rest with
      | [] => None
      | io :: rest' =>
        if negb (in_int io) then None
        else if io =? -1 then Some (cpus, ios, total, cpu_idx, rest')
        else if (MAX_BURSTS <=? io_idx)%nat then None
        else
          let ios := upd ios io_idx io in
          let total := to_int (total + io) in
          read_bursts rest' cpus ios total cpu_idx (S io_idx)
      end
  end.

(** One turn of the [for] loop over the processes. *)
Definition read_process (toks : list Z) : option (PCB * list Z) :=
  match toks with
  | p :: arrival :: rest =>
    if negb (in_int p && in_int arrival) then None
    else
      match read_bursts rest (cpu_bursts PCB_zero) (io_bursts PCB_zero) 0 0 0 with
      | Some (cpus, ios, total, cpu_idx, rest') =>
        Some (mkPCB p arrival (Z.of_nat cpu_idx) cpus ios
                    0 (burst_at cpus 0) total 0 0 0 0, rest')
      | None => None
      end
  | _ => None
  end.

Fixpoint read_processes (n : nat) (toks : list Z) : option (list PCB) :=
  match n with
  | O => Some []
  | S n' =>
    match read_process toks with
    | Some (p, rest) =>
      match read_processes n' rest with
      | Some ps => Some (p :: ps)
      | None => None
      end
    | None => None
    end
  end.

(** [read_input_file]: the process count and the table [g_processes]. *)
Definition read_input_file (toks : list Z) : option (Z * list PCB) :=
  match toks with
  | [] => None
  | n :: rest =>
    if negb (in_int n) then None
    else if n <=? 0 then Some (0, [])
    else
      match read_processes (Z.to_nat n) rest with
      | Some ps => Some (n, ps)
      | None => None
      end
  end.

(* ------------------------------------------------------------------ *)
(** ** Printing *)

(** The completion record of process [p].  [tat] and [wtime] are [int]s;
    [perc], a double, has no value when [run_time] is 0. *)
Definition print_per_process_metrics (g : list PCB) (current_time : Z) (p : Z) : Obs :=
  let tat := to_int (finish_time (get_proc g p) - arrival_time (get_proc g p)) in
  let run_time := total_cpu_io (get_proc g p) in
  let perc :=
    if run_time =? 0 then None
    else Some (100 * inject_Z tat / inject_Z run_time)%Q in
  let wtime := to_int (tat - run_time) in
  ObsExit current_time (id (get_proc g p)) tat perc wtime.

Record Aggregates : Type := mkAggregates {
  avg_wait : Q;
  total_tat : Z;
  idle_time : Z;
  utilization : Q
}.

Definition print_aggregate_metrics (g_numProcs : Z)
           (simulation_end total_wait total_idle : Z) : Aggregates :=
  let avg_wait :=
    if 0 <? g_numProcs then (inject_Z total_wait / inject_Z g_numProcs)%Q else 0%Q in
  let total_tat := simulation_end in
  let utilization :=
    if 0 <? simulation_end then
      let busy_time := simulation_end - total_idle in
      (100 * (inject_Z busy_time / inject_Z simulation_end))%Q
    else 0%Q in
  mkAggregates avg_wait total_tat total_idle utilization.

(* ------------------------------------------------------------------ *)
(** ** The scheduler *)

(** The local variables of [run_scheduler], the process table and the
    trace.  [current_time], [cpu_idle_time], [cpu_busy_until] and
    [running_end_time] are [long]s. *)
Record Sim : Type := mkSim {
  g_processes : list PCB;
  eventQ : EventMinHeap;
  readyQ : ReadyQueue;
  current_time : Z;
  cpu_idle_time : Z;
  cpu_busy_until : Z;
  running_pid : Z;
  running_end_time : Z;
  finished_count : Z;
  trace : list Obs
}.


(** The dispatcher.  [waited], [slice] and [end_time] are [long]s; the
    wait time, the start of the slice and the time of the event are
    stored into [int]s. *)
Definition schedule_next (s : Sim) (q : Z) : Sim :=
  if 0 <=? running_pid s then s
  else if negb (RQ_isEmpty (readyQ s)) then
    let '(p, rq) := RQ_dequeue (readyQ s) in
    let now := current_time s in
    let waited := now - last_ready_time (get_proc (g_processes s) p) in
    let g := upd_proc (g_processes s) p
                      (fun pc => set_wait_time pc (to_int (wait_time pc + waited))) in
    let g := upd_proc g p (fun pc => set_start_run_time pc (to_int now)) in
    let idle :=
      if cpu_busy_until s <? now
      then cpu_idle_time s + (now - cpu_busy_until s)
      else cpu_idle_time s in
    let slice :=
      if q <? remaining_cpu (get_proc g p) then q
      else remaining_cpu (get_proc g p) in
    let end_time := now + slice in
    let e :=
      mkEvent (to_int end_time)
              (if slice =? remaining_cpu (get_proc g p)
               then EVT_CPU_COMPLETE else EVT_CPU_TIMEOUT)
              p in
    let '(mh, o) := eventHeap_push g (eventQ s) e in
    mkSim g mh rq now idle end_time p end_time (finished_count s)
          (trace s ++ ObsDispatch p now waited slice :: o)
  else s.

(** The accounting both CPU handlers start with: the time used, an
    [int], is taken off [remaining_cpu] (clamped at 0), [cpu_busy_until]
    is pulled back to the current time and the CPU is marked free. *)
Definition release_cpu (s : Sim) (p : Z) : Sim :=
  let now := current_time s in
  let used_time := to_int (now - start_run_time (get_proc (g_processes s) p)) in
  let used_time := if used_time <? 0 then 0 else used_time in
  let g := upd_proc (g_processes s) p
                    (fun pc => set_remaining_cpu pc
                                 (to_int (remaining_cpu pc - used_time))) in
  let g :=
    if remaining_cpu (get_proc g p) <? 0
    then upd_proc g p (fun pc => set_remaining_cpu pc 0) else g in
  let busy := if now <? cpu_busy_until s then now else cpu_busy_until s in
  mkSim g (eventQ s) (readyQ s) now (cpu_idle_time s) busy (-1)
        (running_end_time s) (finished_count s) (trace s).

(** The end of a CPU burst, written twice in the source (in the
    CPU_COMPLETE handler and in the CPU_TIMEOUT handler when nothing is
    left of the burst): the process exits after its last burst, and
    otherwise returns from IO through an arrival event.  [io_time] and
    [wakeup] are [long]s; the finish time and the time of the event are
    stored into [int]s. *)
Definition burst_done (s : Sim) (p : Z) : Sim :=
  let now := current_time s in
  let cb := current_burst (get_proc (g_processes s) p) + 1 in
  if num_bursts (get_proc (g_processes s) p) <=? cb then
    let g := upd_proc (g_processes s) p
                      (fun pc => set_finish_time pc (to_int now)) in
    mkSim g (eventQ s) (readyQ s) now (cpu_idle_time s) (cpu_busy_until s)
          (running_pid s) (running_end_time s) (finished_count s + 1)
          (trace s ++ [print_per_process_metrics g now p])
  else
    let io_time := burst_at (io_bursts (get_proc (g_processes s) p)) (cb - 1) in
    let wakeup := now + io_time in
    let '(mh, o) := eventHeap_push (g_processes s) (eventQ s)
                                   (mkEvent (to_int wakeup) EVT_ARRIVE p) in
    let g := upd_proc (g_processes s) p (fun pc => set_current_burst pc cb) in
    let g := upd_proc g p
               (fun pc => set_remaining_cpu pc (burst_at (cpu_bursts pc) cb)) in
    mkSim g mh (readyQ s) now (cpu_idle_time s) (cpu_busy_until s)
          (running_pid s) (running_end_time s) (finished_count s)
          (trace s ++ o).

(** The [switch] of the main loop.  [RQ_enqueue] takes the time as an
    [int]. *)
Definition handle_event (q : Z) (s : Sim) (evt : Event) : Sim :=
  match type evt with
  | EVT_ARRIVE =>
    let '(g, rq, o) :=
      RQ_enqueue (g_processes s) (readyQ s) (pid evt) (to_int (current_time s)) in
    let s1 := mkSim g (eventQ s) rq (current_time s) (cpu_idle_time s)
                    (cpu_busy_until s) (running_pid s) (running_end_time s)
                    (finished_count s) (trace s ++ o) in
    if running_pid s1 <? 0 then schedule_next s1 q else s1
  | EVT_CPU_COMPLETE =>
    let s1 := release_cpu s (pid evt) in
    let s2 := burst_done s1 (pid evt) in
    schedule_next s2 q
  | EVT_CPU_TIMEOUT =>
    let s1 := release_cpu s (pid evt) in
    let s2 :=
      if 0 <? remaining_cpu (get_proc (g_processes s1) (pid evt)) then
        let '(g, rq, o) :=
          RQ_enqueue (g_processes s1) (readyQ s1) (pid evt)
                     (to_int (current_time s1)) in
        mkSim g (eventQ s1) rq (current_time s1) (cpu_idle_time s1)
              (cpu_busy_until s1) (running_pid s1) (running_end_time s1)
              (finished_count s1) (trace s1 ++ o)
      else burst_done s1 (pid evt) in
    schedule_next s2 q
  end.

(** The guard of the main loop. *)
Definition loop_cond (g_numProcs : Z) (s : Sim) : bool :=
  (finished_count s <? g_numProcs) && negb (eventHeap_empty (eventQ s)).

(** One turn of the main loop: pop the earliest event, move the clock to
    it and handle it. *)
Definition loop_body (q : Z) (s : Sim) : Sim :=
  let '(evt, mh) := eventHeap_pop (g_processes s) (eventQ s) in
  let s1 := mkSim (g_processes s) mh (readyQ s) (time evt) (cpu_idle_time s)
                  (cpu_busy_until s) (running_pid s) (running_end_time s)
                  (finished_count s) (trace s ++ [ObsPop evt]) in
  handle_event q s1 evt.

(** The main loop; [None] when [fuel] turns were not enough to leave it. *)
Fixpoint run_loop (fuel : nat) (g_numProcs : Z) (q : Z) (s : Sim) : option Sim :=
  if loop_cond g_numProcs s then
    match fuel with
    | O => None
    | S fuel' => run_loop fuel' g_numProcs q (loop_body q s)
    end
  else Some s.

(** Insert initial arrival events for the processes [i, i+1, ...] of [ps]. *)
Fixpoint push_arrivals (g : list PCB) (ps : list PCB) (i : Z)
         (mh : EventMinHeap) (tr : list Obs) : EventMinHeap * list Obs :=
  match ps with
  | [] => (mh, tr)
  | pc :: ps' =>
    let '(mh', o) := eventHeap_push g mh (mkEvent (arrival_time pc) EVT_ARRIVE i) in
    push_arrivals g ps' (i + 1) mh' (tr ++ o)
  end.

(** The state on entry to the main loop. *)
Definition init_sim (g_numProcs : Z) (g : list PCB) : Sim :=
  let '(mh, tr) :=
    push_arrivals g g 0 (eventHeap_init (Z.to_nat (g_numProcs * 4))) [] in
  mkSim g mh (RQ_init (g_numProcs + 10)) 0 0 0 (-1) 0 0 tr.

(** After the loop: the latest finish time and the summed wait times. *)
Definition simulation_end (g : list PCB) : Z :=
  fold_left (fun acc pc => if acc <? finish_time pc then finish_time pc else acc) g 0.

Definition total_wait (g : list PCB) : Z :=
  fold_left (fun acc pc => acc + wait_time pc) g 0.

Inductive Outcome : Type :=
| NoProcesses                               (* "No processes or read error." *)
| OutOfFuel                                 (* the loop needs more turns *)
| Finished (tr : list Obs) (agg : Aggregates) (final : Sim).

Definition run_scheduler (fuel : nat) (input : list Z) (q : Z) : Outcome :=
  match read_input_file input with
  | None => NoProcesses
  | Some (g_numProcs, g) =>
    if g_numProcs <=? 0 then NoProcesses
    else
      match run_loop fuel g_numProcs q (init_sim g_numProcs g) with
      | None => OutOfFuel
      | Some s =>
        Finished (trace s)
                 (print_aggregate_metrics g_numProcs
                    (simulation_end (g_processes s))
                    (total_wait (g_processes s))
                    (cpu_idle_time s))
                 s
      end
  end.

(** The states at the head of the main loop in the run on [input] with
    quantum [q]. *)
Inductive reachable (input : list Z) (q : Z) : Sim -> Prop :=
| reach_init : forall n g,
    read_input_file input = Some (n, g) -> 0 < n ->
    reachable input q (init_sim n g)
| reach_step : forall n g s,
    read_input_file input = Some (n, g) ->
    reachable input q s -> loop_cond n s = true ->
    reachable input q (loop_body q s).



(* ================================================================== *)
(** * Verification *)

(* ------------------------------------------------------------------ *)
(** ** Narrowing to [int] *)

(** [x] lies in the range of an [int]. *)
Definition fits (x : Z) : Prop := INT_MIN <= x <= INT_MAX.

Lemma in_int_fits x : in_int x = true <-> fits x.
Proof.
  unfold in_int, fits. rewrite andb_true_iff, !Z.leb_le. reflexivity.
Qed.

(** Narrowing leaves the value of an [int] as it is. *)
Lemma to_int_fits x : fits x -> to_int x = x.
Proof.
  unfold fits, to_int, INT_MIN, INT_MAX. intros H.
  rewrite Z.mod_small by lia. lia.
Qed.

Lemma to_int_range x : fits (to_int x).
Proof.
  unfold fits, to_int, INT_MIN, INT_MAX.
  pose proof (Z.mod_pos_bound (x + 2147483648) 4294967296 ltac:(lia)). lia.
Qed.

(** Narrowing commutes with the sum: an [int] accumulator holds the
    exact sum narrowed once. *)
Lemma to_int_add_l a b : to_int (to_int a + b) = to_int (a + b).
Proof.
  unfold to_int. f_equal.
  replace ((a + 2147483648) mod 4294967296 - 2147483648 + b + 2147483648)
    with ((a + 2147483648) mod 4294967296 + b) by lia.
  rewrite Z.add_mod_idemp_l by lia. f_equal. lia.
Qed.

(** A time narrowed after [d] was added gives [d] back when the start is
    taken off, whatever wrapped in between. *)
Lemma to_int_sub_cancel a d : fits d -> to_int (to_int (a + d) - a) = d.
Proof.
  intros Hd. rewrite <- (to_int_fits d Hd) at 2.
  unfold to_int. f_equal.
  replace ((a + d + 2147483648) mod 4294967296 - 2147483648 - a + 2147483648)
    with ((a + d + 2147483648) mod 4294967296 - a) by lia.
  rewrite Zminus_mod_idemp_l. f_equal. lia.
Qed.

Lemma fits_0 : fits 0.
Proof. unfold fits, INT_MIN, INT_MAX. lia. Qed.

(* ------------------------------------------------------------------ *)
(** ** Arrays as lists *)

Section ArrayFacts.
Context {A : Type}.

Lemma upd_length (l : list A) i x : length (upd l i x) = length l.
Proof.
  revert i; induction l as [|h t IH]; intros [|i]; simpl; auto.
Qed.

Lemma nth_upd_eq (l : list A) i x d :
  (i < length l)%nat -> nth i (upd l i x) d = x.
Proof.
  revert i; induction l as [|h t IH]; intros [|i]; simpl; intros H;
    try lia; auto.
  apply IH; lia.
Qed.

Lemma nth_upd_neq (l : list A) i j x d :
  i <> j -> nth j (upd l i x) d = nth j l d.
Proof.
  revert i j; induction l as [|h t IH]; intros [|i] [|j]; simpl; intros H;
    try congruence; auto.
Qed.

Lemma nth_upd (l : list A) i j x d :
  (i < length l)%nat ->
  nth j (upd l i x) d = if Nat.eq_dec i j then x else nth j l d.
Proof.
  intros H. destruct (Nat.eq_dec i j) as [->|Hne].
  - apply nth_upd_eq; assumption.
  - apply nth_upd_neq; assumption.
Qed.

Lemma firstn_upd_lt (l : list A) n i x :
  (i < n)%nat -> firstn n (upd l i x) = upd (firstn n l) i x.
Proof.
  revert n i; induction l as [|h t IH]; intros [|n] [|i] H; simpl;
    try lia; auto.
  f_equal. apply IH. lia.
Qed.

Lemma firstn_upd_ge (l : list A) n i x :
  (n <= i)%nat -> firstn n (upd l i x) = firstn n l.
Proof.
  revert n i; induction l as [|h t IH]; intros [|n] [|i] H; simpl;
    try lia; auto.
  f_equal. apply IH. lia.
Qed.

Lemma nth_firstn_lt (l : list A) n i d :
  (i < n)%nat -> nth i (firstn n l) d = nth i l d.
Proof.
  revert n i; induction l as [|h t IH]; intros [|n] [|i] H; simpl;
    try lia; auto.
  apply IH. lia.
Qed.

Lemma firstn_snoc (l : list A) n d :
  (n < length l)%nat -> firstn (S n) l = firstn n l ++ [nth n l d].
Proof.
  revert n; induction l as [|h t IH]; intros [|n] H; simpl in *;
    try lia; auto.
  f_equal. apply IH. lia.
Qed.

Variable eq_dec : forall x y : A, {x = y} + {x <> y}.

(** Writing [x] over position [i] trades one occurrence of the old value
    for one of [x]. *)
Lemma count_occ_upd (l : list A) i x d y :
  (i < length l)%nat ->
  (count_occ eq_dec (upd l i x) y
   + (if eq_dec (nth i l d) y then 1 else 0)
   = count_occ eq_dec l y + (if eq_dec x y then 1 else 0))%nat.
Proof.
  revert i; induction l as [|h t IH]; intros [|i] H; simpl in *; try lia.
  - destruct (eq_dec h y), (eq_dec x y); lia.
  - specialize (IH i ltac:(lia)). destruct (eq_dec h y); lia.
Qed.

(** Exchanging two positions permutes the list. *)
Lemma exchange_perm (l : list A) i j d :
  (i < length l)%nat -> (j < length l)%nat ->
  Permutation (upd (upd l i (nth j l d)) j (nth i l d)) l.
Proof.
  intros Hi Hj. apply (Permutation_count_occ eq_dec). intros y.
  pose proof (count_occ_upd l i (nth j l d) d y Hi) as H1.
  pose proof (count_occ_upd (upd l i (nth j l d)) j (nth i l d) d y) as H2.
  rewrite upd_length in H2. specialize (H2 Hj).
  rewrite (nth_upd l i j _ d Hi) in H2.
  destruct (Nat.eq_dec i j) as [Heq|Hne]; [rewrite Heq in *|];
    destruct (eq_dec (nth j l d) y); destruct (eq_dec (nth i l d) y);
    try lia; subst; try congruence.
Qed.

End ArrayFacts.

(* ------------------------------------------------------------------ *)
(** ** The order on events *)

Lemma Event_eq_dec (a b : Event) : {a = b} + {a <> b}.
Proof.
  decide equality; [apply Z.eq_dec | decide equality | apply Z.eq_dec].
Defined.

(** The key the specification orders events by: time, then kind, then the
    external identifier of the process. *)
Definition event_key (g : list PCB) (e : Event) : Z * Z * Z :=
  (time e, type_code (type e), id (get_proc g (pid e))).

(** Lexicographic order on keys, strict and large. *)
Definition key_lt (k1 k2 : Z * Z * Z) : Prop :=
  let '(t1, c1, i1) := k1 in
  let '(t2, c2, i2) := k2 in
  t1 < t2 \/ (t1 = t2 /\ (c1 < c2 \/ (c1 = c2 /\ i1 < i2))).

Definition key_le (k1 k2 : Z * Z * Z) : Prop := key_lt k1 k2 \/ k1 = k2.

(** [a] is not after [b] in the queue order. *)
Definition ev_le (g : list PCB) (a b : Event) : Prop := compareEvents g a b <= 0.

Ltac cmp_cases :=
  unfold ev_le, compareEvents in *;
  repeat match goal with
         | |- context [?x <? ?y] => destruct (Z.ltb_spec x y)
         | |- context [?x >? ?y] => rewrite (Z.gtb_ltb x y)
         | H : context [?x <? ?y] |- _ => destruct (Z.ltb_spec x y)
         | H : context [?x >? ?y] |- _ => rewrite (Z.gtb_ltb x y) in H
         end.

Lemma compareEvents_range g a b :
  compareEvents g a b = -1 \/ compareEvents g a b = 0 \/ compareEvents g a b = 1.
Proof. cmp_cases; lia. Qed.

Lemma compareEvents_lt g a b :
  compareEvents g a b < 0 <-> key_lt (event_key g a) (event_key g b).
Proof. unfold key_lt, event_key. cmp_cases; lia. Qed.

Lemma compareEvents_eq g a b :
  compareEvents g a b = 0 <-> event_key g a = event_key g b.
Proof.
  unfold event_key. split.
  - intros H. cmp_cases; try lia. f_equal; [f_equal|]; lia.
  - intros H. injection H as H1 H2 H3. cmp_cases; lia.
Qed.

Lemma ev_le_key g a b : ev_le g a b <-> key_le (event_key g a) (event_key g b).
Proof.
  unfold key_le. rewrite <- compareEvents_lt, <- compareEvents_eq.
  unfold ev_le. lia.
Qed.

Lemma compareEvents_flip g a b : 0 <= compareEvents g a b -> ev_le g b a.
Proof. intros H. cmp_cases; lia. Qed.

Lemma ev_lt_le g a b : compareEvents g a b < 0 -> ev_le g a b.
Proof. unfold ev_le; lia. Qed.

Lemma ev_le_refl g a : ev_le g a a.
Proof. cmp_cases; lia. Qed.

Lemma ev_le_trans g a b c : ev_le g a b -> ev_le g b c -> ev_le g a c.
Proof. intros H1 H2. cmp_cases; lia. Qed.

Lemma ev_le_time g a b : ev_le g a b -> time a <= time b.
Proof. intros H. cmp_cases; lia. Qed.

(** The comparison reads nothing of the table but the identifiers. *)
Definition same_ids (g g' : list PCB) : Prop :=
  forall p, id (get_proc g p) = id (get_proc g' p).

Lemma compareEvents_same_ids g g' a b :
  same_ids g g' -> compareEvents g a b = compareEvents g' a b.
Proof.
  intros H. unfold compareEvents. rewrite (H (pid a)), (H (pid b)). reflexivity.
Qed.

(* ------------------------------------------------------------------ *)
(** ** The heap order on the array *)

Definition parent (i : nat) : nat := ((i - 1) / 2)%nat.

Lemma parent_lt i : (0 < i)%nat -> (parent i < i)%nat.
Proof.
  intros H. unfold parent.
  pose proof (Nat.div_mod_eq (i - 1) 2).
  pose proof (Nat.mod_upper_bound (i - 1) 2). lia.
Qed.

Lemma parent_children i k :
  (0 < i)%nat ->
  parent i = k <-> (i = 2 * k + 1 \/ i = 2 * k + 2)%nat.
Proof.
  intros H. unfold parent.
  pose proof (Nat.div_mod_eq (i - 1) 2).
  pose proof (Nat.mod_upper_bound (i - 1) 2).
  split; [lia|]. intros [-> | ->].
  - replace (2 * k + 1 - 1)%nat with (k * 2)%nat by lia.
    apply Nat.div_mul. lia.
  - replace (2 * k + 2 - 1)%nat with (1 + k * 2)%nat by lia.
    rewrite Nat.div_add by lia. reflexivity.
Qed.

Lemma swapEvents_length a i j : length (swapEvents a i j) = length a.
Proof. unfold swapEvents. rewrite !upd_length. reflexivity. Qed.

Lemma nth_swapEvents a i j k :
  (i < length a)%nat -> (j < length a)%nat ->
  nth k (swapEvents a i j) Event_zero =
  if Nat.eq_dec j k then nth i a Event_zero
  else if Nat.eq_dec i k then nth j a Event_zero
  else nth k a Event_zero.
Proof.
  intros Hi Hj. unfold swapEvents.
  rewrite nth_upd by (rewrite upd_length; assumption).
  destruct (Nat.eq_dec j k); [reflexivity|].
  apply nth_upd. assumption.
Qed.

Lemma firstn_swapEvents_perm a n i j :
  (i < n)%nat -> (j < n)%nat -> (n <= length a)%nat ->
  Permutation (firstn n (swapEvents a i j)) (firstn n a).
Proof.
  intros Hi Hj Hn. unfold swapEvents.
  rewrite !firstn_upd_lt by assumption.
  rewrite <- (nth_firstn_lt a n i) by assumption.
  rewrite <- (nth_firstn_lt a n j) by assumption.
  apply (exchange_perm Event_eq_dec); rewrite length_firstn; lia.
Qed.

Section HeapOrder.

Variable g : list PCB.
Variable n : nat.

Local Notation "a @ i" := (nth i a Event_zero) (at level 9, no associativity).
Local Notation "x <<= y" := (ev_le g x y) (at level 70).

(** Every live slot is not before its parent. *)
Definition heap_ok (a : list Event) : Prop :=
  forall i, (0 < i < n)%nat -> a@(parent i) <<= a@i.

Lemma heap_ok_root a i : heap_ok a -> (i < n)%nat -> a@0 <<= a@i.
Proof.
  intros Hok. induction i as [i IH] using lt_wf_ind. intros Hi.
  destruct (Nat.eq_dec i 0) as [->|Hne]; [apply ev_le_refl|].
  pose proof (parent_lt i ltac:(lia)) as Hp.
  eapply ev_le_trans; [apply (IH (parent i)); lia | apply Hok; lia].
Qed.

(** The heap order with a hole at [k] on the way up: [k] may be before
    its parent, and the children of [k] are not before its parent. *)
Definition up_inv (a : list Event) (k : nat) : Prop :=
  (forall i, (0 < i < n)%nat -> i <> k -> a@(parent i) <<= a@i) /\
  (forall i, (0 < i < n)%nat -> parent i = k -> (0 < k)%nat ->
             a@(parent k) <<= a@i).

Lemma up_inv_swap a k :
  (0 < k < n)%nat -> (n <= length a)%nat ->
  compareEvents g a@k a@(parent k) < 0 ->
  up_inv a k -> up_inv (swapEvents a k (parent k)) (parent k).
Proof.
  intros Hk Hlen Hlt [H1 H2].
  pose proof (parent_lt k ltac:(lia)) as Hpk.
  assert (Hsw : forall x, (swapEvents a k (parent k))@x =
                      if Nat.eq_dec (parent k) x then a@k
                      else if Nat.eq_dec k x then a@(parent k) else a@x)
    by (intros x; apply nth_swapEvents; lia).
  split.
  - intros i Hi Hne. pose proof (parent_lt i ltac:(lia)) as Hpi.
    rewrite !Hsw.
    destruct (Nat.eq_dec (parent k) i) as [E|_]; [congruence|].
    destruct (Nat.eq_dec k i) as [<-|Hki].
    + destruct (Nat.eq_dec (parent k) (parent k)); [|congruence].
      apply ev_lt_le. assumption.
    + destruct (Nat.eq_dec (parent k) (parent i)) as [E|E1].
      * eapply ev_le_trans; [apply ev_lt_le; eassumption|].
        rewrite E. apply H1; auto.
      * destruct (Nat.eq_dec k (parent i)) as [E|E2].
        -- apply H2; auto; lia.
        -- apply H1; auto.
  - intros i Hi Hpi Hp0.
    pose proof (parent_lt (parent k) Hp0) as Hpp.
    pose proof (parent_lt i ltac:(lia)) as Hpi'.
    rewrite !Hsw.
    destruct (Nat.eq_dec (parent k) (parent (parent k))); [lia|].
    destruct (Nat.eq_dec k (parent (parent k))); [lia|].
    destruct (Nat.eq_dec (parent k) i); [lia|].
    assert (Hpar : a@(parent (parent k)) <<= a@(parent k))
      by (apply H1; lia).
    destruct (Nat.eq_dec k i) as [<-|Hki]; [assumption|].
    eapply ev_le_trans; [exact Hpar|].
    rewrite <- Hpi. apply H1; auto.
Qed.

Lemma bubbleUp_loop_ok fuel : forall a k,
  (k <= fuel)%nat -> (k < n)%nat -> (n <= length a)%nat ->
  up_inv a k -> heap_ok (bubbleUp_loop g fuel a k).
Proof.
  induction fuel as [|fuel IH]; intros a k Hf Hk Hlen Hinv;
    cbn [bubbleUp_loop].
  - intros i Hi. apply (proj1 Hinv); lia.
  - destruct (Nat.ltb_spec 0 k) as [Hpos|Hz].
    + change ((k - 1) / 2)%nat with (parent k).
      destruct (Z.ltb_spec (compareEvents g a@k a@(parent k)) 0) as [Hlt|Hge].
      * pose proof (parent_lt k Hpos).
        apply IH; try lia.
        -- rewrite swapEvents_length; assumption.
        -- apply up_inv_swap; auto.
      * intros i Hi. destruct (Nat.eq_dec i k) as [->|Hne].
        -- apply compareEvents_flip. lia.
        -- apply (proj1 Hinv); auto.
    + intros i Hi. apply (proj1 Hinv); lia.
Qed.

Lemma bubbleUp_loop_length fuel : forall a k,
  length (bubbleUp_loop g fuel a k) = length a.
Proof.
  induction fuel as [|fuel IH]; intros a k; cbn [bubbleUp_loop]; auto.
  destruct (0 <? k)%nat; auto.
  destruct (compareEvents g _ _ <? 0); auto.
  rewrite IH. apply swapEvents_length.
Qed.

Lemma bubbleUp_loop_perm fuel : forall a k,
  (k < n)%nat -> (n <= length a)%nat ->
  Permutation (firstn n (bubbleUp_loop g fuel a k)) (firstn n a).
Proof.
  induction fuel as [|fuel IH]; intros a k Hk Hlen; cbn [bubbleUp_loop]; auto.
  destruct (Nat.ltb_spec 0 k) as [Hpos|Hz]; auto.
  destruct (compareEvents g _ _ <? 0); auto.
  pose proof (parent_lt k Hpos). change ((k - 1) / 2)%nat with (parent k).
  rewrite IH by (rewrite ?swapEvents_length; lia).
  apply firstn_swapEvents_perm; lia.
Qed.

(** The heap order with a hole at [k] on the way down: the children of
    [k] may be before it, but they are not before the parent of [k]. *)
Definition down_inv (a : list Event) (k : nat) : Prop :=
  (forall i, (0 < i < n)%nat -> parent i <> k -> a@(parent i) <<= a@i) /\
  (forall i, (0 < i < n)%nat -> parent i = k -> (0 < k)%nat ->
             a@(parent k) <<= a@i).

Lemma down_inv_swap a k s :
  (0 < s < n)%nat -> (n <= length a)%nat -> parent s = k ->
  a@s <<= a@k ->
  (forall i, (0 < i < n)%nat -> parent i = k -> a@s <<= a@i) ->
  down_inv a k -> down_inv (swapEvents a k s) s.
Proof.
  intros Hs Hlen Hps Hsk Hmin [H1 H2].
  pose proof (parent_lt s ltac:(lia)) as Hlt.
  assert (Hsw : forall x, (swapEvents a k s)@x =
                      if Nat.eq_dec s x then a@k
                      else if Nat.eq_dec k x then a@s else a@x)
    by (intros x; apply nth_swapEvents; lia).
  split.
  - intros i Hi Hne. pose proof (parent_lt i ltac:(lia)) as Hpi.
    rewrite !Hsw.
    destruct (Nat.eq_dec s (parent i)) as [E|_]; [congruence|].
    destruct (Nat.eq_dec s i) as [<-|Hsi].
    + destruct (Nat.eq_dec k (parent s)); [assumption|congruence].
    + destruct (Nat.eq_dec k i) as [<-|Hki].
      * pose proof (parent_lt k ltac:(lia)).
        destruct (Nat.eq_dec k (parent k)); [lia|].
        apply H2; auto; lia.
      * destruct (Nat.eq_dec k (parent i)) as [E|E].
        -- apply Hmin; auto.
        -- apply H1; auto.
  - intros i Hi Hpi Hs0. pose proof (parent_lt i ltac:(lia)) as Hpi'.
    rewrite !Hsw.
    destruct (Nat.eq_dec s (parent s)); [lia|].
    destruct (Nat.eq_dec k (parent s)); [|congruence].
    destruct (Nat.eq_dec s i); [lia|].
    destruct (Nat.eq_dec k i); [lia|].
    rewrite <- Hpi. apply H1; auto. lia.
Qed.

Lemma bubbleDown_loop_ok fuel : forall a k,
  (n <= fuel + k)%nat -> (n <= length a)%nat ->
  down_inv a k -> heap_ok (bubbleDown_loop g fuel a n k).
Proof.
  induction fuel as [|fuel IH]; intros a k Hf Hlen Hinv.
  - simpl. intros i Hi. pose proof (parent_lt i ltac:(lia)).
    apply (proj1 Hinv); lia.
  - cbn [bubbleDown_loop].
    set (l := (2 * k + 1)%nat). set (r := (2 * k + 2)%nat).
    assert (Hl : parent l = k) by (apply parent_children; lia).
    assert (Hr : parent r = k) by (apply parent_children; lia).
    assert (Hch : forall i, (0 < i)%nat -> parent i = k -> i = l \/ i = r)
      by (intros i Hi; apply parent_children; assumption).
    destruct (Nat.ltb_spec l n) as [Hln|Hln];
      [destruct (Z.ltb_spec (compareEvents g a@l a@k) 0) as [Hlk|Hlk]|];
      cbn [andb].
    + (* the left child is before [k] *)
      destruct (Nat.ltb_spec r n) as [Hrn|Hrn];
        [destruct (Z.ltb_spec (compareEvents g a@r a@l) 0) as [Hrl|Hrl]|];
        cbn [andb].
      * replace (r =? k)%nat with false by (symmetry; apply Nat.eqb_neq; lia).
        cbn [negb]. apply IH; try lia.
        -- rewrite swapEvents_length; assumption.
        -- apply down_inv_swap; auto; try lia.
           ++ eapply ev_le_trans; apply ev_lt_le; eassumption.
           ++ intros i Hi Hpi. destruct (Hch i ltac:(lia) Hpi) as [->| ->].
              ** apply ev_lt_le; assumption.
              ** apply ev_le_refl.
      * replace (l =? k)%nat with false by (symmetry; apply Nat.eqb_neq; lia).
        cbn [negb]. apply IH; try lia.
        -- rewrite swapEvents_length; assumption.
        -- apply down_inv_swap; auto; try lia.
           ++ apply ev_lt_le; assumption.
           ++ intros i Hi Hpi. destruct (Hch i ltac:(lia) Hpi) as [->| ->].
              ** apply ev_le_refl.
              ** apply compareEvents_flip. lia.
      * replace (l =? k)%nat with false by (symmetry; apply Nat.eqb_neq; lia).
        cbn [negb]. apply IH; try lia.
        -- rewrite swapEvents_length; assumption.
        -- apply down_inv_swap; auto; try lia.
           ++ apply ev_lt_le; assumption.
           ++ intros i Hi Hpi. destruct (Hch i ltac:(lia) Hpi) as [->| ->].
              ** apply ev_le_refl.
              ** lia.
    + (* the left child is not before [k] *)
      destruct (Nat.ltb_spec r n) as [Hrn|Hrn];
        [destruct (Z.ltb_spec (compareEvents g a@r a@k) 0) as [Hrk|Hrk]|];
        cbn [andb].
      * replace (r =? k)%nat with false by (symmetry; apply Nat.eqb_neq; lia).
        cbn [negb]. apply IH; try lia.
        -- rewrite swapEvents_length; assumption.
        -- apply down_inv_swap; auto; try lia.
           ++ apply ev_lt_le; assumption.
           ++ intros i Hi Hpi. destruct (Hch i ltac:(lia) Hpi) as [->| ->].
              ** eapply ev_le_trans; [apply ev_lt_le; eassumption|].
                 apply compareEvents_flip. lia.
              ** apply ev_le_refl.
      * rewrite Nat.eqb_refl. cbn [negb].
        intros i Hi. destruct (Nat.eq_dec (parent i) k) as [E|E].
        -- rewrite E.
           destruct (Hch i ltac:(lia) E) as [->| ->];
             apply compareEvents_flip; lia.
        -- apply (proj1 Hinv); auto.
      * rewrite Nat.eqb_refl. cbn [negb].
        intros i Hi. destruct (Nat.eq_dec (parent i) k) as [E|E].
        -- rewrite E.
           destruct (Hch i ltac:(lia) E) as [->| ->];
             [apply compareEvents_flip; lia | lia].
        -- apply (proj1 Hinv); auto.
    + (* no child *)
      replace (r <? n)%nat with false by (symmetry; apply Nat.ltb_ge; lia).
      cbn [andb]. rewrite Nat.eqb_refl. cbn [negb].
      intros i Hi. destruct (Nat.eq_dec (parent i) k) as [E|E].
      * destruct (Hch i ltac:(lia) E); lia.
      * apply (proj1 Hinv); auto.
Qed.

Lemma bubbleDown_loop_length fuel : forall a k,
  length (bubbleDown_loop g fuel a n k) = length a.
Proof.
  induction fuel as [|fuel IH]; intros a k; cbn [bubbleDown_loop]; auto.
  destruct (negb _); auto.
  rewrite IH. apply swapEvents_length.
Qed.

Lemma bubbleDown_loop_perm fuel : forall a k,
  (n <= length a)%nat ->
  Permutation (firstn n (bubbleDown_loop g fuel a n k)) (firstn n a).
Proof.
  induction fuel as [|fuel IH]; intros a k Hlen; cbn [bubbleDown_loop]; auto.
  set (l := (2 * k + 1)%nat). set (r := (2 * k + 2)%nat).
  set (s1 := if (l <? n)%nat && _ then l else k).
  set (s2 := if (r <? n)%nat && _ then r else s1).
  assert (Hs1 : s1 = k \/ (s1 = l /\ (l < n)%nat)).
  { unfold s1. destruct (Nat.ltb_spec l n); cbn [andb]; auto.
    destruct (compareEvents g _ _ <? 0); auto. }
  assert (Hs2 : s2 = k \/ ((k < s2)%nat /\ (s2 < n)%nat)).
  { unfold s2. clearbody s1. destruct (Nat.ltb_spec r n); cbn [andb].
    - destruct (compareEvents g _ _ <? 0); [right; unfold r in *; lia|].
      destruct Hs1 as [->|[-> ?]]; auto. right; unfold l in *; lia.
    - destruct Hs1 as [->|[-> ?]]; auto. right; unfold l in *; lia. }
  destruct (Nat.eqb_spec s2 k) as [E|E]; cbn [negb]; auto.
  destruct Hs2 as [?|[? ?]]; [congruence|].
  rewrite IH by (rewrite swapEvents_length; assumption).
  apply firstn_swapEvents_perm; lia.
Qed.

End HeapOrder.

(* ------------------------------------------------------------------ *)
(** ** Push and pop *)

(** The events the heap holds: the live prefix of its array. *)
Definition contents (mh : EventMinHeap) : list Event :=
  firstn (size mh) (heapArray mh).

(** A well-formed heap: the array has [capacity] slots, [size] of them
    live and in heap order. *)
Definition heap_wf (g : list PCB) (mh : EventMinHeap) : Prop :=
  length (heapArray mh) = capacity mh /\
  (size mh <= capacity mh)%nat /\
  heap_ok g (size mh) (heapArray mh).

Lemma heap_ok_same_ids g g' n a :
  same_ids g g' -> heap_ok g n a -> heap_ok g' n a.
Proof.
  intros Hid Hok i Hi. unfold ev_le.
  rewrite <- (compareEvents_same_ids g g') by assumption. apply Hok; assumption.
Qed.

Lemma heap_wf_same_ids g g' mh :
  same_ids g g' -> heap_wf g mh -> heap_wf g' mh.
Proof.
  intros Hid (H1 & H2 & H3). repeat split; auto.
  eapply heap_ok_same_ids; eassumption.
Qed.

Lemma contents_length mh :
  (size mh <= length (heapArray mh))%nat -> length (contents mh) = size mh.
Proof. intros H. unfold contents. rewrite length_firstn. lia. Qed.

Lemma eventHeap_init_wf g cap : heap_wf g (eventHeap_init cap).
Proof.
  unfold heap_wf, eventHeap_init; simpl. rewrite repeat_length.
  repeat split; try lia. intros i Hi; lia.
Qed.

Lemma eventHeap_push_full g mh ev :
  (capacity mh <= size mh)%nat ->
  eventHeap_push g mh ev = (mh, [ObsHeapOverflow]).
Proof.
  intros H. unfold eventHeap_push.
  destruct (Nat.leb_spec (capacity mh) (size mh)); [reflexivity | lia].
Qed.

Lemma eventHeap_push_spec g mh ev :
  heap_wf g mh -> (size mh < capacity mh)%nat ->
  exists mh',
    eventHeap_push g mh ev = (mh', [ObsPush ev]) /\
    heap_wf g mh' /\
    capacity mh' = capacity mh /\
    size mh' = S (size mh) /\
    Permutation (contents mh') (ev :: contents mh).
Proof.
  intros (Hlen & Hsz & Hok) Hroom. unfold eventHeap_push.
  destruct (Nat.leb_spec (capacity mh) (size mh)); [lia|].
  eexists; split; [reflexivity|]. cbn [heapArray capacity size bubbleUp].
  set (n := size mh) in *. set (a := heapArray mh) in *.
  assert (Hup : up_inv g (S n) (upd a n ev) n).
  { split.
    - intros i Hi Hne. pose proof (parent_lt i ltac:(lia)).
      rewrite !nth_upd_neq by lia. apply Hok. lia.
    - intros i Hi Hp. pose proof (parent_lt i ltac:(lia)). lia. }
  unfold heap_wf, contents; cbn [heapArray capacity size].
  rewrite bubbleUp_loop_length, upd_length.
  repeat split; auto; try lia.
  - apply bubbleUp_loop_ok; auto; rewrite ?upd_length; lia.
  - rewrite (bubbleUp_loop_perm g (S n)) by (rewrite ?upd_length; lia).
    rewrite (firstn_snoc _ n Event_zero) by (rewrite upd_length; lia).
    rewrite firstn_upd_ge by lia. rewrite nth_upd_eq by lia.
    symmetry. apply Permutation_cons_append.
Qed.

Lemma eventHeap_pop_empty g mh :
  size mh = O ->
  eventHeap_pop g mh = (mkEvent INT_MAX EVT_ARRIVE (-1), mh).
Proof. intros H. unfold eventHeap_pop. rewrite H. reflexivity. Qed.

Lemma eventHeap_pop_spec g mh :
  heap_wf g mh -> (0 < size mh)%nat ->
  exists e mh',
    eventHeap_pop g mh = (e, mh') /\
    heap_wf g mh' /\
    capacity mh' = capacity mh /\
    size mh' = (size mh - 1)%nat /\
    Permutation (contents mh) (e :: contents mh') /\
    (forall x, In x (contents mh) -> ev_le g e x).
Proof.
  intros (Hlen & Hsz & Hok) Hpos. unfold eventHeap_pop.
  destruct (Nat.eqb_spec (size mh) 0) as [|_]; [lia|].
  cbn [heapArray capacity size].
  set (n := size mh) in *. set (a := heapArray mh) in *.
  assert (Hmin : forall x, In x (contents mh) -> ev_le g (nth 0 a Event_zero) x).
  { intros x Hx. apply (In_nth _ _ Event_zero) in Hx.
    destruct Hx as (i & Hi & <-). unfold contents in *. fold n a in Hi |- *.
    rewrite length_firstn in Hi. rewrite nth_firstn_lt by lia.
    apply (heap_ok_root g n); auto. lia. }
  assert (Hsplit : contents mh =
                   firstn (n - 1) a ++ [nth (n - 1) a Event_zero]).
  { unfold contents. fold n a. replace n with (S (n - 1)) at 1 by lia.
    apply firstn_snoc. lia. }
  destruct (Nat.ltb_spec 0 (n - 1)) as [Hmore|Hone].
  - do 2 eexists; split; [reflexivity|].
    unfold heap_wf, contents, bubbleDown; cbn [heapArray capacity size].
    rewrite bubbleDown_loop_length, upd_length.
    repeat split; auto; try lia.
    + apply bubbleDown_loop_ok; rewrite ?upd_length; try lia.
      split.
      * intros i Hi Hp. rewrite !nth_upd_neq by lia. apply Hok. lia.
      * intros; lia.
    + fold (contents mh). rewrite Hsplit.
      rewrite (bubbleDown_loop_perm g (n - 1)) by (rewrite upd_length; lia).
      rewrite firstn_upd_lt by lia.
      assert (Hnth : nth 0 a Event_zero = nth 0 (firstn (n - 1) a) Event_zero)
        by (rewrite nth_firstn_lt by lia; reflexivity).
      rewrite Hnth.
      destruct (firstn (n - 1) a) as [|h t] eqn:E.
      * apply (f_equal (@length _)) in E. rewrite length_firstn in E.
        simpl in E. lia.
      * simpl. constructor. symmetry. apply Permutation_cons_append.
  - do 2 eexists; split; [reflexivity|].
    unfold heap_wf, contents at 2; cbn [heapArray capacity size].
    repeat split; auto; try lia.
    + intros i Hi; lia.
    + rewrite Hsplit. replace (n - 1)%nat with O by lia. reflexivity.
Qed.

(* ------------------------------------------------------------------ *)
(** ** The ready queue as a list *)

(** The waiting processes, head first: [count] slots of the circular
    buffer starting at [front]. *)
Definition rq_list (q : ReadyQueue) : list Z :=
  map (fun k => nth (Z.to_nat ((front q + Z.of_nat k) mod rq_capacity q)) (data q) 0)
      (seq 0 (Z.to_nat (count q))).

Definition rq_wf (q : ReadyQueue) : Prop :=
  0 < rq_capacity q /\
  length (data q) = Z.to_nat (rq_capacity q) /\
  0 <= front q < rq_capacity q /\
  0 <= count q <= rq_capacity q /\
  -1 <= rear q < rq_capacity q /\
  (rear q + 1) mod rq_capacity q = (front q + count q) mod rq_capacity q.

Lemma rq_list_length q : length (rq_list q) = Z.to_nat (count q).
Proof. unfold rq_list. rewrite length_map, length_seq. reflexivity. Qed.

Lemma RQ_init_wf cap : 0 < cap -> rq_wf (RQ_init cap).
Proof.
  intros H. unfold rq_wf, RQ_init; simpl. rewrite repeat_length.
  repeat split; try lia.
Qed.

Lemma RQ_init_list cap : rq_list (RQ_init cap) = [].
Proof. reflexivity. Qed.

Lemma mod_shift_inj a d c :
  0 < c -> 0 <= d < c -> (a + d) mod c = a mod c -> d = 0.
Proof.
  intros Hc Hd H.
  assert (E : d mod c = 0).
  { replace d with ((a + d) - a) by lia.
    rewrite Zminus_mod, H, Z.sub_diag. apply Z.mod_0_l. lia. }
  rewrite Z.mod_small in E; lia.
Qed.

Lemma RQ_enqueue_full g q p t :
  count q = rq_capacity q -> RQ_enqueue g q p t = (g, q, [ObsReadyOverflow]).
Proof. intros H. unfold RQ_enqueue. rewrite H, Z.eqb_refl. reflexivity. Qed.

Lemma RQ_enqueue_spec g q p t :
  rq_wf q -> count q < rq_capacity q ->
  exists q',
    RQ_enqueue g q p t =
      (upd_proc g p (fun pc => set_last_ready_time pc t), q', []) /\
    rq_wf q' /\ rq_capacity q' = rq_capacity q /\
    count q' = count q + 1 /\
    rq_list q' = rq_list q ++ [p].
Proof.
  intros (Hcap & Hlen & Hfr & Hcnt & Hre & Hmod) Hroom. unfold RQ_enqueue.
  destruct (Z.eqb_spec (count q) (rq_capacity q)) as [|_]; [lia|].
  eexists; split; [reflexivity|].
  assert (Hrem : Z.rem (rear q + 1) (rq_capacity q)
                 = (front q + count q) mod rq_capacity q)
    by (rewrite Z.rem_mod_nonneg by lia; assumption).
  rewrite Hrem.
  pose proof (Z.mod_pos_bound (front q + count q) (rq_capacity q) Hcap) as Hw.
  unfold rq_wf, rq_list; cbn [data rq_capacity front rear count].
  rewrite upd_length.
  repeat split; try lia.
  - rewrite Z.add_mod_idemp_l by lia. f_equal. lia.
  - replace (Z.to_nat (count q + 1)) with (S (Z.to_nat (count q))) by lia.
    rewrite seq_S, map_app. cbn [map Nat.add]. f_equal.
    + apply map_ext_in. intros k Hk. apply in_seq in Hk.
      apply nth_upd_neq. intros E. apply Z2Nat.inj in E;
        try (apply Z.mod_pos_bound; lia).
      assert (count q - Z.of_nat k = 0); [|lia].
      apply (mod_shift_inj (front q + Z.of_nat k) _ (rq_capacity q));
        try lia.
      rewrite <- E. f_equal. lia.
    + rewrite Z2Nat.id by lia. f_equal. apply nth_upd_eq. lia.
Qed.

Lemma RQ_dequeue_spec q :
  rq_wf q -> 0 < count q ->
  exists p q',
    RQ_dequeue q = (p, q') /\
    rq_wf q' /\ rq_capacity q' = rq_capacity q /\
    count q' = count q - 1 /\
    rq_list q = p :: rq_list q'.
Proof.
  intros (Hcap & Hlen & Hfr & Hcnt & Hre & Hmod) Hpos.
  unfold RQ_dequeue, RQ_isEmpty.
  destruct (Z.eqb_spec (count q) 0) as [|_]; [lia|].
  do 2 eexists; split; [reflexivity|].
  rewrite Z.rem_mod_nonneg by lia.
  pose proof (Z.mod_pos_bound (front q + 1) (rq_capacity q) Hcap) as Hw.
  unfold rq_wf, rq_list; cbn [data rq_capacity front rear count].
  repeat split; try lia.
  - rewrite Hmod, Z.add_mod_idemp_l by lia. f_equal. lia.
  - replace (Z.to_nat (count q)) with (S (Z.to_nat (count q - 1))) by lia.
    cbn [seq map]. f_equal.
    + rewrite Z.add_0_r, Z.mod_small by lia. reflexivity.
    + rewrite <- seq_shift, map_map. apply map_ext. intros k.
      rewrite Z.add_mod_idemp_l by lia. do 3 f_equal. lia.
Qed.

(* ------------------------------------------------------------------ *)
(** ** The process table *)

Lemma upd_proc_length g p f : length (upd_proc g p f) = length g.
Proof. apply upd_length. Qed.

Lemma get_upd_proc_same g p f :
  0 <= p < Z.of_nat (length g) -> get_proc (upd_proc g p f) p = f (get_proc g p).
Proof. intros H. unfold get_proc, upd_proc. apply nth_upd_eq. lia. Qed.

Lemma get_upd_proc_other g p p' f :
  0 <= p -> 0 <= p' -> p <> p' -> get_proc (upd_proc g p f) p' = get_proc g p'.
Proof. intros H H' Hne. unfold get_proc, upd_proc. apply nth_upd_neq. lia. Qed.

Lemma Forall_upd {A} (P : A -> Prop) (l : list A) i x :
  Forall P l -> P x -> Forall P (upd l i x).
Proof.
  intros H Hx. revert i. induction H as [|h t Hh Ht IH]; intros [|i]; simpl;
    constructor; auto.
Qed.

(** A property of all entries survives an update that maintains it on
    every entry having it. *)
Lemma Forall_upd_proc (P : PCB -> Prop) g p f :
  Forall P g -> (forall pc, P pc -> P (f pc)) -> Forall P (upd_proc g p f).
Proof.
  intros H Hf. unfold upd_proc, get_proc.
  destruct (Nat.lt_ge_cases (Z.to_nat p) (length g)) as [Hin|Hout].
  - apply Forall_upd; auto. apply Hf.
    rewrite Forall_forall in H. apply H. apply nth_In. assumption.
  - rewrite nth_overflow by assumption.
    clear Hf. revert Hout. generalize (Z.to_nat p) as i.
    induction H as [|h t Hh Ht IH]; intros [|i] Hi; simpl in *;
      try constructor; auto; try lia.
    apply IH. lia.
Qed.

(** The part of a PCB that the reader fills in and the run leaves alone. *)
Definition static (pc : PCB) : Z * Z * Z * list Z * list Z * Z :=
  (id pc, arrival_time pc, num_bursts pc, cpu_bursts pc, io_bursts pc,
   total_cpu_io pc).

Definition frozen (g0 g : list PCB) : Prop := map static g = map static g0.

Lemma map_upd {A B} (f : A -> B) (l : list A) i x :
  map f (upd l i x) = upd (map f l) i (f x).
Proof.
  revert i; induction l as [|h t IH]; intros [|i]; simpl; auto.
  f_equal. apply IH.
Qed.

Lemma upd_nth_same {A} (l : list A) i d x :
  ((i < length l)%nat -> x = nth i l d) -> upd l i x = l.
Proof.
  revert i; induction l as [|h t IH]; intros [|i] H; simpl in *; auto.
  - f_equal. apply H. lia.
  - f_equal. apply IH. intros Hi. apply H. lia.
Qed.

Lemma map_static_upd_proc g p f :
  (forall pc, static (f pc) = static pc) ->
  map static (upd_proc g p f) = map static g.
Proof.
  intros Hf. unfold upd_proc, get_proc. rewrite map_upd.
  apply (upd_nth_same _ _ (static PCB_zero)). intros Hi.
  rewrite Hf. symmetry. apply (map_nth static).
Qed.

Lemma frozen_refl g : frozen g g.
Proof. reflexivity. Qed.

Lemma frozen_upd_proc g0 g p f :
  frozen g0 g -> (forall pc, static (f pc) = static pc) ->
  frozen g0 (upd_proc g p f).
Proof. unfold frozen. intros H Hf. rewrite map_static_upd_proc; assumption. Qed.

Lemma frozen_static g0 g p :
  frozen g0 g -> static (get_proc g p) = static (get_proc g0 p).
Proof.
  intros H. unfold get_proc.
  rewrite <- !(map_nth static). rewrite H. reflexivity.
Qed.

Lemma frozen_length g0 g : frozen g0 g -> length g = length g0.
Proof.
  intros H. apply (f_equal (@length _)) in H. rewrite !length_map in H.
  assumption.
Qed.

Lemma frozen_same_ids g0 g : frozen g0 g -> same_ids g0 g.
Proof.
  intros H p. pose proof (frozen_static g0 g p H) as E.
  unfold static in E. congruence.
Qed.

Lemma same_ids_sym g g' : same_ids g g' -> same_ids g' g.
Proof. intros H p. symmetry. apply H. Qed.

Lemma same_ids_trans g1 g2 g3 : same_ids g1 g2 -> same_ids g2 g3 -> same_ids g1 g3.
Proof. intros H1 H2 p. rewrite H1. apply H2. Qed.

(** Normal forms of the table updates. *)
Lemma upd_upd {A} (l : list A) i x y : upd (upd l i x) i y = upd l i y.
Proof.
  revert i; induction l as [|h t IH]; intros [|i]; simpl; auto.
  f_equal. apply IH.
Qed.

Lemma upd_proc_out g p f :
  (length g <= Z.to_nat p)%nat -> upd_proc g p f = g.
Proof.
  intros H. unfold upd_proc. apply (upd_nth_same _ _ PCB_zero). intros; lia.
Qed.

Lemma get_upd_proc_in g p f :
  (Z.to_nat p < length g)%nat -> get_proc (upd_proc g p f) p = f (get_proc g p).
Proof. intros H. unfold get_proc, upd_proc. apply nth_upd_eq. assumption. Qed.

Lemma upd_proc_twice g p f1 f2 :
  upd_proc (upd_proc g p f1) p f2 = upd_proc g p (fun pc => f2 (f1 pc)).
Proof.
  destruct (Nat.lt_ge_cases (Z.to_nat p) (length g)) as [Hin|Hout].
  - unfold upd_proc at 1. rewrite get_upd_proc_in by assumption.
    unfold upd_proc. apply upd_upd.
  - rewrite !upd_proc_out by (rewrite ?upd_proc_length; assumption).
    reflexivity.
Qed.

Lemma Forall_upd_proc_at (P : PCB -> Prop) g p f :
  Forall P g ->
  ((Z.to_nat p < length g)%nat -> P (f (get_proc g p))) ->
  Forall P (upd_proc g p f).
Proof.
  intros H Hf.
  destruct (Nat.lt_ge_cases (Z.to_nat p) (length g)) as [Hin|Hout].
  - apply Forall_upd; auto.
  - rewrite upd_proc_out; assumption.
Qed.

Lemma get_proc_In g p :
  (Z.to_nat p < length g)%nat -> In (get_proc g p) g.
Proof. intros H. apply nth_In. assumption. Qed.

Lemma get_proc_out g p :
  (length g <= Z.to_nat p)%nat -> get_proc g p = PCB_zero.
Proof. intros H. apply nth_overflow. assumption. Qed.

(** A property of every entry that the zeroed PCB has too holds of
    whatever [g_processes[p]] reads. *)
Lemma get_proc_Forall (P : PCB -> Prop) g p :
  Forall P g -> P PCB_zero -> P (get_proc g p).
Proof.
  intros H H0.
  destruct (Nat.lt_ge_cases (Z.to_nat p) (length g)) as [Hin|Hout].
  - rewrite Forall_forall in H. apply H, get_proc_In, Hin.
  - rewrite get_proc_out; assumption.
Qed.


(* ------------------------------------------------------------------ *)
(** ** The steps of the main loop *)

(** The state after [Event evt = eventHeap_pop(&eventQ); current_time =
    evt.time]. *)
Definition pop_state (s : Sim) (e : Event) (mh : EventMinHeap) : Sim :=
  mkSim (g_processes s) mh (readyQ s) (time e) (cpu_idle_time s)
        (cpu_busy_until s) (running_pid s) (running_end_time s)
        (finished_count s) (trace s ++ [ObsPop e]).

(** The state after [RQ_enqueue(&readyQ, p, current_time)]. *)
Definition enqueue_state (s : Sim) (p : Z) : Sim :=
  let '(g, rq, o) :=
    RQ_enqueue (g_processes s) (readyQ s) p (to_int (current_time s)) in
  mkSim g (eventQ s) rq (current_time s) (cpu_idle_time s)
        (cpu_busy_until s) (running_pid s) (running_end_time s)
        (finished_count s) (trace s ++ o).

Lemma loop_body_eq q s e mh :
  eventHeap_pop (g_processes s) (eventQ s) = (e, mh) ->
  loop_body q s = handle_event q (pop_state s e mh) e.
Proof. intros H. unfold loop_body. rewrite H. reflexivity. Qed.

Lemma handle_event_arrive q s e :
  type e = EVT_ARRIVE ->
  handle_event q s e =
  if running_pid (enqueue_state s (pid e)) <? 0
  then schedule_next (enqueue_state s (pid e)) q
  else enqueue_state s (pid e).
Proof.
  intros H. unfold handle_event, enqueue_state. rewrite H.
  destruct (RQ_enqueue _ _ _ _) as [[g rq] o]. reflexivity.
Qed.

Lemma handle_event_complete q s e :
  type e = EVT_CPU_COMPLETE ->
  handle_event q s e =
  schedule_next (burst_done (release_cpu s (pid e)) (pid e)) q.
Proof. intros H. unfold handle_event. rewrite H. reflexivity. Qed.

Lemma handle_event_timeout q s e :
  type e = EVT_CPU_TIMEOUT ->
  handle_event q s e =
  schedule_next
    (if 0 <? remaining_cpu (get_proc (g_processes (release_cpu s (pid e))) (pid e))
     then enqueue_state (release_cpu s (pid e)) (pid e)
     else burst_done (release_cpu s (pid e)) (pid e)) q.
Proof.
  intros H. unfold handle_event, enqueue_state. rewrite H.
  destruct (0 <? _); [|reflexivity].
  destruct (RQ_enqueue _ _ _ _) as [[g rq] o]. reflexivity.
Qed.

(** The table after the dispatcher has charged the wait and stamped the
    start of the slice. *)
Definition dispatch_table (g : list PCB) (p now : Z) : list PCB :=
  upd_proc
    (upd_proc g p
       (fun pc => set_wait_time pc
                    (to_int (wait_time pc
                             + (now - last_ready_time (get_proc g p))))))
    p (fun pc => set_start_run_time pc (to_int now)).

(** The slice and the event the dispatcher computes for a process with
    [rem] left of its burst. *)
Definition dispatch_slice (rem q : Z) : Z := if q <? rem then q else rem.

Definition dispatch_event (rem q now p : Z) : Event :=
  mkEvent (to_int (now + dispatch_slice rem q))
          (if dispatch_slice rem q =? rem then EVT_CPU_COMPLETE else EVT_CPU_TIMEOUT)
          p.

Lemma get_upd_proc_field {B} (proj : PCB -> B) g p f :
  (forall pc, proj (f pc) = proj pc) ->
  proj (get_proc (upd_proc g p f) p) = proj (get_proc g p).
Proof.
  intros Hf. unfold get_proc, upd_proc.
  destruct (Nat.lt_ge_cases (Z.to_nat p) (length g)) as [Hin|Hout].
  - rewrite nth_upd_eq by assumption. apply Hf.
  - rewrite (upd_nth_same _ _ PCB_zero); [reflexivity|]. intros; lia.
Qed.

Lemma dispatch_table_remaining g p now :
  remaining_cpu (get_proc (dispatch_table g p now) p) = remaining_cpu (get_proc g p).
Proof.
  unfold dispatch_table.
  rewrite (get_upd_proc_field remaining_cpu) by reflexivity.
  rewrite (get_upd_proc_field remaining_cpu) by reflexivity. reflexivity.
Qed.

Lemma schedule_next_busy s q : 0 <= running_pid s -> schedule_next s q = s.
Proof.
  intros H. unfold schedule_next.
  destruct (Z.leb_spec 0 (running_pid s)); [reflexivity | lia].
Qed.

Lemma schedule_next_idle s q : count (readyQ s) = 0 -> schedule_next s q = s.
Proof.
  intros H. unfold schedule_next, RQ_isEmpty. rewrite H.
  destruct (0 <=? running_pid s); reflexivity.
Qed.

(** The dispatcher at work, in one equation. *)
Lemma schedule_next_dispatch s q p rq mh o :
  running_pid s < 0 -> count (readyQ s) <> 0 ->
  RQ_dequeue (readyQ s) = (p, rq) ->
  let now := current_time s in
  let g := dispatch_table (g_processes s) p now in
  let rem := remaining_cpu (get_proc (g_processes s) p) in
  eventHeap_push g (eventQ s) (dispatch_event rem q now p) = (mh, o) ->
  schedule_next s q =
  mkSim g mh rq now
        (if cpu_busy_until s <? now
         then cpu_idle_time s + (now - cpu_busy_until s) else cpu_idle_time s)
        (now + dispatch_slice rem q) p (now + dispatch_slice rem q)
        (finished_count s)
        (trace s ++ ObsDispatch p now
                      (now - last_ready_time (get_proc (g_processes s) p))
                      (dispatch_slice rem q) :: o).
Proof.
  intros Hrun Hcnt Hdq now g rem Hpush. unfold schedule_next, RQ_isEmpty.
  destruct (Z.leb_spec 0 (running_pid s)); [lia|].
  destruct (Z.eqb_spec (count (readyQ s)) 0); [contradiction|]. cbn [negb].
  rewrite Hdq. fold now. fold (dispatch_table (g_processes s) p now).
  rewrite !dispatch_table_remaining. fold g rem.
  fold (dispatch_slice rem q). fold (dispatch_event rem q now p).
  rewrite Hpush. reflexivity.
Qed.


(* ------------------------------------------------------------------ *)
(** ** The structural invariant of the run *)

(** The internal pids that have something pending: an event in the heap
    or a place in the ready queue. *)
Definition pending (s : Sim) : list Z :=
  map pid (contents (eventQ s)) ++ rq_list (readyQ s).

(** What the trace of a run may hold: no overflow message, and no popped
    event but those of the processes [0 .. n-1]. *)
Definition obs_ok (n : Z) (o : Obs) : Prop :=
  match o with
  | ObsHeapOverflow | ObsReadyOverflow => False
  | ObsPop e => 0 <= pid e < n
  | _ => True
  end.

Definition quiet (n : Z) (tr : list Obs) : Prop := Forall (obs_ok n) tr.

(** [l] lists the unfinished processes, each once. *)
Definition tokens (n fin : Z) (l : list Z) : Prop :=
  NoDup l /\ Forall (fun p => 0 <= p < n) l /\
  0 <= fin /\ fin + Z.of_nat (length l) = n.

Lemma tokens_perm n fin l l' :
  Permutation l l' -> tokens n fin l -> tokens n fin l'.
Proof.
  intros HP (H1 & H2 & H3 & H4). repeat split; auto.
  - eapply Permutation_NoDup; eassumption.
  - eapply Permutation_Forall; eassumption.
  - rewrite <- (Permutation_length HP). assumption.
Qed.

(** The invariant, with the pids [hand] that the handler has taken out of
    the heap and not yet put back anywhere. *)
Record sim_inv (n : Z) (g0 : list PCB) (hand : list Z) (s : Sim) : Prop :=
  mk_sim_inv {
    inv_pos : 0 < n;
    inv_len : length g0 = Z.to_nat n;
    inv_frozen : frozen g0 (g_processes s);
    inv_heap : heap_wf (g_processes s) (eventQ s);
    inv_cap : capacity (eventQ s) = Z.to_nat (n * 4);
    inv_rq : rq_wf (readyQ s);
    inv_rqcap : rq_capacity (readyQ s) = n + 10;
    inv_tokens : tokens n (finished_count s) (hand ++ pending s);
    inv_quiet : quiet n (trace s)
  }.

Lemma frozen_heap_wf g0 g g' mh :
  frozen g0 g -> frozen g0 g' -> heap_wf g mh -> heap_wf g' mh.
Proof.
  intros H H'. apply heap_wf_same_ids.
  eapply same_ids_trans; [apply same_ids_sym|]; apply frozen_same_ids; eassumption.
Qed.

Lemma sim_inv_bound n g0 hand s :
  sim_inv n g0 hand s ->
  (length hand + size (eventQ s) + Z.to_nat (count (readyQ s)) <= Z.to_nat n)%nat.
Proof.
  intros H. destruct (inv_tokens _ _ _ _ H) as (_ & _ & Hf & Hc).
  destruct (inv_heap _ _ _ _ H) as (Hl & Hs & _).
  unfold pending in Hc. rewrite !length_app, length_map in Hc.
  rewrite contents_length, rq_list_length in Hc by lia. lia.
Qed.

Lemma sim_inv_heap_room n g0 hand s :
  sim_inv n g0 hand s -> (size (eventQ s) < capacity (eventQ s))%nat.
Proof.
  intros H. pose proof (sim_inv_bound _ _ _ _ H).
  rewrite (inv_cap _ _ _ _ H). pose proof (inv_pos _ _ _ _ H). lia.
Qed.

Lemma sim_inv_rq_room n g0 hand s :
  sim_inv n g0 hand s -> count (readyQ s) < rq_capacity (readyQ s).
Proof.
  intros H. pose proof (sim_inv_bound _ _ _ _ H).
  rewrite (inv_rqcap _ _ _ _ H). pose proof (inv_pos _ _ _ _ H).
  destruct (inv_rq _ _ _ _ H) as (_ & _ & _ & ? & _). lia.
Qed.

Lemma quiet_app n tr o : quiet n tr -> quiet n o -> quiet n (tr ++ o).
Proof. intros. apply Forall_app; split; assumption. Qed.

Lemma pop_state_inv n g0 s e mh :
  sim_inv n g0 [] s -> (0 < size (eventQ s))%nat ->
  eventHeap_pop (g_processes s) (eventQ s) = (e, mh) ->
  sim_inv n g0 [pid e] (pop_state s e mh).
Proof.
  intros H Hpos Hpop.
  destruct (eventHeap_pop_spec _ _ (inv_heap _ _ _ _ H) Hpos)
    as (e' & mh' & E & Hwf & Hcap & Hsz & Hperm & _).
  rewrite Hpop in E. injection E as <- <-.
  destruct H. constructor; cbn [g_processes eventQ readyQ finished_count trace pop_state];
    auto; try congruence.
  - eapply tokens_perm; [|eassumption]. unfold pending. cbn [eventQ readyQ app].
    rewrite Hperm. reflexivity.
  - apply quiet_app; auto. constructor; [|constructor]. cbn [obs_ok].
    destruct inv_tokens0 as (_ & HF & _). cbn [app] in HF.
    rewrite Forall_forall in HF. apply HF. unfold pending.
    apply in_or_app; left. apply in_map.
    apply (Permutation_in _ (Permutation_sym Hperm)). left; reflexivity.
Qed.

Lemma enqueue_state_inv n g0 s p :
  sim_inv n g0 [p] s -> sim_inv n g0 [] (enqueue_state s p).
Proof.
  intros H. unfold enqueue_state.
  destruct (RQ_enqueue_spec (g_processes s) (readyQ s) p (to_int (current_time s))
              (inv_rq _ _ _ _ H) (sim_inv_rq_room _ _ _ _ H))
    as (q' & E & Hwf & Hcap & Hcnt & Hl).
  rewrite E. destruct H.
  assert (Hfr : frozen g0 (upd_proc (g_processes s) p
                             (fun pc => set_last_ready_time pc (to_int (current_time s)))))
    by (apply frozen_upd_proc; auto).
  constructor; cbn [g_processes eventQ readyQ finished_count trace]; auto;
    try congruence.
  - apply (frozen_heap_wf g0 (g_processes s)); assumption.
  - eapply tokens_perm; [|eassumption]. unfold pending. cbn [eventQ readyQ app].
    rewrite Hl, app_assoc. apply Permutation_cons_append.
  - rewrite app_nil_r. assumption.
Qed.

Lemma release_cpu_frozen g0 s p :
  frozen g0 (g_processes s) -> frozen g0 (g_processes (release_cpu s p)).
Proof.
  intros H. unfold release_cpu. cbn [g_processes].
  destruct (_ <? 0); repeat apply frozen_upd_proc; auto.
Qed.

Lemma release_cpu_inv n g0 hand s p :
  sim_inv n g0 hand s -> sim_inv n g0 hand (release_cpu s p).
Proof.
  intros H. pose proof (release_cpu_frozen g0 s p (inv_frozen _ _ _ _ H)) as Hfr.
  destruct H. constructor; auto.
  apply (frozen_heap_wf g0 (g_processes s)); assumption.
Qed.

Lemma burst_done_inv n g0 s p :
  sim_inv n g0 [p] s -> sim_inv n g0 [] (burst_done s p).
Proof.
  intros H. unfold burst_done.
  destruct (num_bursts _ <=? _).
  - destruct H.
    assert (Hfr : frozen g0 (upd_proc (g_processes s) p
                               (fun pc => set_finish_time pc (to_int (current_time s)))))
      by (apply frozen_upd_proc; auto).
    constructor; cbn [g_processes eventQ readyQ finished_count trace]; auto.
    + apply (frozen_heap_wf g0 (g_processes s)); assumption.
    + destruct inv_tokens0 as (H1 & H2 & H3 & H4). cbn [app] in *.
      apply NoDup_cons_iff in H1. apply Forall_inv_tail in H2.
      cbn [length] in H4. unfold pending in *. cbn [eventQ readyQ] in *.
      repeat split; try tauto; lia.
    + apply quiet_app; auto. repeat constructor.
  - destruct (eventHeap_push_spec (g_processes s) (eventQ s)
                (mkEvent (to_int (current_time s
                          + burst_at (io_bursts (get_proc (g_processes s) p))
                              (current_burst (get_proc (g_processes s) p) + 1 - 1)))
                         EVT_ARRIVE p)
                (inv_heap _ _ _ _ H) (sim_inv_heap_room _ _ _ _ H))
      as (mh' & E & Hwf & Hcap & Hsz & Hperm).
    rewrite E. destruct H.
    match goal with |- sim_inv _ _ _ (mkSim ?g _ _ _ _ _ _ _ _ _) =>
      assert (Hfr : frozen g0 g) by (repeat apply frozen_upd_proc; auto) end.
    constructor; cbn [g_processes eventQ readyQ finished_count trace]; auto;
      try congruence.
    + apply (frozen_heap_wf g0 (g_processes s)); assumption.
    + eapply tokens_perm; [|eassumption]. unfold pending. cbn [eventQ readyQ app].
      rewrite Hperm. reflexivity.
    + apply quiet_app; auto. repeat constructor.
Qed.

Lemma dispatch_table_frozen g0 g p now :
  frozen g0 g -> frozen g0 (dispatch_table g p now).
Proof. intros H. unfold dispatch_table. repeat apply frozen_upd_proc; auto. Qed.

Lemma schedule_next_inv n g0 s q :
  sim_inv n g0 [] s -> sim_inv n g0 [] (schedule_next s q).
Proof.
  intros H.
  destruct (Z.le_gt_cases 0 (running_pid s)) as [Hb|Hf];
    [rewrite schedule_next_busy by assumption; assumption|].
  destruct (Z.eq_dec (count (readyQ s)) 0) as [Hz|Hnz];
    [rewrite schedule_next_idle by assumption; assumption|].
  assert (Hcnt : 0 < count (readyQ s))
    by (destruct (inv_rq _ _ _ _ H) as (_ & _ & _ & ? & _); lia).
  destruct (RQ_dequeue_spec _ (inv_rq _ _ _ _ H) Hcnt)
    as (p & rq' & Edq & Hwf' & Hcap' & Hcnt' & Hl).
  pose proof (dispatch_table_frozen g0 _ p (current_time s) (inv_frozen _ _ _ _ H))
    as Hfr.
  destruct (eventHeap_push_spec
              (dispatch_table (g_processes s) p (current_time s)) (eventQ s)
              (dispatch_event (remaining_cpu (get_proc (g_processes s) p)) q
                              (current_time s) p)
              (frozen_heap_wf _ _ _ _ (inv_frozen _ _ _ _ H) Hfr (inv_heap _ _ _ _ H))
              (sim_inv_heap_room _ _ _ _ H))
    as (mh' & E & Hwf & Hcap & Hsz & Hperm).
  rewrite (schedule_next_dispatch s q p rq' mh' _ ltac:(lia) Hnz Edq E).
  destruct H.
  constructor; cbn [g_processes eventQ readyQ finished_count trace]; auto;
    try congruence.
  - eapply tokens_perm; [|eassumption]. unfold pending. cbn [eventQ readyQ app].
    rewrite Hperm, Hl. cbn [map pid dispatch_event app].
    symmetry. apply Permutation_middle.
  - apply quiet_app; auto. repeat constructor.
Qed.

Lemma loop_cond_true n s :
  loop_cond n s = true -> finished_count s < n /\ (0 < size (eventQ s))%nat.
Proof.
  unfold loop_cond, eventHeap_empty. intros H.
  apply andb_prop in H. destruct H as [H1 H2].
  apply Z.ltb_lt in H1. apply negb_true_iff, Nat.eqb_neq in H2. lia.
Qed.

Lemma handle_event_inv n g0 q s e :
  sim_inv n g0 [pid e] s -> sim_inv n g0 [] (handle_event q s e).
Proof.
  intros H. destruct (type e) eqn:Et.
  - rewrite handle_event_arrive by assumption.
    pose proof (enqueue_state_inv _ _ _ _ H).
    destruct (_ <? 0); [apply schedule_next_inv|]; assumption.
  - rewrite handle_event_complete by assumption.
    apply schedule_next_inv, burst_done_inv, release_cpu_inv. assumption.
  - rewrite handle_event_timeout by assumption.
    apply schedule_next_inv.
    destruct (0 <? _);
      [apply enqueue_state_inv | apply burst_done_inv];
      apply release_cpu_inv; assumption.
Qed.

Lemma loop_body_inv n g0 q s :
  sim_inv n g0 [] s -> loop_cond n s = true -> sim_inv n g0 [] (loop_body q s).
Proof.
  intros H Hc. apply loop_cond_true in Hc. destruct Hc as [_ Hsz].
  destruct (eventHeap_pop (g_processes s) (eventQ s)) as [e mh] eqn:Epop.
  rewrite (loop_body_eq q s e mh Epop).
  apply handle_event_inv. eapply pop_state_inv; eassumption.
Qed.

(* ------------------------------------------------------------------ *)
(** ** The initial state *)

Lemma read_processes_length k : forall toks ps,
  read_processes k toks = Some ps -> length ps = k.
Proof.
  induction k as [|k IH]; intros toks ps H; simpl in H.
  - injection H as <-. reflexivity.
  - destruct (read_process toks) as [[pc rest]|]; [|discriminate].
    destruct (read_processes k rest) as [ps'|] eqn:E; [|discriminate].
    injection H as <-. simpl. f_equal. eapply IH; eassumption.
Qed.

(** What [read_input_file] has done when it returns. *)
Lemma read_input_file_cases input n g :
  read_input_file input = Some (n, g) ->
  (n = 0 /\ g = []) \/
  (0 < n /\ fits n /\
   exists rest, input = n :: rest /\ read_processes (Z.to_nat n) rest = Some g).
Proof.
  unfold read_input_file. destruct input as [|m rest]; [discriminate|].
  destruct (in_int m) eqn:Em; [|discriminate]. cbn [negb].
  apply in_int_fits in Em.
  destruct (Z.leb_spec m 0).
  - intros E; injection E as <- <-. left. auto.
  - destruct (read_processes (Z.to_nat m) rest) as [ps|] eqn:E; [|discriminate].
    intros E'; injection E' as <- <-. right. eauto.
Qed.

Lemma read_input_file_length input n g :
  read_input_file input = Some (n, g) -> 0 < n -> length g = Z.to_nat n.
Proof.
  intros E Hn.
  destruct (read_input_file_cases _ _ _ E) as [[-> _] | (_ & _ & rest & _ & Er)];
    [lia|].
  eapply read_processes_length; eassumption.
Qed.

(** The arrival events of the processes [ps], numbered from [i]. *)
Fixpoint arrival_events (ps : list PCB) (i : Z) : list Event :=
  match ps with
  | [] => []
  | pc :: ps' => mkEvent (arrival_time pc) EVT_ARRIVE i :: arrival_events ps' (i + 1)
  end.

Lemma arrival_events_pids ps : forall i,
  Forall (fun p => i <= p < i + Z.of_nat (length ps)) (map pid (arrival_events ps i)) /\
  NoDup (map pid (arrival_events ps i)).
Proof.
  induction ps as [|pc ps IH]; intros i; simpl; [split; constructor|].
  destruct (IH (i + 1)) as [HF HN]. split.
  - constructor; [lia|]. eapply Forall_impl; [|exact HF]. simpl; intros; lia.
  - constructor; [|assumption]. intros Hin.
    rewrite Forall_forall in HF. apply HF in Hin. lia.
Qed.

Lemma arrival_events_length ps i : length (arrival_events ps i) = length ps.
Proof. revert i; induction ps; intros i; simpl; auto. Qed.

Lemma push_arrivals_spec g ps : forall i mh tr,
  heap_wf g mh -> (size mh + length ps <= capacity mh)%nat ->
  exists mh',
    push_arrivals g ps i mh tr = (mh', tr ++ map ObsPush (arrival_events ps i)) /\
    heap_wf g mh' /\ capacity mh' = capacity mh /\
    Permutation (contents mh') (arrival_events ps i ++ contents mh).
Proof.
  induction ps as [|pc ps IH]; intros i mh tr Hwf Hroom; simpl.
  - exists mh. rewrite app_nil_r. auto.
  - simpl in Hroom.
    destruct (eventHeap_push_spec g mh (mkEvent (arrival_time pc) EVT_ARRIVE i)
                Hwf ltac:(lia)) as (mh1 & E & Hwf1 & Hcap1 & Hsz1 & Hp1).
    rewrite E.
    destruct (IH (i + 1) mh1 (tr ++ [ObsPush (mkEvent (arrival_time pc) EVT_ARRIVE i)])
                 Hwf1 ltac:(lia)) as (mh' & E' & Hwf' & Hcap' & Hp').
    exists mh'. rewrite E', <- app_assoc.
    split; [reflexivity|]. split; [assumption|]. split; [congruence|].
    rewrite Hp', Hp1. symmetry. apply Permutation_middle.
Qed.

Lemma init_sim_eq n g :
  (length g <= Z.to_nat (n * 4))%nat ->
  exists mh,
    init_sim n g =
      mkSim g mh (RQ_init (n + 10)) 0 0 0 (-1) 0 0 (map ObsPush (arrival_events g 0)) /\
    heap_wf g mh /\ capacity mh = Z.to_nat (n * 4) /\
    Permutation (contents mh) (arrival_events g 0).
Proof.
  intros Hlen. unfold init_sim.
  destruct (push_arrivals_spec g g 0 (eventHeap_init (Z.to_nat (n * 4))) []
              (eventHeap_init_wf _ _) ltac:(simpl; lia))
    as (mh & E & Hwf & Hcap & Hp).
  rewrite E. exists mh.
  split; [reflexivity|]. split; [assumption|]. split; [exact Hcap|].
  rewrite Hp. unfold contents; simpl. rewrite app_nil_r. reflexivity.
Qed.

Lemma init_sim_inv n g :
  0 < n -> length g = Z.to_nat n -> sim_inv n g [] (init_sim n g).
Proof.
  intros Hn Hlen.
  destruct (init_sim_eq n g ltac:(lia)) as (mh & E & Hwf & Hcap & Hp).
  rewrite E. constructor; cbn [g_processes eventQ readyQ finished_count trace];
    auto.
  - apply frozen_refl.
  - apply RQ_init_wf. lia.
  - assert (HP : Permutation (map pid (arrival_events g 0))
                             ([] ++ pending (mkSim g mh (RQ_init (n + 10)) 0 0 0 (-1) 0 0
                                              (map ObsPush (arrival_events g 0))))).
    { unfold pending. cbn [eventQ readyQ app]. rewrite RQ_init_list, app_nil_r.
      rewrite Hp. reflexivity. }
    eapply tokens_perm; [exact HP|].
    destruct (arrival_events_pids g 0) as [HF HN].
    repeat split; auto; try lia.
    + eapply Forall_impl; [|exact HF]. simpl; intros; lia.
    + rewrite length_map, arrival_events_length. lia.
  - unfold quiet. apply Forall_map. apply Forall_forall.
    intros; exact I.
Qed.

(* ------------------------------------------------------------------ *)
(** ** Who holds the CPU *)

Definition heap_arrivals (s : Sim) : Prop :=
  Forall (fun e => type e = EVT_ARRIVE) (contents (eventQ s)).

(** The CPU is free: nothing in the heap but arrivals. *)
Definition cpu_free (s : Sim) : Prop :=
  running_pid s = -1 /\ heap_arrivals s.

(** The CPU is taken: the heap holds the end-of-slice event of the running
    process, and no other event of that kind. *)
Definition cpu_busy (s : Sim) : Prop :=
  0 <= running_pid s /\
  (exists e, In e (contents (eventQ s)) /\ type e <> EVT_ARRIVE /\
             pid e = running_pid s) /\
  (forall e, In e (contents (eventQ s)) -> type e <> EVT_ARRIVE ->
             pid e = running_pid s).

(** At the head of the loop the CPU is free only if nobody is ready. *)
Definition cpu_inv (s : Sim) : Prop :=
  (cpu_free s /\ count (readyQ s) = 0) \/ cpu_busy s.

Lemma enqueue_state_fields s p :
  eventQ (enqueue_state s p) = eventQ s /\
  running_pid (enqueue_state s p) = running_pid s /\
  current_time (enqueue_state s p) = current_time s.
Proof.
  unfold enqueue_state. destruct (RQ_enqueue _ _ _ _) as [[g rq] o].
  repeat split.
Qed.

Lemma pop_arrive_cpu n g0 s e mh :
  sim_inv n g0 [] s -> cpu_inv s -> (0 < size (eventQ s))%nat ->
  eventHeap_pop (g_processes s) (eventQ s) = (e, mh) ->
  type e = EVT_ARRIVE ->
  cpu_free (pop_state s e mh) \/ cpu_busy (pop_state s e mh).
Proof.
  intros H Hcpu Hpos Hpop Et.
  destruct (eventHeap_pop_spec _ _ (inv_heap _ _ _ _ H) Hpos)
    as (e' & mh' & E & _ & _ & _ & Hperm & _).
  rewrite Hpop in E. injection E as <- <-.
  assert (Hsub : forall x, In x (contents mh) -> In x (contents (eventQ s)))
    by (intros x Hx; apply (Permutation_in _ (Permutation_sym Hperm));
        right; assumption).
  destruct Hcpu as [[[Hr Ha] _] | (Hr & (er & Hin & Hty & Hpid) & Hall)].
  - left. split; [assumption|]. unfold heap_arrivals in *. cbn [pop_state eventQ].
    rewrite Forall_forall in *. auto.
  - right. unfold cpu_busy. cbn [pop_state eventQ running_pid].
    split; [assumption|]. split; [|auto].
    exists er. repeat split; auto.
    apply (Permutation_in _ Hperm) in Hin. destruct Hin as [<-|Hin]; [|assumption].
    congruence.
Qed.

Lemma pop_run_cpu n g0 s e mh :
  sim_inv n g0 [] s -> cpu_inv s -> (0 < size (eventQ s))%nat ->
  eventHeap_pop (g_processes s) (eventQ s) = (e, mh) ->
  type e <> EVT_ARRIVE ->
  heap_arrivals (pop_state s e mh).
Proof.
  intros H Hcpu Hpos Hpop Et.
  destruct (eventHeap_pop_spec _ _ (inv_heap _ _ _ _ H) Hpos)
    as (e' & mh' & E & _ & _ & _ & Hperm & _).
  rewrite Hpop in E. injection E as <- <-.
  assert (Hine : In e (contents (eventQ s)))
    by (apply (Permutation_in _ (Permutation_sym Hperm)); left; reflexivity).
  destruct Hcpu as [[[_ Ha] _] | (_ & _ & Hall)].
  - unfold heap_arrivals in Ha. rewrite Forall_forall in Ha.
    apply Ha in Hine. contradiction.
  - unfold heap_arrivals. cbn [pop_state eventQ]. apply Forall_forall.
    intros x Hx.
    destruct (type x) eqn:Ex; [reflexivity | exfalso | exfalso].
    all: destruct (inv_tokens _ _ _ _ H) as (Hnd & _); cbn [app] in Hnd;
      unfold pending in Hnd; rewrite Hperm in Hnd; cbn [map app] in Hnd;
      apply NoDup_cons_iff in Hnd; destruct Hnd as [Hnin _]; apply Hnin;
      apply in_or_app; left;
      rewrite (Hall e Hine Et),
        <- (Hall x (Permutation_in _ (Permutation_sym Hperm) (or_intror Hx))
                 ltac:(congruence));
      apply in_map; assumption.
Qed.

Lemma burst_done_free n g0 s p :
  sim_inv n g0 [p] s -> cpu_free s -> cpu_free (burst_done s p).
Proof.
  intros H [Hr Ha]. unfold burst_done.
  destruct (num_bursts _ <=? _).
  - split; assumption.
  - destruct (eventHeap_push_spec (g_processes s) (eventQ s)
                (mkEvent (to_int (current_time s
                          + burst_at (io_bursts (get_proc (g_processes s) p))
                              (current_burst (get_proc (g_processes s) p) + 1 - 1)))
                         EVT_ARRIVE p)
                (inv_heap _ _ _ _ H) (sim_inv_heap_room _ _ _ _ H))
      as (mh' & E & _ & _ & _ & Hperm).
    rewrite E. split; [assumption|].
    unfold heap_arrivals in *. cbn [eventQ].
    eapply Permutation_Forall; [symmetry; exact Hperm|].
    constructor; [reflexivity | assumption].
Qed.

Lemma dispatch_event_type rem q now p :
  type (dispatch_event rem q now p) <> EVT_ARRIVE.
Proof. unfold dispatch_event; cbn [type]. destruct (_ =? _); discriminate. Qed.

Lemma schedule_next_cpu n g0 s q :
  sim_inv n g0 [] s -> cpu_free s -> cpu_inv (schedule_next s q).
Proof.
  intros H [Hr Ha].
  destruct (Z.eq_dec (count (readyQ s)) 0) as [Hz|Hnz];
    [rewrite schedule_next_idle by assumption; left; repeat split; assumption|].
  assert (Hcnt : 0 < count (readyQ s))
    by (destruct (inv_rq _ _ _ _ H) as (_ & _ & _ & ? & _); lia).
  destruct (RQ_dequeue_spec _ (inv_rq _ _ _ _ H) Hcnt)
    as (p & rq' & Edq & _ & _ & _ & Hl).
  pose proof (dispatch_table_frozen g0 _ p (current_time s) (inv_frozen _ _ _ _ H))
    as Hfr.
  destruct (eventHeap_push_spec
              (dispatch_table (g_processes s) p (current_time s)) (eventQ s)
              (dispatch_event (remaining_cpu (get_proc (g_processes s) p)) q
                              (current_time s) p)
              (frozen_heap_wf _ _ _ _ (inv_frozen _ _ _ _ H) Hfr (inv_heap _ _ _ _ H))
              (sim_inv_heap_room _ _ _ _ H))
    as (mh' & E & _ & _ & _ & Hperm).
  rewrite (schedule_next_dispatch s q p rq' mh' _ ltac:(lia) Hnz Edq E).
  right. unfold cpu_busy. cbn [eventQ running_pid].
  assert (Hp : 0 <= p < n).
  { destruct (inv_tokens _ _ _ _ H) as (_ & HF & _). cbn [app] in HF.
    rewrite Forall_forall in HF. apply HF. unfold pending.
    apply in_or_app; right. rewrite Hl. left; reflexivity. }
  split; [lia|]. split.
  - eexists. split; [apply (Permutation_in _ (Permutation_sym Hperm)); left; reflexivity|].
    split; [apply dispatch_event_type | reflexivity].
  - intros x Hx Hty. apply (Permutation_in _ Hperm) in Hx.
    destruct Hx as [<-|Hx]; [reflexivity|].
    unfold heap_arrivals in Ha. rewrite Forall_forall in Ha.
    apply Ha in Hx. contradiction.
Qed.

Lemma handle_event_cpu n g0 q s e :
  sim_inv n g0 [pid e] s ->
  (type e = EVT_ARRIVE -> cpu_free s \/ cpu_busy s) ->
  (type e <> EVT_ARRIVE -> heap_arrivals s) ->
  cpu_inv (handle_event q s e).
Proof.
  intros H Harr Hrun. destruct (type e) eqn:Et.
  - rewrite handle_event_arrive by assumption.
    pose proof (enqueue_state_inv _ _ _ _ H) as H2.
    destruct (enqueue_state_fields s (pid e)) as (Eq & Er & _).
    destruct (Z.ltb_spec (running_pid (enqueue_state s (pid e))) 0) as [Hlt|Hge].
    + eapply schedule_next_cpu; [eassumption|].
      destruct (Harr eq_refl) as [[Hr Ha] | [Hr _]]; [|lia].
      split; [congruence|]. unfold heap_arrivals. rewrite Eq. assumption.
    + right. destruct (Harr eq_refl) as [[Hr Ha] | Hb]; [lia|].
      unfold cpu_busy. rewrite Eq, Er. assumption.
  - rewrite handle_event_complete by assumption.
    eapply schedule_next_cpu; [apply burst_done_inv, release_cpu_inv; eassumption|].
    eapply burst_done_free; [apply release_cpu_inv; eassumption|].
    split; [reflexivity|]. apply Hrun. discriminate.
  - rewrite handle_event_timeout by assumption.
    assert (Hfree : cpu_free (release_cpu s (pid e)))
      by (split; [reflexivity | apply Hrun; discriminate]).
    pose proof (release_cpu_inv _ _ _ _ (pid e) H) as H1.
    destruct (0 <? _).
    + eapply schedule_next_cpu; [apply enqueue_state_inv; eassumption|].
      destruct (enqueue_state_fields (release_cpu s (pid e)) (pid e)) as (Eq & Er & _).
      destruct Hfree as [Hr Ha].
      split; [congruence|]. unfold heap_arrivals. rewrite Eq. assumption.
    + eapply schedule_next_cpu; [apply burst_done_inv; eassumption|].
      eapply burst_done_free; eassumption.
Qed.

Lemma loop_body_cpu n g0 q s :
  sim_inv n g0 [] s -> cpu_inv s -> loop_cond n s = true ->
  cpu_inv (loop_body q s).
Proof.
  intros H Hcpu Hc. apply loop_cond_true in Hc. destruct Hc as [_ Hsz].
  destruct (eventHeap_pop (g_processes s) (eventQ s)) as [e mh] eqn:Epop.
  rewrite (loop_body_eq q s e mh Epop).
  eapply handle_event_cpu.
  - eapply pop_state_inv; eassumption.
  - intros Et. eapply pop_arrive_cpu; eassumption.
  - intros Et. eapply pop_run_cpu; eassumption.
Qed.

Lemma arrival_events_types ps : forall i,
  Forall (fun e => type e = EVT_ARRIVE) (arrival_events ps i).
Proof. induction ps as [|pc ps IH]; intros i; simpl; constructor; auto. Qed.

Lemma init_sim_cpu n g :
  0 < n -> length g = Z.to_nat n -> cpu_inv (init_sim n g).
Proof.
  intros Hn Hlen.
  destruct (init_sim_eq n g ltac:(lia)) as (mh & E & _ & _ & Hp).
  rewrite E. left. repeat split.
  unfold heap_arrivals. cbn [eventQ].
  eapply Permutation_Forall; [symmetry; exact Hp|].
  apply arrival_events_types.
Qed.

Lemma reachable_inv input q s :
  reachable input q s ->
  exists n g,
    read_input_file input = Some (n, g) /\ sim_inv n g [] s /\ cpu_inv s.
Proof.
  induction 1 as [n g E Hn | n g s E _ IH Hc].
  - pose proof (read_input_file_length _ _ _ E Hn).
    exists n, g. split; [assumption|].
    split; [apply init_sim_inv | apply init_sim_cpu]; assumption.
  - destruct IH as (n' & g' & E' & Hinv & Hcpu).
    rewrite E in E'. injection E' as <- <-.
    exists n, g. split; [assumption|]. split.
    + apply loop_body_inv; assumption.
    + eapply loop_body_cpu; eassumption.
Qed.

(** A small input used to exhibit runs: one process, external id 1,
    arriving at time 5 with a single CPU burst of 2. *)
Definition input_one : list Z := [1; 1; 5; 2; -1].

Definition table_one : list PCB :=
  [mkPCB 1 5 1 (upd (repeat 0 MAX_BURSTS) 0 2) (repeat 0 MAX_BURSTS)
         0 2 2 0 0 0 0].

Lemma read_input_one : read_input_file input_one = Some (1, table_one).
Proof. reflexivity. Qed.

(** The processes are conserved: each one is finished or owns exactly one
    token, and a busy CPU has its end-of-slice event in the heap; so all
    have finished exactly when the event heap is empty. *)
Lemma finished_iff_drained n g s :
  sim_inv n g [] s -> cpu_inv s ->
  finished_count s <= n /\ (finished_count s = n <-> size (eventQ s) = O).
Proof.
  intros Hinv Hcpu.
  destruct (inv_tokens _ _ _ _ Hinv) as (_ & _ & Hfin & Hcount).
  destruct (inv_heap _ _ _ _ Hinv) as (Hlen & Hsz & _).
  destruct (inv_rq _ _ _ _ Hinv) as (_ & _ & _ & Hcnt & _).
  cbn [app] in Hcount. unfold pending in Hcount.
  rewrite length_app, length_map, contents_length, rq_list_length in Hcount by lia.
  split; [lia|]. split; [lia|]. intros Hz.
  assert (Hrq : count (readyQ s) = 0).
  { destruct Hcpu as [[_ ?] | (_ & (e & Hin & _) & _)]; [assumption|].
    unfold contents in Hin. rewrite Hz in Hin. destruct Hin. }
  lia.
Qed.






(* ------------------------------------------------------------------ *)
(** ** The event queue as a priority queue *)

(** A use of the queue: a sequence of pushes and pops. *)
Inductive HeapOp : Type :=
| OpPush (e : Event)
| OpPop.

Fixpoint heap_run (g : list PCB) (mh : EventMinHeap) (ops : list HeapOp)
  : EventMinHeap :=
  match ops with
  | [] => mh
  | OpPush e :: ops' => heap_run g (fst (eventHeap_push g mh e)) ops'
  | OpPop :: ops' => heap_run g (snd (eventHeap_pop g mh)) ops'
  end.

Lemma eventHeap_push_wf g mh ev :
  heap_wf g mh -> heap_wf g (fst (eventHeap_push g mh ev)).
Proof.
  intros Hwf. destruct (Nat.le_gt_cases (capacity mh) (size mh)) as [Hfull|Hroom].
  - rewrite eventHeap_push_full by assumption. assumption.
  - destruct (eventHeap_push_spec g mh ev Hwf Hroom) as (mh' & E & Hwf' & _).
    rewrite E. assumption.
Qed.

Lemma eventHeap_pop_wf g mh :
  heap_wf g mh -> heap_wf g (snd (eventHeap_pop g mh)).
Proof.
  intros Hwf. destruct (Nat.eq_dec (size mh) 0) as [Hz|Hnz].
  - rewrite eventHeap_pop_empty by assumption. assumption.
  - destruct (eventHeap_pop_spec g mh Hwf ltac:(lia)) as (e & mh' & E & Hwf' & _).
    rewrite E. assumption.
Qed.

Lemma heap_run_wf g ops : forall mh,
  heap_wf g mh -> heap_wf g (heap_run g mh ops).
Proof.
  induction ops as [|[e|] ops IH]; intros mh Hwf; simpl; auto.
  - apply IH, eventHeap_push_wf, Hwf.
  - apply IH, eventHeap_pop_wf, Hwf.
Qed.

(** The bookkeeping of the specification beside the heap: the events
    pushed and not yet popped, oldest first.  A push is lost when [cap]
    events are held already (the heap prints its overflow message and
    drops the event); a pop takes away the event it returned. *)
Fixpoint remove_first (e : Event) (l : list Event) : list Event :=
  match l with
  | [] => []
  | x :: l' => if Event_eq_dec e x then l' else x :: remove_first e l'
  end.

Fixpoint remaining (g : list PCB) (cap : nat) (mh : EventMinHeap)
         (left : list Event) (ops : list HeapOp) : list Event :=
  match ops with
  | [] => left
  | OpPush e :: ops' =>
    remaining g cap (fst (eventHeap_push g mh e))
              (if (length left <? cap)%nat then left ++ [e] else left) ops'
  | OpPop :: ops' =>
    remaining g cap (snd (eventHeap_pop g mh))
              (remove_first (fst (eventHeap_pop g mh)) left) ops'
  end.

Lemma remove_first_perm e l : In e l -> Permutation l (e :: remove_first e l).
Proof.
  induction l as [|x l IH]; intros Hin; [destruct Hin|]. cbn [remove_first].
  destruct (Event_eq_dec e x) as [->|Hne]; [reflexivity|].
  destruct Hin as [->|Hin]; [congruence|].
  rewrite (IH Hin) at 1. apply perm_swap.
Qed.

(** The heap holds the events pushed and not yet popped, whatever was
    done to it. *)
Lemma heap_run_remaining g cap ops : forall mh left,
  heap_wf g mh -> capacity mh = cap -> Permutation (contents mh) left ->
  heap_wf g (heap_run g mh ops) /\
  capacity (heap_run g mh ops) = cap /\
  Permutation (contents (heap_run g mh ops)) (remaining g cap mh left ops).
Proof.
  induction ops as [|[e|] ops IH]; intros mh left Hwf Hcap Hp;
    cbn [heap_run remaining]; auto.
  - assert (Hlen : length left = size mh).
    { rewrite <- (Permutation_length Hp). apply contents_length.
      destruct Hwf as (Hl & Hs & _). lia. }
    destruct (Nat.ltb_spec (length left) cap) as [Hroom|Hfull].
    + destruct (eventHeap_push_spec g mh e Hwf ltac:(lia))
        as (mh' & E & Hwf' & Hcap' & _ & Hp').
      rewrite E. cbn [fst]. apply IH; auto; [congruence|].
      rewrite Hp', Hp. apply Permutation_cons_append.
    + rewrite eventHeap_push_full by lia. cbn [fst]. apply IH; auto.
  - destruct (Nat.eq_dec (size mh) 0) as [Hz|Hnz].
    + rewrite eventHeap_pop_empty by assumption. cbn [fst snd].
      assert (left = []) as ->.
      { apply Permutation_length in Hp. unfold contents in Hp.
        rewrite Hz in Hp. cbn in Hp. destruct left; [reflexivity | discriminate]. }
      apply IH; auto.
    + destruct (eventHeap_pop_spec g mh Hwf ltac:(lia))
        as (e & mh' & E & Hwf' & Hcap' & _ & Hp' & _).
      rewrite E. cbn [fst snd]. apply IH; auto; [congruence|].
      assert (Hin : In e left).
      { apply (Permutation_in _ Hp), (Permutation_in _ (Permutation_sym Hp')).
        left; reflexivity. }
      apply (Permutation_cons_inv (a := e)).
      rewrite <- Hp', Hp. apply remove_first_perm. assumption.
Qed.

(** C2: whatever sequence of pushes and pops was applied to a fresh event
    queue of capacity [cap], the queue holds exactly the events that were
    pushed and not yet popped ([remaining]: a push beyond [cap] held
    events is lost, after the overflow message).  While some event is
    left, a pop returns one of those events, a minimum of them for the
    order of the specification: time first, then kind (ARRIVAL <
    CPU_COMPLETE < CPU_TIMEOUT), then the external identifier of the
    process; and it takes exactly that event out.  When none is left a
    pop returns the sentinel and leaves the queue as it is. *)
Theorem C2_pop_returns_minimum g cap ops :
  let mh := heap_run g (eventHeap_init cap) ops in
  let left := remaining g cap (eventHeap_init cap) [] ops in
  Permutation (contents mh) left /\
  (left <> [] ->
   In (fst (eventHeap_pop g mh)) left /\
   (forall x, In x left ->
              key_le (event_key g (fst (eventHeap_pop g mh))) (event_key g x)) /\
   Permutation (contents (snd (eventHeap_pop g mh)))
               (remove_first (fst (eventHeap_pop g mh)) left)) /\
  (left = [] ->
   eventHeap_pop g mh = (mkEvent INT_MAX EVT_ARRIVE (-1), mh)).
Proof.
  intros mh left.
  destruct (heap_run_remaining g cap ops (eventHeap_init cap) []
              (eventHeap_init_wf g cap) eq_refl (Permutation_refl _))
    as (Hwf & Hcap & Hp).
  fold mh in Hwf, Hcap, Hp. fold left in Hp.
  assert (Hlen : length left = size mh).
  { rewrite <- (Permutation_length Hp). apply contents_length.
    destruct Hwf as (Hl & Hs & _). lia. }
  split; [exact Hp|]. split.
  - intros Hne.
    assert (Hpos : (0 < size mh)%nat)
      by (destruct left; [congruence | cbn [length] in Hlen; lia]).
    destruct (eventHeap_pop_spec g mh Hwf Hpos)
      as (e & mh' & E & _ & _ & _ & Hp' & Hmin).
    rewrite E. cbn [fst snd].
    assert (Hin : In e left).
    { apply (Permutation_in _ Hp), (Permutation_in _ (Permutation_sym Hp')).
      left; reflexivity. }
    split; [exact Hin|]. split.
    + intros x Hx. apply ev_le_key, Hmin.
      apply (Permutation_in _ (Permutation_sym Hp)). exact Hx.
    + apply (Permutation_cons_inv (a := e)).
      rewrite <- Hp', Hp. apply remove_first_perm. assumption.
  - intros Hnil. apply eventHeap_pop_empty. rewrite <- Hlen, Hnil. reflexivity.
Qed.

(** Two processes for the examples: external ids 1 and 2. *)
Definition input_two : list Z := [2; 1; 0; 10; -1; 2; 1; 4; -1].

Definition table_two : list PCB :=
  [mkPCB 1 0 1 (upd (repeat 0 MAX_BURSTS) 0 10) (repeat 0 MAX_BURSTS)
         0 10 10 0 0 0 0;
   mkPCB 2 1 1 (upd (repeat 0 MAX_BURSTS) 0 4) (repeat 0 MAX_BURSTS)
         0 4 4 0 0 0 0].

Lemma read_input_two : read_input_file input_two = Some (2, table_two).
Proof. reflexivity. Qed.

Definition ops_demo : list HeapOp :=
  [OpPush (mkEvent 7 EVT_ARRIVE 0); OpPush (mkEvent 3 EVT_CPU_TIMEOUT 1);
   OpPush (mkEvent 3 EVT_ARRIVE 1); OpPush (mkEvent 3 EVT_ARRIVE 0); OpPop].


(** Seven pushes into a queue of four slots, with pops in between: the
    fifth event pushed finds the queue full and is lost. *)
Definition ops_full : list HeapOp :=
  [OpPush (mkEvent 9 EVT_ARRIVE 0); OpPush (mkEvent 4 EVT_CPU_COMPLETE 1);
   OpPush (mkEvent 4 EVT_ARRIVE 1); OpPush (mkEvent 6 EVT_ARRIVE 0);
   OpPush (mkEvent 1 EVT_ARRIVE 1); OpPop; OpPush (mkEvent 5 EVT_ARRIVE 0);
   OpPop].

Lemma C2_witness :
  remaining table_two 8 (eventHeap_init 8) [] ops_demo
  = [mkEvent 7 EVT_ARRIVE 0; mkEvent 3 EVT_CPU_TIMEOUT 1; mkEvent 3 EVT_ARRIVE 1] /\
  In (fst (eventHeap_pop table_two (heap_run table_two (eventHeap_init 8) ops_demo)))
     (remaining table_two 8 (eventHeap_init 8) [] ops_demo) /\
  remaining table_two 4 (eventHeap_init 4) [] ops_full
  = [mkEvent 9 EVT_ARRIVE 0; mkEvent 6 EVT_ARRIVE 0; mkEvent 5 EVT_ARRIVE 0] /\
  fst (eventHeap_pop table_two (heap_run table_two (eventHeap_init 4) ops_full))
  = mkEvent 5 EVT_ARRIVE 0 /\
  In (fst (eventHeap_pop table_two (heap_run table_two (eventHeap_init 4) ops_full)))
     (remaining table_two 4 (eventHeap_init 4) [] ops_full).
Proof.
  split; [vm_compute; reflexivity|]. split.
  - apply (C2_pop_returns_minimum table_two 8 ops_demo). vm_compute. discriminate.
  - split; [vm_compute; reflexivity|]. split; [vm_compute; reflexivity|].
    apply (C2_pop_returns_minimum table_two 4 ops_full). vm_compute. discriminate.
Defined.


(* ------------------------------------------------------------------ *)
(** ** The dispatcher *)

Lemma dispatch_slice_min rem q : dispatch_slice rem q = Z.min rem q.
Proof. unfold dispatch_slice. destruct (Z.ltb_spec q rem); lia. Qed.

(** C1 (as amended): when no process is running and the ready queue is
    not empty, the dispatcher removes the head [p] of the queue, adds
    [current_time - last_ready_time] to the wait time of [p], stamps its
    [start_run_time] with the current time, leaves the other processes as
    they are, takes [slice = min(remaining_cpu, q)] and pushes exactly one
    event for [p], CPU_COMPLETE when the slice is all that remains of the
    burst and CPU_TIMEOUT otherwise.  The wait time, the start of the
    slice and the time of the event are [int] fields: each holds its
    value narrowed to an [int], so the event is at [current_time + slice]
    whenever that fits an [int], and so for the other two (last
    conjunct).  (The heap has a free slot, as it always has in a run.) *)
Theorem C1_dispatch s q p rest :
  running_pid s < 0 ->
  rq_wf (readyQ s) -> rq_list (readyQ s) = p :: rest ->
  0 <= p < Z.of_nat (length (g_processes s)) ->
  heap_wf (g_processes s) (eventQ s) ->
  (size (eventQ s) < capacity (eventQ s))%nat ->
  let pc := get_proc (g_processes s) p in
  let now := current_time s in
  let waited := now - last_ready_time pc in
  let slice := Z.min (remaining_cpu pc) q in
  let kind := if slice =? remaining_cpu pc
              then EVT_CPU_COMPLETE else EVT_CPU_TIMEOUT in
  let s' := schedule_next s q in
  rq_list (readyQ s') = rest /\
  get_proc (g_processes s') p =
    set_start_run_time
      (set_wait_time pc (to_int (wait_time pc + waited))) (to_int now) /\
  (forall p', 0 <= p' -> p' <> p ->
              get_proc (g_processes s') p' = get_proc (g_processes s) p') /\
  running_pid s' = p /\
  trace s' = trace s ++ [ObsDispatch p now waited slice;
                         ObsPush (mkEvent (to_int (now + slice)) kind p)] /\
  Permutation (contents (eventQ s'))
              (mkEvent (to_int (now + slice)) kind p :: contents (eventQ s)) /\
  (fits now -> fits (wait_time pc + waited) -> fits (now + slice) ->
   wait_time (get_proc (g_processes s') p) = wait_time pc + waited /\
   start_run_time (get_proc (g_processes s') p) = now /\
   trace s' = trace s ++ [ObsDispatch p now waited slice;
                          ObsPush (mkEvent (now + slice) kind p)]).
Proof.
  intros Hrun Hrq Hhead Hp Hwf Hroom pc now waited slice kind s'.
  assert (Hcnt : 0 < count (readyQ s)).
  { pose proof (rq_list_length (readyQ s)) as Hl. rewrite Hhead in Hl.
    simpl in Hl. destruct Hrq as (_ & _ & _ & ? & _). lia. }
  destruct (RQ_dequeue_spec _ Hrq Hcnt) as (p' & rq' & Edq & _ & _ & _ & Hl).
  rewrite Hhead in Hl. injection Hl as <- ->.
  assert (Hwf' : heap_wf (dispatch_table (g_processes s) p now) (eventQ s)).
  { apply (frozen_heap_wf (g_processes s) (g_processes s));
      auto using frozen_refl, dispatch_table_frozen. }
  destruct (eventHeap_push_spec _ _
              (dispatch_event (remaining_cpu pc) q now p) Hwf' Hroom)
    as (mh' & E & _ & _ & _ & Hperm).
  assert (Hs' : s' = _)
    by exact (schedule_next_dispatch s q p rq' mh' _ Hrun ltac:(lia) Edq E).
  assert (He : dispatch_event (remaining_cpu pc) q now p
               = mkEvent (to_int (now + slice)) kind p)
    by (unfold dispatch_event, kind, slice; rewrite dispatch_slice_min; reflexivity).
  rewrite He in *.
  assert (Hget : get_proc (dispatch_table (g_processes s) p now) p
                 = set_start_run_time
                     (set_wait_time pc (to_int (wait_time pc + waited))) (to_int now)).
  { unfold dispatch_table.
    rewrite get_upd_proc_same by (rewrite upd_proc_length; lia).
    rewrite get_upd_proc_same by lia. reflexivity. }
  clearbody s'. subst s'.
  cbn [g_processes eventQ readyQ running_pid trace].
  fold pc now waited. rewrite dispatch_slice_min. fold slice.
  split; [reflexivity|]. split; [exact Hget|]. split.
  { intros p0 Hp0 Hne. unfold dispatch_table.
    rewrite !get_upd_proc_other by lia. reflexivity. }
  split; [reflexivity|]. split; [reflexivity|]. split; [exact Hperm|].
  intros Hnow Hw Hend. rewrite Hget.
  cbn [wait_time start_run_time set_wait_time set_start_run_time].
  rewrite !to_int_fits by assumption. auto.
Qed.

(** In a run the dispatcher is only called in states that satisfy the
    structural invariant, where these side conditions hold. *)
Lemma sim_inv_dispatch_ready n g0 s :
  sim_inv n g0 [] s ->
  rq_wf (readyQ s) /\
  heap_wf (g_processes s) (eventQ s) /\
  (size (eventQ s) < capacity (eventQ s))%nat /\
  forall p rest, rq_list (readyQ s) = p :: rest ->
                 0 <= p < Z.of_nat (length (g_processes s)).
Proof.
  intros H. split; [apply (inv_rq _ _ _ _ H)|].
  split; [apply (inv_heap _ _ _ _ H)|].
  split; [apply (sim_inv_heap_room _ _ _ _ H)|].
  intros p rest Hl.
  destruct (inv_tokens _ _ _ _ H) as (_ & Hv & _). cbn [app] in Hv.
  unfold pending in Hv. rewrite Hl, Forall_app in Hv. destruct Hv as [_ Hv].
  pose proof (Forall_inv Hv) as Hp. cbv beta in Hp.
  rewrite (frozen_length _ _ (inv_frozen _ _ _ _ H)), (inv_len _ _ _ _ H).
  pose proof (inv_pos _ _ _ _ H). lia.
Qed.

(** A state in which the dispatcher has work: process 0 of [table_two]
    entered the ready queue at time 0 and the CPU is free at time 4. *)
Definition sim_demo : Sim :=
  mkSim table_two (eventHeap_init 8)
        (mkRQ (upd (repeat 0 12) 0 0) 12 0 0 1) 4 0 0 (-1) 0 0 [].

Lemma C1_witness :
  running_pid sim_demo < 0 /\
  rq_list (readyQ sim_demo) = [0] /\
  rq_list (readyQ (schedule_next sim_demo 3)) = [] /\
  wait_time (get_proc (g_processes (schedule_next sim_demo 3)) 0) = 0 + (4 - 0) /\
  trace (schedule_next sim_demo 3) =
    [ObsDispatch 0 4 4 3; ObsPush (mkEvent 7 EVT_CPU_TIMEOUT 0)].
Proof.
  assert (Hrq : rq_wf (readyQ sim_demo))
    by (unfold rq_wf; cbn; repeat split; lia).
  pose proof (C1_dispatch sim_demo 3 0 [] ltac:(cbn; lia) Hrq eq_refl
                ltac:(cbn; lia) (eventHeap_init_wf _ _) ltac:(cbn; lia)) as H.
  cbv zeta in H. destruct H as (H1 & _ & _ & _ & _ & _ & H7).
  destruct H7 as (Hw & _ & Htr);
    [vm_compute; split; discriminate | vm_compute; split; discriminate
     | vm_compute; split; discriminate |].
  split; [cbn; lia|]. split; [reflexivity|]. split; [exact H1|].
  split; [exact Hw | exact Htr].
Defined.


(* ------------------------------------------------------------------ *)
(** ** Sums of bursts *)

Definition sum (l : list Z) : Z := fold_right Z.add 0 l.

Lemma sum_app l1 l2 : sum (l1 ++ l2) = sum l1 + sum l2.
Proof. unfold sum. induction l1 as [|x l1 IH]; simpl; lia. Qed.

(** The sum of the first [k] entries of a burst array. *)
Definition prefix_sum (arr : list Z) (k : Z) : Z := sum (firstn (Z.to_nat k) arr).

Lemma sum_cons x l : sum (x :: l) = x + sum l.
Proof. reflexivity. Qed.

Lemma sum_firstn_succ (l : list Z) i :
  sum (firstn (S i) l) = sum (firstn i l) + nth i l 0.
Proof.
  revert i; induction l as [|x l IH]; intros i.
  - rewrite !firstn_nil. destruct i; reflexivity.
  - rewrite firstn_cons. destruct i as [|i].
    + rewrite firstn_O. cbn [firstn nth]. rewrite sum_cons. unfold sum; simpl. lia.
    + rewrite firstn_cons, !sum_cons, IH. cbn [nth]. lia.
Qed.

Lemma prefix_sum_succ arr k :
  0 <= k -> prefix_sum arr (k + 1) = prefix_sum arr k + burst_at arr k.
Proof.
  intros Hk. unfold prefix_sum, burst_at.
  replace (Z.to_nat (k + 1)) with (S (Z.to_nat k)) by lia.
  apply sum_firstn_succ.
Qed.

Lemma prefix_sum_nonpos arr k : k <= 0 -> prefix_sum arr k = 0.
Proof.
  intros Hk. unfold prefix_sum. replace (Z.to_nat k) with O by lia. reflexivity.
Qed.

Lemma sum_upd (l : list Z) i x :
  (i < length l)%nat -> sum (upd l i x) = sum l - nth i l 0 + x.
Proof.
  revert i; induction l as [|h t IH]; intros [|i] H; cbn [upd nth length] in *;
    try lia; rewrite !sum_cons.
  - lia.
  - rewrite IH by lia. lia.
Qed.

Lemma sum_zeros_beyond (l : list Z) k :
  (forall j, (k <= j)%nat -> nth j l 0 = 0) -> sum l = sum (firstn k l).
Proof.
  revert k; induction l as [|h t IH]; intros k H.
  - rewrite firstn_nil. reflexivity.
  - destruct k as [|k].
    + rewrite firstn_O, sum_cons.
      pose proof (H O ltac:(lia)) as H0. cbn [nth] in H0.
      rewrite (IH O), firstn_O by (intros j Hj; apply (H (S j)); lia).
      unfold sum; simpl. lia.
    + rewrite firstn_cons, !sum_cons. f_equal.
      apply IH. intros j Hj. apply (H (S j)). lia.
Qed.

Lemma sum_nonneg l : Forall (fun x => 0 <= x) l -> 0 <= sum l.
Proof.
  induction 1 as [|x l Hx Hl IH]; [unfold sum; simpl; lia|].
  rewrite sum_cons. lia.
Qed.

Lemma sum_perm l l' : Permutation l l' -> sum l = sum l'.
Proof.
  induction 1; rewrite ?sum_cons in *; lia.
Qed.

(* ------------------------------------------------------------------ *)
(** ** Inputs that are not negative *)

Definition nonneg_bursts (pc : PCB) : Prop :=
  Forall (fun b => 0 <= b) (cpu_bursts pc) /\
  Forall (fun b => 0 <= b) (io_bursts pc).

(** An input whose arrival times and burst durations are not negative. *)
Definition nonneg_input (g : list PCB) : Prop :=
  Forall (fun pc => 0 <= arrival_time pc /\ nonneg_bursts pc) g.

Definition time_ok (pc : PCB) : Prop :=
  nonneg_bursts pc /\ 0 <= remaining_cpu pc.

Lemma burst_at_nonneg arr i : Forall (fun b => 0 <= b) arr -> 0 <= burst_at arr i.
Proof.
  intros H. unfold burst_at.
  destruct (Nat.lt_ge_cases (Z.to_nat i) (length arr)) as [Hin|Hout].
  - rewrite Forall_forall in H. apply H, nth_In, Hin.
  - rewrite nth_overflow by assumption. lia.
Qed.

Lemma time_ok_zero : time_ok PCB_zero.
Proof.
  unfold time_ok, nonneg_bursts, PCB_zero;
    cbn [cpu_bursts io_bursts remaining_cpu]. repeat split; try lia;
    apply Forall_forall; intros x Hx; apply repeat_spec in Hx; lia.
Qed.

(* ------------------------------------------------------------------ *)
(** ** What the reader delivers *)

(** The run-time fields of a PCB as [read_input_file] leaves them. *)
Definition fresh (pc : PCB) : Prop :=
  current_burst pc = 0 /\
  remaining_cpu pc = burst_at (cpu_bursts pc) 0 /\
  wait_time pc = 0 /\ finish_time pc = 0 /\
  last_ready_time pc = 0 /\ start_run_time pc = 0 /\
  0 <= num_bursts pc /\
  (num_bursts pc = 0 -> burst_at (cpu_bursts pc) 0 = 0).

Lemma read_bursts_first k : forall toks cpus ios total ci ii cpus' ios' total' ci' rest,
  (length toks <= k)%nat ->
  read_bursts toks cpus ios total ci ii = Some (cpus', ios', total', ci', rest) ->
  (ci <= ci')%nat /\ (ci' = ci -> cpus' = cpus) /\
  (forall j, (j < ci)%nat -> nth j cpus' 0 = nth j cpus 0).
Proof.
  induction k as [|k IH]; intros toks cpus ios total ci ii cpus' ios' total' ci' rest
                                     Hlen H.
  - destruct toks; [discriminate | simpl in Hlen; lia].
  - destruct toks as [|cpu toks]; [discriminate|]. cbn [read_bursts] in H.
    destruct (in_int cpu) eqn:Ecpu; [|discriminate]. cbn [negb] in H.
    destruct (cpu =? -1).
    + injection H as <- <- <- <- <-. repeat split; auto.
    + destruct (MAX_BURSTS <=? ci)%nat; [discriminate|].
      destruct toks as [|io toks]; [discriminate|].
      destruct (in_int io) eqn:Eio; [|discriminate]. cbn [negb] in H.
      destruct (io =? -1).
      * injection H as <- <- <- <- <-. repeat split; try lia.
        intros j Hj. apply nth_upd_neq. lia.
      * destruct (MAX_BURSTS <=? ii)%nat; [discriminate|].
        apply IH in H; [|simpl in Hlen; lia].
        destruct H as (H1 & _ & H3). repeat split; try lia.
        intros j Hj. rewrite H3 by lia. apply nth_upd_neq. lia.
Qed.

Lemma read_process_fresh toks pc rest :
  read_process toks = Some (pc, rest) -> fresh pc.
Proof.
  unfold read_process. destruct toks as [|p [|arrival toks]]; try discriminate.
  destruct (in_int p && in_int arrival) eqn:Epa; [|discriminate]. cbn [negb].
  destruct (read_bursts _ _ _ _ _ _) as [[[[[cpus ios] total] ci] rest']|] eqn:E;
    [|discriminate].
  intros H; injection H as <- <-.
  destruct (read_bursts_first _ _ _ _ _ _ _ _ _ _ _ _ (Nat.le_refl _) E)
    as (_ & Hz & _).
  unfold fresh; cbn. repeat split; try lia.
  intros Hn. rewrite Hz by lia. reflexivity.
Qed.

(** What holds of every process as it is read holds of the table. *)
Lemma read_processes_Forall (P : PCB -> Prop) :
  (forall toks pc rest, read_process toks = Some (pc, rest) -> P pc) ->
  forall k toks ps, read_processes k toks = Some ps -> Forall P ps.
Proof.
  intros HP. induction k as [|k IH]; intros toks ps H; simpl in H.
  - injection H as <-. constructor.
  - destruct (read_process toks) as [[pc rest]|] eqn:E1; [|discriminate].
    destruct (read_processes k rest) as [ps'|] eqn:E2; [|discriminate].
    injection H as <-. constructor.
    + eapply HP; eassumption.
    + eapply IH; eassumption.
Qed.

Lemma read_input_file_Forall (P : PCB -> Prop) input n g :
  (forall toks pc rest, read_process toks = Some (pc, rest) -> P pc) ->
  read_input_file input = Some (n, g) -> Forall P g.
Proof.
  intros HP E.
  destruct (read_input_file_cases _ _ _ E) as [[_ ->] | (_ & _ & rest & _ & Er)];
    [constructor|].
  eapply read_processes_Forall; eassumption.
Qed.

Lemma read_input_file_fresh input n g :
  read_input_file input = Some (n, g) -> Forall fresh g.
Proof. apply read_input_file_Forall. exact read_process_fresh. Qed.

(** The bursts a process executes before it exits: all its CPU bursts and
    the I/O bursts between them. *)
Definition exec_total (pc : PCB) : Z :=
  prefix_sum (cpu_bursts pc) (num_bursts pc)
  + prefix_sum (io_bursts pc) (num_bursts pc - 1).

(** The I/O burst the reader found after the last CPU burst (0 without). *)
Definition trailing_io (pc : PCB) : Z :=
  if num_bursts pc =? 0 then 0
  else burst_at (io_bursts pc) (num_bursts pc - 1).

Lemma read_bursts_total k :
  forall toks cpus ios total ci ii cpus' ios' total' ci' rest,
  (length toks <= k)%nat ->
  length cpus = MAX_BURSTS -> length ios = MAX_BURSTS -> (ii <= ci)%nat ->
  (forall j, (ci <= j)%nat -> nth j cpus 0 = 0) ->
  (forall j, (ii <= j)%nat -> nth j ios 0 = 0) ->
  total = to_int (sum cpus + sum ios) ->
  read_bursts toks cpus ios total ci ii = Some (cpus', ios', total', ci', rest) ->
  total' = to_int (sum cpus' + sum ios') /\
  (forall j, (ci' <= j)%nat -> nth j cpus' 0 = 0) /\
  (forall j, (ci' <= j)%nat -> nth j ios' 0 = 0).
Proof.
  induction k as [|k IH];
    intros toks cpus ios total ci ii cpus' ios' total' ci' rest
           Hlen Hlc Hli Hle Hzc Hzi Ht H.
  - destruct toks; [discriminate | simpl in Hlen; lia].
  - destruct toks as [|cpu toks]; [discriminate|]. cbn [read_bursts] in H.
    destruct (in_int cpu) eqn:Ecpu; [|discriminate]. cbn [negb] in H.
    destruct (cpu =? -1).
    + injection H as <- <- <- <- <-. repeat split; auto.
      intros j Hj. apply Hzi. lia.
    + destruct (Nat.leb_spec MAX_BURSTS ci) as [|Hci]; [discriminate|].
      assert (Hzc1 : forall j, (S ci <= j)%nat -> nth j (upd cpus ci cpu) 0 = 0)
        by (intros j Hj; rewrite nth_upd_neq by lia; apply Hzc; lia).
      assert (Ht1 : to_int (total + cpu) = to_int (sum (upd cpus ci cpu) + sum ios)).
      { rewrite Ht, to_int_add_l. f_equal.
        rewrite sum_upd by lia. rewrite (Hzc ci) by lia. lia. }
      destruct toks as [|io toks]; [discriminate|].
      destruct (in_int io) eqn:Eio; [|discriminate]. cbn [negb] in H.
      destruct (io =? -1).
      * injection H as <- <- <- <- <-. repeat split; auto.
        intros j Hj. apply Hzi. lia.
      * destruct (Nat.leb_spec MAX_BURSTS ii) as [|Hii]; [discriminate|].
        eapply IH in H; try eassumption.
        -- simpl in Hlen; lia.
        -- rewrite upd_length; assumption.
        -- rewrite upd_length; assumption.
        -- lia.
        -- intros j Hj. rewrite nth_upd_neq by lia. apply Hzi. lia.
        -- rewrite Ht1, to_int_add_l. f_equal.
           rewrite (sum_upd ios) by lia. rewrite (Hzi ii) by lia. lia.
Qed.

(** What the reader stores in [total_cpu_io], an [int]: the executed
    bursts and the trailing I/O burst, that is all the bursts of the two
    arrays, narrowed. *)
Definition total_int (pc : PCB) : Prop :=
  total_cpu_io pc = to_int (exec_total pc + trailing_io pc) /\
  sum (cpu_bursts pc) + sum (io_bursts pc) = exec_total pc + trailing_io pc.

Lemma read_process_total toks pc rest :
  read_process toks = Some (pc, rest) -> total_int pc.
Proof.
  unfold read_process. destruct toks as [|p [|arrival toks]]; try discriminate.
  destruct (in_int p && in_int arrival) eqn:Epa; [|discriminate]. cbn [negb].
  destruct (read_bursts _ _ _ _ _ _) as [[[[[cpus ios] total] ci] rest']|] eqn:E;
    [|discriminate].
  intros H; injection H as <- <-.
  eapply read_bursts_total in E; try apply Nat.le_refl; try reflexivity;
    try (intros j _; apply nth_repeat).
  destruct E as (Ht & Hzc & Hzi).
  assert (Hs : sum cpus + sum ios
               = exec_total (mkPCB p arrival (Z.of_nat ci) cpus ios 0
                                   (burst_at cpus 0) total 0 0 0 0)
                 + trailing_io (mkPCB p arrival (Z.of_nat ci) cpus ios 0
                                      (burst_at cpus 0) total 0 0 0 0)).
  { unfold exec_total, trailing_io, prefix_sum;
      cbn [cpu_bursts io_bursts num_bursts].
    rewrite Nat2Z.id.
    rewrite (sum_zeros_beyond cpus ci Hzc), (sum_zeros_beyond ios ci Hzi).
    destruct ci as [|ci]; [reflexivity|].
    replace (Z.of_nat (S ci) =? 0) with false by (symmetry; apply Z.eqb_neq; lia).
    replace (Z.to_nat (Z.of_nat (S ci) - 1)) with ci by lia.
    unfold burst_at. replace (Z.to_nat (Z.of_nat (S ci) - 1)) with ci by lia.
    rewrite (sum_firstn_succ ios). lia. }
  split; [|exact Hs]. cbn [total_cpu_io cpu_bursts io_bursts] in *.
  rewrite <- Hs. exact Ht.
Qed.

Lemma read_input_file_total input n g :
  read_input_file input = Some (n, g) -> Forall total_int g.
Proof. apply read_input_file_Forall. exact read_process_total. Qed.

Lemma read_bursts_shape k :
  forall toks cpus ios total ci ii cpus' ios' total' ci' rest,
  (length toks <= k)%nat -> (ci <= MAX_BURSTS)%nat ->
  read_bursts toks cpus ios total ci ii = Some (cpus', ios', total', ci', rest) ->
  length cpus' = length cpus /\ length ios' = length ios /\
  (ci' <= MAX_BURSTS)%nat /\ (length rest < length toks)%nat.
Proof.
  induction k as [|k IH];
    intros toks cpus ios total ci ii cpus' ios' total' ci' rest Hlen Hci H.
  - destruct toks; [discriminate | simpl in Hlen; lia].
  - destruct toks as [|cpu toks]; [discriminate|]. cbn [read_bursts] in H.
    destruct (in_int cpu) eqn:Ecpu; [|discriminate]. cbn [negb] in H.
    destruct (cpu =? -1).
    + injection H as <- <- <- <- <-. cbn [length]. repeat split; auto.
    + destruct (Nat.leb_spec MAX_BURSTS ci) as [|Hlt]; [discriminate|].
      destruct toks as [|io toks]; [discriminate|].
      destruct (in_int io) eqn:Eio; [|discriminate]. cbn [negb] in H.
      destruct (io =? -1).
      * injection H as <- <- <- <- <-. rewrite upd_length. cbn [length].
        repeat split; auto; lia.
      * destruct (MAX_BURSTS <=? ii)%nat; [discriminate|].
        apply IH in H; [|simpl in Hlen; lia | lia].
        rewrite !upd_length in H. cbn [length]. repeat split; try tauto; lia.
Qed.

(** The arrays of a PCB of the table: 32 slots each, of which the first
    [num_bursts] are in use. *)
Definition arrays_ok (pc : PCB) : Prop :=
  length (cpu_bursts pc) = MAX_BURSTS /\ length (io_bursts pc) = MAX_BURSTS /\
  0 <= num_bursts pc <= Z.of_nat MAX_BURSTS.

Lemma read_process_arrays toks pc rest :
  read_process toks = Some (pc, rest) ->
  arrays_ok pc /\ (length rest < length toks)%nat.
Proof.
  unfold read_process. destruct toks as [|p [|arrival toks]]; try discriminate.
  destruct (in_int p && in_int arrival) eqn:Epa; [|discriminate]. cbn [negb].
  destruct (read_bursts _ _ _ _ _ _) as [[[[[cpus ios] total] ci] rest']|] eqn:E;
    [|discriminate].
  intros H; injection H as <- <-.
  apply (read_bursts_shape _ _ _ _ _ _ _ _ _ _ _ _ (Nat.le_refl _)) in E;
    [|unfold MAX_BURSTS; lia].
  destruct E as (H1 & H2 & H3 & H4).
  unfold arrays_ok. cbn [cpu_bursts io_bursts num_bursts length] in *.
  rewrite H1, H2. repeat split; try reflexivity; lia.
Qed.


Lemma read_input_file_arrays input n g :
  read_input_file input = Some (n, g) -> Forall arrays_ok g.
Proof.
  apply read_input_file_Forall. intros toks pc rest H.
  eapply read_process_arrays; eassumption.
Qed.

(** Every number of the table is the value of an [int]. *)
Definition pcb_fits (pc : PCB) : Prop :=
  fits (id pc) /\ fits (arrival_time pc) /\
  Forall fits (cpu_bursts pc) /\ Forall fits (io_bursts pc) /\
  fits (total_cpu_io pc) /\ fits (remaining_cpu pc).

Lemma read_bursts_fits k :
  forall toks cpus ios total ci ii cpus' ios' total' ci' rest,
  (length toks <= k)%nat ->
  Forall fits cpus -> Forall fits ios -> fits total ->
  read_bursts toks cpus ios total ci ii = Some (cpus', ios', total', ci', rest) ->
  Forall fits cpus' /\ Forall fits ios' /\ fits total'.
Proof.
  induction k as [|k IH];
    intros toks cpus ios total ci ii cpus' ios' total' ci' rest Hlen Hc Hi Ht H.
  - destruct toks; [discriminate | simpl in Hlen; lia].
  - destruct toks as [|cpu toks]; [discriminate|]. cbn [read_bursts] in H.
    destruct (in_int cpu) eqn:Ecpu; [|discriminate]. cbn [negb] in H.
    apply in_int_fits in Ecpu.
    destruct (cpu =? -1).
    + injection H as <- <- <- <- <-. auto.
    + destruct (MAX_BURSTS <=? ci)%nat; [discriminate|].
      destruct toks as [|io toks]; [discriminate|].
      destruct (in_int io) eqn:Eio; [|discriminate]. cbn [negb] in H.
      apply in_int_fits in Eio.
      destruct (io =? -1).
      * injection H as <- <- <- <- <-.
        split; [apply Forall_upd; assumption|]. split; [assumption|].
        apply to_int_range.
      * destruct (MAX_BURSTS <=? ii)%nat; [discriminate|].
        eapply IH in H; try eassumption.
        -- simpl in Hlen; lia.
        -- apply Forall_upd; assumption.
        -- apply Forall_upd; assumption.
        -- apply to_int_range.
Qed.

Lemma Forall_repeat {A} (P : A -> Prop) x n : P x -> Forall P (repeat x n).
Proof. intros H. induction n; simpl; constructor; auto. Qed.

Lemma burst_at_fits arr i : Forall fits arr -> fits (burst_at arr i).
Proof.
  intros H. unfold burst_at.
  destruct (Nat.lt_ge_cases (Z.to_nat i) (length arr)) as [Hin|Hout].
  - rewrite Forall_forall in H. apply H, nth_In, Hin.
  - rewrite nth_overflow by assumption. apply fits_0.
Qed.

Lemma read_process_fits toks pc rest :
  read_process toks = Some (pc, rest) -> pcb_fits pc.
Proof.
  unfold read_process. destruct toks as [|p [|arrival toks]]; try discriminate.
  destruct (in_int p && in_int arrival) eqn:Epa; [|discriminate]. cbn [negb].
  apply andb_prop in Epa. destruct Epa as [Ep Ea].
  apply in_int_fits in Ep, Ea.
  destruct (read_bursts _ _ _ _ _ _) as [[[[[cpus ios] total] ci] rest']|] eqn:E;
    [|discriminate].
  intros H; injection H as <- <-.
  apply (read_bursts_fits _ _ _ _ _ _ _ _ _ _ _ _ (Nat.le_refl _)) in E;
    try (apply Forall_repeat, fits_0); try apply fits_0.
  destruct E as (Hc & Hi & Ht).
  unfold pcb_fits. cbn. repeat split; auto; try apply Hc; try apply Hi;
    try apply Ht; try apply Ep; try apply Ea;
    apply (burst_at_fits cpus 0 Hc).
Qed.

Lemma read_input_file_fits input n g :
  read_input_file input = Some (n, g) -> Forall pcb_fits g.
Proof. apply read_input_file_Forall. exact read_process_fits. Qed.

(** X19.  Whatever file the reader accepts with a positive count [n]: the
    table has [n] entries; in each the run-time fields are zero, the
    current burst is the first and [remaining_cpu] is its length; the
    arrays keep their 32 slots and at most 32 bursts are counted; every
    number is the value of an [int]; and [total_cpu_io] is the sum of
    the CPU bursts, of the I/O bursts between them and of the I/O burst
    that may follow the last CPU burst, narrowed to an [int], so the sum
    itself when that fits.  A count that is not positive gives an empty
    table and the count 0. *)
Theorem read_input_file_table input n g :
  read_input_file input = Some (n, g) ->
  (0 < n ->
   length g = Z.to_nat n /\
   Forall (fun pc => fresh pc /\ arrays_ok pc /\ pcb_fits pc /\
                     total_cpu_io pc = to_int (exec_total pc + trailing_io pc) /\
                     (fits (exec_total pc + trailing_io pc) ->
                      total_cpu_io pc = exec_total pc + trailing_io pc)) g) /\
  (n <= 0 -> n = 0 /\ g = []).
Proof.
  intros E. split.
  - intros Hn. split; [eapply read_input_file_length; eassumption|].
    pose proof (read_input_file_fresh _ _ _ E) as Hf.
    pose proof (read_input_file_total _ _ _ E) as Ht.
    pose proof (read_input_file_arrays _ _ _ E) as Ha.
    pose proof (read_input_file_fits _ _ _ E) as Hi.
    rewrite Forall_forall in *. intros pc Hin.
    destruct (Ht pc Hin) as [Ht1 _].
    split; [apply Hf; assumption|]. split; [apply Ha; assumption|].
    split; [apply Hi; assumption|]. split; [exact Ht1|].
    intros Hfit. rewrite Ht1. apply to_int_fits. exact Hfit.
  - intros Hn.
    destruct (read_input_file_cases _ _ _ E) as [[-> ->] | (Hp & _)]; [auto | lia].
Qed.

Lemma read_input_file_table_witness :
  length table_two = Z.to_nat 2 /\
  Forall (fun pc => fresh pc /\ arrays_ok pc /\ pcb_fits pc /\
                    total_cpu_io pc = to_int (exec_total pc + trailing_io pc) /\
                    (fits (exec_total pc + trailing_io pc) ->
                     total_cpu_io pc = exec_total pc + trailing_io pc)) table_two.
Proof.
  apply (read_input_file_table input_two 2 table_two eq_refl). lia.
Defined.

(* ------------------------------------------------------------------ *)
(** ** The input format *)

(** A burst array of the table: the values read, then zeros. *)
Definition pad (l : list Z) : list Z := l ++ repeat 0 (MAX_BURSTS - length l).

(** The bursts of a process as they stand in the file: CPU and I/O times
    in turn, from the first CPU time on, then the marker -1.  The list
    ends after a CPU time when [ios] is one shorter than [cpus], and
    after an I/O time when they are as long. *)
Fixpoint burst_tokens (cpus ios : list Z) : list Z :=
  match cpus with
  | [] => [-1]
  | c :: cpus' =>
    c :: match ios with
         | [] => [-1]
         | i :: ios' => i :: burst_tokens cpus' ios'
         end
  end.

(** A process of the file: external id, arrival time, CPU times, I/O times. *)
Definition ProcLine : Type := Z * Z * list Z * list Z.

Definition proc_tokens (l : ProcLine) : list Z :=
  let '(p, a, cpus, ios) := l in p :: a :: burst_tokens cpus ios.

(** The table entry of a process of the file; [total_cpu_io] is an
    [int]. *)
Definition proc_pcb (l : ProcLine) : PCB :=
  let '(p, a, cpus, ios) := l in
  mkPCB p a (Z.of_nat (length cpus)) (pad cpus) (pad ios)
        0 (hd 0 cpus) (to_int (sum cpus + sum ios)) 0 0 0 0.

(** What the reader can take: every number is the value of an [int], no
    time is the marker, the I/O times end with the CPU times or one
    before, and the arrays hold the bursts. *)
Definition proc_line_ok (l : ProcLine) : Prop :=
  let '(p, a, cpus, ios) := l in
  fits p /\ fits a /\ Forall fits cpus /\ Forall fits ios /\
  ~ In (-1) cpus /\ ~ In (-1) ios /\
  (length cpus <= MAX_BURSTS)%nat /\
  (length ios <= length cpus <= S (length ios))%nat.

Lemma upd_app_at {A} (l : list A) x y t :
  upd (l ++ x :: t) (length l) y = l ++ y :: t.
Proof. induction l as [|h l IH]; cbn [app length upd]; [|rewrite IH]; reflexivity. Qed.

Lemma upd_pad l x :
  (length l < MAX_BURSTS)%nat -> upd (pad l) (length l) x = pad (l ++ [x]).
Proof.
  intros H. unfold pad. rewrite length_app. cbn [length].
  replace (MAX_BURSTS - length l)%nat with (S (MAX_BURSTS - (length l + 1))) by lia.
  cbn [repeat]. rewrite upd_app_at, <- app_assoc. reflexivity.
Qed.

Lemma read_bursts_tokens cpus : forall ios A B total rest,
  Forall fits cpus -> Forall fits ios -> fits total ->
  ~ In (-1) cpus -> ~ In (-1) ios ->
  (length A + length cpus <= MAX_BURSTS)%nat ->
  (length B + length ios <= MAX_BURSTS)%nat ->
  (length ios <= length cpus <= S (length ios))%nat ->
  read_bursts (burst_tokens cpus ios ++ rest) (pad A) (pad B) total
              (length A) (length B)
  = Some (pad (A ++ cpus), pad (B ++ ios), to_int (total + sum cpus + sum ios),
          (length A + length cpus)%nat, rest).
Proof.
  induction cpus as [|c cpus IH]; intros ios A B total rest Hfc Hfi Hft Hc Hi HA HB Hlen.
  - destruct ios as [|i ios]; [|cbn [length] in Hlen; lia].
    cbn. rewrite !app_nil_r, Nat.add_0_r, !Z.add_0_r.
    rewrite to_int_fits by assumption. reflexivity.
  - cbn [burst_tokens app read_bursts length] in *.
    pose proof (Forall_inv Hfc) as Hc0. apply in_int_fits in Hc0. rewrite Hc0.
    cbn [negb].
    destruct (Z.eqb_spec c (-1)) as [->|_]; [exfalso; apply Hc; left; reflexivity|].
    destruct (Nat.leb_spec MAX_BURSTS (length A)); [lia|].
    rewrite upd_pad by lia.
    destruct ios as [|i ios].
    + cbn [app]. change (in_int (-1)) with true. cbn [negb]. rewrite Z.eqb_refl.
      assert (cpus = []) as -> by (destruct cpus; [reflexivity | cbn in Hlen; lia]).
      rewrite app_nil_r. cbn [length]. unfold sum. cbn [fold_right].
      replace (total + (c + 0) + 0) with (total + c) by lia.
      replace (length A + 1)%nat with (S (length A)) by lia. reflexivity.
    + cbn [app length] in *.
      pose proof (Forall_inv Hfi) as Hi0. apply in_int_fits in Hi0. rewrite Hi0.
      cbn [negb].
      destruct (Z.eqb_spec i (-1)) as [->|_]; [exfalso; apply Hi; left; reflexivity|].
      destruct (Nat.leb_spec MAX_BURSTS (length B)); [lia|].
      rewrite upd_pad by lia.
      replace (S (length A)) with (length (A ++ [c])) by (rewrite length_app; cbn; lia).
      replace (S (length B)) with (length (B ++ [i])) by (rewrite length_app; cbn; lia).
      rewrite IH; try (rewrite length_app; cbn [length]); try lia;
        try (intros Hin; (apply Hc + apply Hi); right; exact Hin);
        try apply (Forall_inv_tail Hfc); try apply (Forall_inv_tail Hfi);
        try apply to_int_range.
      rewrite <- !app_assoc, !sum_cons. cbn [app].
      assert (Et : to_int (to_int (to_int (total + c) + i) + sum cpus + sum ios)
                   = to_int (total + (c + sum cpus) + (i + sum ios))).
      { replace (to_int (to_int (total + c) + i) + sum cpus + sum ios)
          with (to_int (to_int (total + c) + i) + (sum cpus + sum ios)) by lia.
        rewrite to_int_add_l.
        replace (to_int (total + c) + i + (sum cpus + sum ios))
          with (to_int (total + c) + (i + (sum cpus + sum ios))) by lia.
        rewrite to_int_add_l. f_equal. lia. }
      rewrite Et.
      replace (length A + 1 + length cpus)%nat
        with (length A + S (length cpus))%nat by lia.
      reflexivity.
Qed.

Lemma read_process_tokens l rest :
  proc_line_ok l ->
  read_process (proc_tokens l ++ rest) = Some (proc_pcb l, rest).
Proof.
  destruct l as [[[p a] cpus] ios].
  intros (Hp & Ha & Hfc & Hfi & Hc & Hi & Hlen & Hio).
  unfold proc_tokens, read_process. cbn [app].
  apply in_int_fits in Hp, Ha. rewrite Hp, Ha. cbn [andb negb].
  change (cpu_bursts PCB_zero) with (pad []).
  change (io_bursts PCB_zero) with (pad []).
  change 0%nat with (@length Z []) at 1 2.
  rewrite read_bursts_tokens by (cbn [length]; auto using fits_0; lia).
  cbn [app length Nat.add proc_pcb].
  replace (burst_at (pad cpus) 0) with (hd 0 cpus)
    by (unfold burst_at, pad; destruct cpus; reflexivity).
  rewrite Z.add_0_l. reflexivity.
Qed.

Lemma read_processes_tokens ls : forall rest,
  Forall proc_line_ok ls ->
  read_processes (length ls) (flat_map proc_tokens ls ++ rest)
  = Some (map proc_pcb ls).
Proof.
  induction ls as [|l ls IH]; intros rest H; [reflexivity|].
  cbn [length flat_map read_processes map].
  rewrite <- app_assoc, read_process_tokens by (apply (Forall_inv H)).
  rewrite IH by (apply (Forall_inv_tail H)). reflexivity.
Qed.

(** X18.  Reading the documented format.  From a file that gives the number
    of processes and then, for each, its external id, its arrival time and
    its bursts up to the marker, all of them values of an [int], the
    reader builds the table entry by entry: identifier and arrival as
    given, [num_bursts] the number of CPU times, the two arrays filled
    from index 0 and zero beyond, [remaining_cpu] the first CPU time,
    [total_cpu_io] the sum of all the times of the line (a trailing I/O
    time included) narrowed to an [int], every other field zero.  What
    follows the last process is not looked at. *)
Theorem read_input_file_format ls rest :
  ls <> [] -> Z.of_nat (length ls) <= INT_MAX -> Forall proc_line_ok ls ->
  read_input_file (Z.of_nat (length ls) :: flat_map proc_tokens ls ++ rest)
  = Some (Z.of_nat (length ls), map proc_pcb ls).
Proof.
  intros Hne Hmax H. unfold read_input_file.
  assert (Hn : in_int (Z.of_nat (length ls)) = true)
    by (apply in_int_fits; unfold fits, INT_MIN; lia).
  rewrite Hn. cbn [negb].
  destruct (Z.leb_spec (Z.of_nat (length ls)) 0) as [Hz|_].
  - destruct ls; [congruence | cbn [length] in Hz; lia].
  - rewrite Nat2Z.id, read_processes_tokens by assumption. reflexivity.
Qed.

Lemma read_input_file_format_witness :
  read_input_file [2; 1; 0; 10; -1; 2; 1; 4; 7; 3; -1; 99]
  = Some (2, map proc_pcb [(1, 0, [10], []); (2, 1, [4; 3], [7])]) /\
  total_cpu_io (proc_pcb (2, 1, [4; 3], [7])) = 14.
Proof.
  split; [|reflexivity].
  apply (read_input_file_format [(1, 0, [10], []); (2, 1, [4; 3], [7])] [99]).
  - discriminate.
  - vm_compute. discriminate.
  - repeat constructor; cbn; try lia; try discriminate;
      intros H; repeat (destruct H as [H|H]; [discriminate H|]); exact H.
Defined.


(* ------------------------------------------------------------------ *)
(** ** The handlers and the table *)

(** An update of entry [p] is not seen from the other entries. *)
Lemma Forall_frame {X} (P : PCB -> X -> Prop) (key : X -> Z) G p f l :
  0 <= p ->
  Forall (fun x => P (get_proc G (key x)) x) l ->
  Forall (fun x => 0 <= key x /\ key x <> p) l ->
  Forall (fun x => P (get_proc (upd_proc G p f) (key x)) x) l.
Proof.
  intros Hp H1 H2. rewrite Forall_forall in *. intros x Hx.
  destruct (H2 x Hx) as [H0 Hne].
  rewrite get_upd_proc_other by auto. apply H1. assumption.
Qed.

(** The pid in the hand of a handler is valid and occurs neither in the
    heap nor in the ready queue. *)
Lemma hand_apart n g0 p s :
  sim_inv n g0 [p] s ->
  0 <= p < n /\
  Forall (fun e => 0 <= pid e /\ pid e <> p) (contents (eventQ s)) /\
  Forall (fun p' => 0 <= p' /\ p' <> p) (rq_list (readyQ s)).
Proof.
  intros H. destruct (inv_tokens _ _ _ _ H) as (Hnd & Hv & _).
  cbn [app] in Hnd, Hv. unfold pending in *.
  apply NoDup_cons_iff in Hnd. destruct Hnd as [Hnin _].
  pose proof (Forall_inv Hv) as Hp. apply Forall_inv_tail in Hv.
  rewrite Forall_forall in Hv.
  split; [assumption|]. split; apply Forall_forall.
  - intros e He.
    assert (Hin : In (pid e) (map pid (contents (eventQ s)) ++ rq_list (readyQ s)))
      by (apply in_or_app; left; apply in_map; assumption).
    split; [apply Hv in Hin; lia|]. intros E. apply Hnin. rewrite <- E. assumption.
  - intros p' Hp'.
    assert (Hin : In p' (map pid (contents (eventQ s)) ++ rq_list (readyQ s)))
      by (apply in_or_app; right; assumption).
    split; [apply Hv in Hin; lia|]. intros E. apply Hnin. rewrite <- E. assumption.
Qed.

Lemma sim_inv_table_length n g0 hand s :
  sim_inv n g0 hand s -> Z.of_nat (length (g_processes s)) = n.
Proof.
  intros H. rewrite (frozen_length _ _ (inv_frozen _ _ _ _ H)).
  rewrite (inv_len _ _ _ _ H). pose proof (inv_pos _ _ _ _ H). lia.
Qed.

(** Reading a field of an updated PCB. *)
Ltac pcb_simpl :=
  cbn [id arrival_time num_bursts cpu_bursts io_bursts current_burst
       remaining_cpu total_cpu_io wait_time finish_time last_ready_time
       start_run_time set_current_burst set_remaining_cpu set_wait_time
       set_finish_time set_last_ready_time set_start_run_time] in *.

(** The time charged when a slice ends: [used_time], an [int], after its
    clamp at 0. *)
Definition used_time (s : Sim) (p : Z) : Z :=
  Z.max 0 (to_int (current_time s - start_run_time (get_proc (g_processes s) p))).

(** What is left of a burst of [rem] after [used] was taken off: the
    difference, an [int], after its clamp at 0. *)
Definition rem_after (rem used : Z) : Z := Z.max 0 (to_int (rem - used)).

Lemma release_cpu_table s p :
  g_processes (release_cpu s p) =
  upd_proc (g_processes s) p
    (fun pc => set_remaining_cpu pc (rem_after (remaining_cpu pc) (used_time s p))).
Proof.
  unfold release_cpu, used_time, rem_after. cbn [g_processes].
  set (u := if _ <? 0 then 0 else _).
  assert (Hu : u = Z.max 0 (to_int (current_time s
                            - start_run_time (get_proc (g_processes s) p))))
    by (unfold u; destruct (Z.ltb_spec
          (to_int (current_time s
                   - start_run_time (get_proc (g_processes s) p))) 0); lia).
  rewrite <- Hu. clearbody u.
  destruct (Nat.lt_ge_cases (Z.to_nat p) (length (g_processes s))) as [Hin|Hout].
  - rewrite get_upd_proc_in by assumption. cbn [remaining_cpu set_remaining_cpu].
    destruct (Z.ltb_spec (to_int (remaining_cpu (get_proc (g_processes s) p) - u)) 0).
    + rewrite upd_proc_twice. unfold upd_proc. f_equal.
      unfold set_remaining_cpu; cbn. f_equal. lia.
    + unfold upd_proc. f_equal. unfold set_remaining_cpu. f_equal. lia.
  - rewrite !upd_proc_out by (rewrite ?upd_proc_length; assumption).
    rewrite get_proc_out by assumption. cbn. reflexivity.
Qed.

Lemma release_cpu_fields s p :
  eventQ (release_cpu s p) = eventQ s /\
  readyQ (release_cpu s p) = readyQ s /\
  current_time (release_cpu s p) = current_time s /\
  running_pid (release_cpu s p) = -1 /\
  finished_count (release_cpu s p) = finished_count s /\
  trace (release_cpu s p) = trace s.
Proof. repeat split. Qed.

Lemma rem_after_fits rem used : fits (rem_after rem used).
Proof.
  unfold rem_after. pose proof (to_int_range (rem - used)) as H.
  unfold fits, INT_MIN, INT_MAX in *. lia.
Qed.

Lemma rem_after_nonneg rem used : 0 <= rem_after rem used.
Proof. unfold rem_after. lia. Qed.

(* ------------------------------------------------------------------ *)
(** ** The slice behind an end-of-slice event *)

(** Where a process stands in its bursts. *)
Definition burst_ok (pc : PCB) : Prop :=
  0 <= current_burst pc /\ fits (remaining_cpu pc) /\
  Forall fits (cpu_bursts pc) /\
  (current_burst pc < num_bursts pc \/
   (num_bursts pc = 0 /\ current_burst pc = 0 /\ burst_at (cpu_bursts pc) 0 = 0)).

(** An event of the heap against the PCB of its process: an arrival
    comes before a fresh burst; an end of slice is the event the
    dispatcher computed when the slice began, from what remained of the
    burst and the start of the slice. *)
Definition slice_ok_pc (q : Z) (pc : PCB) (e : Event) : Prop :=
  match type e with
  | EVT_ARRIVE => remaining_cpu pc = burst_at (cpu_bursts pc) (current_burst pc)
  | _ => e = dispatch_event (remaining_cpu pc) q (start_run_time pc) (pid e)
  end.

Definition slice_ok (q : Z) (G : list PCB) (e : Event) : Prop :=
  slice_ok_pc q (get_proc G (pid e)) e.

Record slice_inv (q : Z) (s : Sim) : Prop := mk_slice_inv {
  si_procs : Forall burst_ok (g_processes s);
  si_events : Forall (slice_ok q (g_processes s)) (contents (eventQ s))
}.

Lemma dispatch_slice_le rem q : dispatch_slice rem q <= rem.
Proof. rewrite dispatch_slice_min. lia. Qed.

Lemma dispatch_slice_fits rem q : fits rem -> 0 <= q -> fits (dispatch_slice rem q).
Proof.
  unfold fits, INT_MIN, INT_MAX. rewrite dispatch_slice_min. lia.
Qed.

(** The narrowed time of the event, less the start of the slice, is the
    slice: whatever wrapped when the end of the slice was stored wraps
    back when the start is taken off. *)
Lemma slice_ok_used q pc e :
  0 <= q -> fits (remaining_cpu pc) ->
  slice_ok_pc q pc e -> type e <> EVT_ARRIVE ->
  let sl := dispatch_slice (remaining_cpu pc) q in
  to_int (time e - start_run_time pc) = sl /\
  (type e = EVT_CPU_COMPLETE -> sl = remaining_cpu pc) /\
  (type e = EVT_CPU_TIMEOUT -> sl = q /\ q < remaining_cpu pc).
Proof.
  intros Hq Hrem Hok Hty sl. unfold slice_ok_pc in Hok.
  assert (He : e = dispatch_event (remaining_cpu pc) q (start_run_time pc) (pid e))
    by (destruct (type e); [congruence | exact Hok | exact Hok]).
  pose proof (dispatch_slice_fits _ _ Hrem Hq) as Hfit. fold sl in Hfit.
  pose proof (dispatch_slice_min (remaining_cpu pc) q) as Hmin. fold sl in Hmin.
  split; [|split].
  - rewrite He at 1. cbn [time dispatch_event]. fold sl.
    apply to_int_sub_cancel. exact Hfit.
  - intros Ety. rewrite He in Ety. cbn [type dispatch_event] in Ety. fold sl in Ety.
    destruct (Z.eqb_spec sl (remaining_cpu pc)); [assumption | discriminate].
  - intros Ety. rewrite He in Ety. cbn [type dispatch_event] in Ety. fold sl in Ety.
    destruct (Z.eqb_spec sl (remaining_cpu pc)); [discriminate | lia].
Qed.

Lemma pop_state_slice n g0 q s e mh :
  sim_inv n g0 [] s -> slice_inv q s -> (0 < size (eventQ s))%nat ->
  eventHeap_pop (g_processes s) (eventQ s) = (e, mh) ->
  slice_inv q (pop_state s e mh) /\ slice_ok q (g_processes s) e.
Proof.
  intros H [Hp He] Hpos Hpop.
  destruct (eventHeap_pop_spec _ _ (inv_heap _ _ _ _ H) Hpos)
    as (e' & mh' & E & _ & _ & _ & Hperm & _).
  rewrite Hpop in E. injection E as <- <-.
  pose proof (Permutation_Forall Hperm He) as He'.
  split; [|apply (Forall_inv He')].
  constructor; cbn [pop_state g_processes eventQ]; auto.
  apply (Forall_inv_tail He').
Qed.

Lemma enqueue_state_slice n g0 q s p :
  sim_inv n g0 [p] s -> slice_inv q s -> slice_inv q (enqueue_state s p).
Proof.
  intros H [Hp He]. unfold enqueue_state.
  destruct (RQ_enqueue_spec (g_processes s) (readyQ s) p (to_int (current_time s))
              (inv_rq _ _ _ _ H) (sim_inv_rq_room _ _ _ _ H))
    as (q' & E & _).
  rewrite E. destruct (hand_apart _ _ _ _ H) as (Hv & Hae & Har).
  constructor; cbn [g_processes eventQ].
  - apply Forall_upd_proc; auto.
  - apply (Forall_frame (slice_ok_pc q) pid); auto. lia.
Qed.

Lemma release_cpu_slice n g0 q s p :
  sim_inv n g0 [p] s -> slice_inv q s -> slice_inv q (release_cpu s p).
Proof.
  intros H [Hp He]. destruct (hand_apart _ _ _ _ H) as (Hv & Hae & Har).
  constructor; rewrite release_cpu_table; cbn [release_cpu eventQ].
  - apply Forall_upd_proc; auto.
    intros pc (Hc & Hr & Hb & Hn). unfold burst_ok. pcb_simpl.
    split; [assumption|]. split; [apply rem_after_fits|]. split; assumption.
  - apply (Forall_frame (slice_ok_pc q) pid); auto. lia.
Qed.

Lemma burst_done_slice n g0 q s p :
  sim_inv n g0 [p] s -> slice_inv q s -> slice_inv q (burst_done s p).
Proof.
  intros H [Hp He]. destruct (hand_apart _ _ _ _ H) as (Hv & Hae & Har).
  pose proof (sim_inv_table_length _ _ _ _ H) as Hlen.
  set (pc := get_proc (g_processes s) p) in *.
  assert (Hpc : burst_ok pc)
    by (rewrite Forall_forall in Hp; apply Hp, get_proc_In; lia).
  destruct Hpc as (Hcur & Hrem & Hb & Hnum).
  unfold burst_done. fold pc.
  destruct (Z.leb_spec (num_bursts pc) (current_burst pc + 1)) as [Hlast|Hmore].
  - constructor; cbn [g_processes eventQ].
    + apply Forall_upd_proc; auto.
    + apply (Forall_frame (slice_ok_pc q) pid); auto. lia.
  - destruct (eventHeap_push_spec (g_processes s) (eventQ s)
                (mkEvent (to_int (current_time s
                          + burst_at (io_bursts pc) (current_burst pc + 1 - 1)))
                         EVT_ARRIVE p)
                (inv_heap _ _ _ _ H) (sim_inv_heap_room _ _ _ _ H))
      as (mh' & E & _ & _ & _ & Hperm).
    rewrite E. rewrite upd_proc_twice.
    constructor; cbn [g_processes eventQ].
    + apply Forall_upd_proc_at; auto. intros _. fold pc.
      repeat split; pcb_simpl; auto; try lia;
        apply (burst_at_fits _ _ Hb).
    + eapply Permutation_Forall; [symmetry; exact Hperm|]. constructor.
      * unfold slice_ok, slice_ok_pc. cbn [type pid].
        rewrite get_upd_proc_same by lia. reflexivity.
      * apply (Forall_frame (slice_ok_pc q) pid); auto. lia.
Qed.

(** The head of the ready queue is apart from the other tokens. *)
Lemma head_apart n g0 s p rest :
  sim_inv n g0 [] s -> rq_list (readyQ s) = p :: rest ->
  0 <= p < n /\
  Forall (fun e => 0 <= pid e /\ pid e <> p) (contents (eventQ s)) /\
  Forall (fun p' => 0 <= p' /\ p' <> p) rest.
Proof.
  intros H Hl.
  destruct (inv_tokens _ _ _ _ H) as (Hnd & Hv & _).
  cbn [app] in Hnd, Hv. unfold pending in Hnd, Hv. rewrite Hl in Hnd, Hv.
  apply NoDup_remove in Hnd. destruct Hnd as [Hnd Hnin].
  rewrite Forall_app in Hv. destruct Hv as [Hve Hvr].
  pose proof (Forall_inv Hvr) as Hpv. cbv beta in Hpv.
  apply Forall_inv_tail in Hvr.
  split; [assumption|]. split; apply Forall_forall.
  - intros e Hin. rewrite Forall_forall in Hve.
    split; [apply (Hve (pid e)), in_map, Hin|].
    intros Eq. apply Hnin. apply in_or_app. left. rewrite <- Eq.
    apply in_map. assumption.
  - intros p' Hin. rewrite Forall_forall in Hvr.
    split; [apply (Hvr p' Hin)|].
    intros Eq. apply Hnin. apply in_or_app. right. rewrite <- Eq. assumption.
Qed.

Lemma dispatch_event_start rem q now p :
  dispatch_event rem q (to_int now) p = dispatch_event rem q now p.
Proof. unfold dispatch_event. rewrite to_int_add_l. reflexivity. Qed.

Lemma schedule_next_slice n g0 q s :
  sim_inv n g0 [] s -> slice_inv q s -> slice_inv q (schedule_next s q).
Proof.
  intros H Hs.
  destruct (Z.le_gt_cases 0 (running_pid s)) as [Hb|Hfree];
    [rewrite schedule_next_busy by assumption; assumption|].
  destruct (Z.eq_dec (count (readyQ s)) 0) as [Hz|Hnz];
    [rewrite schedule_next_idle by assumption; assumption|].
  assert (Hcnt : 0 < count (readyQ s))
    by (destruct (inv_rq _ _ _ _ H) as (_ & _ & _ & ? & _); lia).
  destruct (RQ_dequeue_spec _ (inv_rq _ _ _ _ H) Hcnt)
    as (p & rq' & Edq & _ & _ & _ & Hl).
  pose proof (dispatch_table_frozen g0 _ p (current_time s) (inv_frozen _ _ _ _ H))
    as Hfr.
  destruct (eventHeap_push_spec
              (dispatch_table (g_processes s) p (current_time s)) (eventQ s)
              (dispatch_event (remaining_cpu (get_proc (g_processes s) p)) q
                              (current_time s) p)
              (frozen_heap_wf _ _ _ _ (inv_frozen _ _ _ _ H) Hfr (inv_heap _ _ _ _ H))
              (sim_inv_heap_room _ _ _ _ H))
    as (mh' & E & _ & _ & _ & Hperm).
  rewrite (schedule_next_dispatch s q p rq' mh' _ ltac:(lia) Hnz Edq E).
  destruct Hs as [Hp He].
  pose proof (sim_inv_table_length _ _ _ _ H) as Hlen.
  destruct (head_apart _ _ _ _ _ H Hl) as (Hpv & Hae & Har).
  unfold dispatch_table in *. rewrite upd_proc_twice in *.
  constructor; cbn [g_processes eventQ].
  - apply Forall_upd_proc; auto.
  - eapply Permutation_Forall; [symmetry; exact Hperm|]. constructor.
    + unfold slice_ok, slice_ok_pc. cbn [pid dispatch_event].
      rewrite get_upd_proc_same by lia. cbv beta. pcb_simpl.
      pose proof (dispatch_event_type (remaining_cpu (get_proc (g_processes s) p)) q
                                      (current_time s) p) as Hty.
      rewrite dispatch_event_start.
      destruct (type (dispatch_event (remaining_cpu (get_proc (g_processes s) p)) q
                                     (current_time s) p));
        [congruence | reflexivity | reflexivity].
    + apply (Forall_frame (slice_ok_pc q) pid); auto. lia.
Qed.

Lemma handle_event_slice n g0 q s e :
  sim_inv n g0 [pid e] s -> slice_inv q s -> slice_inv q (handle_event q s e).
Proof.
  intros H Hs. destruct (type e) eqn:Et.
  - rewrite handle_event_arrive by assumption.
    pose proof (enqueue_state_inv _ _ _ _ H).
    pose proof (enqueue_state_slice _ _ q _ _ H Hs).
    destruct (_ <? 0); [eapply schedule_next_slice|]; eassumption.
  - rewrite handle_event_complete by assumption.
    pose proof (release_cpu_inv _ _ _ _ (pid e) H) as H1.
    pose proof (release_cpu_slice _ _ q _ _ H Hs) as Hs1.
    eapply schedule_next_slice; [apply burst_done_inv; eassumption|].
    eapply burst_done_slice; eassumption.
  - rewrite handle_event_timeout by assumption.
    pose proof (release_cpu_inv _ _ _ _ (pid e) H) as H1.
    pose proof (release_cpu_slice _ _ q _ _ H Hs) as Hs1.
    destruct (0 <? _).
    + eapply schedule_next_slice; [apply enqueue_state_inv; eassumption|].
      eapply enqueue_state_slice; eassumption.
    + eapply schedule_next_slice; [apply burst_done_inv; eassumption|].
      eapply burst_done_slice; eassumption.
Qed.

Lemma loop_body_slice n g0 q s :
  sim_inv n g0 [] s -> slice_inv q s -> loop_cond n s = true ->
  slice_inv q (loop_body q s).
Proof.
  intros H Hs Hc. apply loop_cond_true in Hc. destruct Hc as [_ Hsz].
  destruct (eventHeap_pop (g_processes s) (eventQ s)) as [e mh] eqn:Epop.
  rewrite (loop_body_eq q s e mh Epop).
  destruct (pop_state_slice _ _ _ _ _ _ H Hs Hsz Epop) as (Hs1 & _).
  eapply handle_event_slice; [|eassumption].
  eapply pop_state_inv; eassumption.
Qed.

Lemma arrival_events_nth ps : forall i e,
  In e (arrival_events ps i) ->
  exists k, (k < length ps)%nat /\
            e = mkEvent (arrival_time (nth k ps PCB_zero)) EVT_ARRIVE (i + Z.of_nat k).
Proof.
  induction ps as [|pc ps IH]; intros i e Hin; simpl in Hin; [contradiction|].
  destruct Hin as [<-|Hin].
  - exists O. split; [simpl; lia|]. simpl. rewrite Z.add_0_r. reflexivity.
  - destruct (IH _ _ Hin) as (k & Hk & ->). exists (S k).
    split; [simpl; lia|]. cbn [nth]. f_equal. lia.
Qed.

Lemma init_sim_slice n g q :
  0 < n -> length g = Z.to_nat n -> Forall fresh g -> Forall pcb_fits g ->
  slice_inv q (init_sim n g).
Proof.
  intros Hn Hlen Hfresh Hfits.
  destruct (init_sim_eq n g ltac:(lia)) as (mh & E & _ & _ & Hp).
  rewrite E. rewrite Forall_forall in Hfresh, Hfits.
  constructor; cbn [g_processes eventQ].
  - apply Forall_forall. intros pc Hin.
    destruct (Hfresh pc Hin) as (Hc & Hr & _ & _ & _ & _ & Hnum & Hz).
    destruct (Hfits pc Hin) as (_ & _ & Hcb & _ & _ & Hrem).
    split; [lia|]. split; [exact Hrem|]. split; [exact Hcb|].
    destruct (Z.eq_dec (num_bursts pc) 0); [right; auto | left; lia].
  - eapply Permutation_Forall; [symmetry; exact Hp|].
    apply Forall_forall. intros e Hin.
    destruct (arrival_events_nth _ _ _ Hin) as (k & Hk & ->).
    unfold slice_ok, slice_ok_pc. cbn [type pid].
    unfold get_proc. rewrite Z.add_0_l, Nat2Z.id.
    destruct (Hfresh _ (nth_In g PCB_zero Hk)) as (Hc & Hr & _).
    rewrite Hc. exact Hr.
Qed.

Lemma reachable_slice input q n g s :
  read_input_file input = Some (n, g) -> reachable input q s ->
  sim_inv n g [] s /\ cpu_inv s /\ slice_inv q s.
Proof.
  intros E Hr.
  induction Hr as [n' g' E' Hn | n' g' s E' Hr IH Hc];
    rewrite E in E'; injection E' as <- <-.
  - pose proof (read_input_file_length _ _ _ E Hn).
    split; [apply init_sim_inv; assumption|].
    split; [apply init_sim_cpu; assumption|].
    apply init_sim_slice; auto.
    + eapply read_input_file_fresh; eassumption.
    + eapply read_input_file_fits; eassumption.
  - destruct IH as (Hinv & Hcpu & Hs).
    split; [apply loop_body_inv; assumption|].
    split; [eapply loop_body_cpu; eassumption|].
    eapply loop_body_slice; eassumption.
Qed.

(** The entry of the process that leaves the CPU, after [release_cpu]:
    the time used is the slice the dispatcher granted, clamped at 0, and
    it has been taken off what remained. *)
Lemma release_cpu_used n g0 q s e :
  0 <= q -> sim_inv n g0 [pid e] s -> slice_inv q s ->
  slice_ok q (g_processes s) e -> type e <> EVT_ARRIVE ->
  time e = current_time s ->
  let pc := get_proc (g_processes s) (pid e) in
  let sl := dispatch_slice (remaining_cpu pc) q in
  to_int (time e - start_run_time pc) = sl /\
  used_time s (pid e) = Z.max 0 sl /\
  get_proc (g_processes (release_cpu s (pid e))) (pid e)
  = set_remaining_cpu pc (Z.max 0 (remaining_cpu pc - Z.max 0 sl)) /\
  (type e = EVT_CPU_COMPLETE -> sl = remaining_cpu pc) /\
  (type e = EVT_CPU_TIMEOUT -> sl = q /\ q < remaining_cpu pc).
Proof.
  intros Hq H [Hp He] Hev Hty Htime pc sl.
  destruct (hand_apart _ _ _ _ H) as (Hv & Hae & Har).
  pose proof (sim_inv_table_length _ _ _ _ H) as Hlen.
  assert (Hpc : burst_ok pc)
    by (rewrite Forall_forall in Hp; apply Hp, get_proc_In; lia).
  destruct Hpc as (Hcur & Hrem & Hb & Hnum).
  destruct (slice_ok_used q pc e Hq Hrem Hev Hty) as (Hused & Hco & Hto).
  fold sl in Hused, Hco, Hto.
  pose proof (dispatch_slice_le (remaining_cpu pc) q) as Hle. fold sl in Hle.
  pose proof (dispatch_slice_fits _ _ Hrem Hq) as Hfit. fold sl in Hfit.
  assert (Hu : used_time s (pid e) = Z.max 0 sl)
    by (unfold used_time; fold pc; rewrite <- Htime, Hused; reflexivity).
  split; [exact Hused|]. split; [exact Hu|]. split; [|split; assumption].
  rewrite release_cpu_table, get_upd_proc_same by lia. fold pc.
  rewrite Hu. unfold rem_after. f_equal. f_equal. apply to_int_fits.
  unfold fits, INT_MIN, INT_MAX in *. lia.
Qed.

(* ------------------------------------------------------------------ *)
(** ** Bursts that are not negative *)

Lemma enqueue_state_table n g0 s p :
  sim_inv n g0 [p] s ->
  g_processes (enqueue_state s p)
  = upd_proc (g_processes s) p
      (fun pc => set_last_ready_time pc (to_int (current_time s))).
Proof.
  intros H. unfold enqueue_state.
  destruct (RQ_enqueue_spec (g_processes s) (readyQ s) p (to_int (current_time s))
              (inv_rq _ _ _ _ H) (sim_inv_rq_room _ _ _ _ H))
    as (q' & E & _).
  rewrite E. reflexivity.
Qed.

Lemma burst_done_nonneg s p :
  Forall time_ok (g_processes s) -> Forall time_ok (g_processes (burst_done s p)).
Proof.
  intros Hp. unfold burst_done. destruct (_ <=? _).
  - cbn [g_processes]. apply Forall_upd_proc; auto.
  - destruct (eventHeap_push _ _ _) as [mh o]. cbn [g_processes].
    rewrite upd_proc_twice. apply Forall_upd_proc; auto.
    intros pc [[Hc Hi] Hr]. split; [split; assumption|]. cbn.
    apply burst_at_nonneg. assumption.
Qed.

Lemma schedule_next_nonneg s q :
  Forall time_ok (g_processes s) -> Forall time_ok (g_processes (schedule_next s q)).
Proof.
  intros Hp. unfold schedule_next. destruct (0 <=? _); auto.
  destruct (negb _); auto. destruct (RQ_dequeue _) as [p rq].
  destruct (eventHeap_push _ _ _) as [mh o]. cbn [g_processes].
  repeat apply Forall_upd_proc; auto.
Qed.

Lemma handle_event_nonneg n g0 q s e :
  sim_inv n g0 [pid e] s ->
  Forall time_ok (g_processes s) ->
  Forall time_ok (g_processes (handle_event q s e)).
Proof.
  intros H Hp.
  assert (Hrel : Forall time_ok (g_processes (release_cpu s (pid e)))).
  { rewrite release_cpu_table. apply Forall_upd_proc; auto.
    intros pc [Hb Hr]. split; [exact Hb|]. cbn. apply rem_after_nonneg. }
  destruct (type e) eqn:Et.
  - rewrite handle_event_arrive by assumption.
    assert (Forall time_ok (g_processes (enqueue_state s (pid e))))
      by (rewrite (enqueue_state_table n g0) by assumption;
          apply Forall_upd_proc; auto).
    destruct (_ <? 0); [apply schedule_next_nonneg|]; assumption.
  - rewrite handle_event_complete by assumption.
    apply schedule_next_nonneg, burst_done_nonneg, Hrel.
  - rewrite handle_event_timeout by assumption.
    apply schedule_next_nonneg. destruct (0 <? _).
    + rewrite (enqueue_state_table n g0) by (apply release_cpu_inv; assumption).
      apply Forall_upd_proc; auto.
    + apply burst_done_nonneg, Hrel.
Qed.

Lemma init_sim_nonneg n g :
  0 < n -> length g = Z.to_nat n -> Forall fresh g -> nonneg_input g ->
  Forall time_ok (g_processes (init_sim n g)).
Proof.
  intros Hn Hlen Hfresh Hnn.
  destruct (init_sim_eq n g ltac:(lia)) as (mh & E & _).
  rewrite E. cbn [g_processes].
  unfold nonneg_input in Hnn. rewrite Forall_forall in *.
  intros pc Hin. destruct (Hnn pc Hin) as [_ Hb].
  destruct (Hfresh pc Hin) as (_ & Hr & _).
  split; [assumption|]. rewrite Hr. apply burst_at_nonneg. apply Hb.
Qed.

(** In a run on an input that is not negative no burst, and nothing that
    remains of a burst, is negative. *)
Lemma reachable_nonneg input q n g s :
  read_input_file input = Some (n, g) -> nonneg_input g ->
  reachable input q s -> Forall time_ok (g_processes s).
Proof.
  intros E Hnn Hr.
  induction Hr as [n' g' E' Hn | n' g' s E' Hr IH Hc];
    rewrite E in E'; injection E' as <- <-.
  - pose proof (read_input_file_length _ _ _ E Hn).
    apply init_sim_nonneg; auto. eapply read_input_file_fresh; eassumption.
  - destruct (reachable_inv _ _ _ Hr) as (n' & g' & E' & Hinv & _).
    rewrite E in E'. injection E' as <- <-.
    apply loop_cond_true in Hc. destruct Hc as [_ Hsz].
    destruct (eventHeap_pop (g_processes s) (eventQ s)) as [e mh] eqn:Epop.
    rewrite (loop_body_eq q s e mh Epop).
    apply (handle_event_nonneg n g); [eapply pop_state_inv; eassumption|].
    exact IH.
Qed.


(* ------------------------------------------------------------------ *)
(** ** A quantum no burst exceeds *)

(** The CPU bursts the reader recorded for a process. *)
Definition bursts_of (pc : PCB) : list Z :=
  firstn (Z.to_nat (num_bursts pc)) (cpu_bursts pc).

(** The longest single CPU burst of the input (0 without any burst). *)
Definition max_burst (g : list PCB) : Z :=
  fold_right Z.max 0 (flat_map bursts_of g).

Definition bursts_le (q : Z) (pc : PCB) : Prop :=
  forall i, (i < Z.to_nat (num_bursts pc))%nat -> nth i (cpu_bursts pc) 0 <= q.

Definition fcfs_ok (q : Z) (pc : PCB) : Prop :=
  bursts_le q pc /\ 0 <= current_burst pc /\ remaining_cpu pc <= q.

Lemma fold_max_bound l q :
  fold_right Z.max 0 l <= q -> 0 <= q /\ Forall (fun x => x <= q) l.
Proof.
  induction l as [|x l IH]; simpl; intros H.
  - split; [assumption | constructor].
  - destruct IH as [H0 HF]; [lia|]. split; [assumption|].
    constructor; [lia | assumption].
Qed.

Lemma max_burst_bound g q :
  max_burst g <= q -> 0 <= q /\ Forall (bursts_le q) g.
Proof.
  intros H. apply fold_max_bound in H. destruct H as [H0 HF].
  split; [assumption|]. apply Forall_forall. intros pc Hpc i Hi.
  destruct (Nat.lt_ge_cases i (length (cpu_bursts pc))) as [Hin|Hout].
  - rewrite Forall_forall in HF. apply HF. apply in_flat_map.
    exists pc. split; [assumption|]. unfold bursts_of.
    rewrite <- (nth_firstn_lt _ (Z.to_nat (num_bursts pc))) by assumption.
    apply nth_In. rewrite length_firstn. lia.
  - rewrite nth_overflow by assumption. assumption.
Qed.

(** No pushed event is a CPU_TIMEOUT. *)
Definition no_timeout (tr : list Obs) : Prop :=
  forall e, In (ObsPush e) tr -> type e <> EVT_CPU_TIMEOUT.

(** Every dispatch is followed at once by the push of a CPU_COMPLETE event
    for the dispatched process at the end of its slice. *)
Fixpoint dispatch_complete (tr : list Obs) : Prop :=
  match tr with
  | [] => True
  | ObsDispatch p now _ slice :: rest =>
    match rest with
    | ObsPush e :: _ => e = mkEvent (to_int (now + slice)) EVT_CPU_COMPLETE p
    | _ => False
    end /\ dispatch_complete rest
  | _ :: rest => dispatch_complete rest
  end.

Lemma no_timeout_app tr o : no_timeout tr -> no_timeout o -> no_timeout (tr ++ o).
Proof.
  intros H1 H2 e Hin. apply in_app_or in Hin. destruct Hin; auto.
Qed.

Lemma dispatch_complete_app tr o :
  dispatch_complete tr -> dispatch_complete o -> dispatch_complete (tr ++ o).
Proof.
  intros H1 H2. induction tr as [|x tr IH]; simpl; auto.
  destruct x; simpl in H1; auto.
  destruct H1 as [Hh Ht]. split; auto.
  destruct tr as [|y tr]; [contradiction|]. exact Hh.
Qed.

Lemma dispatch_complete_at tr1 : forall tr2 p now w slice,
  dispatch_complete (tr1 ++ ObsDispatch p now w slice :: tr2) ->
  exists tr3, tr2 = ObsPush (mkEvent (to_int (now + slice)) EVT_CPU_COMPLETE p) :: tr3.
Proof.
  induction tr1 as [|x tr1 IH]; intros tr2 p now w slice H; simpl in H.
  - destruct H as [H _]. destruct tr2 as [|[] tr2]; try contradiction.
    subst. eexists; reflexivity.
  - destruct x; try (eapply IH; exact H).
    destruct H as [_ H]. eapply IH; exact H.
Qed.

Record fcfs_inv (q : Z) (s : Sim) : Prop := mk_fcfs_inv {
  fi_procs : Forall (fcfs_ok q) (g_processes s);
  fi_pushes : no_timeout (trace s);
  fi_dispatch : dispatch_complete (trace s)
}.

Lemma fcfs_ok_zero q : 0 <= q -> fcfs_ok q PCB_zero.
Proof.
  intros H. unfold fcfs_ok, bursts_le, PCB_zero;
    cbn [num_bursts cpu_bursts current_burst remaining_cpu].
  repeat split; lia.
Qed.

Lemma no_timeout_one o :
  match o with ObsPush e => type e <> EVT_CPU_TIMEOUT | _ => True end ->
  no_timeout [o].
Proof.
  intros H e [->|[]]. exact H.
Qed.

Lemma pop_state_fcfs q s e mh : fcfs_inv q s -> fcfs_inv q (pop_state s e mh).
Proof.
  intros [Hp Hn Hd]. constructor; cbn [pop_state g_processes trace]; auto.
  - apply no_timeout_app; auto. apply no_timeout_one. exact I.
  - apply dispatch_complete_app; simpl; auto.
Qed.

Lemma enqueue_state_fcfs n g0 q s p :
  sim_inv n g0 [p] s -> fcfs_inv q s -> fcfs_inv q (enqueue_state s p).
Proof.
  intros H [Hp Hn Hd]. unfold enqueue_state.
  destruct (RQ_enqueue_spec (g_processes s) (readyQ s) p (to_int (current_time s))
              (inv_rq _ _ _ _ H) (sim_inv_rq_room _ _ _ _ H))
    as (q' & E & _).
  rewrite E. constructor; cbn [g_processes trace]; rewrite ?app_nil_r; auto.
  apply Forall_upd_proc; auto.
Qed.

Lemma rem_after_slice rem q :
  fits rem -> 0 <= q ->
  rem_after rem (Z.max 0 (dispatch_slice rem q))
  = Z.max 0 (rem - Z.max 0 (dispatch_slice rem q)).
Proof.
  intros Hrem Hq. unfold rem_after. f_equal. apply to_int_fits.
  pose proof (dispatch_slice_le rem q). pose proof (dispatch_slice_fits _ _ Hrem Hq).
  unfold fits, INT_MIN, INT_MAX in *. lia.
Qed.

(** The state a popped end-of-slice event is handled in. *)
Definition slice_end (q : Z) (s : Sim) (e : Event) : Prop :=
  slice_inv q s /\ slice_ok q (g_processes s) e /\ time e = current_time s.

Lemma pop_state_slice_end n g0 q s e mh :
  sim_inv n g0 [] s -> slice_inv q s -> (0 < size (eventQ s))%nat ->
  eventHeap_pop (g_processes s) (eventQ s) = (e, mh) ->
  slice_end q (pop_state s e mh) e.
Proof.
  intros H Hs Hpos Hpop.
  destruct (pop_state_slice _ _ _ _ _ _ H Hs Hpos Hpop) as [Hs1 He].
  split; [exact Hs1|]. split; [exact He | reflexivity].
Qed.

Lemma release_cpu_fcfs n g0 q s e :
  0 <= q -> sim_inv n g0 [pid e] s -> slice_end q s e -> type e <> EVT_ARRIVE ->
  fcfs_inv q s -> fcfs_inv q (release_cpu s (pid e)).
Proof.
  intros Hq H (Hs & He & Htime) Hty [Hp Hn Hd]. constructor; try assumption.
  destruct (release_cpu_used _ _ _ _ _ Hq H Hs He Hty Htime) as (_ & Hu & _).
  rewrite release_cpu_table. apply Forall_upd_proc_at; auto. intros Hin.
  assert (Hpc : burst_ok (get_proc (g_processes s) (pid e)))
    by (destruct Hs as [Hb _]; rewrite Forall_forall in Hb;
        apply Hb, get_proc_In; assumption).
  destruct Hpc as (_ & Hrem & _).
  pose proof (get_proc_Forall _ _ (pid e) Hp (fcfs_ok_zero q Hq)) as (Hb & Hc & Hr).
  split; [exact Hb|]. split; [exact Hc|]. pcb_simpl.
  rewrite Hu, rem_after_slice by assumption. lia.
Qed.

Lemma burst_done_fcfs n g0 q s p :
  0 <= q -> sim_inv n g0 [p] s -> fcfs_inv q s -> fcfs_inv q (burst_done s p).
Proof.
  intros Hq H [Hp Hn Hd]. unfold burst_done.
  destruct (Z.leb_spec (num_bursts (get_proc (g_processes s) p))
                       (current_burst (get_proc (g_processes s) p) + 1))
    as [Hlast|Hmore].
  - constructor; cbn [g_processes trace].
    + apply Forall_upd_proc; auto.
    + apply no_timeout_app; auto. apply no_timeout_one. exact I.
    + apply dispatch_complete_app; simpl; auto.
  - destruct (eventHeap_push_spec (g_processes s) (eventQ s)
                (mkEvent (to_int (current_time s
                          + burst_at (io_bursts (get_proc (g_processes s) p))
                              (current_burst (get_proc (g_processes s) p) + 1 - 1)))
                         EVT_ARRIVE p)
                (inv_heap _ _ _ _ H) (sim_inv_heap_room _ _ _ _ H))
      as (mh' & E & _).
    rewrite E. constructor; cbn [g_processes trace].
    + rewrite upd_proc_twice. apply Forall_upd_proc_at; auto.
      intros Hin.
      pose proof (get_proc_Forall _ _ p Hp (fcfs_ok_zero q Hq)) as (Hb & Hc & Hr).
      repeat split; cbn; auto; try lia.
      unfold burst_at. apply Hb. lia.
    + apply no_timeout_app; auto. apply no_timeout_one. cbn. discriminate.
    + apply dispatch_complete_app; simpl; auto.
Qed.

Lemma schedule_next_fcfs n g0 q s :
  0 <= q -> sim_inv n g0 [] s -> fcfs_inv q s -> fcfs_inv q (schedule_next s q).
Proof.
  intros Hq H Hf.
  destruct (Z.le_gt_cases 0 (running_pid s)) as [Hb|Hfree];
    [rewrite schedule_next_busy by assumption; assumption|].
  destruct (Z.eq_dec (count (readyQ s)) 0) as [Hz|Hnz];
    [rewrite schedule_next_idle by assumption; assumption|].
  assert (Hcnt : 0 < count (readyQ s))
    by (destruct (inv_rq _ _ _ _ H) as (_ & _ & _ & ? & _); lia).
  destruct (RQ_dequeue_spec _ (inv_rq _ _ _ _ H) Hcnt)
    as (p & rq' & Edq & _).
  pose proof (dispatch_table_frozen g0 _ p (current_time s) (inv_frozen _ _ _ _ H))
    as Hfr.
  destruct (eventHeap_push_spec
              (dispatch_table (g_processes s) p (current_time s)) (eventQ s)
              (dispatch_event (remaining_cpu (get_proc (g_processes s) p)) q
                              (current_time s) p)
              (frozen_heap_wf _ _ _ _ (inv_frozen _ _ _ _ H) Hfr (inv_heap _ _ _ _ H))
              (sim_inv_heap_room _ _ _ _ H))
    as (mh' & E & _).
  rewrite (schedule_next_dispatch s q p rq' mh' _ ltac:(lia) Hnz Edq E).
  destruct Hf as [Hp Hn Hd].
  pose proof (get_proc_Forall _ _ p Hp (fcfs_ok_zero q Hq)) as (_ & _ & Hr).
  assert (Hs : dispatch_slice (remaining_cpu (get_proc (g_processes s) p)) q
               = remaining_cpu (get_proc (g_processes s) p))
    by (rewrite dispatch_slice_min; lia).
  assert (He : dispatch_event (remaining_cpu (get_proc (g_processes s) p)) q
                              (current_time s) p
               = mkEvent (to_int (current_time s
                                  + remaining_cpu (get_proc (g_processes s) p)))
                         EVT_CPU_COMPLETE p)
    by (unfold dispatch_event; rewrite Hs, Z.eqb_refl; reflexivity).
  rewrite He, Hs.
  constructor; cbn [g_processes trace].
  - unfold dispatch_table. rewrite upd_proc_twice. apply Forall_upd_proc; auto.
  - apply no_timeout_app; auto.
    intros e [Hin|[Hin|[]]]; [discriminate|]. injection Hin as <-. discriminate.
  - apply dispatch_complete_app; simpl; auto.
Qed.

Lemma handle_event_fcfs n g0 q s e :
  0 <= q -> sim_inv n g0 [pid e] s -> slice_end q s e -> fcfs_inv q s ->
  fcfs_inv q (handle_event q s e).
Proof.
  intros Hq H Hse Hf. destruct (type e) eqn:Et.
  - rewrite handle_event_arrive by assumption.
    pose proof (enqueue_state_inv _ _ _ _ H).
    pose proof (enqueue_state_fcfs _ _ q _ _ H Hf).
    destruct (_ <? 0); [eapply schedule_next_fcfs|]; eassumption.
  - rewrite handle_event_complete by assumption.
    pose proof (release_cpu_inv _ _ _ _ (pid e) H) as H1.
    assert (Hf1 : fcfs_inv q (release_cpu s (pid e)))
      by (apply (release_cpu_fcfs n g0); auto; congruence).
    eapply schedule_next_fcfs; [assumption | apply burst_done_inv; eassumption |].
    eapply burst_done_fcfs; eassumption.
  - rewrite handle_event_timeout by assumption.
    pose proof (release_cpu_inv _ _ _ _ (pid e) H) as H1.
    assert (Hf1 : fcfs_inv q (release_cpu s (pid e)))
      by (apply (release_cpu_fcfs n g0); auto; congruence).
    destruct (0 <? _).
    + eapply schedule_next_fcfs;
        [assumption | apply enqueue_state_inv; eassumption |].
      eapply enqueue_state_fcfs; eassumption.
    + eapply schedule_next_fcfs;
        [assumption | apply burst_done_inv; eassumption |].
      eapply burst_done_fcfs; eassumption.
Qed.

Lemma init_sim_fcfs n g q :
  0 < n -> length g = Z.to_nat n -> Forall fresh g -> max_burst g <= q ->
  fcfs_inv q (init_sim n g).
Proof.
  intros Hn Hlen Hfresh Hmax.
  destruct (init_sim_eq n g ltac:(lia)) as (mh & E & _).
  destruct (max_burst_bound _ _ Hmax) as [Hq Hb].
  rewrite E. constructor; cbn [g_processes trace].
  - rewrite Forall_forall in *. intros pc Hin.
    destruct (Hfresh pc Hin) as (Hc & Hr & _ & _ & _ & _ & Hnum & Hz).
    repeat split; auto; try lia.
    rewrite Hr. destruct (Z.eq_dec (num_bursts pc) 0) as [E0|E0].
    + rewrite Hz by assumption. assumption.
    + apply (Hb pc Hin). lia.
  - intros e Hin. apply in_map_iff in Hin. destruct Hin as (x & Hx & Hin).
    injection Hx as ->.
    pose proof (arrival_events_types g 0) as HT.
    rewrite Forall_forall in HT. rewrite (HT _ Hin). discriminate.
  - generalize (arrival_events g 0). intros l. induction l; simpl; auto.
Qed.

Lemma reachable_fcfs input q n g s :
  read_input_file input = Some (n, g) -> max_burst g <= q ->
  reachable input q s -> sim_inv n g [] s /\ fcfs_inv q s.
Proof.
  intros E Hmax Hr.
  destruct (max_burst_bound _ _ Hmax) as [Hq _].
  induction Hr as [n' g' E' Hn | n' g' s E' Hr IH Hc];
    rewrite E in E'; injection E' as <- <-.
  - pose proof (read_input_file_length _ _ _ E Hn).
    split; [apply init_sim_inv | apply init_sim_fcfs]; auto.
    eapply read_input_file_fresh; eassumption.
  - destruct IH as [Hinv Hf]. split; [apply loop_body_inv; assumption|].
    destruct (reachable_slice _ _ _ _ _ E Hr) as (_ & _ & Hs).
    apply loop_cond_true in Hc. destruct Hc as [_ Hsz].
    destruct (eventHeap_pop (g_processes s) (eventQ s)) as [e mh] eqn:Epop.
    rewrite (loop_body_eq q s e mh Epop).
    apply (handle_event_fcfs n g); [assumption | | |].
    + eapply pop_state_inv; eassumption.
    + eapply pop_state_slice_end; eassumption.
    + apply pop_state_fcfs; assumption.
Qed.

(** C3: when the quantum of the run is at least the longest single CPU
    burst of the input, no CPU_TIMEOUT event is ever pushed, and every
    dispatch is followed at once by the push of a CPU_COMPLETE event for
    the dispatched process at the end of its slice, the time
    [current_time + slice] as the [int] field of the event holds it. *)
Theorem C3_fcfs_no_timeout input q n g s :
  read_input_file input = Some (n, g) -> max_burst g <= q ->
  reachable input q s ->
  (forall e, In (ObsPush e) (trace s) -> type e <> EVT_CPU_TIMEOUT) /\
  (forall tr1 tr2 p now w slice,
      trace s = tr1 ++ ObsDispatch p now w slice :: tr2 ->
      exists tr3,
        tr2 = ObsPush (mkEvent (to_int (now + slice)) EVT_CPU_COMPLETE p) :: tr3).
Proof.
  intros E Hmax Hr.
  destruct (reachable_fcfs _ _ _ _ _ E Hmax Hr) as [_ [_ Hn Hd]].
  split; [exact Hn|].
  intros tr1 tr2 p now w slice Etr. rewrite Etr in Hd.
  eapply dispatch_complete_at; exact Hd.
Qed.

Lemma C3_witness :
  read_input_file input_two = Some (2, table_two) /\
  max_burst table_two <= 10 /\
  reachable input_two 10 (loop_body 10 (init_sim 2 table_two)) /\
  (forall e, In (ObsPush e) (trace (loop_body 10 (init_sim 2 table_two))) ->
             type e <> EVT_CPU_TIMEOUT) /\
  (exists tr1 tr3,
      trace (loop_body 10 (init_sim 2 table_two))
      = tr1 ++ ObsDispatch 0 0 0 10
            :: ObsPush (mkEvent 10 EVT_CPU_COMPLETE 0) :: tr3).
Proof.
  assert (Hr : reachable input_two 10 (loop_body 10 (init_sim 2 table_two))).
  { apply (reach_step _ _ 2 table_two); [reflexivity | | reflexivity].
    apply reach_init; [reflexivity | lia]. }
  assert (Hmax : max_burst table_two <= 10) by (vm_compute; discriminate).
  split; [reflexivity|]. split; [exact Hmax|]. split; [exact Hr|].
  pose proof (C3_fcfs_no_timeout input_two 10 2 table_two _ eq_refl Hmax Hr)
    as [Hno Hd].
  split; [exact Hno|].
  assert (Etr : exists tr1 tr2,
             trace (loop_body 10 (init_sim 2 table_two))
             = tr1 ++ ObsDispatch 0 0 0 10 :: tr2).
  { eexists (firstn 3 (trace (loop_body 10 (init_sim 2 table_two)))).
    eexists (skipn 4 (trace (loop_body 10 (init_sim 2 table_two)))).
    vm_compute. reflexivity. }
  destruct Etr as (tr1 & tr2 & Etr).
  destruct (Hd _ _ _ _ _ _ Etr) as (tr3 & ->).
  exists tr1, tr3. exact Etr.
Defined.


(* ------------------------------------------------------------------ *)
(** ** Complete runs *)

(** More fuel does not change the outcome of the loop. *)
Lemma run_loop_det fuel : forall fuel' n q s s1 s2,
  run_loop fuel n q s = Some s1 -> run_loop fuel' n q s = Some s2 -> s1 = s2.
Proof.
  induction fuel as [|fuel IH]; intros fuel' n q s s1 s2 H1 H2;
    destruct fuel' as [|fuel']; cbn [run_loop] in H1, H2;
    destruct (loop_cond n s); try discriminate; try congruence.
  eapply IH; eassumption.
Qed.

Lemma run_scheduler_det fuel fuel' input q tr agg s tr' agg' s' :
  run_scheduler fuel input q = Finished tr agg s ->
  run_scheduler fuel' input q = Finished tr' agg' s' ->
  tr = tr' /\ agg = agg' /\ s = s'.
Proof.
  unfold run_scheduler. destruct (read_input_file input) as [[n g]|]; [|discriminate].
  destruct (n <=? 0); [discriminate|].
  destruct (run_loop fuel n q _) as [s1|] eqn:E1; [|discriminate].
  destruct (run_loop fuel' n q _) as [s2|] eqn:E2; [|discriminate].
  pose proof (run_loop_det _ _ _ _ _ _ _ E1 E2) as <-.
  intros H H'. injection H as <- <- <-. injection H' as <- <- <-. auto.
Qed.

(** The states of a complete run are reachable. *)
Lemma run_loop_reachable input q n g fuel : forall s s',
  read_input_file input = Some (n, g) ->
  reachable input q s -> run_loop fuel n q s = Some s' ->
  reachable input q s' /\ loop_cond n s' = false.
Proof.
  induction fuel as [|fuel IH]; intros s s' E Hr H; cbn [run_loop] in H;
    destruct (loop_cond n s) eqn:Hc; try discriminate.
  - injection H as <-. auto.
  - eapply IH; [eassumption | | eassumption].
    eapply reach_step; eassumption.
  - injection H as <-. auto.
Qed.

(** The slices of CPU time given out, as (external id, from, to). *)
Definition slices (g : list PCB) (tr : list Obs) : list (Z * Z * Z) :=
  flat_map (fun o => match o with
                     | ObsDispatch p now _ slice =>
                       [(id (get_proc g p), now, now + slice)]
                     | _ => []
                     end) tr.

(** The exits, as (external id, time). *)
Definition exits (tr : list Obs) : list (Z * Z) :=
  flat_map (fun o => match o with
                     | ObsExit now ext _ _ _ => [(ext, now)]
                     | _ => []
                     end) tr.

(** The interleaving the specification gives for P1 (arrival 0, burst 10)
    and P2 (arrival 1, burst 4) under quantum 3. *)
Definition spec_slices : list (Z * Z * Z) :=
  [(1, 0, 3); (2, 3, 6); (1, 6, 9); (2, 9, 10); (1, 10, 12)].

Definition spec_exits : list (Z * Z) := [(2, 10); (1, 12)].

(** The interleaving of the program: the last slices of P1 are [10,13)
    and [13,14), which complete its burst of 10. *)
Definition code_slices : list (Z * Z * Z) :=
  [(1, 0, 3); (2, 3, 6); (1, 6, 9); (2, 9, 10); (1, 10, 13); (1, 13, 14)].

Definition code_exits : list (Z * Z) := [(2, 10); (1, 14)].

Lemma run_two_slices :
  exists tr agg s,
    run_scheduler 8 input_two 3 = Finished tr agg s /\
    slices table_two tr = code_slices.
Proof.
  do 3 eexists. split; [vm_compute; reflexivity|]. vm_compute; reflexivity.
Qed.

(** C6 (as amended): for P1 (arrival 0, one CPU burst of 10) and P2
    (arrival 1, one CPU burst of 4) under Round Robin with quantum 3 the
    run is: P1 [0,3), P2 [3,6), P1 [6,9), P2 [9,10) and P2 exits at 10,
    P1 [10,13), P1 [13,14) and P1 exits at 14. *)
Theorem C6_interleaving :
  exists tr agg s,
    run_scheduler 8 input_two 3 = Finished tr agg s /\
    slices table_two tr = code_slices /\
    exits tr = code_exits.
Proof.
  do 3 eexists. split; [vm_compute; reflexivity|].
  split; vm_compute; reflexivity.
Qed.

(** C6 as stated fails: no run of the program on that input yields the
    interleaving of the specification, in which P1 would exit at 12 after
    only 8 units of CPU time. *)
Lemma C6_counterexample :
  ~ exists fuel tr agg s,
      run_scheduler fuel input_two 3 = Finished tr agg s /\
      slices table_two tr = spec_slices /\
      exits tr = spec_exits.
Proof.
  intros (fuel & tr & agg & s & E & Hs & _).
  destruct run_two_slices as (tr' & agg' & s' & E' & Hs').
  destruct (run_scheduler_det _ _ _ _ _ _ _ _ _ _ E E') as (<- & _).
  rewrite Hs' in Hs. discriminate Hs.
Qed.

(* ------------------------------------------------------------------ *)
(** ** Quanta that no burst exceeds give the same run *)

Lemma schedule_next_quantum q q' s :
  0 <= q -> 0 <= q' ->
  Forall (fcfs_ok q) (g_processes s) -> Forall (fcfs_ok q') (g_processes s) ->
  schedule_next s q = schedule_next s q'.
Proof.
  intros Hq Hq' HF HF'. unfold schedule_next.
  destruct (0 <=? running_pid s); [reflexivity|].
  destruct (negb _); [|reflexivity].
  destruct (RQ_dequeue (readyQ s)) as [p rq].
  fold (dispatch_table (g_processes s) p (current_time s)).
  rewrite !dispatch_table_remaining.
  pose proof (get_proc_Forall _ _ p HF (fcfs_ok_zero q Hq)) as (_ & _ & Hr).
  pose proof (get_proc_Forall _ _ p HF' (fcfs_ok_zero q' Hq')) as (_ & _ & Hr').
  replace (q <? remaining_cpu (get_proc (g_processes s) p)) with false
    by (symmetry; apply Z.ltb_ge; lia).
  replace (q' <? remaining_cpu (get_proc (g_processes s) p)) with false
    by (symmetry; apply Z.ltb_ge; lia).
  reflexivity.
Qed.

Lemma handle_event_quantum n g0 q q' s e :
  0 <= q -> 0 <= q' -> sim_inv n g0 [pid e] s ->
  slice_end q s e -> slice_end q' s e ->
  fcfs_inv q s -> fcfs_inv q' s ->
  handle_event q s e = handle_event q' s e.
Proof.
  intros Hq Hq' H Hse Hse' Hf Hf'. destruct (type e) eqn:Et.
  - rewrite !handle_event_arrive by assumption.
    destruct (_ <? 0); [|reflexivity].
    apply schedule_next_quantum; auto;
      apply fi_procs; eapply enqueue_state_fcfs; eassumption.
  - rewrite !handle_event_complete by assumption.
    pose proof (release_cpu_inv _ _ _ _ (pid e) H) as H1.
    assert (Hf1 : fcfs_inv q (release_cpu s (pid e)))
      by (apply (release_cpu_fcfs n g0); auto; congruence).
    assert (Hf1' : fcfs_inv q' (release_cpu s (pid e)))
      by (apply (release_cpu_fcfs n g0); auto; congruence).
    apply schedule_next_quantum; auto; apply fi_procs;
      (eapply burst_done_fcfs; [| eassumption |]; auto).
  - rewrite !handle_event_timeout by assumption.
    pose proof (release_cpu_inv _ _ _ _ (pid e) H) as H1.
    assert (Hf1 : fcfs_inv q (release_cpu s (pid e)))
      by (apply (release_cpu_fcfs n g0); auto; congruence).
    assert (Hf1' : fcfs_inv q' (release_cpu s (pid e)))
      by (apply (release_cpu_fcfs n g0); auto; congruence).
    destruct (0 <? _).
    + apply schedule_next_quantum; auto; apply fi_procs;
        (eapply enqueue_state_fcfs; [eassumption|]; auto).
    + apply schedule_next_quantum; auto; apply fi_procs;
        (eapply burst_done_fcfs; [| eassumption |]; auto).
Qed.

Lemma loop_body_quantum n g0 q q' s :
  0 <= q -> 0 <= q' -> sim_inv n g0 [] s -> loop_cond n s = true ->
  slice_inv q s -> slice_inv q' s ->
  fcfs_inv q s -> fcfs_inv q' s ->
  loop_body q s = loop_body q' s.
Proof.
  intros Hq Hq' H Hc Hs Hs' Hf Hf'. apply loop_cond_true in Hc.
  destruct Hc as [_ Hsz].
  destruct (eventHeap_pop (g_processes s) (eventQ s)) as [e mh] eqn:Epop.
  rewrite !(loop_body_eq _ s e mh Epop).
  apply (handle_event_quantum n g0); auto using pop_state_fcfs.
  - eapply pop_state_inv; eassumption.
  - eapply pop_state_slice_end; eassumption.
  - eapply pop_state_slice_end; eassumption.
Qed.

Lemma loop_body_fcfs n g0 q s :
  0 <= q -> sim_inv n g0 [] s -> loop_cond n s = true ->
  slice_inv q s -> fcfs_inv q s -> fcfs_inv q (loop_body q s).
Proof.
  intros Hq H Hc Hs Hf. apply loop_cond_true in Hc. destruct Hc as [_ Hsz].
  destruct (eventHeap_pop (g_processes s) (eventQ s)) as [e mh] eqn:Epop.
  rewrite (loop_body_eq q s e mh Epop).
  apply (handle_event_fcfs n g0); auto using pop_state_fcfs.
  - eapply pop_state_inv; eassumption.
  - eapply pop_state_slice_end; eassumption.
Qed.

Lemma run_loop_quantum n g0 q q' fuel : forall s,
  0 <= q -> 0 <= q' -> sim_inv n g0 [] s ->
  slice_inv q s -> slice_inv q' s ->
  fcfs_inv q s -> fcfs_inv q' s ->
  run_loop fuel n q s = run_loop fuel n q' s.
Proof.
  induction fuel as [|fuel IH]; intros s Hq Hq' H Hs Hs' Hf Hf'; cbn [run_loop];
    [reflexivity|].
  destruct (loop_cond n s) eqn:Hc; [|reflexivity].
  rewrite <- (loop_body_quantum n g0 q q' s) by assumption.
  apply IH; auto.
  - apply loop_body_inv; assumption.
  - eapply loop_body_slice; eassumption.
  - rewrite (loop_body_quantum n g0 q q' s) by assumption.
    eapply loop_body_slice; eassumption.
  - eapply loop_body_fcfs; eassumption.
  - rewrite (loop_body_quantum n g0 q q' s) by assumption.
    eapply loop_body_fcfs; eassumption.
Qed.

(** With any two quanta that no CPU burst of the input exceeds, the
    program runs alike: Round Robin degenerates to FCFS. *)
Lemma run_scheduler_quantum fuel input q q' n g :
  read_input_file input = Some (n, g) ->
  max_burst g <= q -> max_burst g <= q' ->
  run_scheduler fuel input q = run_scheduler fuel input q'.
Proof.
  intros E Hm Hm'. unfold run_scheduler. rewrite E.
  destruct (Z.leb_spec n 0); [reflexivity|].
  destruct (max_burst_bound _ _ Hm) as [Hq _].
  destruct (max_burst_bound _ _ Hm') as [Hq' _].
  pose proof (read_input_file_length _ _ _ E ltac:(lia)) as Hlen.
  pose proof (read_input_file_fresh _ _ _ E) as Hfresh.
  pose proof (read_input_file_fits _ _ _ E) as Hfits.
  rewrite (run_loop_quantum n g q q' fuel);
    auto using init_sim_inv, init_sim_fcfs, init_sim_slice.
Qed.

(* ------------------------------------------------------------------ *)
(** ** Aggregates *)

Lemma simulation_end_nonneg g : 0 <= simulation_end g.
Proof.
  unfold simulation_end.
  assert (H : forall l acc, acc <= fold_left
            (fun a pc => if a <? finish_time pc then finish_time pc else a) l acc).
  { induction l as [|pc l IH]; intros acc; simpl; [lia|].
    eapply Z.le_trans; [|apply IH]. destruct (Z.ltb_spec acc (finish_time pc)); lia. }
  apply H.
Qed.

(** C7: the single process of [input_one] arrives at time 5 with one CPU
    burst of 2 and no I/O.  Under every quantum of at least 1 the run
    reports, given enough fuel for the loop to exit, idle time 5, makespan 7
    and utilization 100 * 2/7.  In every
    complete run the reported makespan is the latest finish time, which
    is never negative, the reported idle time is the accumulated
    [cpu_idle_time], and the reported utilization is
    100 * (makespan - idle_time) / makespan, or 0 when the makespan is 0.
    (The utilization, a double in the source, is an exact rational here.) *)
Theorem C7_idle_and_utilization :
  (forall q, 1 <= q ->
     exists fuel tr agg s,
       run_scheduler fuel input_one q = Finished tr agg s /\
       idle_time agg = 5 /\ total_tat agg = 7 /\
       (utilization agg == 100 * (2 # 7))%Q) /\
  (forall fuel input q tr agg s,
     run_scheduler fuel input q = Finished tr agg s ->
     total_tat agg = simulation_end (g_processes s) /\
     idle_time agg = cpu_idle_time s /\
     0 <= total_tat agg /\
     (total_tat agg = 0 -> utilization agg = 0%Q) /\
     (0 < total_tat agg ->
      utilization agg =
        (100 * (inject_Z (total_tat agg - idle_time agg)
                / inject_Z (total_tat agg)))%Q)).
Proof.
  split.
  - intros q Hq. destruct (Z.eq_dec q 1) as [->|Hne].
    + exists 3%nat. do 3 eexists. split; [vm_compute; reflexivity|].
      cbn [idle_time total_tat utilization]. repeat split; reflexivity.
    + exists 2%nat.
      assert (Hm : max_burst table_one = 2) by reflexivity.
      rewrite (run_scheduler_quantum 2 input_one q 2 1 table_one read_input_one)
        by (rewrite Hm; lia).
      do 3 eexists. split; [vm_compute; reflexivity|].
      cbn [idle_time total_tat utilization]. repeat split; reflexivity.
  - intros fuel input q tr agg s H. unfold run_scheduler in H.
    destruct (read_input_file input) as [[n g]|]; [|discriminate].
    destruct (n <=? 0); [discriminate|].
    destruct (run_loop fuel n q _) as [s1|]; [|discriminate].
    injection H as <- <- <-.
    unfold print_aggregate_metrics; cbn [total_tat idle_time utilization].
    pose proof (simulation_end_nonneg (g_processes s1)) as Hn.
    repeat split; auto.
    + intros Hz. rewrite Hz. reflexivity.
    + intros Hp. destruct (Z.ltb_spec 0 (simulation_end (g_processes s1))); [reflexivity | lia].
Qed.

Lemma C7_witness :
  1 <= 5 /\
  exists fuel tr agg s,
    run_scheduler fuel input_one 5 = Finished tr agg s /\
    idle_time agg = 5 /\ total_tat agg = 7 /\
    (utilization agg == 100 * (2 # 7))%Q.
Proof.
  split; [lia|]. apply (proj1 C7_idle_and_utilization 5). lia.
Defined.

(* ------------------------------------------------------------------ *)
(** ** A burst list that ends with an I/O burst *)

(** One process, external id 1, arriving at 0, with a CPU burst of 5
    followed by an I/O burst of 3 and the end marker. *)
Definition input_trailing_io : list Z := [1; 1; 0; 5; 3; -1].

(** The waits charged to internal pid [p] at its dispatches. *)
Definition dispatch_waits (p : Z) (tr : list Obs) : list Z :=
  flat_map (fun o => match o with
                     | ObsDispatch p' _ w _ => if p' =? p then [w] else []
                     | _ => []
                     end) tr.

(** The wait times the completion records show, as (external id, wait). *)
Definition exit_waits (tr : list Obs) : list (Z * Z) :=
  flat_map (fun o => match o with
                     | ObsExit _ ext _ _ w => [(ext, w)]
                     | _ => []
                     end) tr.

(** C4 at [input_trailing_io]: the reader adds the trailing I/O burst to
    [total_cpu_io] (5 + 3 = 8), the engine never runs it, and the process
    exits at time 5 with a turnaround of 5, less than [total_cpu_io]. *)
Theorem C4_trailing_io_turnaround :
  exists tr agg s,
    run_scheduler 2 input_trailing_io 10 = Finished tr agg s /\
    finish_time (get_proc (g_processes s) 0) = 5 /\
    arrival_time (get_proc (g_processes s) 0) = 0 /\
    total_cpu_io (get_proc (g_processes s) 0) = 8 /\
    finish_time (get_proc (g_processes s) 0)
      - arrival_time (get_proc (g_processes s) 0)
      < total_cpu_io (get_proc (g_processes s) 0).
Proof.
  do 3 eexists. split; [vm_compute; reflexivity|].
  repeat split.
Qed.

(** C5 at [input_trailing_io]: the process is dispatched once, after a
    wait of 0; its [wait_time] field and the total the aggregator sums are
    0, but its completion record shows a wait time of
    turnaround - total_cpu_io = 5 - 8 = -3. *)
Theorem C5_trailing_io_wait :
  exists tr agg s,
    run_scheduler 2 input_trailing_io 10 = Finished tr agg s /\
    dispatch_waits 0 tr = [0] /\
    wait_time (get_proc (g_processes s) 0) = sum (dispatch_waits 0 tr) /\
    total_wait (g_processes s) = sum (dispatch_waits 0 tr) /\
    exit_waits tr = [(1, -3)].
Proof.
  do 3 eexists. split; [vm_compute; reflexivity|].
  repeat split.
Qed.

(* ------------------------------------------------------------------ *)
(** ** Termination *)

(** The end-of-slice events a burst with [rem] left still needs under
    quantum [q]: one per full quantum, and at least one. *)
Definition slices_left (q rem : Z) : Z := Z.max 1 ((rem + q - 1) / q).




(** The events the bursts after the current one will need: for each, the
    arrival that ends the I/O before it and its slices. *)
Definition later_events (q : Z) (pc : PCB) : Z :=
  sum (map (fun j => 1 + slices_left q (nth j (cpu_bursts pc) 0))
           (seq (S (Z.to_nat (current_burst pc)))
                (Z.to_nat (num_bursts pc) - S (Z.to_nat (current_burst pc))))).

(** The events a process still needs once it holds or awaits the CPU. *)
Definition events_left (q : Z) (pc : PCB) : Z :=
  slices_left q (remaining_cpu pc) + later_events q pc.

Definition event_weight (q : Z) (G : list PCB) (e : Event) : Z :=
  (match type e with EVT_ARRIVE => 1 | _ => 0 end)
  + events_left q (get_proc G (pid e)).

(** The number of turns the main loop still has to make. *)
Definition potential (q : Z) (s : Sim) : Z :=
  sum (map (event_weight q (g_processes s)) (contents (eventQ s)))
  + sum (map (fun p => events_left q (get_proc (g_processes s) p))
             (rq_list (readyQ s))).

















(** What a run on an input that is not negative keeps. *)
Lemma reachable_sound input q n g s :
  read_input_file input = Some (n, g) -> nonneg_input g ->
  reachable input q s ->
  sim_inv n g [] s /\ cpu_inv s /\ slice_inv q s /\ Forall time_ok (g_processes s).
Proof.
  intros E Hnn Hr.
  destruct (reachable_slice _ _ _ _ _ E Hr) as (H & Hc & Hs).
  pose proof (reachable_nonneg _ _ _ _ _ E Hnn Hr). auto.
Qed.



(** The bound is met on the two-process input of the worked example: the
    run with quantum 3 takes the eight turns its entry potential counts. *)
Example potential_input_two :
  potential 3 (init_sim 2 table_two) = 8 /\
  run_loop 7 2 3 (init_sim 2 table_two) = None.
Proof. split; vm_compute; reflexivity. Qed.


(* ------------------------------------------------------------------ *)
(** ** Who has finished *)

(** A PCB at rest after its last CPU burst. *)
Definition done_ok (pc : PCB) : Prop :=
  remaining_cpu pc = 0 /\ num_bursts pc <= current_burst pc + 1.


Lemma exits_app tr o : exits (tr ++ o) = exits tr ++ exits o.
Proof. apply flat_map_app. Qed.

Lemma exits_pushes l : exits (map ObsPush l) = [].
Proof. induction l as [|x l IH]; [reflexivity | exact IH]. Qed.

Lemma pop_state_pending n g0 s e mh :
  sim_inv n g0 [] s -> (0 < size (eventQ s))%nat ->
  eventHeap_pop (g_processes s) (eventQ s) = (e, mh) ->
  Permutation (pid e :: pending (pop_state s e mh)) (pending s).
Proof.
  intros H Hpos Hpop.
  destruct (eventHeap_pop_spec _ _ (inv_heap _ _ _ _ H) Hpos)
    as (e' & mh' & E & _ & _ & _ & Hperm & _).
  rewrite Hpop in E. injection E as <- <-.
  unfold pending. cbn [pop_state eventQ readyQ]. rewrite Hperm. reflexivity.
Qed.




Lemma done_ok_upd_proc g p0 p f :
  0 <= p0 -> 0 <= p < Z.of_nat (length g) ->
  (forall pc, done_ok pc -> done_ok (f pc)) ->
  done_ok (get_proc g p) -> done_ok (get_proc (upd_proc g p0 f) p).
Proof.
  intros Hp0 Hp Hf Hd. destruct (Z.eq_dec p0 p) as [->|Hne].
  - rewrite get_upd_proc_same by assumption. apply Hf. assumption.
  - rewrite get_upd_proc_other by lia. assumption.
Qed.










Lemma arrival_events_ids ps : forall i g0,
  (forall k, (k < length ps)%nat ->
             id (get_proc g0 (i + Z.of_nat k)) = id (nth k ps PCB_zero)) ->
  map (fun p => id (get_proc g0 p)) (map pid (arrival_events ps i)) = map id ps.
Proof.
  induction ps as [|pc ps IH]; intros i g0 H; [reflexivity|].
  cbn [arrival_events map pid]. f_equal.
  - specialize (H O ltac:(cbn; lia)). rewrite Z.add_0_r in H. exact H.
  - apply IH. intros k Hk. specialize (H (S k) ltac:(cbn; lia)).
    cbn [nth] in H. rewrite <- H. do 2 f_equal. lia.
Qed.

Lemma arrival_events_nth_pid ps : forall i k,
  (k < length ps)%nat -> In (i + Z.of_nat k) (map pid (arrival_events ps i)).
Proof.
  induction ps as [|pc ps IH]; intros i k Hk; cbn [length] in Hk; [lia|].
  cbn [arrival_events map pid]. destruct k as [|k].
  - left. lia.
  - right. replace (i + Z.of_nat (S k)) with (i + 1 + Z.of_nat k) by lia.
    apply IH. lia.
Qed.




(** The two-process input of the examples is not negative, and its run
    with quantum 3 leaves the loop after eight turns. *)
Lemma nonneg_table_two : nonneg_input table_two.
Proof.
  repeat constructor; cbn; try lia;
    apply Forall_forall; intros x Hx; cbn in Hx;
    repeat (destruct Hx as [<-|Hx]; [lia|]); destruct Hx.
Qed.

Lemma run_two_exit :
  exists s, run_loop 8 2 3 (init_sim 2 table_two) = Some s /\
            reachable input_two 3 s /\ loop_cond 2 s = false /\
            cpu_idle_time s = 0 /\ current_time s = 14 /\
            map fst (exits (trace s)) = [2; 1].
Proof.
  destruct (run_loop 8 2 3 (init_sim 2 table_two)) as [s|] eqn:E;
    [|vm_compute in E; discriminate E].
  exists s. split; [reflexivity|].
  destruct (run_loop_reachable input_two 3 2 table_two 8 _ s eq_refl
              (reach_init input_two 3 2 table_two eq_refl ltac:(lia)) E) as [Hr Hc].
  split; [exact Hr|]. split; [exact Hc|].
  assert (E1 : option_map cpu_idle_time (run_loop 8 2 3 (init_sim 2 table_two)) = Some 0)
    by (vm_compute; reflexivity).
  assert (E2 : option_map current_time (run_loop 8 2 3 (init_sim 2 table_two)) = Some 14)
    by (vm_compute; reflexivity).
  assert (E3 : option_map (fun s => map fst (exits (trace s)))
                          (run_loop 8 2 3 (init_sim 2 table_two)) = Some [2; 1])
    by (vm_compute; reflexivity).
  rewrite E in E1, E2, E3. cbn [option_map] in *.
  injection E1 as E1. injection E2 as E2. injection E3 as E3. auto.
Qed.




(* ------------------------------------------------------------------ *)
(** ** The end of a slice *)

Lemma end_of_slice_running s e :
  cpu_inv s -> In e (contents (eventQ s)) -> type e <> EVT_ARRIVE ->
  pid e = running_pid s.
Proof.
  intros [[[_ Harr] _] | (_ & _ & Hall)] Hin Hty.
  - unfold heap_arrivals in Harr. rewrite Forall_forall in Harr.
    apply Harr in Hin. contradiction.
  - apply Hall; assumption.
Qed.

(** X7.  When the main loop pops an end-of-slice event, in a run on a
    non-negative input: the event is that of the running process; the
    time used, the [int] that holds [evt.time - start_run_time], is the
    slice the dispatcher granted, whether or not the end of the slice
    fitted the [int] field of the event, so that neither safety clamp of
    the handler acts (the time used is not negative and does not exceed
    what remained); after a CPU_COMPLETE nothing remains of the burst;
    after a CPU_TIMEOUT something does, so the handler always puts the
    process back in the ready queue and its branch for a burst that
    ended is never taken. *)
Theorem slice_end_exact input q n g s e mh :
  read_input_file input = Some (n, g) -> nonneg_input g -> 0 <= q ->
  reachable input q s -> loop_cond n s = true ->
  eventHeap_pop (g_processes s) (eventQ s) = (e, mh) ->
  type e <> EVT_ARRIVE ->
  pid e = running_pid s /\
  to_int (time e - start_run_time (get_proc (g_processes s) (pid e)))
  = Z.min (remaining_cpu (get_proc (g_processes s) (pid e))) q /\
  0 <= to_int (time e - start_run_time (get_proc (g_processes s) (pid e)))
    <= remaining_cpu (get_proc (g_processes s) (pid e)) /\
  used_time (pop_state s e mh) (pid e)
  = to_int (time e - start_run_time (get_proc (g_processes s) (pid e))) /\
  remaining_cpu (get_proc (g_processes (release_cpu (pop_state s e mh) (pid e)))
                          (pid e))
  = remaining_cpu (get_proc (g_processes s) (pid e))
    - to_int (time e - start_run_time (get_proc (g_processes s) (pid e))) /\
  (type e = EVT_CPU_COMPLETE ->
   remaining_cpu (get_proc (g_processes s) (pid e)) <= q /\
   remaining_cpu (get_proc (g_processes (release_cpu (pop_state s e mh) (pid e)))
                           (pid e)) = 0) /\
  (type e = EVT_CPU_TIMEOUT ->
   q < remaining_cpu (get_proc (g_processes s) (pid e)) /\
   loop_body q s
   = schedule_next
       (enqueue_state (release_cpu (pop_state s e mh) (pid e)) (pid e)) q).
Proof.
  intros E Hnn Hq Hr Hc Hpop Hty.
  destruct (reachable_sound _ _ _ _ _ E Hnn Hr) as (H & Hcpu & Hs & Ht).
  pose proof Hc as Hc'. apply loop_cond_true in Hc'. destruct Hc' as [_ Hsz].
  pose proof (pop_state_inv _ _ _ _ _ H Hsz Hpop) as H1.
  pose proof (pop_state_slice_end _ _ _ _ _ _ H Hs Hsz Hpop) as Hse.
  destruct (hand_apart _ _ _ _ H1) as (Hv & _ & _).
  pose proof (sim_inv_table_length _ _ _ _ H) as Hlen.
  assert (Hrem : 0 <= remaining_cpu (get_proc (g_processes s) (pid e))).
  { rewrite Forall_forall in Ht.
    apply (Ht (get_proc (g_processes s) (pid e))), get_proc_In. lia. }
  destruct Hse as (Hs1 & Hev & Htime).
  destruct (release_cpu_used n g q (pop_state s e mh) e Hq H1 Hs1 Hev Hty Htime)
    as (Hused & Hut & Hget & Hco & Hto).
  cbn [pop_state g_processes] in Hused, Hget, Hco, Hto.
  pose proof (dispatch_slice_min (remaining_cpu (get_proc (g_processes s) (pid e))) q)
    as Hmin.
  assert (Hin : In e (contents (eventQ s))).
  { destruct (eventHeap_pop_spec _ _ (inv_heap _ _ _ _ H) Hsz)
      as (e' & mh' & Ep & _ & _ & _ & Hperm & _).
    rewrite Hpop in Ep. injection Ep as <- <-.
    apply (Permutation_in _ (Permutation_sym Hperm)). left. reflexivity. }
  split; [apply end_of_slice_running; assumption|].
  split; [lia|]. split; [lia|].
  cbn [pop_state g_processes] in Hut.
  split; [rewrite Hut, Hused; lia|].
  split; [rewrite Hget, Hused; pcb_simpl; lia|]. split.
  - intros Et. specialize (Hco Et). split; [lia|]. rewrite Hget. pcb_simpl. lia.
  - intros Et. destruct (Hto Et) as [Hsl Hlt]. split; [exact Hlt|].
    rewrite (loop_body_eq q s e mh Hpop), handle_event_timeout by assumption.
    rewrite Hget. pcb_simpl.
    destruct (Z.ltb_spec 0 (Z.max 0
                (remaining_cpu (get_proc (g_processes s) (pid e))
                 - Z.max 0 (dispatch_slice
                              (remaining_cpu (get_proc (g_processes s) (pid e))) q))));
      [reflexivity | lia].
Qed.

(** The run on [input_two] with quantum 3 after two turns: P1 holds the
    CPU since time 0 and P2 waits since time 1. *)
Definition sim_two_busy : Sim := loop_body 3 (loop_body 3 (init_sim 2 table_two)).

Lemma sim_two_busy_reachable : reachable input_two 3 sim_two_busy.
Proof.
  unfold sim_two_busy.
  apply (reach_step _ _ 2 table_two); [reflexivity | | vm_compute; reflexivity].
  apply (reach_step _ _ 2 table_two); [reflexivity | | vm_compute; reflexivity].
  apply reach_init; [reflexivity | lia].
Qed.

Lemma slice_end_exact_witness :
  fst (eventHeap_pop (g_processes sim_two_busy) (eventQ sim_two_busy))
  = mkEvent 3 EVT_CPU_TIMEOUT 0 /\
  running_pid sim_two_busy = 0 /\
  to_int (3 - start_run_time (get_proc (g_processes sim_two_busy) 0))
  = Z.min (remaining_cpu (get_proc (g_processes sim_two_busy) 0)) 3.
Proof.
  assert (Ee : fst (eventHeap_pop (g_processes sim_two_busy) (eventQ sim_two_busy))
               = mkEvent 3 EVT_CPU_TIMEOUT 0) by (vm_compute; reflexivity).
  destruct (eventHeap_pop (g_processes sim_two_busy) (eventQ sim_two_busy))
    as [e mh] eqn:Epop.
  cbn [fst] in Ee. subst e.
  destruct (slice_end_exact input_two 3 2 table_two sim_two_busy
              (mkEvent 3 EVT_CPU_TIMEOUT 0) mh eq_refl nonneg_table_two
              ltac:(lia) sim_two_busy_reachable
              ltac:(vm_compute; reflexivity) Epop ltac:(discriminate))
    as (Hrun & Hused & _).
  cbn [pid time] in Hrun, Hused.
  split; [reflexivity|]. split; [symmetry; exact Hrun | exact Hused].
Defined.

(* ------------------------------------------------------------------ *)
(** ** The CPU and the ready queue *)

Lemma NoDup_map_eq {A B} (f : A -> B) (l : list A) x y :
  NoDup (map f l) -> In x l -> In y l -> f x = f y -> x = y.
Proof.
  induction l as [|a l IH]; intros Hnd Hx Hy Hf; [destruct Hx|].
  cbn [map] in Hnd. apply NoDup_cons_iff in Hnd. destruct Hnd as [Hnin Hnd].
  destruct Hx as [<-|Hx], Hy as [<-|Hy]; auto.
  - exfalso. apply Hnin. rewrite Hf. apply in_map. assumption.
  - exfalso. apply Hnin. rewrite <- Hf. apply in_map. assumption.
Qed.

Lemma NoDup_app_disjoint {A} (l1 l2 : list A) x :
  NoDup (l1 ++ l2) -> In x l1 -> In x l2 -> False.
Proof.
  intros Hnd H1 H2. apply in_split in H2. destruct H2 as (a & b & ->).
  rewrite app_assoc in Hnd. apply NoDup_remove_2 in Hnd. apply Hnd.
  apply in_or_app. left. apply in_or_app. left. assumption.
Qed.

(** X8.  At the head of the main loop, for any input and any quantum: when a
    process is ready the CPU is taken, so the CPU never idles while a
    process waits for it; the CPU is taken exactly when the heap holds an
    end-of-slice event, which is then the only one and belongs to the
    running process; and a process that runs is not in the ready queue
    and has no other event pending. *)
Theorem cpu_busy_while_ready input q n g s :
  read_input_file input = Some (n, g) -> reachable input q s ->
  (count (readyQ s) <> 0 -> 0 <= running_pid s) /\
  (running_pid s = -1 \/ 0 <= running_pid s < n) /\
  (0 <= running_pid s <->
   exists e, In e (contents (eventQ s)) /\ type e <> EVT_ARRIVE) /\
  (forall e e', In e (contents (eventQ s)) -> In e' (contents (eventQ s)) ->
                type e <> EVT_ARRIVE -> type e' <> EVT_ARRIVE ->
                e = e' /\ pid e = running_pid s) /\
  (0 <= running_pid s -> ~ In (running_pid s) (rq_list (readyQ s))).
Proof.
  intros E Hr. destruct (reachable_inv _ _ _ Hr) as (n' & g' & E' & Hinv & Hcpu).
  rewrite E in E'. injection E' as <- <-.
  destruct (inv_tokens _ _ _ _ Hinv) as (Hnd & Hrange & _). cbn [app] in Hnd, Hrange.
  unfold pending in Hnd, Hrange.
  pose proof (NoDup_app_remove_r _ _ Hnd) as Hnde.
  destruct Hcpu as [[[Hrun Harr] Hcnt] | (Hrun & (er & Hin & Hty & Hpid) & Hall)].
  - unfold heap_arrivals in Harr. rewrite Forall_forall in Harr.
    split; [intros; contradiction|]. split; [left; assumption|].
    split; [split; [lia | intros (e & He & Hne); apply Harr in He; contradiction]|].
    split; [intros e e' He _ Hne; apply Harr in He; contradiction | lia].
  - split; [intros _; assumption|].
    assert (Hv : 0 <= running_pid s < n).
    { rewrite Forall_forall in Hrange. rewrite <- Hpid. apply Hrange.
      apply in_or_app. left. apply in_map. assumption. }
    split; [right; assumption|].
    split; [split; [intros _; exists er; auto | intros _; assumption]|].
    split.
    + intros e e' He He' Hne Hne'. split; [|apply Hall; assumption].
      apply (NoDup_map_eq pid (contents (eventQ s))); auto.
      rewrite (Hall e He Hne), (Hall e' He' Hne'). reflexivity.
    + intros _ Hinq. rewrite <- Hpid in Hinq.
      apply (NoDup_app_disjoint _ _ (pid er) Hnd); [apply in_map|]; assumption.
Qed.

Lemma cpu_busy_while_ready_witness :
  count (readyQ sim_two_busy) = 1 /\ running_pid sim_two_busy = 0 /\
  0 <= running_pid sim_two_busy.
Proof.
  split; [reflexivity|]. split; [reflexivity|].
  destruct (cpu_busy_while_ready input_two 3 2 table_two sim_two_busy eq_refl
              sim_two_busy_reachable) as (Hbusy & _).
  apply Hbusy. vm_compute. discriminate.
Defined.

(* ------------------------------------------------------------------ *)
(** ** The number of turns of the main loop *)








(* ------------------------------------------------------------------ *)
(** ** First come, first served *)

(** X12.  FCFS is Round Robin with a long quantum.  Two runs on the same input
    whose quanta are both at least the longest CPU burst of the input go
    through the same states and print the same: in particular the run
    that [main] makes with the quantum 1000000000 is the run under any
    other quantum that no burst exceeds. *)
Theorem fcfs_quantum_irrelevant fuel input q q' n g :
  read_input_file input = Some (n, g) ->
  max_burst g <= q -> max_burst g <= q' ->
  run_scheduler fuel input q = run_scheduler fuel input q' /\
  (max_burst g <= 1000000000 ->
   run_scheduler fuel input q = run_scheduler fuel input 1000000000).
Proof.
  intros E Hq Hq'. split.
  - eapply run_scheduler_quantum; eassumption.
  - intros Hbig. eapply run_scheduler_quantum; eassumption.
Qed.

Lemma fcfs_quantum_irrelevant_witness :
  max_burst table_two = 10 /\
  run_scheduler 8 input_two 10 = run_scheduler 8 input_two 1000000000.
Proof.
  assert (Hm : max_burst table_two = 10) by (vm_compute; reflexivity).
  split; [exact Hm|].
  apply (fcfs_quantum_irrelevant 8 input_two 10 10 2 table_two eq_refl);
    rewrite Hm; lia.
Defined.


(* ================================================================== *)
(** * Further properties of the program *)

(* ------------------------------------------------------------------ *)
(** ** The comparison of events *)

(** X16.  [compareEvents] is a three-way comparison for a total preorder: it
    answers -1, 0 or 1; exchanging its arguments negates the answer; it
    is transitive; it answers 0 exactly for two events of equal time,
    kind and external identifier (their internal pids may differ), and a
    negative number exactly when the key of the first comes first. *)
Theorem compareEvents_three_way g a b c :
  (compareEvents g a b = -1 \/ compareEvents g a b = 0 \/ compareEvents g a b = 1) /\
  compareEvents g b a = - compareEvents g a b /\
  (compareEvents g a b <= 0 -> compareEvents g b c <= 0 -> compareEvents g a c <= 0) /\
  (compareEvents g a b = 0 <-> event_key g a = event_key g b) /\
  (compareEvents g a b < 0 <-> key_lt (event_key g a) (event_key g b)).
Proof.
  split; [apply compareEvents_range|].
  split; [cmp_cases; lia|].
  split; [apply ev_le_trans|].
  split; [apply compareEvents_eq | apply compareEvents_lt].
Qed.

(* ------------------------------------------------------------------ *)
(** ** The event heap as a sorting device *)

(** Push the events of [es], first to last. *)
Fixpoint push_all (g : list PCB) (mh : EventMinHeap) (es : list Event)
  : EventMinHeap :=
  match es with
  | [] => mh
  | e :: es' => push_all g (fst (eventHeap_push g mh e)) es'
  end.

(** Pop [k] times and list what came out, first to last. *)
Fixpoint pop_all (g : list PCB) (k : nat) (mh : EventMinHeap)
  : list Event * EventMinHeap :=
  match k with
  | O => ([], mh)
  | S k' =>
    let '(e, mh1) := eventHeap_pop g mh in
    let '(out, mh2) := pop_all g k' mh1 in
    (e :: out, mh2)
  end.

Lemma push_all_spec g es : forall mh,
  heap_wf g mh -> (size mh + length es <= capacity mh)%nat ->
  heap_wf g (push_all g mh es) /\
  capacity (push_all g mh es) = capacity mh /\
  size (push_all g mh es) = (size mh + length es)%nat /\
  Permutation (contents (push_all g mh es)) (es ++ contents mh).
Proof.
  induction es as [|e es IH]; intros mh Hwf Hroom; cbn [push_all length] in *.
  - rewrite Nat.add_0_r. auto.
  - destruct (eventHeap_push_spec g mh e Hwf ltac:(lia))
      as (mh' & E & Hwf' & Hcap & Hsz & Hp).
    rewrite E. cbn [fst].
    destruct (IH mh' Hwf' ltac:(lia)) as (H1 & H2 & H3 & H4).
    split; [assumption|]. split; [lia|]. split; [lia|].
    rewrite H4. cbn [app]. rewrite Hp. symmetry. apply Permutation_middle.
Qed.

Lemma pop_all_spec g k : forall mh,
  heap_wf g mh -> size mh = k ->
  Permutation (fst (pop_all g k mh)) (contents mh) /\
  StronglySorted (ev_le g) (fst (pop_all g k mh)) /\
  size (snd (pop_all g k mh)) = O.
Proof.
  induction k as [|k IH]; intros mh Hwf Hsz; cbn [pop_all].
  - cbn [fst snd]. unfold contents. rewrite Hsz. cbn [firstn].
    repeat split; auto. constructor.
  - destruct (eventHeap_pop_spec g mh Hwf ltac:(lia))
      as (e & mh' & E & Hwf' & _ & Hsz' & Hp & Hmin).
    rewrite E. destruct (IH mh' Hwf' ltac:(lia)) as (H1 & H2 & H3).
    destruct (pop_all g k mh') as [out mh2]. cbn [fst snd] in *.
    split; [|split]; auto.
    + rewrite Hp. constructor. assumption.
    + constructor; [assumption|]. apply Forall_forall. intros x Hx.
      apply Hmin. rewrite Hp. right.
      apply (Permutation_in _ H1). assumption.
Qed.

(** X14.  Heap sort.  When the events of [es] are pushed into a fresh heap that
    has room for them and the heap is then popped as many times, the
    events come out in the order of the queue (time, then kind, then
    external identifier), none lost and none made up, and the heap is
    empty again. *)
Theorem eventHeap_sorts g cap es :
  (length es <= cap)%nat ->
  Permutation (fst (pop_all g (length es) (push_all g (eventHeap_init cap) es))) es /\
  StronglySorted (fun a b => key_le (event_key g a) (event_key g b))
                 (fst (pop_all g (length es) (push_all g (eventHeap_init cap) es))) /\
  eventHeap_empty
    (snd (pop_all g (length es) (push_all g (eventHeap_init cap) es))) = true.
Proof.
  intros Hlen.
  destruct (push_all_spec g es (eventHeap_init cap) (eventHeap_init_wf g cap))
    as (Hwf & _ & Hsz & Hp); [cbn; lia|].
  cbn [eventHeap_init size] in Hsz.
  destruct (pop_all_spec g (length es) _ Hwf Hsz) as (H1 & H2 & H3).
  split; [|split].
  - rewrite H1, Hp. unfold contents at 1. cbn [eventHeap_init size firstn].
    rewrite app_nil_r. reflexivity.
  - eapply StronglySorted_ind
      with (P := StronglySorted (fun a b => key_le (event_key g a) (event_key g b)));
      [constructor | | exact H2].
    intros a l _ IH Hall. constructor; [exact IH|].
    eapply Forall_impl; [|exact Hall]. intros x. apply ev_le_key.
  - unfold eventHeap_empty. rewrite H3. reflexivity.
Qed.

Lemma eventHeap_sorts_witness :
  fst (pop_all table_two 3
         (push_all table_two (eventHeap_init 4)
            [mkEvent 7 EVT_ARRIVE 0; mkEvent 3 EVT_CPU_TIMEOUT 1;
             mkEvent 3 EVT_ARRIVE 1]))
  = [mkEvent 3 EVT_ARRIVE 1; mkEvent 3 EVT_CPU_TIMEOUT 1; mkEvent 7 EVT_ARRIVE 0] /\
  Permutation
    (fst (pop_all table_two 3
            (push_all table_two (eventHeap_init 4)
               [mkEvent 7 EVT_ARRIVE 0; mkEvent 3 EVT_CPU_TIMEOUT 1;
                mkEvent 3 EVT_ARRIVE 1])))
    [mkEvent 7 EVT_ARRIVE 0; mkEvent 3 EVT_CPU_TIMEOUT 1; mkEvent 3 EVT_ARRIVE 1].
Proof.
  split; [vm_compute; reflexivity|].
  apply (eventHeap_sorts table_two 4
           [mkEvent 7 EVT_ARRIVE 0; mkEvent 3 EVT_CPU_TIMEOUT 1;
            mkEvent 3 EVT_ARRIVE 1]).
  cbn; lia.
Defined.

(** X15.  The two ways a push ends.  On a well-formed heap with room the event
    is stored: the heap stays well formed (in heap order), holds one event
    more, and its contents are the old ones and the new event.  On a full
    heap the event is dropped: the heap is unchanged and the overflow
    message is all that happens. *)
Theorem eventHeap_push_stores_or_drops g mh ev :
  heap_wf g mh ->
  heap_wf g (fst (eventHeap_push g mh ev)) /\
  capacity (fst (eventHeap_push g mh ev)) = capacity mh /\
  ((size mh < capacity mh)%nat ->
   snd (eventHeap_push g mh ev) = [ObsPush ev] /\
   size (fst (eventHeap_push g mh ev)) = S (size mh) /\
   Permutation (contents (fst (eventHeap_push g mh ev))) (ev :: contents mh)) /\
  ((capacity mh <= size mh)%nat ->
   eventHeap_push g mh ev = (mh, [ObsHeapOverflow])).
Proof.
  intros Hwf.
  destruct (Nat.le_gt_cases (capacity mh) (size mh)) as [Hfull|Hroom].
  - rewrite eventHeap_push_full by assumption. cbn [fst snd].
    split; [assumption|]. split; [reflexivity|]. split; [lia | reflexivity].
  - destruct (eventHeap_push_spec g mh ev Hwf Hroom)
      as (mh' & E & Hwf' & Hcap & Hsz & Hp).
    rewrite E. cbn [fst snd].
    split; [assumption|]. split; [assumption|]. split; [auto | lia].
Qed.

Lemma eventHeap_push_witness :
  heap_wf table_two (eventHeap_init 1) /\
  eventHeap_push table_two
    (fst (eventHeap_push table_two (eventHeap_init 1) (mkEvent 3 EVT_ARRIVE 0)))
    (mkEvent 1 EVT_ARRIVE 1)
  = (fst (eventHeap_push table_two (eventHeap_init 1) (mkEvent 3 EVT_ARRIVE 0)),
     [ObsHeapOverflow]).
Proof.
  split; [apply eventHeap_init_wf|].
  apply (eventHeap_push_stores_or_drops table_two
           (fst (eventHeap_push table_two (eventHeap_init 1) (mkEvent 3 EVT_ARRIVE 0)))
           (mkEvent 1 EVT_ARRIVE 1)).
  - apply eventHeap_push_wf, eventHeap_init_wf.
  - vm_compute. lia.
Defined.

(* ------------------------------------------------------------------ *)
(** ** The ready queue as a bounded FIFO *)

(** A use of the ready queue. *)
Inductive RQOp : Type :=
| OpEnqueue (p t : Z)
| OpDequeue.

(** What a use answers: what an enqueue printed, what a dequeue returned. *)
Inductive RQAnswer : Type :=
| Printed (o : list Obs)
| Returned (p : Z).

(** A sequence of uses on the circular buffer of the source. *)
Fixpoint rq_run (g : list PCB) (q : ReadyQueue) (ops : list RQOp)
  : list RQAnswer * list PCB * ReadyQueue :=
  match ops with
  | [] => ([], g, q)
  | OpEnqueue p t :: ops' =>
    let '(g1, q1, o) := RQ_enqueue g q p t in
    let '(ans, g2, q2) := rq_run g1 q1 ops' in
    (Printed o :: ans, g2, q2)
  | OpDequeue :: ops' =>
    let '(p, q1) := RQ_dequeue q in
    let '(ans, g2, q2) := rq_run g q1 ops' in
    (Returned p :: ans, g2, q2)
  end.

(** The same uses on a list bounded by [cap]: an enqueue appends and
    stamps [last_ready_time], unless [cap] are waiting already, when it
    only prints the overflow message; a dequeue takes the head, and
    returns -1 when nobody waits. *)
Fixpoint fifo_run (cap : Z) (g : list PCB) (l : list Z) (ops : list RQOp)
  : list RQAnswer * list PCB * list Z :=
  match ops with
  | [] => ([], g, l)
  | OpEnqueue p t :: ops' =>
    if Z.of_nat (length l) =? cap then
      let '(ans, g2, l2) := fifo_run cap g l ops' in
      (Printed [ObsReadyOverflow] :: ans, g2, l2)
    else
      let '(ans, g2, l2) :=
        fifo_run cap (upd_proc g p (fun pc => set_last_ready_time pc t))
                 (l ++ [p]) ops' in
      (Printed [] :: ans, g2, l2)
  | OpDequeue :: ops' =>
    match l with
    | [] =>
      let '(ans, g2, l2) := fifo_run cap g [] ops' in
      (Returned (-1) :: ans, g2, l2)
    | p :: l' =>
      let '(ans, g2, l2) := fifo_run cap g l' ops' in
      (Returned p :: ans, g2, l2)
    end
  end.

Lemma rq_run_fifo ops : forall g q,
  rq_wf q ->
  fst (fst (rq_run g q ops)) = fst (fst (fifo_run (rq_capacity q) g (rq_list q) ops)) /\
  snd (fst (rq_run g q ops)) = snd (fst (fifo_run (rq_capacity q) g (rq_list q) ops)) /\
  rq_list (snd (rq_run g q ops)) = snd (fifo_run (rq_capacity q) g (rq_list q) ops) /\
  rq_wf (snd (rq_run g q ops)) /\
  rq_capacity (snd (rq_run g q ops)) = rq_capacity q.
Proof.
  induction ops as [|[p t|] ops IH]; intros g q Hwf; cbn [rq_run fifo_run].
  - cbn [fst snd]. auto.
  - rewrite rq_list_length.
    assert (Hcnt : 0 <= count q <= rq_capacity q) by (destruct Hwf; tauto).
    rewrite Z2Nat.id by lia.
    destruct (Z.eqb_spec (count q) (rq_capacity q)) as [Hfull|Hroom].
    + rewrite RQ_enqueue_full by assumption.
      destruct (IH g q Hwf) as (H1 & H2 & H3 & H4 & H5).
      destruct (rq_run g q ops) as [[ans g2] q2].
      destruct (fifo_run (rq_capacity q) g (rq_list q) ops) as [[ans' g2'] l2].
      cbn [fst snd] in *. subst. auto.
    + destruct (RQ_enqueue_spec g q p t Hwf ltac:(lia))
        as (q' & E & Hwf' & Hcap & _ & Hl).
      rewrite E.
      destruct (IH (upd_proc g p (fun pc => set_last_ready_time pc t)) q' Hwf')
        as (H1 & H2 & H3 & H4 & H5).
      rewrite Hcap, Hl in *.
      destruct (rq_run _ q' ops) as [[ans g2] q2].
      destruct (fifo_run (rq_capacity q) _ (rq_list q ++ [p]) ops) as [[ans' g2'] l2].
      cbn [fst snd] in *. subst. auto.
  - destruct (Z.eq_dec (count q) 0) as [Hz|Hnz].
    + assert (El : rq_list q = []).
      { apply length_zero_iff_nil. rewrite rq_list_length, Hz. reflexivity. }
      assert (Ed : RQ_dequeue q = (-1, q)).
      { unfold RQ_dequeue, RQ_isEmpty. rewrite Hz. reflexivity. }
      rewrite Ed, El. destruct (IH g q Hwf) as (H1 & H2 & H3 & H4 & H5).
      rewrite El in *.
      destruct (rq_run g q ops) as [[ans g2] q2].
      destruct (fifo_run (rq_capacity q) g [] ops) as [[ans' g2'] l2].
      cbn [fst snd] in *. subst. auto.
    + assert (Hcnt : 0 <= count q <= rq_capacity q) by (destruct Hwf; tauto).
      destruct (RQ_dequeue_spec q Hwf ltac:(lia))
        as (p & q' & E & Hwf' & Hcap & _ & Hl).
      rewrite E, Hl. destruct (IH g q' Hwf') as (H1 & H2 & H3 & H4 & H5).
      rewrite Hcap in *.
      destruct (rq_run g q' ops) as [[ans g2] q2].
      destruct (fifo_run (rq_capacity q) g (rq_list q') ops) as [[ans' g2'] l2].
      cbn [fst snd] in *. subst. auto.
Qed.

(** X17.  The ready queue is a FIFO of bounded length.  Whatever sequence of
    enqueues and dequeues is applied to a fresh queue of positive
    capacity, the circular buffer answers as the bounded list does: the
    dequeues return the enqueued pids in the order they were accepted, -1
    when nobody waits; an enqueue is refused, with the overflow message
    and no stamp on [last_ready_time], exactly when [capacity] pids wait;
    and the process table ends up the same. *)
Theorem RQ_bounded_fifo cap g ops :
  0 < cap ->
  fst (rq_run g (RQ_init cap) ops) = fst (fifo_run cap g [] ops) /\
  rq_list (snd (rq_run g (RQ_init cap) ops)) = snd (fifo_run cap g [] ops).
Proof.
  intros Hcap.
  destruct (rq_run_fifo ops g (RQ_init cap) (RQ_init_wf cap Hcap))
    as (H1 & H2 & H3 & _).
  rewrite RQ_init_list in *. cbn [RQ_init rq_capacity] in *.
  split; [|exact H3].
  destruct (rq_run g (RQ_init cap) ops) as [[ans g2] q2].
  destruct (fifo_run cap g [] ops) as [[ans' g2'] l2].
  cbn [fst snd] in *. subst. reflexivity.
Qed.

Lemma RQ_bounded_fifo_witness :
  fst (fst (rq_run table_two (RQ_init 2)
              [OpDequeue; OpEnqueue 1 4; OpEnqueue 0 5; OpEnqueue 1 6;
               OpDequeue; OpEnqueue 1 7; OpDequeue; OpDequeue; OpDequeue]))
  = [Returned (-1); Printed []; Printed []; Printed [ObsReadyOverflow];
     Returned 1; Printed []; Returned 0; Returned 1; Returned (-1)] /\
  fst (rq_run table_two (RQ_init 2)
         [OpDequeue; OpEnqueue 1 4; OpEnqueue 0 5; OpEnqueue 1 6;
          OpDequeue; OpEnqueue 1 7; OpDequeue; OpDequeue; OpDequeue])
  = fst (fifo_run 2 table_two []
           [OpDequeue; OpEnqueue 1 4; OpEnqueue 0 5; OpEnqueue 1 6;
            OpDequeue; OpEnqueue 1 7; OpDequeue; OpDequeue; OpDequeue]).
Proof.
  split; [vm_compute; reflexivity|].
  apply (RQ_bounded_fifo 2 table_two
           [OpDequeue; OpEnqueue 1 4; OpEnqueue 0 5; OpEnqueue 1 6;
            OpDequeue; OpEnqueue 1 7; OpDequeue; OpDequeue; OpDequeue]).
  lia.
Defined.

(* ------------------------------------------------------------------ *)

(* ================================================================== *)
(** * The engine over the integers *)

(** The handlers once more, with every [int] field read as the integer
    it is meant to hold: no store narrows.  On a run whose times all fit
    an [int] the program and these handlers go through the same states
    ([reachable_is_exact], below); the accounting of the times is done
    on them. *)

(** [print_per_process_metrics_exact], [tat] and [wtime] not narrowed. *)
Definition print_per_process_metrics_exact (g : list PCB) (current_time : Z) (p : Z) : Obs :=
  let tat := finish_time (get_proc g p) - arrival_time (get_proc g p) in
  let run_time := total_cpu_io (get_proc g p) in
  let perc := if run_time =? 0 then None
              else Some (100 * inject_Z tat / inject_Z run_time)%Q in
  let wtime := tat - run_time in
  ObsExit current_time (id (get_proc g p)) tat perc wtime.

(** [schedule_next_exact], the stores to [wait_time], [start_run_time] and
    [e.time] not narrowed. *)
Definition schedule_next_exact (s : Sim) (q : Z) : Sim :=
  if 0 <=? running_pid s then s
  else if negb (RQ_isEmpty (readyQ s)) then
    let '(p, rq) := RQ_dequeue (readyQ s) in
    let now := current_time s in
    let waited := now - last_ready_time (get_proc (g_processes s) p) in
    let g := upd_proc (g_processes s) p
                      (fun pc => set_wait_time pc (wait_time pc + waited)) in
    let g := upd_proc g p (fun pc => set_start_run_time pc now) in
    let idle :=
      if cpu_busy_until s <? now
      then cpu_idle_time s + (now - cpu_busy_until s)
      else cpu_idle_time s in
    let slice :=
      if q <? remaining_cpu (get_proc g p) then q
      else remaining_cpu (get_proc g p) in
    let end_time := now + slice in
    let e :=
      mkEvent end_time
              (if slice =? remaining_cpu (get_proc g p)
               then EVT_CPU_COMPLETE else EVT_CPU_TIMEOUT)
              p in
    let '(mh, o) := eventHeap_push g (eventQ s) e in
    mkSim g mh rq now idle end_time p end_time (finished_count s)
          (trace s ++ ObsDispatch p now waited slice :: o)
  else s.

(** [release_cpu_exact], [used_time_exact] and the store to [remaining_cpu] not
    narrowed. *)
Definition release_cpu_exact (s : Sim) (p : Z) : Sim :=
  let now := current_time s in
  let used := now - start_run_time (get_proc (g_processes s) p) in
  let used := if used <? 0 then 0 else used in
  let g := upd_proc (g_processes s) p
                    (fun pc => set_remaining_cpu pc (remaining_cpu pc - used)) in
  let g :=
    if remaining_cpu (get_proc g p) <? 0
    then upd_proc g p (fun pc => set_remaining_cpu pc 0) else g in
  let busy := if now <? cpu_busy_until s then now else cpu_busy_until s in
  mkSim g (eventQ s) (readyQ s) now (cpu_idle_time s) busy (-1)
        (running_end_time s) (finished_count s) (trace s).

(** [burst_done_exact], the stores to [finish_time] and [newEvt.time] not
    narrowed. *)
Definition burst_done_exact (s : Sim) (p : Z) : Sim :=
  let now := current_time s in
  let cb := current_burst (get_proc (g_processes s) p) + 1 in
  if num_bursts (get_proc (g_processes s) p) <=? cb then
    let g := upd_proc (g_processes s) p (fun pc => set_finish_time pc now) in
    mkSim g (eventQ s) (readyQ s) now (cpu_idle_time s) (cpu_busy_until s)
          (running_pid s) (running_end_time s) (finished_count s + 1)
          (trace s ++ [print_per_process_metrics_exact g now p])
  else
    let io_time := burst_at (io_bursts (get_proc (g_processes s) p)) (cb - 1) in
    let wakeup := now + io_time in
    let '(mh, o) := eventHeap_push (g_processes s) (eventQ s)
                                   (mkEvent wakeup EVT_ARRIVE p) in
    let g := upd_proc (g_processes s) p (fun pc => set_current_burst pc cb) in
    let g := upd_proc g p
               (fun pc => set_remaining_cpu pc (burst_at (cpu_bursts pc) cb)) in
    mkSim g mh (readyQ s) now (cpu_idle_time s) (cpu_busy_until s)
          (running_pid s) (running_end_time s) (finished_count s)
          (trace s ++ o).

(** [handle_event_exact], the time passed to [RQ_enqueue] not narrowed. *)
Definition handle_event_exact (q : Z) (s : Sim) (evt : Event) : Sim :=
  match type evt with
  | EVT_ARRIVE =>
    let '(g, rq, o) :=
      RQ_enqueue (g_processes s) (readyQ s) (pid evt) (current_time s) in
    let s1 := mkSim g (eventQ s) rq (current_time s) (cpu_idle_time s)
                    (cpu_busy_until s) (running_pid s) (running_end_time s)
                    (finished_count s) (trace s ++ o) in
    if running_pid s1 <? 0 then schedule_next_exact s1 q else s1
  | EVT_CPU_COMPLETE =>
    let s1 := release_cpu_exact s (pid evt) in
    let s2 := burst_done_exact s1 (pid evt) in
    schedule_next_exact s2 q
  | EVT_CPU_TIMEOUT =>
    let s1 := release_cpu_exact s (pid evt) in
    let s2 :=
      if 0 <? remaining_cpu (get_proc (g_processes s1) (pid evt)) then
        let '(g, rq, o) :=
          RQ_enqueue (g_processes s1) (readyQ s1) (pid evt) (current_time s1) in
        mkSim g (eventQ s1) rq (current_time s1) (cpu_idle_time s1)
              (cpu_busy_until s1) (running_pid s1) (running_end_time s1)
              (finished_count s1) (trace s1 ++ o)
      else burst_done_exact s1 (pid evt) in
    schedule_next_exact s2 q
  end.

(** One turn of the main loop over these handlers. *)
Definition loop_body_exact (q : Z) (s : Sim) : Sim :=
  let '(evt, mh) := eventHeap_pop (g_processes s) (eventQ s) in
  let s1 := mkSim (g_processes s) mh (readyQ s) (time evt) (cpu_idle_time s)
                  (cpu_busy_until s) (running_pid s) (running_end_time s)
                  (finished_count s) (trace s ++ [ObsPop evt]) in
  handle_event_exact q s1 evt.

(** The states at the head of the main loop in a run of these handlers. *)
Inductive reachable_exact (input : list Z) (q : Z) : Sim -> Prop :=
| reach_exact_init : forall n g,
    read_input_file input = Some (n, g) -> 0 < n ->
    reachable_exact input q (init_sim n g)
| reach_exact_step : forall n g s,
    read_input_file input = Some (n, g) ->
    reachable_exact input q s -> loop_cond n s = true ->
    reachable_exact input q (loop_body_exact q s).

(* ------------------------------------------------------------------ *)
(** ** The steps of the main loop *)

(** The state after [RQ_enqueue(&readyQ, p, current_time)]. *)
Definition enqueue_state_exact (s : Sim) (p : Z) : Sim :=
  let '(g, rq, o) := RQ_enqueue (g_processes s) (readyQ s) p (current_time s) in
  mkSim g (eventQ s) rq (current_time s) (cpu_idle_time s)
        (cpu_busy_until s) (running_pid s) (running_end_time s)
        (finished_count s) (trace s ++ o).

Lemma loop_body_exact_eq q s e mh :
  eventHeap_pop (g_processes s) (eventQ s) = (e, mh) ->
  loop_body_exact q s = handle_event_exact q (pop_state s e mh) e.
Proof. intros H. unfold loop_body_exact. rewrite H. reflexivity. Qed.

Lemma handle_event_exact_arrive q s e :
  type e = EVT_ARRIVE ->
  handle_event_exact q s e =
  if running_pid (enqueue_state_exact s (pid e)) <? 0
  then schedule_next_exact (enqueue_state_exact s (pid e)) q
  else enqueue_state_exact s (pid e).
Proof.
  intros H. unfold handle_event_exact, enqueue_state_exact. rewrite H.
  destruct (RQ_enqueue _ _ _ _) as [[g rq] o]. reflexivity.
Qed.

Lemma handle_event_exact_complete q s e :
  type e = EVT_CPU_COMPLETE ->
  handle_event_exact q s e =
  schedule_next_exact (burst_done_exact (release_cpu_exact s (pid e)) (pid e)) q.
Proof. intros H. unfold handle_event_exact. rewrite H. reflexivity. Qed.

Lemma handle_event_exact_timeout q s e :
  type e = EVT_CPU_TIMEOUT ->
  handle_event_exact q s e =
  schedule_next_exact
    (if 0 <? remaining_cpu (get_proc (g_processes (release_cpu_exact s (pid e))) (pid e))
     then enqueue_state_exact (release_cpu_exact s (pid e)) (pid e)
     else burst_done_exact (release_cpu_exact s (pid e)) (pid e)) q.
Proof.
  intros H. unfold handle_event_exact, enqueue_state_exact. rewrite H.
  destruct (0 <? _); [|reflexivity].
  destruct (RQ_enqueue _ _ _ _) as [[g rq] o]. reflexivity.
Qed.

(** The table after the dispatcher has charged the wait and stamped the
    start of the slice. *)
Definition dispatch_table_exact (g : list PCB) (p now : Z) : list PCB :=
  upd_proc
    (upd_proc g p
       (fun pc => set_wait_time pc
                    (wait_time pc + (now - last_ready_time (get_proc g p)))))
    p (fun pc => set_start_run_time pc now).

Definition dispatch_event_exact (rem q now p : Z) : Event :=
  mkEvent (now + dispatch_slice rem q)
          (if dispatch_slice rem q =? rem then EVT_CPU_COMPLETE else EVT_CPU_TIMEOUT)
          p.

Lemma dispatch_table_exact_remaining g p now :
  remaining_cpu (get_proc (dispatch_table_exact g p now) p) = remaining_cpu (get_proc g p).
Proof.
  unfold dispatch_table_exact.
  rewrite (get_upd_proc_field remaining_cpu) by reflexivity.
  rewrite (get_upd_proc_field remaining_cpu) by reflexivity. reflexivity.
Qed.

Lemma schedule_next_exact_busy s q : 0 <= running_pid s -> schedule_next_exact s q = s.
Proof.
  intros H. unfold schedule_next_exact.
  destruct (Z.leb_spec 0 (running_pid s)); [reflexivity | lia].
Qed.

Lemma schedule_next_exact_idle s q : count (readyQ s) = 0 -> schedule_next_exact s q = s.
Proof.
  intros H. unfold schedule_next_exact, RQ_isEmpty. rewrite H.
  destruct (0 <=? running_pid s); reflexivity.
Qed.

(** The dispatcher at work, in one equation. *)
Lemma schedule_next_exact_dispatch s q p rq mh o :
  running_pid s < 0 -> count (readyQ s) <> 0 ->
  RQ_dequeue (readyQ s) = (p, rq) ->
  let now := current_time s in
  let g := dispatch_table_exact (g_processes s) p now in
  let rem := remaining_cpu (get_proc (g_processes s) p) in
  eventHeap_push g (eventQ s) (dispatch_event_exact rem q now p) = (mh, o) ->
  schedule_next_exact s q =
  mkSim g mh rq now
        (if cpu_busy_until s <? now
         then cpu_idle_time s + (now - cpu_busy_until s) else cpu_idle_time s)
        (now + dispatch_slice rem q) p (now + dispatch_slice rem q)
        (finished_count s)
        (trace s ++ ObsDispatch p now
                      (now - last_ready_time (get_proc (g_processes s) p))
                      (dispatch_slice rem q) :: o).
Proof.
  intros Hrun Hcnt Hdq now g rem Hpush. unfold schedule_next_exact, RQ_isEmpty.
  destruct (Z.leb_spec 0 (running_pid s)); [lia|].
  destruct (Z.eqb_spec (count (readyQ s)) 0); [contradiction|]. cbn [negb].
  rewrite Hdq. fold now. fold (dispatch_table_exact (g_processes s) p now).
  rewrite !dispatch_table_exact_remaining. fold g rem.
  fold (dispatch_slice rem q). fold (dispatch_event_exact rem q now p).
  rewrite Hpush. reflexivity.
Qed.

(* ------------------------------------------------------------------ *)
(** ** The structural invariant of the run *)

Lemma enqueue_state_exact_inv n g0 s p :
  sim_inv n g0 [p] s -> sim_inv n g0 [] (enqueue_state_exact s p).
Proof.
  intros H. unfold enqueue_state_exact.
  destruct (RQ_enqueue_spec (g_processes s) (readyQ s) p (current_time s)
              (inv_rq _ _ _ _ H) (sim_inv_rq_room _ _ _ _ H))
    as (q' & E & Hwf & Hcap & Hcnt & Hl).
  rewrite E. destruct H.
  assert (Hfr : frozen g0 (upd_proc (g_processes s) p
                             (fun pc => set_last_ready_time pc (current_time s))))
    by (apply frozen_upd_proc; auto).
  constructor; cbn [g_processes eventQ readyQ finished_count trace]; auto;
    try congruence.
  - apply (frozen_heap_wf g0 (g_processes s)); assumption.
  - eapply tokens_perm; [|eassumption]. unfold pending. cbn [eventQ readyQ app].
    rewrite Hl, app_assoc. apply Permutation_cons_append.
  - rewrite app_nil_r. assumption.
Qed.

Lemma release_cpu_exact_frozen g0 s p :
  frozen g0 (g_processes s) -> frozen g0 (g_processes (release_cpu_exact s p)).
Proof.
  intros H. unfold release_cpu_exact. cbn [g_processes].
  destruct (_ <? 0); repeat apply frozen_upd_proc; auto.
Qed.

Lemma release_cpu_exact_inv n g0 hand s p :
  sim_inv n g0 hand s -> sim_inv n g0 hand (release_cpu_exact s p).
Proof.
  intros H. pose proof (release_cpu_exact_frozen g0 s p (inv_frozen _ _ _ _ H)) as Hfr.
  destruct H. constructor; auto.
  apply (frozen_heap_wf g0 (g_processes s)); assumption.
Qed.

Lemma burst_done_exact_inv n g0 s p :
  sim_inv n g0 [p] s -> sim_inv n g0 [] (burst_done_exact s p).
Proof.
  intros H. unfold burst_done_exact.
  destruct (num_bursts _ <=? _).
  - destruct H.
    assert (Hfr : frozen g0 (upd_proc (g_processes s) p
                               (fun pc => set_finish_time pc (current_time s))))
      by (apply frozen_upd_proc; auto).
    constructor; cbn [g_processes eventQ readyQ finished_count trace]; auto.
    + apply (frozen_heap_wf g0 (g_processes s)); assumption.
    + destruct inv_tokens0 as (H1 & H2 & H3 & H4). cbn [app] in *.
      apply NoDup_cons_iff in H1. apply Forall_inv_tail in H2.
      cbn [length] in H4. unfold pending in *. cbn [eventQ readyQ] in *.
      repeat split; try tauto; lia.
    + apply quiet_app; auto. repeat constructor.
  - destruct (eventHeap_push_spec (g_processes s) (eventQ s)
                (mkEvent (current_time s
                          + burst_at (io_bursts (get_proc (g_processes s) p))
                              (current_burst (get_proc (g_processes s) p) + 1 - 1))
                         EVT_ARRIVE p)
                (inv_heap _ _ _ _ H) (sim_inv_heap_room _ _ _ _ H))
      as (mh' & E & Hwf & Hcap & Hsz & Hperm).
    rewrite E. destruct H.
    match goal with |- sim_inv _ _ _ (mkSim ?g _ _ _ _ _ _ _ _ _) =>
      assert (Hfr : frozen g0 g) by (repeat apply frozen_upd_proc; auto) end.
    constructor; cbn [g_processes eventQ readyQ finished_count trace]; auto;
      try congruence.
    + apply (frozen_heap_wf g0 (g_processes s)); assumption.
    + eapply tokens_perm; [|eassumption]. unfold pending. cbn [eventQ readyQ app].
      rewrite Hperm. reflexivity.
    + apply quiet_app; auto. repeat constructor.
Qed.

Lemma dispatch_table_exact_frozen g0 g p now :
  frozen g0 g -> frozen g0 (dispatch_table_exact g p now).
Proof. intros H. unfold dispatch_table_exact. repeat apply frozen_upd_proc; auto. Qed.

Lemma schedule_next_exact_inv n g0 s q :
  sim_inv n g0 [] s -> sim_inv n g0 [] (schedule_next_exact s q).
Proof.
  intros H.
  destruct (Z.le_gt_cases 0 (running_pid s)) as [Hb|Hf];
    [rewrite schedule_next_exact_busy by assumption; assumption|].
  destruct (Z.eq_dec (count (readyQ s)) 0) as [Hz|Hnz];
    [rewrite schedule_next_exact_idle by assumption; assumption|].
  assert (Hcnt : 0 < count (readyQ s))
    by (destruct (inv_rq _ _ _ _ H) as (_ & _ & _ & ? & _); lia).
  destruct (RQ_dequeue_spec _ (inv_rq _ _ _ _ H) Hcnt)
    as (p & rq' & Edq & Hwf' & Hcap' & Hcnt' & Hl).
  pose proof (dispatch_table_exact_frozen g0 _ p (current_time s) (inv_frozen _ _ _ _ H))
    as Hfr.
  destruct (eventHeap_push_spec
              (dispatch_table_exact (g_processes s) p (current_time s)) (eventQ s)
              (dispatch_event_exact (remaining_cpu (get_proc (g_processes s) p)) q
                              (current_time s) p)
              (frozen_heap_wf _ _ _ _ (inv_frozen _ _ _ _ H) Hfr (inv_heap _ _ _ _ H))
              (sim_inv_heap_room _ _ _ _ H))
    as (mh' & E & Hwf & Hcap & Hsz & Hperm).
  rewrite (schedule_next_exact_dispatch s q p rq' mh' _ ltac:(lia) Hnz Edq E).
  destruct H.
  constructor; cbn [g_processes eventQ readyQ finished_count trace]; auto;
    try congruence.
  - eapply tokens_perm; [|eassumption]. unfold pending. cbn [eventQ readyQ app].
    rewrite Hperm, Hl. cbn [map pid dispatch_event_exact app].
    symmetry. apply Permutation_middle.
  - apply quiet_app; auto. repeat constructor.
Qed.

Lemma handle_event_exact_inv n g0 q s e :
  sim_inv n g0 [pid e] s -> sim_inv n g0 [] (handle_event_exact q s e).
Proof.
  intros H. destruct (type e) eqn:Et.
  - rewrite handle_event_exact_arrive by assumption.
    pose proof (enqueue_state_exact_inv _ _ _ _ H).
    destruct (_ <? 0); [apply schedule_next_exact_inv|]; assumption.
  - rewrite handle_event_exact_complete by assumption.
    apply schedule_next_exact_inv, burst_done_exact_inv, release_cpu_exact_inv. assumption.
  - rewrite handle_event_exact_timeout by assumption.
    apply schedule_next_exact_inv.
    destruct (0 <? _);
      [apply enqueue_state_exact_inv | apply burst_done_exact_inv];
      apply release_cpu_exact_inv; assumption.
Qed.

Lemma loop_body_exact_inv n g0 q s :
  sim_inv n g0 [] s -> loop_cond n s = true -> sim_inv n g0 [] (loop_body_exact q s).
Proof.
  intros H Hc. apply loop_cond_true in Hc. destruct Hc as [_ Hsz].
  destruct (eventHeap_pop (g_processes s) (eventQ s)) as [e mh] eqn:Epop.
  rewrite (loop_body_exact_eq q s e mh Epop).
  apply handle_event_exact_inv. eapply pop_state_inv; eassumption.
Qed.

(* ------------------------------------------------------------------ *)
(** ** Who holds the CPU *)

Lemma enqueue_state_exact_fields s p :
  eventQ (enqueue_state_exact s p) = eventQ s /\
  running_pid (enqueue_state_exact s p) = running_pid s /\
  current_time (enqueue_state_exact s p) = current_time s.
Proof.
  unfold enqueue_state_exact. destruct (RQ_enqueue _ _ _ _) as [[g rq] o].
  repeat split.
Qed.

Lemma burst_done_exact_free n g0 s p :
  sim_inv n g0 [p] s -> cpu_free s -> cpu_free (burst_done_exact s p).
Proof.
  intros H [Hr Ha]. unfold burst_done_exact.
  destruct (num_bursts _ <=? _).
  - split; assumption.
  - destruct (eventHeap_push_spec (g_processes s) (eventQ s)
                (mkEvent (current_time s
                          + burst_at (io_bursts (get_proc (g_processes s) p))
                              (current_burst (get_proc (g_processes s) p) + 1 - 1))
                         EVT_ARRIVE p)
                (inv_heap _ _ _ _ H) (sim_inv_heap_room _ _ _ _ H))
      as (mh' & E & _ & _ & _ & Hperm).
    rewrite E. split; [assumption|].
    unfold heap_arrivals in *. cbn [eventQ].
    eapply Permutation_Forall; [symmetry; exact Hperm|].
    constructor; [reflexivity | assumption].
Qed.

Lemma dispatch_event_exact_type rem q now p :
  type (dispatch_event_exact rem q now p) <> EVT_ARRIVE.
Proof. unfold dispatch_event_exact; cbn [type]. destruct (_ =? _); discriminate. Qed.

Lemma schedule_next_exact_cpu n g0 s q :
  sim_inv n g0 [] s -> cpu_free s -> cpu_inv (schedule_next_exact s q).
Proof.
  intros H [Hr Ha].
  destruct (Z.eq_dec (count (readyQ s)) 0) as [Hz|Hnz];
    [rewrite schedule_next_exact_idle by assumption; left; repeat split; assumption|].
  assert (Hcnt : 0 < count (readyQ s))
    by (destruct (inv_rq _ _ _ _ H) as (_ & _ & _ & ? & _); lia).
  destruct (RQ_dequeue_spec _ (inv_rq _ _ _ _ H) Hcnt)
    as (p & rq' & Edq & _ & _ & _ & Hl).
  pose proof (dispatch_table_exact_frozen g0 _ p (current_time s) (inv_frozen _ _ _ _ H))
    as Hfr.
  destruct (eventHeap_push_spec
              (dispatch_table_exact (g_processes s) p (current_time s)) (eventQ s)
              (dispatch_event_exact (remaining_cpu (get_proc (g_processes s) p)) q
                              (current_time s) p)
              (frozen_heap_wf _ _ _ _ (inv_frozen _ _ _ _ H) Hfr (inv_heap _ _ _ _ H))
              (sim_inv_heap_room _ _ _ _ H))
    as (mh' & E & _ & _ & _ & Hperm).
  rewrite (schedule_next_exact_dispatch s q p rq' mh' _ ltac:(lia) Hnz Edq E).
  right. unfold cpu_busy. cbn [eventQ running_pid].
  assert (Hp : 0 <= p < n).
  { destruct (inv_tokens _ _ _ _ H) as (_ & HF & _). cbn [app] in HF.
    rewrite Forall_forall in HF. apply HF. unfold pending.
    apply in_or_app; right. rewrite Hl. left; reflexivity. }
  split; [lia|]. split.
  - eexists. split; [apply (Permutation_in _ (Permutation_sym Hperm)); left; reflexivity|].
    split; [apply dispatch_event_exact_type | reflexivity].
  - intros x Hx Hty. apply (Permutation_in _ Hperm) in Hx.
    destruct Hx as [<-|Hx]; [reflexivity|].
    unfold heap_arrivals in Ha. rewrite Forall_forall in Ha.
    apply Ha in Hx. contradiction.
Qed.

Lemma handle_event_exact_cpu n g0 q s e :
  sim_inv n g0 [pid e] s ->
  (type e = EVT_ARRIVE -> cpu_free s \/ cpu_busy s) ->
  (type e <> EVT_ARRIVE -> heap_arrivals s) ->
  cpu_inv (handle_event_exact q s e).
Proof.
  intros H Harr Hrun. destruct (type e) eqn:Et.
  - rewrite handle_event_exact_arrive by assumption.
    pose proof (enqueue_state_exact_inv _ _ _ _ H) as H2.
    destruct (enqueue_state_exact_fields s (pid e)) as (Eq & Er & _).
    destruct (Z.ltb_spec (running_pid (enqueue_state_exact s (pid e))) 0) as [Hlt|Hge].
    + eapply schedule_next_exact_cpu; [eassumption|].
      destruct (Harr eq_refl) as [[Hr Ha] | [Hr _]]; [|lia].
      split; [congruence|]. unfold heap_arrivals. rewrite Eq. assumption.
    + right. destruct (Harr eq_refl) as [[Hr Ha] | Hb]; [lia|].
      unfold cpu_busy. rewrite Eq, Er. assumption.
  - rewrite handle_event_exact_complete by assumption.
    eapply schedule_next_exact_cpu; [apply burst_done_exact_inv, release_cpu_exact_inv; eassumption|].
    eapply burst_done_exact_free; [apply release_cpu_exact_inv; eassumption|].
    split; [reflexivity|]. apply Hrun. discriminate.
  - rewrite handle_event_exact_timeout by assumption.
    assert (Hfree : cpu_free (release_cpu_exact s (pid e)))
      by (split; [reflexivity | apply Hrun; discriminate]).
    pose proof (release_cpu_exact_inv _ _ _ _ (pid e) H) as H1.
    destruct (0 <? _).
    + eapply schedule_next_exact_cpu; [apply enqueue_state_exact_inv; eassumption|].
      destruct (enqueue_state_exact_fields (release_cpu_exact s (pid e)) (pid e)) as (Eq & Er & _).
      destruct Hfree as [Hr Ha].
      split; [congruence|]. unfold heap_arrivals. rewrite Eq. assumption.
    + eapply schedule_next_exact_cpu; [apply burst_done_exact_inv; eassumption|].
      eapply burst_done_exact_free; eassumption.
Qed.

Lemma loop_body_exact_cpu n g0 q s :
  sim_inv n g0 [] s -> cpu_inv s -> loop_cond n s = true ->
  cpu_inv (loop_body_exact q s).
Proof.
  intros H Hcpu Hc. apply loop_cond_true in Hc. destruct Hc as [_ Hsz].
  destruct (eventHeap_pop (g_processes s) (eventQ s)) as [e mh] eqn:Epop.
  rewrite (loop_body_exact_eq q s e mh Epop).
  eapply handle_event_exact_cpu.
  - eapply pop_state_inv; eassumption.
  - intros Et. eapply pop_arrive_cpu; eassumption.
  - intros Et. eapply pop_run_cpu; eassumption.
Qed.

Lemma reachable_exact_inv input q s :
  reachable_exact input q s ->
  exists n g,
    read_input_file input = Some (n, g) /\ sim_inv n g [] s /\ cpu_inv s.
Proof.
  induction 1 as [n g E Hn | n g s E _ IH Hc].
  - pose proof (read_input_file_length _ _ _ E Hn).
    exists n, g. split; [assumption|].
    split; [apply init_sim_inv | apply init_sim_cpu]; assumption.
  - destruct IH as (n' & g' & E' & Hinv & Hcpu).
    rewrite E in E'. injection E' as <- <-.
    exists n, g. split; [assumption|]. split.
    + apply loop_body_exact_inv; assumption.
    + eapply loop_body_exact_cpu; eassumption.
Qed.


(* ------------------------------------------------------------------ *)
(** ** The table after a slice *)

(** The time charged when a slice ends. *)
Definition used_time_exact (s : Sim) (p : Z) : Z :=
  Z.max 0 (current_time s - start_run_time (get_proc (g_processes s) p)).

Lemma release_cpu_exact_table s p :
  g_processes (release_cpu_exact s p) =
  upd_proc (g_processes s) p
    (fun pc => set_remaining_cpu pc (Z.max 0 (remaining_cpu pc - used_time_exact s p))).
Proof.
  unfold release_cpu_exact, used_time_exact. cbn [g_processes].
  set (u := if _ <? 0 then 0 else _).
  assert (Hu : u = Z.max 0 (current_time s
                            - start_run_time (get_proc (g_processes s) p)))
    by (unfold u; destruct (Z.ltb_spec
          (current_time s - start_run_time (get_proc (g_processes s) p)) 0); lia).
  rewrite <- Hu. clearbody u.
  destruct (Nat.lt_ge_cases (Z.to_nat p) (length (g_processes s))) as [Hin|Hout].
  - rewrite get_upd_proc_in by assumption. cbn [remaining_cpu set_remaining_cpu].
    destruct (Z.ltb_spec (remaining_cpu (get_proc (g_processes s) p) - u) 0).
    + rewrite upd_proc_twice. unfold upd_proc. f_equal.
      unfold set_remaining_cpu; cbn. f_equal. lia.
    + unfold upd_proc. f_equal. unfold set_remaining_cpu. f_equal. lia.
  - rewrite !upd_proc_out by (rewrite ?upd_proc_length; assumption).
    rewrite get_proc_out by assumption. cbn. reflexivity.
Qed.

Lemma release_cpu_exact_fields s p :
  eventQ (release_cpu_exact s p) = eventQ s /\
  readyQ (release_cpu_exact s p) = readyQ s /\
  current_time (release_cpu_exact s p) = current_time s /\
  running_pid (release_cpu_exact s p) = -1 /\
  finished_count (release_cpu_exact s p) = finished_count s /\
  trace (release_cpu_exact s p) = trace s.
Proof. repeat split. Qed.

(* ------------------------------------------------------------------ *)
(** ** The clock *)

(** The times of the events the main loop has popped, oldest first. *)
Definition pop_times (tr : list Obs) : list Z :=
  flat_map (fun o => match o with ObsPop e => [time e] | _ => [] end) tr.

Record time_inv (s : Sim) : Prop := mk_time_inv {
  ti_now : 0 <= current_time s;
  ti_heap : Forall (fun e => current_time s <= time e) (contents (eventQ s));
  ti_procs : Forall time_ok (g_processes s);
  ti_sorted : StronglySorted Z.le (pop_times (trace s));
  ti_pops : Forall (fun t => 0 <= t <= current_time s) (pop_times (trace s))
}.

Lemma pop_times_app tr o : pop_times (tr ++ o) = pop_times tr ++ pop_times o.
Proof. apply flat_map_app. Qed.

Lemma StronglySorted_snoc (l : list Z) x :
  StronglySorted Z.le l -> Forall (fun t => t <= x) l ->
  StronglySorted Z.le (l ++ [x]).
Proof.
  induction 1 as [|h t Hs IH Hh]; intros HF; simpl.
  - repeat constructor.
  - constructor.
    + apply IH. apply (Forall_inv_tail HF).
    + apply Forall_app; split; [assumption|].
      constructor; [apply (Forall_inv HF) | constructor].
Qed.

Lemma pop_state_time n g0 s e mh :
  sim_inv n g0 [] s -> time_inv s -> (0 < size (eventQ s))%nat ->
  eventHeap_pop (g_processes s) (eventQ s) = (e, mh) ->
  time_inv (pop_state s e mh).
Proof.
  intros H Ht Hpos Hpop.
  destruct (eventHeap_pop_spec _ _ (inv_heap _ _ _ _ H) Hpos)
    as (e' & mh' & E & _ & _ & _ & Hperm & Hmin).
  rewrite Hpop in E. injection E as <- <-.
  destruct Ht as [Hnow Hheap Hprocs Hsort Hpops].
  assert (Hine : In e (contents (eventQ s)))
    by (apply (Permutation_in _ (Permutation_sym Hperm)); left; reflexivity).
  assert (Hle : current_time s <= time e)
    by (rewrite Forall_forall in Hheap; apply Hheap; assumption).
  constructor; cbn [pop_state g_processes eventQ current_time trace]; auto.
  - lia.
  - apply Forall_forall. intros x Hx.
    apply (ev_le_time (g_processes s)). apply Hmin.
    apply (Permutation_in _ (Permutation_sym Hperm)). right; assumption.
  - rewrite pop_times_app. cbn. apply StronglySorted_snoc; auto.
    eapply Forall_impl; [|exact Hpops]. simpl; intros; lia.
  - rewrite pop_times_app. cbn. apply Forall_app; split.
    + eapply Forall_impl; [|exact Hpops]. simpl; intros; lia.
    + repeat constructor; lia.
Qed.

Lemma enqueue_state_exact_time n g0 s p :
  sim_inv n g0 [p] s -> time_inv s -> time_inv (enqueue_state_exact s p).
Proof.
  intros H Ht. unfold enqueue_state_exact.
  destruct (RQ_enqueue_spec (g_processes s) (readyQ s) p (current_time s)
              (inv_rq _ _ _ _ H) (sim_inv_rq_room _ _ _ _ H))
    as (q' & E & _).
  rewrite E. destruct Ht as [Hnow Hheap Hprocs Hsort Hpops].
  constructor; cbn [g_processes eventQ current_time trace];
    rewrite ?app_nil_r; auto.
  apply Forall_upd_proc; auto.
Qed.

Lemma release_cpu_exact_time s p : time_inv s -> time_inv (release_cpu_exact s p).
Proof.
  intros [Hnow Hheap Hprocs Hsort Hpops].
  constructor; try assumption.
  rewrite release_cpu_exact_table. apply Forall_upd_proc; auto.
  intros pc [Hb Hr]. split; [exact Hb|]. cbn. lia.
Qed.

Lemma burst_done_exact_time n g0 s p :
  sim_inv n g0 [p] s -> time_inv s -> time_inv (burst_done_exact s p).
Proof.
  intros H [Hnow Hheap Hprocs Hsort Hpops]. unfold burst_done_exact.
  destruct (num_bursts _ <=? _).
  - constructor; cbn [g_processes eventQ current_time trace]; auto.
    + apply Forall_upd_proc; auto.
    + rewrite pop_times_app. cbn. rewrite app_nil_r. assumption.
    + rewrite pop_times_app. cbn. rewrite app_nil_r. assumption.
  - destruct (eventHeap_push_spec (g_processes s) (eventQ s)
                (mkEvent (current_time s
                          + burst_at (io_bursts (get_proc (g_processes s) p))
                              (current_burst (get_proc (g_processes s) p) + 1 - 1))
                         EVT_ARRIVE p)
                (inv_heap _ _ _ _ H) (sim_inv_heap_room _ _ _ _ H))
      as (mh' & E & _ & _ & _ & Hperm).
    rewrite E.
    constructor; cbn [g_processes eventQ current_time trace]; auto.
    + eapply Permutation_Forall; [symmetry; exact Hperm|].
      constructor; [|assumption]. cbn [time].
      pose proof (get_proc_Forall _ _ p Hprocs time_ok_zero) as [[_ Hio] _].
      pose proof (burst_at_nonneg _
                    (current_burst (get_proc (g_processes s) p) + 1 - 1) Hio).
      lia.
    + rewrite upd_proc_twice. apply Forall_upd_proc; auto.
      intros pc [[Hc Hi] Hr]. split; [split; assumption|]. cbn.
      apply burst_at_nonneg. assumption.
    + rewrite pop_times_app. cbn. rewrite app_nil_r. assumption.
    + rewrite pop_times_app. cbn. rewrite app_nil_r. assumption.
Qed.

Lemma schedule_next_exact_time n g0 s q :
  0 <= q -> sim_inv n g0 [] s -> time_inv s -> time_inv (schedule_next_exact s q).
Proof.
  intros Hq H Ht.
  destruct (Z.le_gt_cases 0 (running_pid s)) as [Hb|Hf];
    [rewrite schedule_next_exact_busy by assumption; assumption|].
  destruct (Z.eq_dec (count (readyQ s)) 0) as [Hz|Hnz];
    [rewrite schedule_next_exact_idle by assumption; assumption|].
  assert (Hcnt : 0 < count (readyQ s))
    by (destruct (inv_rq _ _ _ _ H) as (_ & _ & _ & ? & _); lia).
  destruct (RQ_dequeue_spec _ (inv_rq _ _ _ _ H) Hcnt)
    as (p & rq' & Edq & _).
  pose proof (dispatch_table_exact_frozen g0 _ p (current_time s) (inv_frozen _ _ _ _ H))
    as Hfr.
  destruct (eventHeap_push_spec
              (dispatch_table_exact (g_processes s) p (current_time s)) (eventQ s)
              (dispatch_event_exact (remaining_cpu (get_proc (g_processes s) p)) q
                              (current_time s) p)
              (frozen_heap_wf _ _ _ _ (inv_frozen _ _ _ _ H) Hfr (inv_heap _ _ _ _ H))
              (sim_inv_heap_room _ _ _ _ H))
    as (mh' & E & _ & _ & _ & Hperm).
  rewrite (schedule_next_exact_dispatch s q p rq' mh' _ ltac:(lia) Hnz Edq E).
  destruct Ht as [Hnow Hheap Hprocs Hsort Hpops].
  constructor; cbn [g_processes eventQ current_time trace]; auto.
  - eapply Permutation_Forall; [symmetry; exact Hperm|].
    constructor; [|assumption]. cbn [dispatch_event_exact time].
    pose proof (get_proc_Forall _ _ p Hprocs time_ok_zero) as [_ Hr].
    rewrite dispatch_slice_min. lia.
  - unfold dispatch_table_exact. rewrite upd_proc_twice. apply Forall_upd_proc; auto.
  - rewrite pop_times_app. cbn. rewrite app_nil_r. assumption.
  - rewrite pop_times_app. cbn. rewrite app_nil_r. assumption.
Qed.

Lemma handle_event_exact_time n g0 q s e :
  0 <= q -> sim_inv n g0 [pid e] s -> time_inv s ->
  time_inv (handle_event_exact q s e).
Proof.
  intros Hq H Ht. destruct (type e) eqn:Et.
  - rewrite handle_event_exact_arrive by assumption.
    pose proof (enqueue_state_exact_inv _ _ _ _ H).
    pose proof (enqueue_state_exact_time _ _ _ _ H Ht).
    destruct (_ <? 0); [eapply schedule_next_exact_time|]; eassumption.
  - rewrite handle_event_exact_complete by assumption.
    pose proof (release_cpu_exact_inv _ _ _ _ (pid e) H) as H1.
    pose proof (release_cpu_exact_time _ (pid e) Ht) as Ht1.
    eapply schedule_next_exact_time; [assumption | apply burst_done_exact_inv; eassumption |].
    eapply burst_done_exact_time; eassumption.
  - rewrite handle_event_exact_timeout by assumption.
    pose proof (release_cpu_exact_inv _ _ _ _ (pid e) H) as H1.
    pose proof (release_cpu_exact_time _ (pid e) Ht) as Ht1.
    destruct (0 <? _).
    + eapply schedule_next_exact_time;
        [assumption | apply enqueue_state_exact_inv; eassumption |].
      eapply enqueue_state_exact_time; eassumption.
    + eapply schedule_next_exact_time;
        [assumption | apply burst_done_exact_inv; eassumption |].
      eapply burst_done_exact_time; eassumption.
Qed.

Lemma loop_body_exact_time n g0 q s :
  0 <= q -> sim_inv n g0 [] s -> time_inv s -> loop_cond n s = true ->
  time_inv (loop_body_exact q s).
Proof.
  intros Hq H Ht Hc. apply loop_cond_true in Hc. destruct Hc as [_ Hsz].
  destruct (eventHeap_pop (g_processes s) (eventQ s)) as [e mh] eqn:Epop.
  rewrite (loop_body_exact_eq q s e mh Epop).
  eapply handle_event_exact_time; [assumption | |].
  - eapply pop_state_inv; eassumption.
  - eapply pop_state_time; eassumption.
Qed.

(** The handlers do not touch the clock. *)
Lemma schedule_next_exact_clock s q : current_time (schedule_next_exact s q) = current_time s.
Proof.
  unfold schedule_next_exact. destruct (0 <=? _); auto. destruct (negb _); auto.
  destruct (RQ_dequeue _) as [p rq]. destruct (eventHeap_push _ _ _) as [mh o].
  reflexivity.
Qed.

Lemma burst_done_exact_clock s p : current_time (burst_done_exact s p) = current_time s.
Proof.
  unfold burst_done_exact. destruct (_ <=? _); auto.
  destruct (eventHeap_push _ _ _) as [mh o]. reflexivity.
Qed.

Lemma handle_event_exact_clock q s e : current_time (handle_event_exact q s e) = current_time s.
Proof.
  destruct (type e) eqn:Et.
  - rewrite handle_event_exact_arrive by assumption.
    destruct (enqueue_state_exact_fields s (pid e)) as (_ & _ & Ec).
    destruct (_ <? 0); rewrite ?schedule_next_exact_clock; assumption.
  - rewrite handle_event_exact_complete by assumption.
    rewrite schedule_next_exact_clock, burst_done_exact_clock. reflexivity.
  - rewrite handle_event_exact_timeout by assumption.
    rewrite schedule_next_exact_clock. destruct (0 <? _).
    + destruct (enqueue_state_exact_fields (release_cpu_exact s (pid e)) (pid e)) as (_ & _ & Ec).
      rewrite Ec. reflexivity.
    + rewrite burst_done_exact_clock. reflexivity.
Qed.

(* ------------------------------------------------------------------ *)
(** ** The clock of a run *)

Lemma pop_times_pushes l : pop_times (map ObsPush l) = [].
Proof. induction l; simpl; auto. Qed.

Lemma arrival_events_times ps : forall i,
  Forall (fun pc => 0 <= arrival_time pc) ps ->
  Forall (fun e => 0 <= time e) (arrival_events ps i).
Proof.
  induction ps as [|pc ps IH]; intros i H; simpl; constructor.
  - apply (Forall_inv H).
  - apply IH, (Forall_inv_tail H).
Qed.

Lemma init_sim_time n g :
  0 < n -> length g = Z.to_nat n -> Forall fresh g -> nonneg_input g ->
  time_inv (init_sim n g).
Proof.
  intros Hn Hlen Hfresh Hnn.
  destruct (init_sim_eq n g ltac:(lia)) as (mh & E & _ & _ & Hp).
  rewrite E.
  constructor; cbn [g_processes eventQ current_time trace];
    rewrite ?pop_times_pushes; try constructor; try lia.
  - eapply Permutation_Forall; [symmetry; exact Hp|].
    apply arrival_events_times.
    eapply Forall_impl; [|exact Hnn]. simpl; tauto.
  - unfold nonneg_input in Hnn. rewrite Forall_forall in *.
    intros pc Hin. destruct (Hnn pc Hin) as [_ Hb].
    destruct (Hfresh pc Hin) as (_ & Hr & _).
    split; [assumption|]. rewrite Hr. apply burst_at_nonneg. apply Hb.
Qed.

Lemma reachable_exact_time input q n g s :
  read_input_file input = Some (n, g) -> nonneg_input g -> 0 <= q ->
  reachable_exact input q s -> sim_inv n g [] s /\ time_inv s.
Proof.
  intros E Hnn Hq Hr.
  induction Hr as [n' g' E' Hn | n' g' s E' Hr IH Hc];
    rewrite E in E'; injection E' as <- <-.
  - pose proof (read_input_file_length _ _ _ E Hn).
    split; [apply init_sim_inv | apply init_sim_time]; auto.
    eapply read_input_file_fresh; eassumption.
  - destruct IH as [Hinv Ht]. split.
    + apply loop_body_exact_inv; assumption.
    + eapply loop_body_exact_time; eassumption.
Qed.

(** In a run on an input whose arrival times and burst durations are
    not negative (with a quantum that is not negative either), the times
    of the events popped so far are in non-decreasing order and not
    negative; one more turn of the loop moves the clock to the time of the
    event it pops, which is not before the current time. *)
Theorem event_times_monotone_exact input q n g s :
  read_input_file input = Some (n, g) -> nonneg_input g -> 0 <= q ->
  reachable_exact input q s ->
  StronglySorted Z.le (pop_times (trace s)) /\
  Forall (fun t => 0 <= t) (pop_times (trace s)) /\
  (loop_cond n s = true ->
   current_time (loop_body_exact q s)
     = time (fst (eventHeap_pop (g_processes s) (eventQ s))) /\
   current_time s <= current_time (loop_body_exact q s)).
Proof.
  intros E Hnn Hq Hr.
  destruct (reachable_exact_time _ _ _ _ _ E Hnn Hq Hr) as [Hinv Ht].
  split; [apply (ti_sorted _ Ht)|]. split.
  - eapply Forall_impl; [|apply (ti_pops _ Ht)]. simpl; intros; lia.
  - intros Hc. apply loop_cond_true in Hc. destruct Hc as [_ Hsz].
    destruct (eventHeap_pop_spec _ _ (inv_heap _ _ _ _ Hinv) Hsz)
      as (e & mh & Epop & _ & _ & _ & Hperm & _).
    rewrite (loop_body_exact_eq q s e mh Epop), handle_event_exact_clock, Epop.
    cbn [pop_state current_time fst]. split; [reflexivity|].
    pose proof (ti_heap _ Ht) as Hh. rewrite Forall_forall in Hh. apply Hh.
    apply (Permutation_in _ (Permutation_sym Hperm)). left; reflexivity.
Qed.

(** What [total_cpu_io] holds when the sum fits an [int]: the executed
    bursts and the trailing I/O burst. *)
Definition total_ok (pc : PCB) : Prop :=
  total_cpu_io pc = exec_total pc + trailing_io pc.

(* ------------------------------------------------------------------ *)
(** ** The clock of each process *)

(** The bursts completed before the current one. *)
Definition exec_before (pc : PCB) : Z :=
  prefix_sum (cpu_bursts pc) (current_burst pc)
  + prefix_sum (io_bursts pc) (current_burst pc).

(** Where a process stands in time: its arrival, plus what it has
    executed, plus what it has waited. *)
Definition local_clock (pc : PCB) : Z :=
  arrival_time pc + exec_before pc
  + (burst_at (cpu_bursts pc) (current_burst pc) - remaining_cpu pc)
  + wait_time pc.

Definition proc_ok (pc : PCB) : Prop :=
  0 <= current_burst pc /\ 0 <= remaining_cpu pc /\ 0 <= wait_time pc /\
  (current_burst pc < num_bursts pc \/
   (num_bursts pc = 0 /\ current_burst pc = 0 /\ burst_at (cpu_bursts pc) 0 = 0)).

(** An event of the heap against the PCB of its process: an arrival is
    due at the clock of the process, before a fresh burst; an end of slice
    is the event the dispatcher computed when the slice began. *)
Definition event_ok_pc (q : Z) (pc : PCB) (e : Event) : Prop :=
  match type e with
  | EVT_ARRIVE =>
    time e = local_clock pc /\
    remaining_cpu pc = burst_at (cpu_bursts pc) (current_burst pc)
  | _ =>
    start_run_time pc = local_clock pc /\
    e = dispatch_event_exact (remaining_cpu pc) q (start_run_time pc) (pid e)
  end.

Definition event_ok (q : Z) (G : list PCB) (e : Event) : Prop :=
  event_ok_pc q (get_proc G (pid e)) e.

(** A process of the ready queue joined it at its clock, not after now. *)
Definition ready_ok (now : Z) (G : list PCB) (p : Z) : Prop :=
  last_ready_time (get_proc G p) = local_clock (get_proc G p) /\
  last_ready_time (get_proc G p) <= now.

Definition exit_ok (n : Z) (g0 : list PCB) (pre : list Obs) (o : Obs) : Prop :=
  match o with
  | ObsExit now ext tat _ w =>
    exists p, 0 <= p < n /\ ext = id (get_proc g0 p) /\
              0 <= sum (dispatch_waits p pre) /\
              tat = now - arrival_time (get_proc g0 p) /\
              tat = exec_total (get_proc g0 p) + sum (dispatch_waits p pre) /\
              w = tat - total_cpu_io (get_proc g0 p)
  | _ => True
  end.

(** Every completion record of [tr] is right about the trace before it
    ([pre] is what came before [tr]). *)
Fixpoint exits_ok (n : Z) (g0 : list PCB) (pre tr : list Obs) : Prop :=
  match tr with
  | [] => True
  | o :: rest => exit_ok n g0 pre o /\ exits_ok n g0 (pre ++ [o]) rest
  end.

Lemma exits_ok_app n g0 tr : forall pre o,
  exits_ok n g0 pre (tr ++ o) <->
  exits_ok n g0 pre tr /\ exits_ok n g0 (pre ++ tr) o.
Proof.
  induction tr as [|x tr IH]; intros pre o; simpl.
  - rewrite app_nil_r. tauto.
  - rewrite IH, <- app_assoc. simpl. tauto.
Qed.

Lemma exits_ok_at n g0 tr1 o tr2 :
  exits_ok n g0 [] (tr1 ++ o :: tr2) -> exit_ok n g0 tr1 o.
Proof.
  intros H. apply exits_ok_app in H. destruct H as [_ H]. simpl in H.
  apply H.
Qed.

Lemma dispatch_waits_app p tr o :
  dispatch_waits p (tr ++ o) = dispatch_waits p tr ++ dispatch_waits p o.
Proof. apply flat_map_app. Qed.

Record acct_inv (n : Z) (g0 : list PCB) (q : Z) (s : Sim) : Prop := mk_acct_inv {
  ai_procs : Forall proc_ok (g_processes s);
  ai_events : Forall (event_ok q (g_processes s)) (contents (eventQ s));
  ai_ready : Forall (ready_ok (current_time s) (g_processes s))
                    (rq_list (readyQ s));
  ai_waits : forall p, 0 <= p < n ->
      wait_time (get_proc (g_processes s) p) = sum (dispatch_waits p (trace s));
  ai_exits : exits_ok n g0 [] (trace s)
}.

Lemma pop_state_acct n g0 q s e mh :
  sim_inv n g0 [] s -> time_inv s -> acct_inv n g0 q s ->
  (0 < size (eventQ s))%nat ->
  eventHeap_pop (g_processes s) (eventQ s) = (e, mh) ->
  acct_inv n g0 q (pop_state s e mh) /\
  event_ok q (g_processes s) e /\ current_time s <= time e.
Proof.
  intros H Ht [Hp He Hr Hw Hx] Hpos Hpop.
  destruct (eventHeap_pop_spec _ _ (inv_heap _ _ _ _ H) Hpos)
    as (e' & mh' & E & _ & _ & _ & Hperm & _).
  rewrite Hpop in E. injection E as <- <-.
  pose proof (Permutation_Forall Hperm He) as He'.
  assert (Hle : current_time s <= time e).
  { pose proof (ti_heap _ Ht) as Hh. rewrite Forall_forall in Hh. apply Hh.
    apply (Permutation_in _ (Permutation_sym Hperm)). left; reflexivity. }
  split; [|split; [apply (Forall_inv He') | exact Hle]].
  constructor; cbn [pop_state g_processes eventQ readyQ current_time trace]; auto.
  - apply (Forall_inv_tail He').
  - eapply Forall_impl; [|exact Hr]. unfold ready_ok. simpl. intros; lia.
  - intros p Hv. rewrite dispatch_waits_app. cbn. rewrite app_nil_r. auto.
  - apply exits_ok_app. split; [assumption|]. simpl. auto.
Qed.

Lemma enqueue_state_exact_acct n g0 q s p :
  sim_inv n g0 [p] s -> acct_inv n g0 q s ->
  local_clock (get_proc (g_processes s) p) = current_time s ->
  acct_inv n g0 q (enqueue_state_exact s p).
Proof.
  intros H [Hp He Hr Hw Hx] Hloc. unfold enqueue_state_exact.
  destruct (RQ_enqueue_spec (g_processes s) (readyQ s) p (current_time s)
              (inv_rq _ _ _ _ H) (sim_inv_rq_room _ _ _ _ H))
    as (q' & E & _ & _ & _ & Hl).
  rewrite E. destruct (hand_apart _ _ _ _ H) as (Hv & Hae & Har).
  pose proof (sim_inv_table_length _ _ _ _ H) as Hlen.
  constructor; cbn [g_processes eventQ readyQ current_time trace];
    rewrite ?app_nil_r; auto.
  - apply Forall_upd_proc; auto.
  - apply (Forall_frame (event_ok_pc q) pid); auto. lia.
  - rewrite Hl. apply Forall_app. split.
    + apply (Forall_frame (fun pc _ => last_ready_time pc = local_clock pc /\
                                       last_ready_time pc <= current_time s)
                          (fun x => x)); auto. lia.
    + constructor; [|constructor]. unfold ready_ok.
      rewrite get_upd_proc_same by lia.
      unfold local_clock, exec_before in *; pcb_simpl. lia.
  - intros p' Hv'. rewrite <- Hw by assumption.
    destruct (Z.eq_dec p p') as [<-|Hne].
    + rewrite get_upd_proc_same by lia. reflexivity.
    + rewrite get_upd_proc_other by lia. reflexivity.
Qed.

Lemma dispatch_slice_range rem q :
  0 <= rem -> 0 <= q -> 0 <= dispatch_slice rem q <= rem.
Proof. intros. rewrite dispatch_slice_min. lia. Qed.

Lemma release_cpu_exact_acct n g0 q s e :
  0 <= q -> sim_inv n g0 [pid e] s -> acct_inv n g0 q s ->
  event_ok q (g_processes s) e -> type e <> EVT_ARRIVE ->
  time e = current_time s ->
  acct_inv n g0 q (release_cpu_exact s (pid e)) /\
  local_clock (get_proc (g_processes (release_cpu_exact s (pid e))) (pid e))
    = current_time s /\
  (type e = EVT_CPU_COMPLETE ->
   remaining_cpu (get_proc (g_processes (release_cpu_exact s (pid e))) (pid e)) = 0) /\
  (type e = EVT_CPU_TIMEOUT ->
   0 < remaining_cpu (get_proc (g_processes (release_cpu_exact s (pid e))) (pid e))).
Proof.
  intros Hq H [Hp He Hr Hw Hx] Hev Hty Htime.
  destruct (hand_apart _ _ _ _ H) as (Hv & Hae & Har).
  pose proof (sim_inv_table_length _ _ _ _ H) as Hlen.
  set (p := pid e) in *. set (pc := get_proc (g_processes s) p) in *.
  assert (Hpc : proc_ok pc)
    by (rewrite Forall_forall in Hp; apply Hp, get_proc_In; lia).
  destruct Hpc as (Hcur & Hrem & Hwait & Hnum).
  assert (Hev' : start_run_time pc = local_clock pc /\
                 e = dispatch_event_exact (remaining_cpu pc) q (start_run_time pc) p).
  { unfold event_ok, event_ok_pc in Hev. fold p pc in Hev.
    destruct (type e); [congruence | exact Hev | exact Hev]. }
  destruct Hev' as [Hstart Hevt].
  pose proof (dispatch_slice_range _ _ Hrem Hq) as Hsl.
  assert (Hte : time e = start_run_time pc + dispatch_slice (remaining_cpu pc) q)
    by (rewrite Hevt at 1; reflexivity).
  assert (Hused : used_time_exact s p = dispatch_slice (remaining_cpu pc) q)
    by (unfold used_time_exact; fold pc; lia).
  assert (Hget : get_proc (g_processes (release_cpu_exact s p)) p =
                 set_remaining_cpu pc
                   (remaining_cpu pc - dispatch_slice (remaining_cpu pc) q)).
  { rewrite release_cpu_exact_table, get_upd_proc_same by lia. fold pc.
    rewrite Hused. f_equal. lia. }
  split; [|split; [|split]].
  - constructor; rewrite ?release_cpu_exact_table;
      cbn [release_cpu_exact eventQ readyQ current_time trace]; auto.
    + apply Forall_upd_proc_at; auto. intros _. fold pc.
      repeat split; pcb_simpl; auto. lia.
    + apply (Forall_frame (event_ok_pc q) pid); auto. lia.
    + apply (Forall_frame (fun pc _ => last_ready_time pc = local_clock pc /\
                                       last_ready_time pc <= current_time s)
                          (fun x => x)); auto. lia.
    + intros p' Hv'. rewrite <- Hw by assumption.
      destruct (Z.eq_dec p p') as [<-|Hne].
      * rewrite get_upd_proc_same by lia. reflexivity.
      * rewrite get_upd_proc_other by lia. reflexivity.
  - rewrite Hget. unfold local_clock, exec_before in *; pcb_simpl. lia.
  - intros Ety. rewrite Hget. pcb_simpl. rewrite Hevt in Ety.
    cbn [type dispatch_event_exact] in Ety.
    destruct (Z.eqb_spec (dispatch_slice (remaining_cpu pc) q) (remaining_cpu pc));
      [lia | discriminate].
  - intros Ety. rewrite Hget. pcb_simpl. rewrite Hevt in Ety.
    cbn [type dispatch_event_exact] in Ety.
    destruct (Z.eqb_spec (dispatch_slice (remaining_cpu pc) q) (remaining_cpu pc));
      [discriminate | lia].
Qed.

Lemma static_exec_total pc pc' : static pc = static pc' -> exec_total pc = exec_total pc'.
Proof.
  unfold static, exec_total. intros E. injection E as E1 E2 E3 E4 E5 E6.
  rewrite E3, E4, E5. reflexivity.
Qed.

Lemma burst_done_exact_acct n g0 q s p :
  sim_inv n g0 [p] s -> time_inv s -> acct_inv n g0 q s ->
  local_clock (get_proc (g_processes s) p) = current_time s ->
  remaining_cpu (get_proc (g_processes s) p) = 0 ->
  acct_inv n g0 q (burst_done_exact s p).
Proof.
  intros H Ht [Hp He Hr Hw Hx] Hloc Hrem0.
  destruct (hand_apart _ _ _ _ H) as (Hv & Hae & Har).
  pose proof (sim_inv_table_length _ _ _ _ H) as Hlen.
  set (pc := get_proc (g_processes s) p) in *.
  assert (Hpc : proc_ok pc)
    by (rewrite Forall_forall in Hp; apply Hp, get_proc_In; lia).
  destruct Hpc as (Hcur & _ & Hwait & Hnum).
  assert (Htime : time_ok pc)
    by (pose proof (ti_procs _ Ht) as Hl; rewrite Forall_forall in Hl;
        apply Hl, get_proc_In; lia).
  destruct Htime as [[Hcb Hib] _].
  unfold burst_done_exact. fold pc.
  destruct (Z.leb_spec (num_bursts pc) (current_burst pc + 1)) as [Hlast|Hmore].
  - (* the last burst: the process exits *)
    assert (Hfr : frozen g0 (upd_proc (g_processes s) p
                               (fun pc0 => set_finish_time pc0 (current_time s))))
      by (apply frozen_upd_proc; [apply (inv_frozen _ _ _ _ H) | reflexivity]).
    constructor; cbn [g_processes eventQ readyQ current_time trace]; auto.
    + apply Forall_upd_proc; auto.
    + apply (Forall_frame (event_ok_pc q) pid); auto. lia.
    + apply (Forall_frame (fun pc _ => last_ready_time pc = local_clock pc /\
                                       last_ready_time pc <= current_time s)
                          (fun x => x)); auto. lia.
    + intros p' Hv'. rewrite dispatch_waits_app. cbn. rewrite app_nil_r.
      rewrite <- Hw by assumption.
      destruct (Z.eq_dec p p') as [<-|Hne].
      * rewrite get_upd_proc_same by lia. reflexivity.
      * rewrite get_upd_proc_other by lia. reflexivity.
    + apply exits_ok_app. split; [assumption|]. cbn [app exits_ok].
      split; [|exact I]. unfold print_per_process_metrics_exact, exit_ok.
      rewrite get_upd_proc_same by lia. fold pc. pcb_simpl.
      pose proof (frozen_static _ _ p (inv_frozen _ _ _ _ H)) as Hst. fold pc in Hst.
      pose proof (static_exec_total _ _ Hst) as Hex.
      unfold static in Hst. injection Hst as E1 E2 E3 E4 E5 E6.
      exists p. rewrite <- E1, <- E2, <- E6, <- Hex, <- (Hw p Hv). fold pc.
      repeat split; auto; try lia.
      unfold local_clock, exec_before in Hloc. rewrite Hrem0 in Hloc.
      unfold exec_total.
      destruct Hnum as [Hlt | (Hn0 & Hc0 & Hb0)].
      * replace (num_bursts pc) with (current_burst pc + 1) by lia.
        rewrite prefix_sum_succ by lia.
        replace (current_burst pc + 1 - 1) with (current_burst pc) by lia. lia.
      * rewrite Hn0, Hc0 in *. rewrite !prefix_sum_nonpos in * by lia. lia.
  - (* more bursts: the process goes to I/O *)
    destruct (eventHeap_push_spec (g_processes s) (eventQ s)
                (mkEvent (current_time s
                          + burst_at (io_bursts pc) (current_burst pc + 1 - 1))
                         EVT_ARRIVE p)
                (inv_heap _ _ _ _ H) (sim_inv_heap_room _ _ _ _ H))
      as (mh' & E & _ & _ & _ & Hperm).
    rewrite E. rewrite upd_proc_twice.
    constructor; cbn [g_processes eventQ readyQ current_time trace]; auto.
    + apply Forall_upd_proc_at; auto. intros _. fold pc.
      repeat split; pcb_simpl; auto; try lia.
      apply burst_at_nonneg. assumption.
    + eapply Permutation_Forall; [symmetry; exact Hperm|]. constructor.
      * unfold event_ok, event_ok_pc. cbn [type time pid].
        rewrite get_upd_proc_same by lia. fold pc. cbv beta.
        unfold local_clock, exec_before in *. pcb_simpl.
        rewrite !prefix_sum_succ by lia.
        replace (current_burst pc + 1 - 1) with (current_burst pc) by lia.
        split; lia.
      * apply (Forall_frame (event_ok_pc q) pid); auto. lia.
    + apply (Forall_frame (fun pc _ => last_ready_time pc = local_clock pc /\
                                       last_ready_time pc <= current_time s)
                          (fun x => x)); auto. lia.
    + intros p' Hv'. rewrite dispatch_waits_app. cbn. rewrite app_nil_r.
      rewrite <- Hw by assumption.
      destruct (Z.eq_dec p p') as [<-|Hne].
      * rewrite get_upd_proc_same by lia. reflexivity.
      * rewrite get_upd_proc_other by lia. reflexivity.
    + apply exits_ok_app. split; [assumption|]. simpl. auto.
Qed.

Lemma schedule_next_exact_acct n g0 q s :
  sim_inv n g0 [] s -> acct_inv n g0 q s -> acct_inv n g0 q (schedule_next_exact s q).
Proof.
  intros H Ha.
  destruct (Z.le_gt_cases 0 (running_pid s)) as [Hb|Hfree];
    [rewrite schedule_next_exact_busy by assumption; assumption|].
  destruct (Z.eq_dec (count (readyQ s)) 0) as [Hz|Hnz];
    [rewrite schedule_next_exact_idle by assumption; assumption|].
  assert (Hcnt : 0 < count (readyQ s))
    by (destruct (inv_rq _ _ _ _ H) as (_ & _ & _ & ? & _); lia).
  destruct (RQ_dequeue_spec _ (inv_rq _ _ _ _ H) Hcnt)
    as (p & rq' & Edq & _ & _ & _ & Hl).
  pose proof (dispatch_table_exact_frozen g0 _ p (current_time s) (inv_frozen _ _ _ _ H))
    as Hfr.
  destruct (eventHeap_push_spec
              (dispatch_table_exact (g_processes s) p (current_time s)) (eventQ s)
              (dispatch_event_exact (remaining_cpu (get_proc (g_processes s) p)) q
                              (current_time s) p)
              (frozen_heap_wf _ _ _ _ (inv_frozen _ _ _ _ H) Hfr (inv_heap _ _ _ _ H))
              (sim_inv_heap_room _ _ _ _ H))
    as (mh' & E & _ & _ & _ & Hperm).
  rewrite (schedule_next_exact_dispatch s q p rq' mh' _ ltac:(lia) Hnz Edq E).
  destruct Ha as [Hp He Hr Hw Hx].
  pose proof (sim_inv_table_length _ _ _ _ H) as Hlen.
  (* the head of the queue is apart from the rest *)
  destruct (inv_tokens _ _ _ _ H) as (Hnd & Hv & _).
  cbn [app] in Hnd, Hv. unfold pending in Hnd, Hv. rewrite Hl in Hnd, Hv.
  apply NoDup_remove in Hnd. destruct Hnd as [Hnd Hnin].
  pose proof Hv as Hv0. rewrite Forall_app in Hv. destruct Hv as [Hve Hvr].
  pose proof (Forall_inv Hvr) as Hpv. cbv beta in Hpv.
  apply Forall_inv_tail in Hvr.
  assert (Hae : Forall (fun e => 0 <= pid e /\ pid e <> p) (contents (eventQ s))).
  { apply Forall_forall. intros e Hin.
    rewrite Forall_forall in Hve.
    split; [apply (Hve (pid e)), in_map, Hin|].
    intros Eq. apply Hnin. apply in_or_app. left. rewrite <- Eq.
    apply in_map. assumption. }
  assert (Har : Forall (fun p' => 0 <= p' /\ p' <> p) (rq_list rq')).
  { apply Forall_forall. intros p' Hin. rewrite Forall_forall in Hvr.
    split; [apply (Hvr p' Hin)|].
    intros Eq. apply Hnin. apply in_or_app. right. rewrite <- Eq. assumption. }
  unfold dispatch_table_exact in *. rewrite upd_proc_twice in *.
  set (pc := get_proc (g_processes s) p) in *.
  assert (Hpc : proc_ok pc)
    by (rewrite Forall_forall in Hp; apply Hp, get_proc_In; lia).
  destruct Hpc as (Hcur & Hrem & Hwait & Hnum).
  rewrite Hl in Hr. pose proof (Forall_inv Hr) as [Hlr Hlr']. fold pc in Hlr, Hlr'.
  apply Forall_inv_tail in Hr.
  constructor; cbn [g_processes eventQ readyQ current_time trace]; auto.
  - apply Forall_upd_proc_at; auto. intros _. fold pc.
    repeat split; pcb_simpl; auto; try lia.
  - eapply Permutation_Forall; [symmetry; exact Hperm|]. constructor.
    + unfold event_ok. cbn [pid dispatch_event_exact].
      rewrite get_upd_proc_same by lia. fold pc. cbv beta.
      unfold event_ok_pc. cbn [type pid]. pcb_simpl.
      assert (Hloc : current_time s =
                     local_clock (set_start_run_time
                       (set_wait_time pc
                          (wait_time pc + (current_time s - last_ready_time pc)))
                       (current_time s)))
        by (unfold local_clock, exec_before in *; pcb_simpl; lia).
      pose proof (dispatch_event_exact_type (remaining_cpu pc) q (current_time s) p) as Hty.
      destruct (type (dispatch_event_exact (remaining_cpu pc) q (current_time s) p));
        [congruence | split; auto | split; auto].
    + apply (Forall_frame (event_ok_pc q) pid); auto. lia.
  - apply (Forall_frame (fun pc _ => last_ready_time pc = local_clock pc /\
                                     last_ready_time pc <= current_time s)
                        (fun x => x)); auto. lia.
  - intros p' Hv'. rewrite dispatch_waits_app. cbn [dispatch_waits flat_map app].
    destruct (Z.eqb_spec p p') as [<-|Hne].
    + rewrite get_upd_proc_same by lia. fold pc. cbv beta. pcb_simpl.
      rewrite app_nil_r, sum_app, <- Hw by assumption.
      fold pc. unfold sum. cbn [fold_right]. lia.
    + rewrite !app_nil_r, get_upd_proc_other by lia. auto.
  - apply exits_ok_app. split; [assumption|]. simpl. auto.
Qed.

Lemma handle_event_exact_acct n g0 q s e :
  0 <= q -> sim_inv n g0 [pid e] s -> time_inv s -> acct_inv n g0 q s ->
  event_ok q (g_processes s) e -> time e = current_time s ->
  acct_inv n g0 q (handle_event_exact q s e).
Proof.
  intros Hq H Ht Ha Hev Htime. destruct (type e) eqn:Et.
  - rewrite handle_event_exact_arrive by assumption.
    assert (Ha2 : acct_inv n g0 q (enqueue_state_exact s (pid e))).
    { apply enqueue_state_exact_acct; auto.
      unfold event_ok, event_ok_pc in Hev. rewrite Et in Hev. lia. }
    pose proof (enqueue_state_exact_inv _ _ _ _ H).
    destruct (_ <? 0); [eapply schedule_next_exact_acct|]; eassumption.
  - rewrite handle_event_exact_complete by assumption.
    destruct (release_cpu_exact_acct n g0 q s e Hq H Ha Hev ltac:(congruence) Htime)
      as (Ha1 & Hloc & Hc & _).
    pose proof (release_cpu_exact_inv _ _ _ _ (pid e) H) as H1.
    pose proof (release_cpu_exact_time _ (pid e) Ht) as Ht1.
    eapply schedule_next_exact_acct; [apply burst_done_exact_inv; eassumption|].
    apply burst_done_exact_acct; auto.
  - rewrite handle_event_exact_timeout by assumption.
    destruct (release_cpu_exact_acct n g0 q s e Hq H Ha Hev ltac:(congruence) Htime)
      as (Ha1 & Hloc & _ & Hto).
    pose proof (release_cpu_exact_inv _ _ _ _ (pid e) H) as H1.
    specialize (Hto Et).
    destruct (Z.ltb_spec 0 (remaining_cpu
                (get_proc (g_processes (release_cpu_exact s (pid e))) (pid e)))); [|lia].
    eapply schedule_next_exact_acct; [apply enqueue_state_exact_inv; eassumption|].
    apply enqueue_state_exact_acct; auto.
Qed.

Lemma loop_body_exact_acct n g0 q s :
  0 <= q -> sim_inv n g0 [] s -> time_inv s -> acct_inv n g0 q s ->
  loop_cond n s = true -> acct_inv n g0 q (loop_body_exact q s).
Proof.
  intros Hq H Ht Ha Hc. apply loop_cond_true in Hc. destruct Hc as [_ Hsz].
  destruct (eventHeap_pop (g_processes s) (eventQ s)) as [e mh] eqn:Epop.
  rewrite (loop_body_exact_eq q s e mh Epop).
  destruct (pop_state_acct _ _ _ _ _ _ H Ht Ha Hsz Epop) as (Ha1 & Hev & _).
  eapply handle_event_exact_acct; auto.
  - eapply pop_state_inv; eassumption.
  - eapply pop_state_time; eassumption.
Qed.

Lemma dispatch_waits_pushes p l : dispatch_waits p (map ObsPush l) = [].
Proof. induction l; simpl; auto. Qed.

Lemma exits_ok_pushes n g0 l : forall pre, exits_ok n g0 pre (map ObsPush l).
Proof. induction l as [|x l IH]; intros pre; simpl; auto. Qed.

Lemma init_sim_acct n g q :
  0 < n -> length g = Z.to_nat n -> Forall fresh g -> nonneg_input g ->
  acct_inv n g q (init_sim n g).
Proof.
  intros Hn Hlen Hfresh Hnn.
  destruct (init_sim_eq n g ltac:(lia)) as (mh & E & _ & _ & Hp).
  rewrite E. unfold nonneg_input in Hnn. rewrite Forall_forall in Hfresh, Hnn.
  constructor; cbn [g_processes eventQ readyQ current_time trace].
  - apply Forall_forall. intros pc Hin.
    destruct (Hfresh pc Hin) as (Hc & Hr & Hw & _ & _ & _ & Hnum & Hz).
    destruct (Hnn pc Hin) as (_ & Hcb & _).
    pose proof (burst_at_nonneg _ 0 Hcb).
    repeat split; lia.
  - eapply Permutation_Forall; [symmetry; exact Hp|].
    apply Forall_forall. intros e Hin.
    destruct (arrival_events_nth _ _ _ Hin) as (k & Hk & ->).
    unfold event_ok, event_ok_pc. cbn [type time pid].
    unfold get_proc. rewrite Z.add_0_l, Nat2Z.id.
    destruct (Hfresh _ (nth_In g PCB_zero Hk)) as (Hc & Hr & Hw & _).
    unfold local_clock, exec_before. rewrite Hc, Hw, Hr.
    rewrite !prefix_sum_nonpos by lia. split; lia.
  - rewrite RQ_init_list. constructor.
  - intros p Hv. rewrite dispatch_waits_pushes.
    assert (Hin : In (get_proc g p) g) by (apply get_proc_In; lia).
    destruct (Hfresh _ Hin) as (_ & _ & Hw & _). rewrite Hw. reflexivity.
  - apply exits_ok_pushes.
Qed.

Lemma reachable_exact_acct input q n g s :
  read_input_file input = Some (n, g) -> nonneg_input g -> 0 <= q ->
  reachable_exact input q s ->
  sim_inv n g [] s /\ time_inv s /\ acct_inv n g q s.
Proof.
  intros E Hnn Hq Hr.
  induction Hr as [n' g' E' Hn | n' g' s E' Hr IH Hc];
    rewrite E in E'; injection E' as <- <-.
  - pose proof (read_input_file_length _ _ _ E Hn).
    pose proof (read_input_file_fresh _ _ _ E).
    split; [|split]; auto using init_sim_inv, init_sim_time, init_sim_acct.
  - destruct IH as (Hinv & Ht & Ha). split; [|split].
    + apply loop_body_exact_inv; assumption.
    + eapply loop_body_exact_time; eassumption.
    + eapply loop_body_exact_acct; eassumption.
Qed.

Lemma exec_total_nonneg pc : nonneg_bursts pc -> 0 <= exec_total pc.
Proof.
  intros [Hc Hi]. unfold exec_total, prefix_sum.
  assert (H : forall l, Forall (fun b => 0 <= b) l -> 0 <= sum l).
  { induction 1 as [|x l Hx Hl IH]; [unfold sum; simpl; lia|].
    rewrite sum_cons. lia. }
  assert (Hf : forall k l, Forall (fun b => 0 <= b) l ->
                           Forall (fun b => 0 <= b) (firstn k l)).
  { intros k l Hl. rewrite Forall_forall in *. intros x Hx.
    apply Hl. rewrite <- (firstn_skipn k l). apply in_or_app. left; assumption. }
  pose proof (H _ (Hf (Z.to_nat (num_bursts pc)) _ Hc)).
  pose proof (H _ (Hf (Z.to_nat (num_bursts pc - 1)) _ Hi)).
  lia.
Qed.

(** The completion records of a run on a non-negative input.  The record
    of process [p], printed at [now], shows the turnaround
    [now - arrival_time], which is the time of the bursts [p] executed
    plus the waits charged to [p] at its dispatches; so [p] does not
    finish before it arrives.  The wait it shows is the sum of those
    waits less the I/O burst the reader found after the last CPU burst:
    the two agree, and the turnaround is at least [total_cpu_io], as soon
    as the burst list of [p] ends with a CPU burst. *)
Theorem completion_records_accounted_exact input q n g s :
  read_input_file input = Some (n, g) -> nonneg_input g -> 0 <= q ->
  Forall total_ok g ->
  reachable_exact input q s ->
  forall tr1 tr2 now ext tat perc w,
    trace s = tr1 ++ ObsExit now ext tat perc w :: tr2 ->
    exists p,
      0 <= p < n /\ ext = id (get_proc g p) /\
      tat = now - arrival_time (get_proc g p) /\
      arrival_time (get_proc g p) <= now /\
      0 <= sum (dispatch_waits p tr1) /\
      tat = exec_total (get_proc g p) + sum (dispatch_waits p tr1) /\
      w = sum (dispatch_waits p tr1) - trailing_io (get_proc g p) /\
      (trailing_io (get_proc g p) = 0 ->
       w = sum (dispatch_waits p tr1) /\ total_cpu_io (get_proc g p) <= tat).
Proof.
  intros E Hnn Hq Htot Hr tr1 tr2 now ext tat perc w Etr.
  destruct (reachable_exact_acct _ _ _ _ _ E Hnn Hq Hr) as (Hinv & _ & Ha).
  pose proof (ai_exits _ _ _ _ Ha) as Hx. rewrite Etr in Hx.
  apply exits_ok_at in Hx. destruct Hx as (p & Hv & He & Hw0 & Ht & Hte & Hw).
  pose proof (inv_len _ _ _ _ Hinv) as Hlen.
  assert (Hin : In (get_proc g p) g) by (apply get_proc_In; lia).
  rewrite Forall_forall in Htot. specialize (Htot _ Hin). unfold total_ok in Htot.
  unfold nonneg_input in Hnn. rewrite Forall_forall in Hnn.
  destruct (Hnn _ Hin) as [_ Hb]. pose proof (exec_total_nonneg _ Hb).
  exists p. repeat split; auto; try lia.
Qed.

Lemma fold_wait_sum g : forall a,
  fold_left (fun acc pc => acc + wait_time pc) g a = a + sum (map wait_time g).
Proof.
  induction g as [|pc g IH]; intros a; cbn [fold_left map].
  - unfold sum; simpl. lia.
  - rewrite IH, sum_cons. lia.
Qed.

Lemma map_nth_seq {A B} (f : A -> B) (l : list A) d :
  map f l = map (fun k => f (nth k l d)) (seq 0 (length l)).
Proof.
  induction l as [|x l IH]; simpl; [reflexivity|].
  f_equal. rewrite <- seq_shift, map_map. exact IH.
Qed.

(** The wait times of a run on a non-negative input: the [wait_time] field
    of every process is the sum of the waits charged at its dispatches, and
    the total the aggregator reports sums these over the processes. *)
Theorem wait_times_accounted_exact input q n g s :
  read_input_file input = Some (n, g) -> nonneg_input g -> 0 <= q ->
  reachable_exact input q s ->
  (forall p, 0 <= p < n ->
     wait_time (get_proc (g_processes s) p) = sum (dispatch_waits p (trace s))) /\
  total_wait (g_processes s)
  = sum (map (fun k => sum (dispatch_waits (Z.of_nat k) (trace s)))
             (seq 0 (Z.to_nat n))).
Proof.
  intros E Hnn Hq Hr.
  destruct (reachable_exact_acct _ _ _ _ _ E Hnn Hq Hr) as (Hinv & _ & Ha).
  split; [apply (ai_waits _ _ _ _ Ha)|].
  unfold total_wait. rewrite fold_wait_sum, Z.add_0_l.
  rewrite (map_nth_seq wait_time _ PCB_zero).
  pose proof (sim_inv_table_length _ _ _ _ Hinv) as Hlen.
  replace (length (g_processes s)) with (Z.to_nat n) by lia.
  f_equal. apply map_ext_in. intros k Hk. apply in_seq in Hk.
  rewrite <- (ai_waits _ _ _ _ Ha) by lia.
  unfold get_proc. rewrite Nat2Z.id. reflexivity.
Qed.

(** The entry of the process that leaves the CPU, after [release_cpu_exact]: the
    slice the dispatcher granted has been taken off what remained. *)
Lemma release_cpu_exact_get n g0 q s e :
  0 <= q -> sim_inv n g0 [pid e] s -> acct_inv n g0 q s ->
  event_ok q (g_processes s) e -> type e <> EVT_ARRIVE ->
  time e = current_time s ->
  let pc := get_proc (g_processes s) (pid e) in
  get_proc (g_processes (release_cpu_exact s (pid e))) (pid e)
  = set_remaining_cpu pc (remaining_cpu pc - dispatch_slice (remaining_cpu pc) q)
  /\ (type e = EVT_CPU_COMPLETE -> dispatch_slice (remaining_cpu pc) q = remaining_cpu pc)
  /\ (type e = EVT_CPU_TIMEOUT -> dispatch_slice (remaining_cpu pc) q = q /\
                                  q < remaining_cpu pc).
Proof.
  intros Hq H [Hp He Hr Hw Hx] Hev Hty Htime.
  destruct (hand_apart _ _ _ _ H) as (Hv & Hae & Har).
  pose proof (sim_inv_table_length _ _ _ _ H) as Hlen.
  set (p := pid e) in *. intros pc.
  assert (Hpc : proc_ok pc)
    by (rewrite Forall_forall in Hp; apply Hp, get_proc_In; lia).
  destruct Hpc as (Hcur & Hrem & Hwait & Hnum).
  assert (Hev' : start_run_time pc = local_clock pc /\
                 e = dispatch_event_exact (remaining_cpu pc) q (start_run_time pc) p).
  { unfold event_ok, event_ok_pc in Hev. fold p pc in Hev.
    destruct (type e); [congruence | exact Hev | exact Hev]. }
  destruct Hev' as [Hstart Hevt].
  pose proof (dispatch_slice_range _ _ Hrem Hq) as Hsl.
  assert (Hte : time e = start_run_time pc + dispatch_slice (remaining_cpu pc) q)
    by (rewrite Hevt at 1; reflexivity).
  assert (Hused : used_time_exact s p = dispatch_slice (remaining_cpu pc) q)
    by (unfold used_time_exact; fold pc; lia).
  pose proof (dispatch_slice_min (remaining_cpu pc) q) as Hmin.
  split; [|split].
  - rewrite release_cpu_exact_table, get_upd_proc_same by lia. fold pc.
    rewrite Hused. f_equal. lia.
  - intros Ety. rewrite Hevt in Ety. cbn [type dispatch_event_exact] in Ety.
    destruct (Z.eqb_spec (dispatch_slice (remaining_cpu pc) q) (remaining_cpu pc));
      [assumption | discriminate].
  - intros Ety. rewrite Hevt in Ety. cbn [type dispatch_event_exact] in Ety.
    destruct (Z.eqb_spec (dispatch_slice (remaining_cpu pc) q) (remaining_cpu pc));
      [discriminate | lia].
Qed.

(* ------------------------------------------------------------------ *)
(** ** Where the CPU time goes *)

(** The slices given to internal pid [p], oldest first. *)
Definition dispatch_slices (p : Z) (tr : list Obs) : list Z :=
  flat_map (fun o => match o with
                     | ObsDispatch p' _ _ sl => if p' =? p then [sl] else []
                     | _ => []
                     end) tr.

(** All the slices given out. *)
Definition all_slices (tr : list Obs) : list Z :=
  flat_map (fun o => match o with
                     | ObsDispatch _ _ _ sl => [sl]
                     | _ => []
                     end) tr.

(** The start and the end of every slice, in the order of the trace. *)
Definition slice_bounds (tr : list Obs) : list Z :=
  flat_map (fun o => match o with
                     | ObsDispatch _ now _ sl => [now; now + sl]
                     | _ => []
                     end) tr.

(** What a process has executed of its CPU bursts, by its PCB: the bursts
    before the current one and the part of the current one that is not
    remaining. *)
Definition cpu_done (pc : PCB) : Z :=
  prefix_sum (cpu_bursts pc) (current_burst pc)
  + (burst_at (cpu_bursts pc) (current_burst pc) - remaining_cpu pc).

(** The slice of the running process, which its PCB does not show before
    the slice ends. *)
Definition in_flight (s : Sim) (p : Z) : Z :=
  if running_pid s =? p
  then cpu_busy_until s - start_run_time (get_proc (g_processes s) p)
  else 0.

Definition dispatch_ok (n q : Z) (o : Obs) : Prop :=
  match o with
  | ObsDispatch p now w sl => 0 <= p < n /\ 0 <= w /\ 0 <= sl <= q
  | _ => True
  end.

Record work_inv (n q : Z) (s : Sim) : Prop := mk_work_inv {
  wi_idle : 0 <= cpu_idle_time s;
  wi_busy : cpu_busy_until s = cpu_idle_time s + sum (all_slices (trace s));
  wi_disp : Forall (dispatch_ok n q) (trace s);
  wi_sorted : StronglySorted Z.le (slice_bounds (trace s));
  wi_before : Forall (fun t => 0 <= t <= cpu_busy_until s) (slice_bounds (trace s));
  wi_free : running_pid s < 0 -> cpu_busy_until s <= current_time s;
  wi_run : Forall (fun e => type e <> EVT_ARRIVE ->
                            time e = cpu_busy_until s /\ pid e = running_pid s)
                  (contents (eventQ s));
  wi_share : forall p, 0 <= p < n ->
      sum (dispatch_slices p (trace s))
      = cpu_done (get_proc (g_processes s) p) + in_flight s p
}.

Lemma dispatch_slices_app p tr o :
  dispatch_slices p (tr ++ o) = dispatch_slices p tr ++ dispatch_slices p o.
Proof. apply flat_map_app. Qed.

Lemma all_slices_app tr o : all_slices (tr ++ o) = all_slices tr ++ all_slices o.
Proof. apply flat_map_app. Qed.

Lemma slice_bounds_app tr o :
  slice_bounds (tr ++ o) = slice_bounds tr ++ slice_bounds o.
Proof. apply flat_map_app. Qed.

(** An observation that is no dispatch. *)
Definition no_dispatch (o : Obs) : Prop :=
  match o with ObsDispatch _ _ _ _ => False | _ => True end.

Lemma no_dispatch_slices p o :
  Forall no_dispatch o ->
  dispatch_slices p o = [] /\ all_slices o = [] /\ slice_bounds o = [] /\
  forall n q, Forall (dispatch_ok n q) o.
Proof.
  induction 1 as [|x o Hx _ IH]; [repeat split; constructor|].
  destruct IH as (H1 & H2 & H3 & H4).
  unfold dispatch_slices, all_slices, slice_bounds in *. cbn [flat_map].
  rewrite H1, H2, H3. destruct x; try contradiction; cbn [app];
    repeat split; intros; constructor; auto; exact I.
Qed.

(** A step that adds no dispatch to the trace and leaves the CPU
    variables and the fields [cpu_done] reads as they are. *)
Lemma work_inv_quiet n q s s' o :
  work_inv n q s ->
  trace s' = trace s ++ o -> Forall no_dispatch o ->
  cpu_idle_time s' = cpu_idle_time s ->
  cpu_busy_until s' = cpu_busy_until s ->
  (running_pid s' < 0 -> cpu_busy_until s <= current_time s') ->
  Forall (fun e => type e <> EVT_ARRIVE ->
                   time e = cpu_busy_until s /\ pid e = running_pid s')
         (contents (eventQ s')) ->
  (forall p, 0 <= p < n ->
     cpu_done (get_proc (g_processes s') p) + in_flight s' p
     = cpu_done (get_proc (g_processes s) p) + in_flight s p) ->
  work_inv n q s'.
Proof.
  intros [Hi Hb Hd Hs Hbe Hf Hr Hsh] Etr Ho Eidle Ebusy Hfree Hrun Hshare.
  destruct (no_dispatch_slices 0 o Ho) as (_ & H2 & H3 & H4).
  constructor; rewrite ?Etr, ?Eidle, ?Ebusy, ?all_slices_app, ?slice_bounds_app,
    ?H2, ?H3, ?app_nil_r; auto.
  - apply Forall_app. split; [assumption | apply H4].
  - intros p Hp. rewrite dispatch_slices_app.
    destruct (no_dispatch_slices p o Ho) as (H1 & _).
    rewrite H1, app_nil_r, Hshare by assumption. apply Hsh. assumption.
Qed.

(** Reading a field of the table after an update that leaves it alone. *)
Lemma get_upd_proc_proj {B} (proj : PCB -> B) g p p' f :
  0 <= p -> 0 <= p' -> (forall pc, proj (f pc) = proj pc) ->
  proj (get_proc (upd_proc g p f) p') = proj (get_proc g p').
Proof.
  intros Hp Hp' Hf. destruct (Z.eq_dec p p') as [<-|Hne].
  - apply get_upd_proc_field. assumption.
  - rewrite get_upd_proc_other by assumption. reflexivity.
Qed.

Lemma pop_state_work n g0 q s e mh :
  sim_inv n g0 [] s -> time_inv s -> work_inv n q s ->
  (0 < size (eventQ s))%nat ->
  eventHeap_pop (g_processes s) (eventQ s) = (e, mh) ->
  work_inv n q (pop_state s e mh) /\
  (type e <> EVT_ARRIVE -> time e = cpu_busy_until s /\ pid e = running_pid s).
Proof.
  intros H Ht Hw Hpos Hpop.
  destruct (eventHeap_pop_spec _ _ (inv_heap _ _ _ _ H) Hpos)
    as (e' & mh' & E & _ & _ & _ & Hperm & _).
  rewrite Hpop in E. injection E as <- <-.
  pose proof (Permutation_Forall Hperm (wi_run _ _ _ Hw)) as Hrun.
  assert (Hle : current_time s <= time e).
  { pose proof (ti_heap _ Ht) as Hh. rewrite Forall_forall in Hh. apply Hh.
    apply (Permutation_in _ (Permutation_sym Hperm)). left; reflexivity. }
  split; [|apply (Forall_inv Hrun)].
  apply (work_inv_quiet n q s _ [ObsPop e]); auto.
  - repeat constructor.
  - cbn [pop_state running_pid current_time]. intros Hr.
    pose proof (wi_free _ _ _ Hw Hr). lia.
  - apply (Forall_inv_tail Hrun).
Qed.

Lemma enqueue_state_exact_work n g0 q s p :
  sim_inv n g0 [p] s -> work_inv n q s -> work_inv n q (enqueue_state_exact s p).
Proof.
  intros H Hw. unfold enqueue_state_exact.
  destruct (RQ_enqueue_spec (g_processes s) (readyQ s) p (current_time s)
              (inv_rq _ _ _ _ H) (sim_inv_rq_room _ _ _ _ H))
    as (q' & E & _ & _ & _ & Hl).
  rewrite E. destruct (hand_apart _ _ _ _ H) as (Hv & _ & _).
  apply (work_inv_quiet n q s _ []); cbn [trace cpu_idle_time cpu_busy_until
    running_pid current_time eventQ g_processes]; auto.
  - apply (wi_free _ _ _ Hw).
  - apply (wi_run _ _ _ Hw).
  - intros p' Hp'. unfold cpu_done, in_flight. cbn [running_pid cpu_busy_until g_processes].
    rewrite !(get_upd_proc_proj cpu_bursts), !(get_upd_proc_proj current_burst),
      !(get_upd_proc_proj remaining_cpu), !(get_upd_proc_proj start_run_time)
      by (try lia; reflexivity).
    reflexivity.
Qed.

Lemma release_cpu_exact_work n g0 q s e :
  0 <= q -> sim_inv n g0 [pid e] s -> acct_inv n g0 q s -> work_inv n q s ->
  event_ok q (g_processes s) e -> type e <> EVT_ARRIVE ->
  time e = current_time s ->
  time e = cpu_busy_until s -> pid e = running_pid s -> heap_arrivals s ->
  work_inv n q (release_cpu_exact s (pid e)).
Proof.
  intros Hq H Ha Hw Hev Hty Htime Hbusy Hrun Harr.
  destruct (hand_apart _ _ _ _ H) as (Hv & _ & _).
  pose proof (sim_inv_table_length _ _ _ _ H) as Hlen.
  destruct (release_cpu_exact_get n g0 q s e Hq H Ha Hev Hty Htime) as (Hget & _ & _).
  assert (Hpc : proc_ok (get_proc (g_processes s) (pid e))).
  { pose proof (ai_procs _ _ _ _ Ha) as Hp. rewrite Forall_forall in Hp.
    apply Hp, get_proc_In. lia. }
  destruct Hpc as (_ & Hrem & _ & _).
  assert (Hev' : start_run_time (get_proc (g_processes s) (pid e))
                 + dispatch_slice (remaining_cpu (get_proc (g_processes s) (pid e))) q
                 = time e).
  { unfold event_ok, event_ok_pc in Hev.
    destruct (type e); [congruence | |];
      destruct Hev as [_ Hevt]; rewrite Hevt at 3; reflexivity. }
  apply (work_inv_quiet n q s _ []);
    cbn [release_cpu_exact trace cpu_idle_time cpu_busy_until running_pid
         current_time eventQ]; rewrite ?app_nil_r; auto.
  - destruct (Z.ltb_spec (current_time s) (cpu_busy_until s)); lia.
  - intros _. lia.
  - unfold heap_arrivals in Harr. eapply Forall_impl; [|exact Harr].
    cbv beta. intros x Hx Hne. contradiction.
  - intros p Hp. unfold in_flight at 1.
    change (running_pid (release_cpu_exact s (pid e))) with (-1).
    destruct (Z.eqb_spec (-1) p) as [|_]; [lia|].
    unfold in_flight. rewrite <- Hrun.
    destruct (Z.eqb_spec (pid e) p) as [<-|Hne].
    + rewrite Hget. unfold cpu_done. pcb_simpl. lia.
    + rewrite release_cpu_exact_table, get_upd_proc_other by lia. lia.
Qed.

Lemma burst_done_exact_work n g0 q s p :
  sim_inv n g0 [p] s -> work_inv n q s ->
  proc_ok (get_proc (g_processes s) p) ->
  remaining_cpu (get_proc (g_processes s) p) = 0 ->
  running_pid s < 0 ->
  work_inv n q (burst_done_exact s p).
Proof.
  intros H Hw Hpc Hrem0 Hfree.
  destruct (hand_apart _ _ _ _ H) as (Hv & _ & _).
  pose proof (sim_inv_table_length _ _ _ _ H) as Hlen.
  destruct Hpc as (Hcur & _ & _ & _).
  unfold burst_done_exact.
  destruct (Z.leb_spec (num_bursts (get_proc (g_processes s) p))
                       (current_burst (get_proc (g_processes s) p) + 1))
    as [Hlast|Hmore].
  - eapply (work_inv_quiet n q s); [assumption | reflexivity | | | | | |];
      cbn [trace cpu_idle_time cpu_busy_until running_pid current_time eventQ
           g_processes]; auto.
    + repeat constructor.
    + apply (wi_free _ _ _ Hw).
    + apply (wi_run _ _ _ Hw).
    + intros p' Hp'. unfold cpu_done, in_flight.
      cbn [running_pid cpu_busy_until g_processes].
      rewrite !(get_upd_proc_proj cpu_bursts), !(get_upd_proc_proj current_burst),
        !(get_upd_proc_proj remaining_cpu), !(get_upd_proc_proj start_run_time)
        by (try lia; reflexivity).
      reflexivity.
  - destruct (eventHeap_push_spec (g_processes s) (eventQ s)
                (mkEvent (current_time s
                          + burst_at (io_bursts (get_proc (g_processes s) p))
                              (current_burst (get_proc (g_processes s) p) + 1 - 1))
                         EVT_ARRIVE p)
                (inv_heap _ _ _ _ H) (sim_inv_heap_room _ _ _ _ H))
      as (mh' & E & _ & _ & _ & Hperm).
    rewrite E. rewrite upd_proc_twice.
    eapply (work_inv_quiet n q s); [assumption | reflexivity | | | | | |];
      cbn [trace cpu_idle_time cpu_busy_until running_pid current_time eventQ
           g_processes]; auto.
    + repeat constructor.
    + apply (wi_free _ _ _ Hw).
    + eapply Permutation_Forall; [symmetry; exact Hperm|]. constructor.
      * cbn [type]. intros Hne. congruence.
      * apply (wi_run _ _ _ Hw).
    + intros p' Hp'. unfold in_flight. cbn [running_pid cpu_busy_until g_processes].
      destruct (Z.eqb_spec (running_pid s) p') as [|_]; [lia|].
      destruct (Z.eq_dec p p') as [<-|Hne].
      * rewrite get_upd_proc_same by lia. unfold cpu_done. pcb_simpl.
        rewrite prefix_sum_succ by lia.
        replace (current_burst (get_proc (g_processes s) p) + 1 - 1)
          with (current_burst (get_proc (g_processes s) p)) by lia.
        lia.
      * rewrite get_upd_proc_other by lia. reflexivity.
Qed.

Lemma StronglySorted_app_snoc2 (l : list Z) a b :
  StronglySorted Z.le l -> Forall (fun t => t <= a) l -> a <= b ->
  StronglySorted Z.le (l ++ [a; b]).
Proof.
  intros Hs Hl Hab. induction Hs as [|x l Hs IH Hx]; cbn [app].
  - repeat constructor; assumption.
  - constructor; [apply IH; apply (Forall_inv_tail Hl)|].
    apply Forall_app. split; [assumption|].
    pose proof (Forall_inv Hl). cbv beta in *. repeat constructor; lia.
Qed.

Lemma schedule_next_exact_work n g0 q s :
  0 <= q -> sim_inv n g0 [] s -> time_inv s -> acct_inv n g0 q s ->
  work_inv n q s -> (running_pid s < 0 -> heap_arrivals s) ->
  work_inv n q (schedule_next_exact s q).
Proof.
  intros Hq H Ht Ha Hw Harr.
  destruct (Z.le_gt_cases 0 (running_pid s)) as [Hb|Hfree];
    [rewrite schedule_next_exact_busy by assumption; assumption|].
  destruct (Z.eq_dec (count (readyQ s)) 0) as [Hz|Hnz];
    [rewrite schedule_next_exact_idle by assumption; assumption|].
  assert (Hcnt : 0 < count (readyQ s))
    by (destruct (inv_rq _ _ _ _ H) as (_ & _ & _ & ? & _); lia).
  destruct (RQ_dequeue_spec _ (inv_rq _ _ _ _ H) Hcnt)
    as (p & rq' & Edq & _ & _ & _ & Hl).
  pose proof (dispatch_table_exact_frozen g0 _ p (current_time s) (inv_frozen _ _ _ _ H))
    as Hfr.
  destruct (eventHeap_push_spec
              (dispatch_table_exact (g_processes s) p (current_time s)) (eventQ s)
              (dispatch_event_exact (remaining_cpu (get_proc (g_processes s) p)) q
                              (current_time s) p)
              (frozen_heap_wf _ _ _ _ (inv_frozen _ _ _ _ H) Hfr (inv_heap _ _ _ _ H))
              (sim_inv_heap_room _ _ _ _ H))
    as (mh' & E & _ & _ & _ & Hperm).
  rewrite (schedule_next_exact_dispatch s q p rq' mh' _ ltac:(lia) Hnz Edq E).
  pose proof (sim_inv_table_length _ _ _ _ H) as Hlen.
  assert (Hp : 0 <= p < n).
  { destruct (inv_tokens _ _ _ _ H) as (_ & HF & _). cbn [app] in HF.
    rewrite Forall_forall in HF. apply HF. unfold pending.
    apply in_or_app; right. rewrite Hl. left; reflexivity. }
  assert (Hpc : proc_ok (get_proc (g_processes s) p)).
  { pose proof (ai_procs _ _ _ _ Ha) as Hpr. rewrite Forall_forall in Hpr.
    apply Hpr, get_proc_In. lia. }
  destruct Hpc as (_ & Hrem & _ & _).
  assert (Hready : last_ready_time (get_proc (g_processes s) p) <= current_time s).
  { pose proof (ai_ready _ _ _ _ Ha) as Hr. rewrite Hl in Hr.
    apply Forall_inv in Hr. apply Hr. }
  pose proof (dispatch_slice_range _ _ Hrem Hq) as Hsl.
  pose proof (dispatch_slice_min (remaining_cpu (get_proc (g_processes s) p)) q) as Hmin.
  pose proof (ti_now _ Ht) as Hnow.
  destruct Hw as [Hi Hb Hd Hs Hbe Hf Hr Hsh]. specialize (Hf Hfree).
  set (sl := dispatch_slice (remaining_cpu (get_proc (g_processes s) p)) q) in *.
  constructor; cbn [trace cpu_idle_time cpu_busy_until running_pid current_time
                    eventQ g_processes].
  - destruct (Z.ltb_spec (cpu_busy_until s) (current_time s)); lia.
  - rewrite all_slices_app, sum_app. cbn [all_slices flat_map app].
    rewrite sum_cons. unfold sum at 2. cbn [fold_right].
    destruct (Z.ltb_spec (cpu_busy_until s) (current_time s)); lia.
  - apply Forall_app. split; [assumption|].
    constructor; [|repeat constructor]. cbn [dispatch_ok]. lia.
  - rewrite slice_bounds_app. cbn [slice_bounds flat_map app].
    apply StronglySorted_app_snoc2; auto.
    + eapply Forall_impl; [|exact Hbe]. cbv beta. intros; lia.
    + lia.
  - rewrite slice_bounds_app. cbn [slice_bounds flat_map app].
    apply Forall_app. split.
    + eapply Forall_impl; [|exact Hbe]. cbv beta. intros; lia.
    + repeat constructor; lia.
  - intros; lia.
  - eapply Permutation_Forall; [symmetry; exact Hperm|]. constructor.
    + intros _. split; reflexivity.
    + unfold heap_arrivals in Harr. eapply Forall_impl; [|exact (Harr Hfree)].
      cbv beta. intros x Hx Hne. contradiction.
  - intros p' Hp'. rewrite dispatch_slices_app, sum_app.
    cbn [dispatch_slices flat_map app]. rewrite app_nil_r.
    unfold in_flight. cbn [running_pid cpu_busy_until g_processes].
    rewrite Hsh by assumption. unfold in_flight.
    destruct (Z.eqb_spec (running_pid s) p') as [|_]; [lia|].
    unfold dispatch_table_exact. rewrite upd_proc_twice.
    destruct (Z.eqb_spec p p') as [<-|Hne].
    + rewrite get_upd_proc_same by lia. unfold cpu_done. pcb_simpl.
      unfold sum. cbn [fold_right]. lia.
    + rewrite get_upd_proc_other by lia. unfold sum. cbn [fold_right]. lia.
Qed.

Lemma handle_event_exact_work n g0 q s e :
  0 <= q -> sim_inv n g0 [pid e] s -> time_inv s -> acct_inv n g0 q s ->
  work_inv n q s ->
  event_ok q (g_processes s) e -> time e = current_time s ->
  (type e = EVT_ARRIVE -> cpu_free s \/ cpu_busy s) ->
  (type e <> EVT_ARRIVE ->
   heap_arrivals s /\ time e = cpu_busy_until s /\ pid e = running_pid s) ->
  work_inv n q (handle_event_exact q s e).
Proof.
  intros Hq H Ht Ha Hw Hev Htime Harr Hrun. destruct (type e) eqn:Et.
  - rewrite handle_event_exact_arrive by assumption.
    pose proof (enqueue_state_exact_inv _ _ _ _ H) as H2.
    pose proof (enqueue_state_exact_time _ _ _ _ H Ht) as Ht2.
    pose proof (enqueue_state_exact_work _ _ q _ _ H Hw) as Hw2.
    assert (Ha2 : acct_inv n g0 q (enqueue_state_exact s (pid e))).
    { apply enqueue_state_exact_acct; auto.
      unfold event_ok, event_ok_pc in Hev. rewrite Et in Hev. lia. }
    destruct (enqueue_state_exact_fields s (pid e)) as (Eq & Er & _).
    destruct (Z.ltb_spec (running_pid (enqueue_state_exact s (pid e))) 0) as [Hlt|Hge];
      [|assumption].
    eapply schedule_next_exact_work; try eassumption.
    intros _. destruct (Harr eq_refl) as [[_ Hfree] | [Hb _]]; [|lia].
    unfold heap_arrivals. rewrite Eq. assumption.
  - rewrite handle_event_exact_complete by assumption.
    destruct (Hrun ltac:(congruence)) as (Hfree & Hbusy & Hpid).
    destruct (release_cpu_exact_acct n g0 q s e Hq H Ha Hev ltac:(congruence) Htime)
      as (Ha1 & Hloc & Hc & _).
    pose proof (release_cpu_exact_inv _ _ _ _ (pid e) H) as H1.
    pose proof (release_cpu_exact_time _ (pid e) Ht) as Ht1.
    pose proof (release_cpu_exact_work n g0 q s e Hq H Ha Hw Hev ltac:(congruence)
                  Htime Hbusy Hpid Hfree) as Hw1.
    assert (Hpc1 : proc_ok (get_proc (g_processes (release_cpu_exact s (pid e))) (pid e))).
    { pose proof (ai_procs _ _ _ _ Ha1) as Hp. rewrite Forall_forall in Hp.
      apply Hp, get_proc_In.
      destruct (hand_apart _ _ _ _ H1) as (Hv & _).
      pose proof (sim_inv_table_length _ _ _ _ H1). lia. }
    eapply schedule_next_exact_work; try eassumption.
    + apply burst_done_exact_inv; eassumption.
    + eapply burst_done_exact_time; eassumption.
    + apply burst_done_exact_acct; auto.
    + eapply burst_done_exact_work; eauto. cbn. lia.
    + intros _. eapply burst_done_exact_free; [eassumption|].
      split; [reflexivity | exact Hfree].
  - rewrite handle_event_exact_timeout by assumption.
    destruct (Hrun ltac:(congruence)) as (Hfree & Hbusy & Hpid).
    destruct (release_cpu_exact_acct n g0 q s e Hq H Ha Hev ltac:(congruence) Htime)
      as (Ha1 & Hloc & _ & Hto).
    pose proof (release_cpu_exact_inv _ _ _ _ (pid e) H) as H1.
    pose proof (release_cpu_exact_time _ (pid e) Ht) as Ht1.
    pose proof (release_cpu_exact_work n g0 q s e Hq H Ha Hw Hev ltac:(congruence)
                  Htime Hbusy Hpid Hfree) as Hw1.
    specialize (Hto Et).
    destruct (Z.ltb_spec 0 (remaining_cpu
                (get_proc (g_processes (release_cpu_exact s (pid e))) (pid e)))); [|lia].
    destruct (enqueue_state_exact_fields (release_cpu_exact s (pid e)) (pid e)) as (Eq & Er & _).
    eapply schedule_next_exact_work; try eassumption.
    + apply enqueue_state_exact_inv; eassumption.
    + eapply enqueue_state_exact_time; eassumption.
    + apply enqueue_state_exact_acct; auto.
    + eapply enqueue_state_exact_work; eassumption.
    + intros _. unfold heap_arrivals. rewrite Eq. exact Hfree.
Qed.

Lemma loop_body_exact_work n g0 q s :
  0 <= q -> sim_inv n g0 [] s -> cpu_inv s -> time_inv s -> acct_inv n g0 q s ->
  work_inv n q s -> loop_cond n s = true ->
  work_inv n q (loop_body_exact q s).
Proof.
  intros Hq H Hcpu Ht Ha Hw Hc. apply loop_cond_true in Hc. destruct Hc as [_ Hsz].
  destruct (eventHeap_pop (g_processes s) (eventQ s)) as [e mh] eqn:Epop.
  rewrite (loop_body_exact_eq q s e mh Epop).
  destruct (pop_state_acct _ _ _ _ _ _ H Ht Ha Hsz Epop) as (Ha1 & Hev & _).
  destruct (pop_state_work _ _ q _ _ _ H Ht Hw Hsz Epop) as (Hw1 & Hrun).
  eapply handle_event_exact_work; try eassumption.
  - eapply pop_state_inv; eassumption.
  - eapply pop_state_time; eassumption.
  - reflexivity.
  - intros Et. eapply pop_arrive_cpu; eassumption.
  - intros Et. split; [eapply pop_run_cpu; eassumption | apply Hrun, Et].
Qed.

Lemma slices_pushes p l :
  dispatch_slices p (map ObsPush l) = [] /\ all_slices (map ObsPush l) = [] /\
  slice_bounds (map ObsPush l) = [].
Proof.
  assert (H : Forall no_dispatch (map ObsPush l))
    by (apply Forall_map, Forall_forall; intros; exact I).
  destruct (no_dispatch_slices p _ H) as (H1 & H2 & H3 & _). auto.
Qed.

Lemma init_sim_work n g q :
  0 < n -> length g = Z.to_nat n -> Forall fresh g ->
  work_inv n q (init_sim n g).
Proof.
  intros Hn Hlen Hfresh.
  destruct (init_sim_eq n g ltac:(lia)) as (mh & E & _ & _ & Hp).
  rewrite E.
  constructor; cbn [trace cpu_idle_time cpu_busy_until running_pid current_time
                    eventQ g_processes].
  - lia.
  - destruct (slices_pushes 0 (arrival_events g 0)) as (_ & -> & _). reflexivity.
  - apply Forall_map, Forall_forall. intros; exact I.
  - destruct (slices_pushes 0 (arrival_events g 0)) as (_ & _ & ->). constructor.
  - destruct (slices_pushes 0 (arrival_events g 0)) as (_ & _ & ->). constructor.
  - lia.
  - eapply Permutation_Forall; [symmetry; exact Hp|].
    eapply Forall_impl; [|apply arrival_events_types].
    cbv beta. intros x Hx Hne. contradiction.
  - intros p Hpr. destruct (slices_pushes p (arrival_events g 0)) as (-> & _).
    unfold in_flight. cbn [running_pid].
    destruct (Z.eqb_spec (-1) p); [lia|].
    assert (Hin : In (get_proc g p) g) by (apply get_proc_In; lia).
    rewrite Forall_forall in Hfresh.
    destruct (Hfresh _ Hin) as (Hc & Hr & _).
    unfold cpu_done. rewrite Hc, Hr, prefix_sum_nonpos by lia.
    unfold sum; cbn. lia.
Qed.

Lemma reachable_exact_work input q n g s :
  read_input_file input = Some (n, g) -> nonneg_input g -> 0 <= q ->
  reachable_exact input q s ->
  sim_inv n g [] s /\ cpu_inv s /\ time_inv s /\ acct_inv n g q s /\ work_inv n q s.
Proof.
  intros E Hnn Hq Hr.
  induction Hr as [n' g' E' Hn | n' g' s E' Hr IH Hc];
    rewrite E in E'; injection E' as <- <-.
  - pose proof (read_input_file_length _ _ _ E Hn).
    pose proof (read_input_file_fresh _ _ _ E).
    split; [apply init_sim_inv; assumption|].
    split; [apply init_sim_cpu; assumption|].
    split; [apply init_sim_time; assumption|].
    split; [apply init_sim_acct | apply init_sim_work]; assumption.
  - destruct IH as (Hinv & Hcpu & Ht & Ha & Hw).
    split; [apply loop_body_exact_inv; assumption|].
    split; [eapply loop_body_exact_cpu; eassumption|].
    split; [eapply loop_body_exact_time; eassumption|].
    split; [eapply loop_body_exact_acct; eassumption|].
    eapply loop_body_exact_work; eassumption.
Qed.

(* ------------------------------------------------------------------ *)
(** ** Who has finished *)

(** The unfinished processes are those in the hand of the handler, in
    the heap or in the ready queue: every other one is at rest after its
    last burst, and the external identifiers of the completion records
    together with those of the unfinished processes are the identifiers
    of the table.  No finish time is in the future. *)
Record exit_inv (n : Z) (g0 : list PCB) (hand : list Z) (s : Sim) : Prop :=
  mk_exit_inv {
    xi_done : forall p, 0 <= p < n ->
        In p (hand ++ pending s) \/ done_ok (get_proc (g_processes s) p);
    xi_ids : Permutation
               (map fst (exits (trace s))
                ++ map (fun p => id (get_proc g0 p)) (hand ++ pending s))
               (map id g0);
    xi_fin : Forall (fun pc => finish_time pc <= current_time s) (g_processes s)
  }.

Lemma enqueue_state_exact_pending n g0 s p :
  sim_inv n g0 [p] s -> Permutation (pending (enqueue_state_exact s p)) (p :: pending s).
Proof.
  intros H. unfold enqueue_state_exact.
  destruct (RQ_enqueue_spec (g_processes s) (readyQ s) p (current_time s)
              (inv_rq _ _ _ _ H) (sim_inv_rq_room _ _ _ _ H))
    as (q' & E & _ & _ & _ & Hl).
  rewrite E. unfold pending. cbn [eventQ readyQ]. rewrite Hl, app_assoc.
  symmetry. apply Permutation_cons_append.
Qed.

Lemma schedule_next_exact_pending n g0 s q :
  sim_inv n g0 [] s -> Permutation (pending (schedule_next_exact s q)) (pending s).
Proof.
  intros H.
  destruct (Z.le_gt_cases 0 (running_pid s)) as [Hb|Hfree];
    [rewrite schedule_next_exact_busy by assumption; reflexivity|].
  destruct (Z.eq_dec (count (readyQ s)) 0) as [Hz|Hnz];
    [rewrite schedule_next_exact_idle by assumption; reflexivity|].
  assert (Hcnt : 0 < count (readyQ s))
    by (destruct (inv_rq _ _ _ _ H) as (_ & _ & _ & ? & _); lia).
  destruct (RQ_dequeue_spec _ (inv_rq _ _ _ _ H) Hcnt)
    as (p & rq' & Edq & _ & _ & _ & Hl).
  pose proof (dispatch_table_exact_frozen g0 _ p (current_time s) (inv_frozen _ _ _ _ H))
    as Hfr.
  destruct (eventHeap_push_spec
              (dispatch_table_exact (g_processes s) p (current_time s)) (eventQ s)
              (dispatch_event_exact (remaining_cpu (get_proc (g_processes s) p)) q
                              (current_time s) p)
              (frozen_heap_wf _ _ _ _ (inv_frozen _ _ _ _ H) Hfr (inv_heap _ _ _ _ H))
              (sim_inv_heap_room _ _ _ _ H))
    as (mh' & E & _ & _ & _ & Hperm).
  rewrite (schedule_next_exact_dispatch s q p rq' mh' _ ltac:(lia) Hnz Edq E).
  unfold pending. cbn [eventQ readyQ]. rewrite Hperm, Hl. cbn [map pid dispatch_event_exact app].
  apply Permutation_middle.
Qed.

(** A step that finishes nobody. *)
Lemma exit_inv_step n g0 hand hand' s s' :
  exit_inv n g0 hand s ->
  Permutation (hand' ++ pending s') (hand ++ pending s) ->
  exits (trace s') = exits (trace s) ->
  (forall p, 0 <= p < n -> done_ok (get_proc (g_processes s) p) ->
             done_ok (get_proc (g_processes s') p)) ->
  Forall (fun pc => finish_time pc <= current_time s') (g_processes s') ->
  exit_inv n g0 hand' s'.
Proof.
  intros [Hd Hi Hf] Hperm Hex Hdone Hfin. constructor; [| |assumption].
  - intros p Hp. destruct (Hd p Hp) as [Hin|Hdo]; [left|right; auto].
    apply (Permutation_in _ (Permutation_sym Hperm)). assumption.
  - rewrite Hex, Hperm. assumption.
Qed.

Lemma pop_state_exit n g0 s e mh :
  sim_inv n g0 [] s -> time_inv s -> exit_inv n g0 [] s ->
  (0 < size (eventQ s))%nat ->
  eventHeap_pop (g_processes s) (eventQ s) = (e, mh) ->
  exit_inv n g0 [pid e] (pop_state s e mh).
Proof.
  intros H Ht Hx Hpos Hpop.
  apply (exit_inv_step n g0 [] [pid e] s); auto.
  - cbn [app]. eapply pop_state_pending; eassumption.
  - cbn [pop_state trace]. rewrite exits_app. cbn. apply app_nil_r.
  - cbn [pop_state g_processes current_time].
    destruct (eventHeap_pop_spec _ _ (inv_heap _ _ _ _ H) Hpos)
      as (e' & mh' & E & _ & _ & _ & Hperm & _).
    rewrite Hpop in E. injection E as <- <-.
    assert (Hle : current_time s <= time e).
    { pose proof (ti_heap _ Ht) as Hh. rewrite Forall_forall in Hh. apply Hh.
      apply (Permutation_in _ (Permutation_sym Hperm)). left; reflexivity. }
    eapply Forall_impl; [|apply (xi_fin _ _ _ _ Hx)]. cbv beta. intros; lia.
Qed.

Lemma enqueue_state_exact_exit n g0 s p :
  sim_inv n g0 [p] s -> exit_inv n g0 [p] s ->
  exit_inv n g0 [] (enqueue_state_exact s p).
Proof.
  intros H Hx.
  pose proof (enqueue_state_exact_pending _ _ _ _ H) as Hperm.
  destruct (hand_apart _ _ _ _ H) as (Hv & _ & _).
  pose proof (sim_inv_table_length _ _ _ _ H) as Hlen.
  unfold enqueue_state_exact in *.
  destruct (RQ_enqueue_spec (g_processes s) (readyQ s) p (current_time s)
              (inv_rq _ _ _ _ H) (sim_inv_rq_room _ _ _ _ H))
    as (q' & E & _).
  rewrite E in *.
  apply (exit_inv_step n g0 [p] [] s); auto;
    cbn [trace g_processes current_time].
  - rewrite exits_app. cbn. apply app_nil_r.
  - intros p' Hp' Hd. apply done_ok_upd_proc; auto; try lia.
  - apply Forall_upd_proc; [apply (xi_fin _ _ _ _ Hx)|]. auto.
Qed.

Lemma release_cpu_exact_exit n g0 hand s p :
  sim_inv n g0 hand s -> 0 <= p -> exit_inv n g0 hand s ->
  exit_inv n g0 hand (release_cpu_exact s p).
Proof.
  intros H Hp Hx.
  pose proof (sim_inv_table_length _ _ _ _ H) as Hlen.
  apply (exit_inv_step n g0 hand hand s); auto.
  - intros p' Hp' Hd. rewrite release_cpu_exact_table.
    apply done_ok_upd_proc; auto; try lia.
    intros pc [Hr Hn]. split; [|exact Hn]. pcb_simpl.
    unfold used_time_exact. lia.
  - rewrite release_cpu_exact_table.
    change (current_time (release_cpu_exact s p)) with (current_time s).
    apply Forall_upd_proc; [apply (xi_fin _ _ _ _ Hx)|]. auto.
Qed.

Lemma burst_done_exact_exit n g0 s p :
  sim_inv n g0 [p] s -> exit_inv n g0 [p] s ->
  remaining_cpu (get_proc (g_processes s) p) = 0 ->
  exit_inv n g0 [] (burst_done_exact s p).
Proof.
  intros H Hx Hrem0.
  destruct (hand_apart _ _ _ _ H) as (Hv & _ & _).
  pose proof (sim_inv_table_length _ _ _ _ H) as Hlen.
  unfold burst_done_exact.
  destruct (Z.leb_spec (num_bursts (get_proc (g_processes s) p))
                       (current_burst (get_proc (g_processes s) p) + 1))
    as [Hlast|Hmore].
  - destruct Hx as [Hd Hi Hf].
    constructor; cbn [trace g_processes current_time pending eventQ readyQ app].
    + intros p' Hp'. destruct (Z.eq_dec p p') as [<-|Hne].
      * right. rewrite get_upd_proc_same by lia. split; assumption.
      * destruct (Hd p' Hp') as [[Heq|Hin]|Hdo]; [contradiction | left; exact Hin|].
        right. rewrite get_upd_proc_other by lia. assumption.
    + rewrite exits_app, map_app. unfold print_per_process_metrics_exact.
      cbn [exits flat_map map fst app].
      rewrite get_upd_proc_same by lia. pcb_simpl.
      pose proof (frozen_static _ _ p (inv_frozen _ _ _ _ H)) as Hst.
      unfold static in Hst. injection Hst as E1 _.
      rewrite E1, <- app_assoc. cbn [app].
      rewrite <- Hi. cbn [app map]. unfold pending. cbn [eventQ readyQ].
      reflexivity.
    + apply Forall_upd_proc_at; auto. intros _. pcb_simpl. lia.
  - destruct (eventHeap_push_spec (g_processes s) (eventQ s)
                (mkEvent (current_time s
                          + burst_at (io_bursts (get_proc (g_processes s) p))
                              (current_burst (get_proc (g_processes s) p) + 1 - 1))
                         EVT_ARRIVE p)
                (inv_heap _ _ _ _ H) (sim_inv_heap_room _ _ _ _ H))
      as (mh' & E & _ & _ & _ & Hperm).
    rewrite E. rewrite upd_proc_twice.
    apply (exit_inv_step n g0 [p] [] s); auto;
      cbn [trace g_processes current_time].
    + unfold pending. cbn [eventQ readyQ app]. rewrite Hperm. reflexivity.
    + rewrite exits_app. cbn. apply app_nil_r.
    + intros p' Hp' [Hr Hn]. destruct (Z.eq_dec p p') as [<-|Hne]; [lia|].
      rewrite get_upd_proc_other by lia. split; assumption.
    + apply Forall_upd_proc; [apply (xi_fin _ _ _ _ Hx)|]. auto.
Qed.

Lemma schedule_next_exact_exit n g0 s q :
  sim_inv n g0 [] s -> exit_inv n g0 [] s -> exit_inv n g0 [] (schedule_next_exact s q).
Proof.
  intros H Hx.
  pose proof (schedule_next_exact_pending _ _ _ q H) as Hperm.
  destruct (Z.le_gt_cases 0 (running_pid s)) as [Hb|Hfree];
    [rewrite schedule_next_exact_busy by assumption; assumption|].
  destruct (Z.eq_dec (count (readyQ s)) 0) as [Hz|Hnz];
    [rewrite schedule_next_exact_idle by assumption; assumption|].
  assert (Hcnt : 0 < count (readyQ s))
    by (destruct (inv_rq _ _ _ _ H) as (_ & _ & _ & ? & _); lia).
  destruct (RQ_dequeue_spec _ (inv_rq _ _ _ _ H) Hcnt)
    as (p & rq' & Edq & _ & _ & _ & Hl).
  pose proof (dispatch_table_exact_frozen g0 _ p (current_time s) (inv_frozen _ _ _ _ H))
    as Hfr.
  destruct (eventHeap_push_spec
              (dispatch_table_exact (g_processes s) p (current_time s)) (eventQ s)
              (dispatch_event_exact (remaining_cpu (get_proc (g_processes s) p)) q
                              (current_time s) p)
              (frozen_heap_wf _ _ _ _ (inv_frozen _ _ _ _ H) Hfr (inv_heap _ _ _ _ H))
              (sim_inv_heap_room _ _ _ _ H))
    as (mh' & E & _ & _ & _ & _).
  rewrite (schedule_next_exact_dispatch s q p rq' mh' _ ltac:(lia) Hnz Edq E) in *.
  pose proof (sim_inv_table_length _ _ _ _ H) as Hlen.
  assert (Hp : 0 <= p < n).
  { destruct (inv_tokens _ _ _ _ H) as (_ & HF & _). cbn [app] in HF.
    rewrite Forall_forall in HF. apply HF. unfold pending.
    apply in_or_app; right. rewrite Hl. left; reflexivity. }
  apply (exit_inv_step n g0 [] [] s); auto;
    cbn [trace g_processes current_time].
  - rewrite exits_app. cbn. apply app_nil_r.
  - intros p' Hp' Hd. unfold dispatch_table_exact.
    repeat (apply done_ok_upd_proc; rewrite ?upd_proc_length; auto; try lia).
  - unfold dispatch_table_exact.
    repeat apply Forall_upd_proc; [apply (xi_fin _ _ _ _ Hx) | |]; auto.
Qed.

Lemma handle_event_exact_exit n g0 q s e :
  0 <= q -> sim_inv n g0 [pid e] s -> acct_inv n g0 q s ->
  exit_inv n g0 [pid e] s ->
  event_ok q (g_processes s) e -> time e = current_time s ->
  exit_inv n g0 [] (handle_event_exact q s e).
Proof.
  intros Hq H Ha Hx Hev Htime.
  destruct (hand_apart _ _ _ _ H) as (Hv & _ & _).
  destruct (type e) eqn:Et.
  - rewrite handle_event_exact_arrive by assumption.
    pose proof (enqueue_state_exact_inv _ _ _ _ H) as H2.
    pose proof (enqueue_state_exact_exit _ _ _ _ H Hx) as Hx2.
    destruct (_ <? 0); [apply schedule_next_exact_exit|]; assumption.
  - rewrite handle_event_exact_complete by assumption.
    destruct (release_cpu_exact_acct n g0 q s e Hq H Ha Hev ltac:(congruence) Htime)
      as (_ & _ & Hc & _).
    pose proof (release_cpu_exact_inv _ _ _ _ (pid e) H) as H1.
    apply schedule_next_exact_exit; [apply burst_done_exact_inv; assumption|].
    apply burst_done_exact_exit; auto. apply release_cpu_exact_exit; auto; lia.
  - rewrite handle_event_exact_timeout by assumption.
    destruct (release_cpu_exact_acct n g0 q s e Hq H Ha Hev ltac:(congruence) Htime)
      as (_ & _ & _ & Hto).
    pose proof (release_cpu_exact_inv _ _ _ _ (pid e) H) as H1.
    specialize (Hto Et).
    destruct (Z.ltb_spec 0 (remaining_cpu
                (get_proc (g_processes (release_cpu_exact s (pid e))) (pid e)))); [|lia].
    apply schedule_next_exact_exit; [apply enqueue_state_exact_inv; assumption|].
    apply enqueue_state_exact_exit; auto. apply release_cpu_exact_exit; auto; lia.
Qed.

Lemma loop_body_exact_exit n g0 q s :
  0 <= q -> sim_inv n g0 [] s -> time_inv s -> acct_inv n g0 q s ->
  exit_inv n g0 [] s -> loop_cond n s = true ->
  exit_inv n g0 [] (loop_body_exact q s).
Proof.
  intros Hq H Ht Ha Hx Hc. apply loop_cond_true in Hc. destruct Hc as [_ Hsz].
  destruct (eventHeap_pop (g_processes s) (eventQ s)) as [e mh] eqn:Epop.
  rewrite (loop_body_exact_eq q s e mh Epop).
  destruct (pop_state_acct _ _ _ _ _ _ H Ht Ha Hsz Epop) as (Ha1 & Hev & _).
  eapply handle_event_exact_exit; try eassumption.
  - eapply pop_state_inv; eassumption.
  - eapply pop_state_exit; eassumption.
  - reflexivity.
Qed.

Lemma init_sim_exit n g :
  0 < n -> length g = Z.to_nat n -> Forall fresh g ->
  exit_inv n g [] (init_sim n g).
Proof.
  intros Hn Hlen Hfresh.
  pose proof (init_sim_inv n g Hn Hlen) as H.
  destruct (init_sim_eq n g ltac:(lia)) as (mh & E & _ & _ & Hp).
  rewrite E in *.
  assert (Hpend : Permutation
            (pending (mkSim g mh (RQ_init (n + 10)) 0 0 0 (-1) 0 0
                            (map ObsPush (arrival_events g 0))))
            (map pid (arrival_events g 0))).
  { unfold pending. cbn [eventQ readyQ]. rewrite RQ_init_list, app_nil_r, Hp.
    reflexivity. }
  constructor; cbn [trace g_processes current_time app].
  - intros p Hpr. left. apply (Permutation_in _ (Permutation_sym Hpend)).
    pose proof (arrival_events_nth_pid g 0 (Z.to_nat p) ltac:(lia)) as Hin.
    rewrite Z.add_0_l, Z2Nat.id in Hin by lia. exact Hin.
  - rewrite exits_pushes. cbn [map app]. rewrite Hpend.
    rewrite (arrival_events_ids g 0 g); [reflexivity|].
    intros k Hk. unfold get_proc. rewrite Z.add_0_l, Nat2Z.id. reflexivity.
  - rewrite Forall_forall in *. intros pc Hin.
    destruct (Hfresh pc Hin) as (_ & _ & _ & Hf & _). lia.
Qed.

(* ------------------------------------------------------------------ *)
(** ** The last exit *)

(** The state right after the last process has finished: its finish time
    is the current time, and the CPU, if nobody took it since, was in use
    up to the current time. *)
Definition last_exit (n : Z) (s : Sim) : Prop :=
  (exists p, 0 <= p < n /\
             finish_time (get_proc (g_processes s) p) = current_time s) /\
  (running_pid s < 0 -> cpu_busy_until s = current_time s).

(** What a step does to the number of finished processes: nothing, or it
    has just finished one. *)
Definition exit_step (n : Z) (s s' : Sim) : Prop :=
  finished_count s' = finished_count s \/ last_exit n s'.

Lemma schedule_next_exact_count s q :
  finished_count (schedule_next_exact s q) = finished_count s.
Proof.
  unfold schedule_next_exact. destruct (0 <=? _); auto. destruct (negb _); auto.
  destruct (RQ_dequeue _) as [p rq]. destruct (eventHeap_push _ _ _) as [mh o].
  reflexivity.
Qed.

Lemma schedule_next_exact_last n g0 s q :
  sim_inv n g0 [] s -> last_exit n s -> last_exit n (schedule_next_exact s q).
Proof.
  intros H [(p0 & Hp0 & Hfin) Hbusy].
  destruct (Z.le_gt_cases 0 (running_pid s)) as [Hb|Hfree];
    [rewrite schedule_next_exact_busy by assumption; split; eauto|].
  destruct (Z.eq_dec (count (readyQ s)) 0) as [Hz|Hnz];
    [rewrite schedule_next_exact_idle by assumption; split; eauto|].
  assert (Hcnt : 0 < count (readyQ s))
    by (destruct (inv_rq _ _ _ _ H) as (_ & _ & _ & ? & _); lia).
  destruct (RQ_dequeue_spec _ (inv_rq _ _ _ _ H) Hcnt)
    as (p & rq' & Edq & _ & _ & _ & Hl).
  destruct (eventHeap_push
              (dispatch_table_exact (g_processes s) p (current_time s)) (eventQ s)
              (dispatch_event_exact (remaining_cpu (get_proc (g_processes s) p)) q
                              (current_time s) p)) as [mh' o] eqn:E.
  rewrite (schedule_next_exact_dispatch s q p rq' mh' o ltac:(lia) Hnz Edq E).
  assert (Hp : 0 <= p < n).
  { destruct (inv_tokens _ _ _ _ H) as (_ & HF & _). cbn [app] in HF.
    rewrite Forall_forall in HF. apply HF. unfold pending.
    apply in_or_app; right. rewrite Hl. left; reflexivity. }
  split; cbn [g_processes current_time running_pid cpu_busy_until]; [|lia].
  exists p0. split; [assumption|]. unfold dispatch_table_exact.
  rewrite !(get_upd_proc_proj finish_time) by (try lia; reflexivity).
  assumption.
Qed.

Lemma burst_done_exact_step n g0 s p :
  sim_inv n g0 [p] s -> (running_pid s < 0 -> cpu_busy_until s = current_time s) ->
  exit_step n s (burst_done_exact s p).
Proof.
  intros H Hbusy.
  destruct (hand_apart _ _ _ _ H) as (Hv & _ & _).
  pose proof (sim_inv_table_length _ _ _ _ H) as Hlen.
  unfold exit_step, burst_done_exact.
  destruct (num_bursts _ <=? _).
  - right. split; cbn [g_processes current_time running_pid cpu_busy_until];
      [|assumption].
    exists p. split; [assumption|]. rewrite get_upd_proc_same by lia. reflexivity.
  - left. destruct (eventHeap_push _ _ _) as [mh o]. reflexivity.
Qed.

Lemma handle_event_exact_step n g0 q s e :
  sim_inv n g0 [pid e] s -> time e = current_time s ->
  (type e <> EVT_ARRIVE -> time e = cpu_busy_until s) ->
  exit_step n s (handle_event_exact q s e).
Proof.
  intros H Htime Hrun. destruct (type e) eqn:Et.
  - left. rewrite handle_event_exact_arrive by assumption.
    destruct (_ <? 0); rewrite ?schedule_next_exact_count;
      unfold enqueue_state_exact; destruct (RQ_enqueue _ _ _ _) as [[g rq] o]; reflexivity.
  - rewrite handle_event_exact_complete by assumption.
    pose proof (release_cpu_exact_inv _ _ _ _ (pid e) H) as H1.
    destruct (burst_done_exact_step n g0 (release_cpu_exact s (pid e)) (pid e) H1) as [Hc|Hl].
    + intros _. cbn [release_cpu_exact cpu_busy_until current_time].
      specialize (Hrun ltac:(congruence)).
      destruct (Z.ltb_spec (current_time s) (cpu_busy_until s)); lia.
    + left. rewrite schedule_next_exact_count, Hc. reflexivity.
    + right. eapply schedule_next_exact_last; [apply burst_done_exact_inv|]; eassumption.
  - rewrite handle_event_exact_timeout by assumption.
    pose proof (release_cpu_exact_inv _ _ _ _ (pid e) H) as H1.
    destruct (0 <? _).
    + left. rewrite schedule_next_exact_count.
      unfold enqueue_state_exact; destruct (RQ_enqueue _ _ _ _) as [[g rq] o]; reflexivity.
    + destruct (burst_done_exact_step n g0 (release_cpu_exact s (pid e)) (pid e) H1) as [Hc|Hl].
      * intros _. cbn [release_cpu_exact cpu_busy_until current_time].
        specialize (Hrun ltac:(congruence)).
        destruct (Z.ltb_spec (current_time s) (cpu_busy_until s)); lia.
      * left. rewrite schedule_next_exact_count, Hc. reflexivity.
      * right. eapply schedule_next_exact_last; [apply burst_done_exact_inv|]; eassumption.
Qed.

(** The invariants of a run on a non-negative input, together. *)
Record run_inv (n : Z) (g0 : list PCB) (q : Z) (s : Sim) : Prop := mk_run_inv {
  ri_sim : sim_inv n g0 [] s;
  ri_cpu : cpu_inv s;
  ri_time : time_inv s;
  ri_acct : acct_inv n g0 q s;
  ri_work : work_inv n q s;
  ri_exit : exit_inv n g0 [] s;
  ri_last : finished_count s = n -> last_exit n s
}.

Lemma reachable_exact_run input q n g s :
  read_input_file input = Some (n, g) -> nonneg_input g -> 0 <= q ->
  reachable_exact input q s -> run_inv n g q s.
Proof.
  intros E Hnn Hq Hr.
  induction Hr as [n' g' E' Hn | n' g' s E' Hr IH Hc];
    rewrite E in E'; injection E' as <- <-.
  - pose proof (read_input_file_length _ _ _ E Hn).
    pose proof (read_input_file_fresh _ _ _ E).
    constructor.
    + apply init_sim_inv; assumption.
    + apply init_sim_cpu; assumption.
    + apply init_sim_time; assumption.
    + apply init_sim_acct; assumption.
    + apply init_sim_work; assumption.
    + apply init_sim_exit; assumption.
    + destruct (init_sim_eq n g ltac:(lia)) as (mh & Ei & _).
      rewrite Ei. cbn [finished_count]. lia.
  - destruct IH as [Hinv Hcpu Ht Ha Hw Hx Hl].
    constructor.
    + apply loop_body_exact_inv; assumption.
    + eapply loop_body_exact_cpu; eassumption.
    + eapply loop_body_exact_time; eassumption.
    + eapply loop_body_exact_acct; eassumption.
    + eapply loop_body_exact_work; eassumption.
    + eapply loop_body_exact_exit; eassumption.
    + pose proof Hc as Hc'. apply loop_cond_true in Hc'. destruct Hc' as [Hlt Hsz].
      destruct (eventHeap_pop (g_processes s) (eventQ s)) as [e mh] eqn:Epop.
      rewrite (loop_body_exact_eq q s e mh Epop).
      destruct (pop_state_work _ _ q _ _ _ Hinv Ht Hw Hsz Epop) as (_ & Hrun).
      destruct (handle_event_exact_step n g q (pop_state s e mh) e) as [Hsame|Hlast].
      * eapply pop_state_inv; eassumption.
      * reflexivity.
      * intros Hty. apply (Hrun Hty).
      * cbn [pop_state finished_count] in Hsame. intros Hn. lia.
      * intros _. assumption.
Qed.

Lemma simulation_end_is g T :
  0 <= T -> Forall (fun pc => finish_time pc <= T) g ->
  (exists pc, In pc g /\ finish_time pc = T) ->
  simulation_end g = T.
Proof.
  intros HT Hall (pc0 & Hin & Hfin). unfold simulation_end.
  assert (Hle : forall l acc, acc <= T -> Forall (fun pc => finish_time pc <= T) l ->
            fold_left (fun a pc => if a <? finish_time pc then finish_time pc else a)
                      l acc <= T).
  { induction l as [|pc l IH]; intros acc Ha Hl; cbn [fold_left]; [assumption|].
    apply IH; [|apply (Forall_inv_tail Hl)].
    pose proof (Forall_inv Hl). cbv beta in *.
    destruct (Z.ltb_spec acc (finish_time pc)); lia. }
  assert (Hge : forall l acc, acc <= fold_left
            (fun a pc => if a <? finish_time pc then finish_time pc else a) l acc).
  { induction l as [|pc l IH]; intros acc; cbn [fold_left]; [lia|].
    eapply Z.le_trans; [|apply IH]. destruct (Z.ltb_spec acc (finish_time pc)); lia. }
  assert (Hin' : forall l acc, In pc0 l -> T <= fold_left
            (fun a pc => if a <? finish_time pc then finish_time pc else a) l acc).
  { induction l as [|pc l IH]; intros acc Hl; [destruct Hl|].
    destruct Hl as [<-|Hl]; cbn [fold_left].
    - eapply Z.le_trans; [|apply Hge].
      destruct (Z.ltb_spec acc (finish_time pc)); lia.
    - apply IH. assumption. }
  pose proof (Hle g 0 HT Hall). pose proof (Hin' g 0 Hin). lia.
Qed.

(** The state the main loop leaves. *)
Lemma exit_state n g0 q s :
  run_inv n g0 q s -> loop_cond n s = false ->
  finished_count s = n /\ pending s = [] /\ running_pid s < 0 /\
  cpu_busy_until s = current_time s /\
  simulation_end (g_processes s) = current_time s /\
  forall p, 0 <= p < n -> done_ok (get_proc (g_processes s) p).
Proof.
  intros [Hinv Hcpu Ht Ha Hw Hx Hl] Hc.
  destruct (finished_iff_drained _ _ _ Hinv Hcpu) as [Hle Hiff].
  unfold loop_cond, eventHeap_empty in Hc. apply andb_false_iff in Hc.
  rewrite Z.ltb_ge, negb_false_iff, Nat.eqb_eq in Hc.
  assert (Hfin : finished_count s = n) by (destruct Hc; [lia | tauto]).
  assert (Hsz : size (eventQ s) = O) by tauto.
  destruct (inv_tokens _ _ _ _ Hinv) as (_ & _ & _ & Hcount). cbn [app] in Hcount.
  assert (Hpend : pending s = []) by (apply length_zero_iff_nil; lia).
  assert (Hrun : running_pid s < 0).
  { destruct Hcpu as [[[Hr _] _] | (_ & (e & Hin & _) & _)]; [lia|].
    unfold contents in Hin. rewrite Hsz in Hin. destruct Hin. }
  destruct (Hl Hfin) as [(p0 & Hp0 & Hf0) Hbusy].
  pose proof (sim_inv_table_length _ _ _ _ Hinv) as Hlen.
  repeat split; auto.
  - apply simulation_end_is.
    + apply (ti_now _ Ht).
    + apply (xi_fin _ _ _ _ Hx).
    + exists (get_proc (g_processes s) p0). split; [apply get_proc_In; lia | assumption].
  - destruct (xi_done _ _ _ _ Hx p H) as [Hin|[Hd1 Hd2]]; [|assumption].
    cbn [app] in Hin. rewrite Hpend in Hin. destruct Hin.
  - destruct (xi_done _ _ _ _ Hx p H) as [Hin|[Hd1 Hd2]]; [|assumption].
    cbn [app] in Hin. rewrite Hpend in Hin. destruct Hin.
Qed.

(* ------------------------------------------------------------------ *)
(** ** The CPU time of a complete run *)

Lemma sum_zeros {A} (l : list A) : sum (map (fun _ => 0) l) = 0.
Proof. induction l as [|x l IH]; [reflexivity|]. cbn [map]. rewrite sum_cons. lia. Qed.

Lemma sum_indicator (f : nat -> Z) x p m : forall a,
  (a <= p < a + m)%nat ->
  sum (map (fun k => (if (p =? k)%nat then x else 0) + f k) (seq a m))
  = x + sum (map f (seq a m)).
Proof.
  induction m as [|m IH]; intros a Hp; [lia|].
  cbn [seq map]. rewrite !sum_cons.
  destruct (Nat.eqb_spec p a) as [->|Hne].
  - replace (sum (map (fun k => (if (a =? k)%nat then x else 0) + f k) (seq (S a) m)))
      with (sum (map f (seq (S a) m))); [lia|].
    f_equal. apply map_ext_in. intros k Hk. apply in_seq in Hk.
    destruct (Nat.eqb_spec a k); lia.
  - rewrite IH by lia. lia.
Qed.

(** The slices given out are those of the processes, each counted once. *)
Lemma all_slices_split n q tr :
  Forall (dispatch_ok n q) tr ->
  sum (all_slices tr)
  = sum (map (fun k => sum (dispatch_slices (Z.of_nat k) tr)) (seq 0 (Z.to_nat n))).
Proof.
  induction 1 as [|o tr Ho _ IH].
  - cbn. rewrite sum_zeros. reflexivity.
  - destruct o as [e|e| | |p now w sl|now ext tat perc wt];
      try (cbn [all_slices dispatch_slices flat_map app]; exact IH).
    destruct Ho as (Hp & _ & _).
    cbn [all_slices flat_map app]. rewrite sum_cons. fold (all_slices tr).
    rewrite IH.
    rewrite <- (sum_indicator _ sl (Z.to_nat p) (Z.to_nat n) 0) by lia.
    f_equal. apply map_ext_in. intros k Hk. apply in_seq in Hk.
    cbn [dispatch_slices flat_map]. fold (dispatch_slices (Z.of_nat k) tr).
    destruct (Z.eqb_spec p (Z.of_nat k)) as [->|Hne].
    + rewrite Nat2Z.id, Nat.eqb_refl. cbn [app]. rewrite sum_cons. reflexivity.
    + destruct (Nat.eqb_spec (Z.to_nat p) k); [lia|]. cbn [app]. lia.
Qed.

(** The CPU time the input asks for: all the CPU bursts of all the
    processes. *)
Definition total_cpu (g : list PCB) : Z :=
  sum (map (fun pc => sum (bursts_of pc)) g).

Lemma done_cpu pc :
  proc_ok pc -> done_ok pc -> cpu_done pc = sum (bursts_of pc).
Proof.
  intros (Hcur & _ & _ & Hnum) [Hrem Hlast]. unfold cpu_done, bursts_of.
  rewrite Hrem.
  destruct Hnum as [Hlt | (Hn0 & Hc0 & Hb0)].
  - replace (num_bursts pc) with (current_burst pc + 1) by lia.
    fold (prefix_sum (cpu_bursts pc) (current_burst pc + 1)).
    rewrite prefix_sum_succ by lia.
    replace (current_burst pc + 1 - 1) with (current_burst pc) by lia. lia.
  - rewrite Hn0, Hc0, Hb0. cbn. reflexivity.
Qed.

(** The account of a run that has left the loop. *)
Lemma exit_accounts input q n g s :
  read_input_file input = Some (n, g) -> nonneg_input g -> 0 <= q ->
  reachable_exact input q s -> loop_cond n s = false ->
  (forall p, 0 <= p < n ->
     sum (dispatch_slices p (trace s)) = sum (bursts_of (get_proc g p))) /\
  simulation_end (g_processes s) = current_time s /\
  0 <= cpu_idle_time s /\
  simulation_end (g_processes s) = cpu_idle_time s + total_cpu g.
Proof.
  intros E Hnn Hq Hr Hc.
  pose proof (reachable_exact_run _ _ _ _ _ E Hnn Hq Hr) as Hri.
  destruct (exit_state _ _ _ _ Hri Hc) as (Hfin & Hpend & Hrun & Hbusy & Hend & Hdone).
  destruct Hri as [Hinv Hcpu Ht Ha Hw Hx Hl].
  pose proof (sim_inv_table_length _ _ _ _ Hinv) as Hlen.
  pose proof (inv_len _ _ _ _ Hinv) as Hlen0.
  assert (Hshare : forall p, 0 <= p < n ->
            sum (dispatch_slices p (trace s)) = sum (bursts_of (get_proc g p))).
  { intros p Hp. rewrite (wi_share _ _ _ Hw p Hp).
    unfold in_flight. destruct (Z.eqb_spec (running_pid s) p); [lia|].
    rewrite done_cpu.
    - pose proof (frozen_static _ _ p (inv_frozen _ _ _ _ Hinv)) as Hst.
      unfold static in Hst. injection Hst as _ _ E3 E4 _ _.
      unfold bursts_of. rewrite E3, E4. lia.
    - pose proof (ai_procs _ _ _ _ Ha) as Hp'. rewrite Forall_forall in Hp'.
      apply Hp', get_proc_In. lia.
    - apply Hdone. assumption. }
  split; [exact Hshare|]. split; [exact Hend|].
  split; [apply (wi_idle _ _ _ Hw)|].
  rewrite Hend, <- Hbusy, (wi_busy _ _ _ Hw). f_equal.
  rewrite (all_slices_split n q) by apply (wi_disp _ _ _ Hw).
  unfold total_cpu. rewrite (map_nth_seq (fun pc => sum (bursts_of pc)) g PCB_zero).
  rewrite Hlen0. f_equal. apply map_ext_in. intros k Hk. apply in_seq in Hk.
  rewrite Hshare by lia. unfold get_proc. rewrite Nat2Z.id. reflexivity.
Qed.

(** Conservation of CPU time.  When the main loop has left, in a run on a
    non-negative input: every process was given slices that add up to
    exactly the CPU bursts of its line; the latest finish time, which the
    report calls the total turnaround time, is the time of the last event
    handled; and it is the idle time of the CPU plus all the CPU bursts of
    the input, so that the busy time of the report is the CPU time asked
    for, whatever the quantum. *)
Theorem cpu_time_conserved_exact input q n g s :
  read_input_file input = Some (n, g) -> nonneg_input g -> 0 <= q ->
  reachable_exact input q s -> loop_cond n s = false ->
  (forall p, 0 <= p < n ->
     sum (dispatch_slices p (trace s)) = sum (bursts_of (get_proc g p))) /\
  simulation_end (g_processes s) = current_time s /\
  0 <= cpu_idle_time s /\
  simulation_end (g_processes s) = cpu_idle_time s + total_cpu g.
Proof.
  intros E Hnn Hq Hr Hc.
  destruct (exit_accounts input q n g s E Hnn Hq Hr Hc) as (Hshare & Hend & Hidle & Htot).
  split; [exact Hshare|]. split; [exact Hend|]. split; [exact Hidle | exact Htot].
Qed.




(** The slices on the time axis.  In a run on a non-negative input, the
    starts and the ends of the slices, taken in the order of the
    dispatches, never decrease: no slice has a negative length and no
    slice begins before the one before it has ended, so the CPU runs one
    process at a time.  Every slice is at most the quantum, every wait
    charged at a dispatch is non-negative, and every dispatched pid is one
    of the table. *)
Theorem slices_never_overlap_exact input q n g s :
  read_input_file input = Some (n, g) -> nonneg_input g -> 0 <= q ->
  reachable_exact input q s ->
  StronglySorted Z.le (slice_bounds (trace s)) /\
  Forall (fun t => 0 <= t <= cpu_busy_until s) (slice_bounds (trace s)) /\
  Forall (dispatch_ok n q) (trace s).
Proof.
  intros E Hnn Hq Hr.
  destruct (reachable_exact_run _ _ _ _ _ E Hnn Hq Hr) as [_ _ _ _ Hw _ _].
  split; [apply (wi_sorted _ _ _ Hw)|].
  split; [apply (wi_before _ _ _ Hw) | apply (wi_disp _ _ _ Hw)].
Qed.

(* ------------------------------------------------------------------ *)
(** ** How long a ready process waits *)

(** The promise made to the ready queue [l], head first, when the CPU is
    next available at [T]: the head will have waited at most [n - 1]
    quanta by then, the second by one quantum later, and so on. *)
Fixpoint rr_ok (n q : Z) (G : list PCB) (T : Z) (l : list Z) : Prop :=
  match l with
  | [] => True
  | p :: l' =>
    T <= last_ready_time (get_proc G p) + (n - 1) * q /\ rr_ok n q G (T + q) l'
  end.

Definition wait_ok (n q : Z) (o : Obs) : Prop :=
  match o with
  | ObsDispatch _ _ w _ => w <= (n - 1) * q
  | _ => True
  end.

(** The CPU is next available when the running slice ends, and now if
    nobody runs. *)
Definition cpu_available (s : Sim) : Z := Z.max (cpu_busy_until s) (current_time s).

Record rr_inv (n q : Z) (s : Sim) : Prop := mk_rr_inv {
  rr_queue : rr_ok n q (g_processes s) (cpu_available s) (rq_list (readyQ s));
  rr_soon : cpu_busy_until s <= current_time s + q;
  rr_trace : Forall (wait_ok n q) (trace s)
}.

Lemma rr_ok_earlier n q G l : forall T T',
  T' <= T -> rr_ok n q G T l -> rr_ok n q G T' l.
Proof.
  induction l as [|p l IH]; intros T T' Hle H; [exact I|].
  destruct H as [H1 H2]. split; [lia|]. apply (IH (T + q)); [lia | assumption].
Qed.

Lemma rr_ok_frame n q G p f l : forall T,
  0 <= p -> Forall (fun p' => 0 <= p' /\ p' <> p) l ->
  rr_ok n q G T l -> rr_ok n q (upd_proc G p f) T l.
Proof.
  induction l as [|p' l IH]; intros T Hp Hl H; [exact I|].
  destruct H as [H1 H2]. destruct (Forall_inv Hl) as [Hp' Hne]. split.
  - rewrite get_upd_proc_other by auto. assumption.
  - apply IH; auto. apply (Forall_inv_tail Hl).
Qed.

Lemma rr_ok_same_ready n q G p f l : forall T,
  0 <= p -> Forall (fun p' => 0 <= p') l ->
  (forall pc, last_ready_time (f pc) = last_ready_time pc) ->
  rr_ok n q G T l -> rr_ok n q (upd_proc G p f) T l.
Proof.
  induction l as [|p' l IH]; intros T Hp Hl Hf H; [exact I|].
  destruct H as [H1 H2]. split.
  - rewrite (get_upd_proc_proj last_ready_time) by (auto; apply (Forall_inv Hl)).
    assumption.
  - apply IH; auto. apply (Forall_inv_tail Hl).
Qed.

Lemma rr_ok_snoc n q G l p : forall T,
  rr_ok n q G T l ->
  T + Z.of_nat (length l) * q <= last_ready_time (get_proc G p) + (n - 1) * q ->
  rr_ok n q G T (l ++ [p]).
Proof.
  induction l as [|p' l IH]; intros T H Hp; cbn [app rr_ok length] in *.
  - split; [lia | exact I].
  - destruct H as [H1 H2]. split; [assumption|]. apply IH; [assumption | lia].
Qed.

Lemma no_dispatch_waits n q o : Forall no_dispatch o -> Forall (wait_ok n q) o.
Proof.
  intros H. eapply Forall_impl; [|exact H]. intros x Hx.
  destruct x; try exact I. contradiction.
Qed.

Lemma ready_pids n g0 hand s :
  sim_inv n g0 hand s -> Forall (fun p => 0 <= p) (rq_list (readyQ s)).
Proof.
  intros H. destruct (inv_tokens _ _ _ _ H) as (_ & Hv & _).
  rewrite Forall_app in Hv. destruct Hv as [_ Hv]. unfold pending in Hv.
  rewrite Forall_app in Hv. destruct Hv as [_ Hv].
  eapply Forall_impl; [|exact Hv]. cbv beta. intros; lia.
Qed.

Lemma pop_state_rr n g0 q s e mh :
  sim_inv n g0 [] s -> cpu_inv s -> time_inv s -> work_inv n q s -> rr_inv n q s ->
  (0 < size (eventQ s))%nat ->
  eventHeap_pop (g_processes s) (eventQ s) = (e, mh) ->
  rr_inv n q (pop_state s e mh).
Proof.
  intros H Hcpu Ht Hw [Hq Hs Htr] Hpos Hpop.
  destruct (eventHeap_pop_spec _ _ (inv_heap _ _ _ _ H) Hpos)
    as (e' & mh' & E & _ & _ & _ & Hperm & Hmin).
  rewrite Hpop in E. injection E as <- <-.
  assert (Hine : In e (contents (eventQ s)))
    by (apply (Permutation_in _ (Permutation_sym Hperm)); left; reflexivity).
  assert (Hle : current_time s <= time e).
  { pose proof (ti_heap _ Ht) as Hh. rewrite Forall_forall in Hh. auto. }
  constructor; cbn [pop_state g_processes readyQ cpu_busy_until current_time trace].
  - destruct Hcpu as [[_ Hcnt] | (Hrun & (er & Hin & Hty & Hpid) & _)].
    + assert (El : rq_list (readyQ s) = []).
      { apply length_zero_iff_nil. rewrite rq_list_length, Hcnt. reflexivity. }
      rewrite El. exact I.
    + pose proof (wi_run _ _ _ Hw) as Hr. rewrite Forall_forall in Hr.
      destruct (Hr er Hin Hty) as [Hb _].
      pose proof (ev_le_time _ _ _ (Hmin er Hin)) as Hmin'.
      eapply rr_ok_earlier; [|exact Hq].
      unfold cpu_available. cbn [pop_state cpu_busy_until current_time]. lia.
  - lia.
  - apply Forall_app. split; [assumption | repeat constructor].
Qed.

Lemma release_cpu_exact_rr n q s p :
  0 <= q -> 0 <= p -> Forall (fun p' => 0 <= p') (rq_list (readyQ s)) ->
  current_time s = cpu_busy_until s ->
  rr_inv n q s -> rr_inv n q (release_cpu_exact s p).
Proof.
  intros Hq Hp Hpids Hnow [Hr Hs Htr].
  constructor; cbn [release_cpu_exact readyQ cpu_busy_until current_time trace];
    rewrite ?release_cpu_exact_table.
  - apply rr_ok_same_ready; auto.
    eapply rr_ok_earlier; [|exact Hr].
    unfold cpu_available. cbn [release_cpu_exact cpu_busy_until current_time].
    destruct (Z.ltb_spec (current_time s) (cpu_busy_until s)); lia.
  - destruct (Z.ltb_spec (current_time s) (cpu_busy_until s)); lia.
  - assumption.
Qed.

Lemma enqueue_state_exact_rr n g0 q s p :
  0 <= q -> sim_inv n g0 [p] s -> rr_inv n q s ->
  (0 <= running_pid s -> (0 < size (eventQ s))%nat) ->
  (running_pid s < 0 -> cpu_busy_until s <= current_time s) ->
  rr_inv n q (enqueue_state_exact s p).
Proof.
  intros Hq H [Hr Hs Htr] Hbusy Hfree. unfold enqueue_state_exact.
  destruct (RQ_enqueue_spec (g_processes s) (readyQ s) p (current_time s)
              (inv_rq _ _ _ _ H) (sim_inv_rq_room _ _ _ _ H))
    as (q' & E & _ & _ & _ & Hl).
  rewrite E. destruct (hand_apart _ _ _ _ H) as (Hv & _ & Har).
  pose proof (sim_inv_table_length _ _ _ _ H) as Hlen.
  pose proof (sim_inv_bound _ _ _ _ H) as Hb. cbn [length] in Hb.
  pose proof (rq_list_length (readyQ s)) as Hrl.
  constructor; cbn [g_processes readyQ cpu_busy_until current_time trace];
    rewrite ?app_nil_r; auto.
  unfold cpu_available in *. cbn [cpu_busy_until current_time]. rewrite Hl.
  apply rr_ok_snoc.
  - apply rr_ok_frame; auto. lia.
  - rewrite get_upd_proc_same by lia. pcb_simpl.
    destruct (Z.le_gt_cases 0 (running_pid s)) as [Hrun|Hrun].
    + specialize (Hbusy Hrun). nia.
    + specialize (Hfree Hrun). nia.
Qed.

Lemma burst_done_exact_rr n g0 q s p :
  sim_inv n g0 [p] s -> rr_inv n q s -> rr_inv n q (burst_done_exact s p).
Proof.
  intros H [Hr Hs Htr].
  destruct (hand_apart _ _ _ _ H) as (Hv & _ & _).
  pose proof (ready_pids _ _ _ _ H) as Hpids.
  unfold burst_done_exact. destruct (num_bursts _ <=? _).
  - constructor; cbn [g_processes readyQ cpu_busy_until current_time trace]; auto.
    + apply rr_ok_same_ready; auto. lia.
    + apply Forall_app. split; [assumption | repeat constructor].
  - destruct (eventHeap_push _ _ _) as [mh o] eqn:E.
    rewrite upd_proc_twice.
    constructor; cbn [g_processes readyQ cpu_busy_until current_time trace]; auto.
    + apply rr_ok_same_ready; auto. lia.
    + apply Forall_app. split; [assumption|].
      unfold eventHeap_push in E. destruct (_ <=? _)%nat; injection E as _ <-;
        repeat constructor.
Qed.

Lemma schedule_next_exact_rr n g0 q s :
  0 <= q -> sim_inv n g0 [] s -> acct_inv n g0 q s -> rr_inv n q s ->
  (running_pid s < 0 -> cpu_busy_until s <= current_time s) ->
  rr_inv n q (schedule_next_exact s q).
Proof.
  intros Hq H Ha Hrr Hfree'.
  destruct (Z.le_gt_cases 0 (running_pid s)) as [Hb|Hfree];
    [rewrite schedule_next_exact_busy by assumption; assumption|].
  destruct (Z.eq_dec (count (readyQ s)) 0) as [Hz|Hnz];
    [rewrite schedule_next_exact_idle by assumption; assumption|].
  assert (Hcnt : 0 < count (readyQ s))
    by (destruct (inv_rq _ _ _ _ H) as (_ & _ & _ & ? & _); lia).
  destruct (RQ_dequeue_spec _ (inv_rq _ _ _ _ H) Hcnt)
    as (p & rq' & Edq & _ & _ & _ & Hl).
  destruct (eventHeap_push
              (dispatch_table_exact (g_processes s) p (current_time s)) (eventQ s)
              (dispatch_event_exact (remaining_cpu (get_proc (g_processes s) p)) q
                              (current_time s) p)) as [mh' o] eqn:E.
  rewrite (schedule_next_exact_dispatch s q p rq' mh' o ltac:(lia) Hnz Edq E).
  pose proof (sim_inv_table_length _ _ _ _ H) as Hlen.
  destruct (inv_tokens _ _ _ _ H) as (Hnd & Hv & _).
  cbn [app] in Hnd, Hv. unfold pending in Hnd, Hv. rewrite Hl in Hnd, Hv.
  apply NoDup_remove in Hnd. destruct Hnd as [Hnd Hnin].
  rewrite Forall_app in Hv. destruct Hv as [_ Hvr].
  pose proof (Forall_inv Hvr) as Hpv. cbv beta in Hpv.
  apply Forall_inv_tail in Hvr.
  assert (Har : Forall (fun p' => 0 <= p' /\ p' <> p) (rq_list rq')).
  { apply Forall_forall. intros p' Hin. rewrite Forall_forall in Hvr.
    split; [apply (Hvr p' Hin)|].
    intros Eq. apply Hnin. apply in_or_app. right. rewrite <- Eq. assumption. }
  assert (Hpc : proc_ok (get_proc (g_processes s) p)).
  { pose proof (ai_procs _ _ _ _ Ha) as Hpr. rewrite Forall_forall in Hpr.
    apply Hpr, get_proc_In. lia. }
  destruct Hpc as (_ & Hrem & _ & _).
  pose proof (dispatch_slice_range _ _ Hrem Hq) as Hsl.
  pose proof (dispatch_slice_min (remaining_cpu (get_proc (g_processes s) p)) q) as Hmin.
  destruct Hrr as [Hr Hs Htr]. specialize (Hfree' Hfree).
  unfold cpu_available in Hr. rewrite Hl in Hr. destruct Hr as [Hhead Htail].
  constructor; cbn [g_processes readyQ cpu_busy_until current_time trace].
  - unfold dispatch_table_exact. rewrite upd_proc_twice.
    apply rr_ok_frame; auto; [lia|].
    eapply rr_ok_earlier; [|exact Htail].
    unfold cpu_available. cbn [cpu_busy_until current_time]. lia.
  - lia.
  - apply Forall_app. split; [assumption|]. constructor.
    + cbn [wait_ok]. lia.
    + unfold eventHeap_push in E. destruct (_ <=? _)%nat; injection E as _ <-;
        repeat constructor.
Qed.

Lemma burst_done_exact_cpu_fields s p :
  cpu_busy_until (burst_done_exact s p) = cpu_busy_until s /\
  running_pid (burst_done_exact s p) = running_pid s.
Proof.
  unfold burst_done_exact. destruct (_ <=? _); [split; reflexivity|].
  destruct (eventHeap_push _ _ _) as [mh o]. split; reflexivity.
Qed.

Lemma handle_event_exact_rr n g0 q s e :
  0 <= q -> sim_inv n g0 [pid e] s -> time_inv s -> acct_inv n g0 q s ->
  rr_inv n q s ->
  event_ok q (g_processes s) e -> time e = current_time s ->
  (running_pid s < 0 -> cpu_busy_until s <= current_time s) ->
  (type e = EVT_ARRIVE -> cpu_free s \/ cpu_busy s) ->
  (type e <> EVT_ARRIVE -> time e = cpu_busy_until s) ->
  rr_inv n q (handle_event_exact q s e).
Proof.
  intros Hq H Ht Ha Hrr Hev Htime Hfree Harr Hrun.
  destruct (hand_apart _ _ _ _ H) as (Hv & _ & _).
  pose proof (ready_pids _ _ _ _ H) as Hpids.
  destruct (type e) eqn:Et.
  - rewrite handle_event_exact_arrive by assumption.
    pose proof (enqueue_state_exact_inv _ _ _ _ H) as H2.
    assert (Ha2 : acct_inv n g0 q (enqueue_state_exact s (pid e))).
    { apply enqueue_state_exact_acct; auto.
      unfold event_ok, event_ok_pc in Hev. rewrite Et in Hev. lia. }
    assert (Hrr2 : rr_inv n q (enqueue_state_exact s (pid e))).
    { eapply enqueue_state_exact_rr; eauto. intros Hb.
      destruct (Harr eq_refl) as [[Hr _] | (_ & (er & Hin & _) & _)]; [lia|].
      unfold contents in Hin. destruct (size (eventQ s)); [destruct Hin | lia]. }
    destruct (Z.ltb_spec (running_pid (enqueue_state_exact s (pid e))) 0); [|assumption].
    apply (schedule_next_exact_rr n g0); auto.
    unfold enqueue_state_exact. destruct (RQ_enqueue _ _ _ _) as [[g1 rq1] o1].
    cbn [running_pid cpu_busy_until current_time].
    exact Hfree.
  - rewrite handle_event_exact_complete by assumption.
    destruct (release_cpu_exact_acct n g0 q s e Hq H Ha Hev ltac:(congruence) Htime)
      as (Ha1 & Hloc & Hc & _).
    pose proof (release_cpu_exact_inv _ _ _ _ (pid e) H) as H1.
    pose proof (release_cpu_exact_time _ (pid e) Ht) as Ht1.
    specialize (Hrun ltac:(congruence)).
    assert (Hrr1 : rr_inv n q (release_cpu_exact s (pid e)))
      by (apply release_cpu_exact_rr; auto; lia).
    destruct (burst_done_exact_cpu_fields (release_cpu_exact s (pid e)) (pid e)) as [Eb Er].
    apply (schedule_next_exact_rr n g0);
      [assumption | apply burst_done_exact_inv; assumption
       | apply burst_done_exact_acct; auto | eapply burst_done_exact_rr; eassumption |].
    intros _. rewrite Eb, burst_done_exact_clock.
    cbn [release_cpu_exact cpu_busy_until current_time].
    destruct (Z.ltb_spec (current_time s) (cpu_busy_until s)); lia.
  - rewrite handle_event_exact_timeout by assumption.
    destruct (release_cpu_exact_acct n g0 q s e Hq H Ha Hev ltac:(congruence) Htime)
      as (Ha1 & Hloc & _ & Hto).
    pose proof (release_cpu_exact_inv _ _ _ _ (pid e) H) as H1.
    specialize (Hrun ltac:(congruence)). specialize (Hto Et).
    assert (Hrr1 : rr_inv n q (release_cpu_exact s (pid e)))
      by (apply release_cpu_exact_rr; auto; lia).
    destruct (Z.ltb_spec 0 (remaining_cpu
                (get_proc (g_processes (release_cpu_exact s (pid e))) (pid e)))); [|lia].
    assert (Hb1 : cpu_busy_until (release_cpu_exact s (pid e))
                  <= current_time (release_cpu_exact s (pid e))).
    { cbn [release_cpu_exact cpu_busy_until current_time].
      destruct (Z.ltb_spec (current_time s) (cpu_busy_until s)); lia. }
    apply (schedule_next_exact_rr n g0);
      [assumption | apply enqueue_state_exact_inv; assumption
       | apply enqueue_state_exact_acct; auto | |].
    + eapply enqueue_state_exact_rr; eauto.
      cbn [release_cpu_exact running_pid]. intros; lia.
    + intros _. unfold enqueue_state_exact.
      destruct (RQ_enqueue _ _ _ _) as [[g1 rq1] o1].
      cbn [cpu_busy_until current_time]. exact Hb1.
Qed.

Lemma loop_body_exact_rr n g0 q s :
  0 <= q -> run_inv n g0 q s -> rr_inv n q s -> loop_cond n s = true ->
  rr_inv n q (loop_body_exact q s).
Proof.
  intros Hq [H Hcpu Ht Ha Hw _ _] Hrr Hc.
  apply loop_cond_true in Hc. destruct Hc as [_ Hsz].
  destruct (eventHeap_pop (g_processes s) (eventQ s)) as [e mh] eqn:Epop.
  rewrite (loop_body_exact_eq q s e mh Epop).
  destruct (pop_state_acct _ _ _ _ _ _ H Ht Ha Hsz Epop) as (Ha1 & Hev & _).
  destruct (pop_state_work _ _ q _ _ _ H Ht Hw Hsz Epop) as (Hw1 & Hrun).
  eapply handle_event_exact_rr; try eassumption.
  - eapply pop_state_inv; eassumption.
  - eapply pop_state_time; eassumption.
  - eapply pop_state_rr; eassumption.
  - reflexivity.
  - apply (wi_free _ _ _ Hw1).
  - intros Et. eapply pop_arrive_cpu; eassumption.
  - intros Et. apply (Hrun Et).
Qed.

Lemma reachable_exact_rr input q n g s :
  read_input_file input = Some (n, g) -> nonneg_input g -> 0 <= q ->
  reachable_exact input q s -> rr_inv n q s.
Proof.
  intros E Hnn Hq Hr.
  induction Hr as [n' g' E' Hn | n' g' s E' Hr IH Hc].
  - rewrite E in E'. injection E' as <- <-.
    pose proof (read_input_file_length _ _ _ E Hn) as Hlen.
    destruct (init_sim_eq n g ltac:(lia)) as (mh & Ei & _).
    rewrite Ei. constructor; cbn [g_processes readyQ cpu_busy_until current_time trace].
    + rewrite RQ_init_list. exact I.
    + lia.
    + apply Forall_map, Forall_forall. intros; exact I.
  - pose proof E' as E''. rewrite E in E''. injection E'' as <- <-.
    eapply loop_body_exact_rr; eauto.
    eapply reachable_exact_run; eassumption.
Qed.

(** The wait Round Robin allows.  In a run on a non-negative input with
    [n] processes, the wait charged at any dispatch, the time the process
    spent in the ready queue since it last joined it, is at most [n - 1]
    quanta: each of the other processes runs at most once, for a quantum
    at most, before the turn of the process comes. *)
Theorem round_robin_wait_bound_exact input q n g s :
  read_input_file input = Some (n, g) -> nonneg_input g -> 0 <= q ->
  reachable_exact input q s ->
  forall p now w sl,
    In (ObsDispatch p now w sl) (trace s) -> 0 <= w <= (n - 1) * q.
Proof.
  intros E Hnn Hq Hr p now w sl Hin.
  pose proof (rr_trace _ _ _ (reachable_exact_rr _ _ _ _ _ E Hnn Hq Hr)) as Hw.
  pose proof (wi_disp _ _ _ (ri_work _ _ _ _ (reachable_exact_run _ _ _ _ _ E Hnn Hq Hr)))
    as Hd.
  rewrite Forall_forall in Hw, Hd.
  specialize (Hw _ Hin). specialize (Hd _ Hin).
  cbn [wait_ok dispatch_ok] in Hw, Hd. lia.
Qed.


(* ------------------------------------------------------------------ *)
(** ** The horizon of a run *)

(** The latest arrival of the input, and after it every burst of every
    process, one after the other: no event of a run on a non-negative
    input lies beyond. *)
Definition horizon (g : list PCB) : Z :=
  fold_right Z.max 0 (map arrival_time g)
  + sum (map (fun pc => sum (cpu_bursts pc) + sum (io_bursts pc)) g).

(** What a process still has to execute: the rest of its burst, the CPU
    bursts after it and the I/O bursts from the current one on. *)
Definition future_work (pc : PCB) : Z :=
  remaining_cpu pc
  + sum (skipn (S (Z.to_nat (current_burst pc))) (cpu_bursts pc))
  + sum (skipn (Z.to_nat (current_burst pc)) (io_bursts pc)).

(** What the process of an event has to execute after the event: all of
    it after an arrival, and what the slice leaves at the end of a slice. *)
Definition work_after (q : Z) (G : list PCB) (e : Event) : Z :=
  match type e with
  | EVT_ARRIVE => future_work (get_proc G (pid e))
  | _ => future_work (get_proc G (pid e))
         - dispatch_slice (remaining_cpu (get_proc G (pid e))) q
  end.

(** The work that is left in the heap and in the ready queue. *)
Definition load (q : Z) (s : Sim) : Z :=
  sum (map (work_after q (g_processes s)) (contents (eventQ s)))
  + sum (map (fun p => future_work (get_proc (g_processes s) p))
             (rq_list (readyQ s))).

(** With work of [x] in the hand of the handler, now and every event of
    the heap leave room for all the work that is left before the horizon
    [H]; and no process has more left of its burst than the burst. *)
Record hz_inv (H q x : Z) (s : Sim) : Prop := mk_hz_inv {
  hz_procs : Forall (fun pc => remaining_cpu pc
                               <= burst_at (cpu_bursts pc) (current_burst pc))
                    (g_processes s);
  hz_now : current_time s + load q s + x <= H;
  hz_heap : Forall (fun e => time e + load q s + x <= H) (contents (eventQ s))
}.

Lemma sum_skipn (l : list Z) k : sum (skipn k l) = nth k l 0 + sum (skipn (S k) l).
Proof.
  revert k. induction l as [|a l IH]; intros k.
  - rewrite !skipn_nil. destruct k; reflexivity.
  - destruct k as [|k]; [reflexivity|]. cbn [skipn nth]. apply IH.
Qed.

Lemma Forall_skipn {A} (P : A -> Prop) k (l : list A) :
  Forall P l -> Forall P (skipn k l).
Proof.
  intros Hl. rewrite Forall_forall in *. intros x Hx. apply Hl.
  rewrite <- (firstn_skipn k l). apply in_or_app. right. assumption.
Qed.

Lemma Forall_firstn {A} (P : A -> Prop) k (l : list A) :
  Forall P l -> Forall P (firstn k l).
Proof.
  intros Hl. rewrite Forall_forall in *. intros x Hx. apply Hl.
  rewrite <- (firstn_skipn k l). apply in_or_app. left. assumption.
Qed.

Lemma future_work_bounds pc :
  time_ok pc ->
  0 <= remaining_cpu pc /\
  remaining_cpu pc <= future_work pc /\
  burst_at (io_bursts pc) (current_burst pc) <= future_work pc.
Proof.
  intros [[Hc Hi] Hr]. unfold future_work, burst_at.
  pose proof (sum_nonneg _ (Forall_skipn _ (S (Z.to_nat (current_burst pc))) _ Hc)).
  pose proof (sum_nonneg _ (Forall_skipn _ (S (Z.to_nat (current_burst pc))) _ Hi)).
  pose proof (burst_at_nonneg _ (current_burst pc) Hi) as Hio. unfold burst_at in Hio.
  rewrite (sum_skipn (io_bursts pc)). lia.
Qed.

Lemma work_after_nonneg q G e : Forall time_ok G -> 0 <= work_after q G e.
Proof.
  intros HG.
  pose proof (get_proc_Forall _ _ (pid e) HG time_ok_zero) as Hpc.
  destruct (future_work_bounds _ Hpc) as (Hr & Hf & _).
  pose proof (dispatch_slice_le (remaining_cpu (get_proc G (pid e))) q).
  unfold work_after. destruct (type e); lia.
Qed.

Lemma load_parts q s :
  Forall time_ok (g_processes s) ->
  0 <= sum (map (work_after q (g_processes s)) (contents (eventQ s))) /\
  0 <= sum (map (fun p => future_work (get_proc (g_processes s) p))
                (rq_list (readyQ s))).
Proof.
  intros HG. split; apply sum_nonneg, Forall_map, Forall_forall.
  - intros e _. apply work_after_nonneg. assumption.
  - intros p _.
    destruct (future_work_bounds _ (get_proc_Forall _ _ p HG time_ok_zero))
      as (? & ? & _). lia.
Qed.

Lemma load_nonneg q s : Forall time_ok (g_processes s) -> 0 <= load q s.
Proof. intros HG. destruct (load_parts q s HG). unfold load. lia. Qed.

(** The times of a state within the horizon fit an [int]. *)
Lemma hz_inv_now H q x s :
  hz_inv H q x s -> Forall time_ok (g_processes s) -> 0 <= x ->
  current_time s <= H.
Proof.
  intros Hz HG Hx. pose proof (hz_now _ _ _ _ Hz). pose proof (load_nonneg q s HG).
  lia.
Qed.

Lemma work_frame q G p f (l : list Event) :
  0 <= p -> Forall (fun e => 0 <= pid e /\ pid e <> p) l ->
  map (work_after q (upd_proc G p f)) l = map (work_after q G) l.
Proof.
  intros Hp H. apply map_ext_in. intros e He. rewrite Forall_forall in H.
  destruct (H e He). unfold work_after. rewrite get_upd_proc_other by auto.
  reflexivity.
Qed.

Lemma future_frame G p f (l : list Z) :
  0 <= p -> Forall (fun p' => 0 <= p' /\ p' <> p) l ->
  map (fun p' => future_work (get_proc (upd_proc G p f) p')) l
  = map (fun p' => future_work (get_proc G p')) l.
Proof.
  intros Hp H. apply map_ext_in. intros p' He. rewrite Forall_forall in H.
  destruct (H p' He). rewrite get_upd_proc_other by auto. reflexivity.
Qed.

(** With the pid [p] in hand, an update of its entry leaves the load of
    the tokens as it is. *)
Lemma load_frame n g0 q s p f s' :
  sim_inv n g0 [p] s ->
  g_processes s' = upd_proc (g_processes s) p f ->
  eventQ s' = eventQ s -> readyQ s' = readyQ s ->
  load q s' = load q s.
Proof.
  intros H Eg Ee Er. destruct (hand_apart _ _ _ _ H) as (Hv & Hae & Har).
  unfold load. rewrite Eg, Ee, Er.
  rewrite work_frame, future_frame by (auto; lia). reflexivity.
Qed.

Lemma hz_inv_frame n g0 H q x x' s p f s' :
  sim_inv n g0 [p] s -> hz_inv H q x s ->
  g_processes s' = upd_proc (g_processes s) p f ->
  eventQ s' = eventQ s -> readyQ s' = readyQ s ->
  current_time s' = current_time s ->
  remaining_cpu (f (get_proc (g_processes s) p))
  <= burst_at (cpu_bursts (f (get_proc (g_processes s) p)))
              (current_burst (f (get_proc (g_processes s) p))) ->
  x' <= x ->
  hz_inv H q x' s'.
Proof.
  intros Hs [Hp Hn Hh] Eg Ee Er Et Hf Hx.
  pose proof (load_frame n g0 q s p f s' Hs Eg Ee Er) as El.
  constructor.
  - rewrite Eg. apply Forall_upd_proc_at; auto.
  - rewrite Et, El. lia.
  - rewrite Ee, El. eapply Forall_impl; [|exact Hh]. cbv beta. intros; lia.
Qed.

Lemma pop_state_hz n g0 H q s e mh :
  sim_inv n g0 [] s -> hz_inv H q 0 s -> (0 < size (eventQ s))%nat ->
  eventHeap_pop (g_processes s) (eventQ s) = (e, mh) ->
  hz_inv H q (work_after q (g_processes s) e) (pop_state s e mh).
Proof.
  intros Hs [Hp Hn Hh] Hpos Hpop.
  destruct (eventHeap_pop_spec _ _ (inv_heap _ _ _ _ Hs) Hpos)
    as (e' & mh' & E & _ & _ & _ & Hperm & _).
  rewrite Hpop in E. injection E as <- <-.
  assert (El : load q s = work_after q (g_processes s) e + load q (pop_state s e mh)).
  { unfold load. cbn [pop_state g_processes eventQ readyQ].
    rewrite (sum_perm _ _ (Permutation_map _ Hperm)). cbn [map].
    rewrite sum_cons. lia. }
  pose proof (Permutation_Forall Hperm Hh) as Hh'.
  constructor; cbn [pop_state g_processes eventQ current_time].
  - assumption.
  - pose proof (Forall_inv Hh'). cbv beta in *. lia.
  - eapply Forall_impl; [|exact (Forall_inv_tail Hh')]. cbv beta. intros; lia.
Qed.

Lemma enqueue_state_exact_hz n g0 H q s p :
  sim_inv n g0 [p] s ->
  hz_inv H q (future_work (get_proc (g_processes s) p)) s ->
  hz_inv H q 0 (enqueue_state_exact s p).
Proof.
  intros Hs [Hp Hn Hh]. unfold enqueue_state_exact.
  destruct (RQ_enqueue_spec (g_processes s) (readyQ s) p (current_time s)
              (inv_rq _ _ _ _ Hs) (sim_inv_rq_room _ _ _ _ Hs))
    as (q' & E & _ & _ & _ & Hl).
  rewrite E. destruct (hand_apart _ _ _ _ Hs) as (Hv & Hae & Har).
  pose proof (sim_inv_table_length _ _ _ _ Hs) as Hlen.
  assert (El : load q (mkSim (upd_proc (g_processes s) p
                                (fun pc => set_last_ready_time pc (current_time s)))
                             (eventQ s) q' (current_time s) (cpu_idle_time s)
                             (cpu_busy_until s) (running_pid s)
                             (running_end_time s) (finished_count s)
                             (trace s ++ []))
               = load q s + future_work (get_proc (g_processes s) p)).
  { unfold load. cbn [g_processes eventQ readyQ].
    rewrite Hl, map_app, sum_app, work_frame, future_frame by (auto; lia).
    cbn [map]. rewrite get_upd_proc_same by lia.
    unfold sum at 3. cbn [fold_right].
    unfold future_work. pcb_simpl. lia. }
  constructor; rewrite ?El; cbn [g_processes eventQ current_time].
  - apply Forall_upd_proc; auto.
  - lia.
  - eapply Forall_impl; [|exact Hh]. cbv beta. intros; lia.
Qed.

Lemma release_cpu_exact_hz n g0 H q s e :
  0 <= q -> sim_inv n g0 [pid e] s -> acct_inv n g0 q s ->
  event_ok q (g_processes s) e -> type e <> EVT_ARRIVE ->
  time e = current_time s ->
  hz_inv H q (work_after q (g_processes s) e) s ->
  hz_inv H q
         (future_work (get_proc (g_processes (release_cpu_exact s (pid e))) (pid e)))
         (release_cpu_exact s (pid e)).
Proof.
  intros Hq Hs Ha Hev Hty Htime Hz.
  destruct (release_cpu_exact_get n g0 q s e Hq Hs Ha Hev Hty Htime) as (Hget & _ & _).
  destruct (hand_apart _ _ _ _ Hs) as (Hv & _ & _).
  pose proof (sim_inv_table_length _ _ _ _ Hs) as Hlen.
  assert (Hpc : proc_ok (get_proc (g_processes s) (pid e))).
  { pose proof (ai_procs _ _ _ _ Ha) as Hp. rewrite Forall_forall in Hp.
    apply Hp, get_proc_In. lia. }
  destruct Hpc as (_ & Hrem & _ & _).
  assert (Hle : remaining_cpu (get_proc (g_processes s) (pid e))
                <= burst_at (cpu_bursts (get_proc (g_processes s) (pid e)))
                            (current_burst (get_proc (g_processes s) (pid e)))).
  { pose proof (hz_procs _ _ _ _ Hz) as Hp. rewrite Forall_forall in Hp.
    apply (Hp (get_proc (g_processes s) (pid e))), get_proc_In. lia. }
  apply (hz_inv_frame n g0 H q (work_after q (g_processes s) e) _ s (pid e)
           (fun pc => set_remaining_cpu pc
                        (Z.max 0 (remaining_cpu pc - used_time_exact s (pid e)))));
    auto using release_cpu_exact_table.
  - pcb_simpl. unfold used_time_exact. lia.
  - rewrite Hget. unfold work_after, future_work. pcb_simpl.
    destruct (type e); [congruence | lia | lia].
Qed.

Lemma future_work_next pc :
  0 <= current_burst pc ->
  future_work pc
  = remaining_cpu pc + burst_at (io_bursts pc) (current_burst pc)
    + future_work (set_remaining_cpu
                     (set_current_burst pc (current_burst pc + 1))
                     (burst_at (cpu_bursts pc) (current_burst pc + 1))).
Proof.
  intros Hc. unfold future_work, burst_at. pcb_simpl.
  replace (Z.to_nat (current_burst pc + 1)) with (S (Z.to_nat (current_burst pc)))
    by lia.
  rewrite (sum_skipn (cpu_bursts pc) (S (Z.to_nat (current_burst pc)))).
  rewrite (sum_skipn (io_bursts pc) (Z.to_nat (current_burst pc))). lia.
Qed.

Lemma burst_done_exact_hz n g0 H q s p :
  sim_inv n g0 [p] s -> Forall time_ok (g_processes s) ->
  0 <= current_burst (get_proc (g_processes s) p) ->
  hz_inv H q (future_work (get_proc (g_processes s) p)) s ->
  hz_inv H q 0 (burst_done_exact s p).
Proof.
  intros Hs HG Hcur Hz.
  destruct (hand_apart _ _ _ _ Hs) as (Hv & Hae & Har).
  pose proof (sim_inv_table_length _ _ _ _ Hs) as Hlen.
  set (pc := get_proc (g_processes s) p) in *.
  assert (Hpc : time_ok pc) by (apply get_proc_Forall; [assumption | apply time_ok_zero]).
  destruct (future_work_bounds _ Hpc) as (Hrem & Hfw & _).
  unfold burst_done_exact. fold pc.
  destruct (Z.leb_spec (num_bursts pc) (current_burst pc + 1)) as [Hlast|Hmore].
  - apply (hz_inv_frame n g0 H q (future_work pc) 0 s p
             (fun pc0 => set_finish_time pc0 (current_time s))); auto.
    + fold pc. pcb_simpl.
      pose proof (hz_procs _ _ _ _ Hz) as Hp. rewrite Forall_forall in Hp.
      apply (Hp pc), get_proc_In. lia.
    + lia.
  - destruct (eventHeap_push_spec (g_processes s) (eventQ s)
                (mkEvent (current_time s
                          + burst_at (io_bursts pc) (current_burst pc + 1 - 1))
                         EVT_ARRIVE p)
                (inv_heap _ _ _ _ Hs) (sim_inv_heap_room _ _ _ _ Hs))
      as (mh' & E & _ & _ & _ & Hperm).
    rewrite E. rewrite upd_proc_twice.
    replace (current_burst pc + 1 - 1) with (current_burst pc) in * by lia.
    pose proof (future_work_next pc Hcur) as Hnext.
    pose proof (burst_at_nonneg (io_bursts pc) (current_burst pc)
                  (proj2 (proj1 Hpc))) as Hio.
    set (pc' := set_remaining_cpu (set_current_burst pc (current_burst pc + 1))
                  (burst_at (cpu_bursts pc) (current_burst pc + 1))) in *.
    set (G' := upd_proc (g_processes s) p _).
    assert (Eget : get_proc G' p = pc')
      by (unfold G'; rewrite get_upd_proc_same by lia; reflexivity).
    set (s' := mkSim G' mh' _ _ _ _ _ _ _ _).
    assert (El : load q s' = load q s + future_work pc').
    { unfold load, s'. cbn [g_processes eventQ readyQ].
      rewrite (sum_perm _ _ (Permutation_map _ Hperm)). cbn [map].
      unfold G'. rewrite sum_cons, work_frame, future_frame by (auto; lia).
      unfold work_after at 1. cbn [type pid].
      rewrite get_upd_proc_same by lia. fold pc.
      change (cpu_bursts (set_current_burst pc (current_burst pc + 1)))
        with (cpu_bursts pc).
      fold pc'. lia. }
    destruct Hz as [Hp Hn Hh].
    constructor; rewrite ?El; unfold s'; cbn [g_processes eventQ current_time].
    + unfold G'. apply Forall_upd_proc_at; auto. intros _. fold pc.
      pcb_simpl. lia.
    + lia.
    + eapply Permutation_Forall; [symmetry; exact Hperm|]. constructor.
      * cbn [time]. lia.
      * eapply Forall_impl; [|exact Hh]. cbv beta. intros; lia.
Qed.

Lemma schedule_next_exact_hz n g0 H q s :
  0 <= q -> sim_inv n g0 [] s -> Forall time_ok (g_processes s) ->
  hz_inv H q 0 s -> hz_inv H q 0 (schedule_next_exact s q).
Proof.
  intros Hq Hs HG Hz.
  destruct (Z.le_gt_cases 0 (running_pid s)) as [Hb|Hfree];
    [rewrite schedule_next_exact_busy by assumption; assumption|].
  destruct (Z.eq_dec (count (readyQ s)) 0) as [Hz0|Hnz];
    [rewrite schedule_next_exact_idle by assumption; assumption|].
  assert (Hcnt : 0 < count (readyQ s))
    by (destruct (inv_rq _ _ _ _ Hs) as (_ & _ & _ & ? & _); lia).
  destruct (RQ_dequeue_spec _ (inv_rq _ _ _ _ Hs) Hcnt)
    as (p & rq' & Edq & _ & _ & _ & Hl).
  pose proof (dispatch_table_exact_frozen g0 _ p (current_time s)
                (inv_frozen _ _ _ _ Hs)) as Hfr.
  destruct (eventHeap_push_spec
              (dispatch_table_exact (g_processes s) p (current_time s)) (eventQ s)
              (dispatch_event_exact (remaining_cpu (get_proc (g_processes s) p)) q
                              (current_time s) p)
              (frozen_heap_wf _ _ _ _ (inv_frozen _ _ _ _ Hs) Hfr (inv_heap _ _ _ _ Hs))
              (sim_inv_heap_room _ _ _ _ Hs))
    as (mh' & E & _ & _ & _ & Hperm).
  rewrite (schedule_next_exact_dispatch s q p rq' mh' _ ltac:(lia) Hnz Edq E).
  pose proof (sim_inv_table_length _ _ _ _ Hs) as Hlen.
  destruct (head_apart _ _ _ _ _ Hs Hl) as (Hpv & Hae & Har).
  set (pc := get_proc (g_processes s) p) in *.
  assert (Hpc : time_ok pc) by (apply get_proc_Forall; [assumption | apply time_ok_zero]).
  destruct (future_work_bounds _ Hpc) as (Hrem & Hfw & _).
  pose proof (dispatch_slice_min (remaining_cpu pc) q) as Hmin.
  set (sl := dispatch_slice (remaining_cpu pc) q) in *.
  set (s' := mkSim _ _ _ _ _ _ _ _ _ _).
  assert (El : load q s' + sl = load q s).
  { unfold load, s'. cbn [g_processes eventQ readyQ].
    rewrite (sum_perm _ _ (Permutation_map _ Hperm)), Hl. cbn [map].
    rewrite !sum_cons.
    unfold dispatch_table_exact. rewrite upd_proc_twice.
    rewrite work_frame, future_frame by (auto; lia).
    unfold work_after at 1. cbn [pid dispatch_event_exact].
    rewrite get_upd_proc_same by lia. fold pc.
    pose proof (dispatch_event_exact_type (remaining_cpu pc) q (current_time s) p)
      as Hty.
    cbn [dispatch_event_exact] in Hty.
    destruct (type _); [congruence | |];
      unfold future_work; pcb_simpl; fold sl; lia. }
  destruct Hz as [Hp Hn Hh].
  constructor; unfold s' in *; cbn [g_processes eventQ current_time].
  - unfold dispatch_table_exact. rewrite upd_proc_twice. apply Forall_upd_proc; auto.
  - lia.
  - eapply Permutation_Forall; [symmetry; exact Hperm|]. constructor.
    + cbn [time dispatch_event_exact]. fold sl. lia.
    + eapply Forall_impl; [|exact Hh]. cbv beta. intros; lia.
Qed.

Lemma handle_event_exact_hz n g0 H q s e :
  0 <= q -> sim_inv n g0 [pid e] s -> time_inv s -> acct_inv n g0 q s ->
  event_ok q (g_processes s) e -> time e = current_time s ->
  hz_inv H q (work_after q (g_processes s) e) s ->
  hz_inv H q 0 (handle_event_exact q s e).
Proof.
  intros Hq Hs Ht Ha Hev Htime Hz.
  destruct (hand_apart _ _ _ _ Hs) as (Hv & _ & _).
  destruct (type e) eqn:Et.
  - rewrite handle_event_exact_arrive by assumption.
    pose proof (enqueue_state_exact_inv _ _ _ _ Hs) as H2.
    pose proof (enqueue_state_exact_time _ _ _ _ Hs Ht) as Ht2.
    assert (Hz2 : hz_inv H q 0 (enqueue_state_exact s (pid e))).
    { apply (enqueue_state_exact_hz n g0); [assumption|].
      unfold work_after in Hz. rewrite Et in Hz. exact Hz. }
    destruct (_ <? 0); [|assumption].
    apply (schedule_next_exact_hz n g0); auto. apply (ti_procs _ Ht2).
  - rewrite handle_event_exact_complete by assumption.
    destruct (release_cpu_exact_acct n g0 q s e Hq Hs Ha Hev ltac:(congruence) Htime)
      as (Ha1 & _ & _ & _).
    pose proof (release_cpu_exact_inv _ _ _ _ (pid e) Hs) as H1.
    pose proof (release_cpu_exact_time _ (pid e) Ht) as Ht1.
    pose proof (release_cpu_exact_hz n g0 H q s e Hq Hs Ha Hev ltac:(congruence)
                  Htime Hz) as Hz1.
    assert (Hcur : 0 <= current_burst
                          (get_proc (g_processes (release_cpu_exact s (pid e))) (pid e))).
    { pose proof (ai_procs _ _ _ _ Ha1) as Hp. rewrite Forall_forall in Hp.
      apply (Hp (get_proc (g_processes (release_cpu_exact s (pid e))) (pid e))),
            get_proc_In.
      pose proof (sim_inv_table_length _ _ _ _ H1). lia. }
    apply (schedule_next_exact_hz n g0); auto.
    + apply burst_done_exact_inv; assumption.
    + apply (ti_procs _ (burst_done_exact_time _ _ _ _ H1 Ht1)).
    + apply (burst_done_exact_hz n g0); auto. apply (ti_procs _ Ht1).
  - rewrite handle_event_exact_timeout by assumption.
    destruct (release_cpu_exact_acct n g0 q s e Hq Hs Ha Hev ltac:(congruence) Htime)
      as (Ha1 & _ & _ & Hto).
    specialize (Hto Et).
    pose proof (release_cpu_exact_inv _ _ _ _ (pid e) Hs) as H1.
    pose proof (release_cpu_exact_time _ (pid e) Ht) as Ht1.
    pose proof (release_cpu_exact_hz n g0 H q s e Hq Hs Ha Hev ltac:(congruence)
                  Htime Hz) as Hz1.
    destruct (Z.ltb_spec 0 (remaining_cpu
                (get_proc (g_processes (release_cpu_exact s (pid e))) (pid e)))); [|lia].
    apply (schedule_next_exact_hz n g0); auto.
    + apply enqueue_state_exact_inv; assumption.
    + apply (ti_procs _ (enqueue_state_exact_time _ _ _ _ H1 Ht1)).
    + apply (enqueue_state_exact_hz n g0); assumption.
Qed.

Lemma loop_body_exact_hz n g0 H q s :
  0 <= q -> sim_inv n g0 [] s -> time_inv s -> acct_inv n g0 q s ->
  hz_inv H q 0 s -> loop_cond n s = true ->
  hz_inv H q 0 (loop_body_exact q s).
Proof.
  intros Hq Hs Ht Ha Hz Hc. apply loop_cond_true in Hc. destruct Hc as [_ Hsz].
  destruct (eventHeap_pop (g_processes s) (eventQ s)) as [e mh] eqn:Epop.
  rewrite (loop_body_exact_eq q s e mh Epop).
  destruct (pop_state_acct _ _ _ _ _ _ Hs Ht Ha Hsz Epop) as (Ha1 & Hev & _).
  apply (handle_event_exact_hz n g0 H q (pop_state s e mh) e Hq);
    [ eapply pop_state_inv; eassumption
    | eapply pop_state_time; eassumption
    | exact Ha1 | exact Hev | reflexivity
    | apply (pop_state_hz n g0 H q s e mh); assumption ].
Qed.

Lemma fold_max_ge (l : list Z) x : In x l -> x <= fold_right Z.max 0 l.
Proof.
  induction l as [|a l IH]; intros Hin; [destruct Hin|].
  cbn [fold_right]. destruct Hin as [->|Hin]; [lia|]. specialize (IH Hin). lia.
Qed.

Lemma fold_max_nonneg (l : list Z) : 0 <= fold_right Z.max 0 l.
Proof. induction l as [|a l IH]; cbn [fold_right]; lia. Qed.

Lemma future_work_fresh pc :
  fresh pc -> future_work pc = sum (cpu_bursts pc) + sum (io_bursts pc).
Proof.
  intros (Hc & Hr & _). unfold future_work. rewrite Hc, Hr. unfold burst_at.
  change (Z.to_nat 0) with O.
  rewrite <- (sum_skipn (cpu_bursts pc) 0). reflexivity.
Qed.

Lemma arrival_work q g ps : forall i,
  (forall k, (k < length ps)%nat -> get_proc g (i + Z.of_nat k) = nth k ps PCB_zero) ->
  sum (map (work_after q g) (arrival_events ps i)) = sum (map future_work ps).
Proof.
  induction ps as [|pc ps IH]; intros i H; [reflexivity|].
  cbn [arrival_events map]. rewrite !sum_cons. f_equal.
  - unfold work_after. cbn [type pid].
    specialize (H O ltac:(cbn; lia)). rewrite Z.add_0_r in H. cbn [nth] in H.
    rewrite H. reflexivity.
  - apply IH. intros k Hk. specialize (H (S k) ltac:(cbn; lia)).
    cbn [nth] in H. rewrite <- H. f_equal. lia.
Qed.

Lemma init_sim_hz n g q :
  0 < n -> length g = Z.to_nat n -> Forall fresh g ->
  hz_inv (horizon g) q 0 (init_sim n g).
Proof.
  intros Hn Hlen Hfresh.
  destruct (init_sim_eq n g ltac:(lia)) as (mh & E & _ & _ & Hp).
  rewrite E.
  assert (El : load q (mkSim g mh (RQ_init (n + 10)) 0 0 0 (-1) 0 0
                             (map ObsPush (arrival_events g 0)))
               = sum (map (fun pc => sum (cpu_bursts pc) + sum (io_bursts pc)) g)).
  { unfold load. cbn [g_processes eventQ readyQ].
    rewrite RQ_init_list. cbn [map]. unfold sum at 2. cbn [fold_right].
    rewrite (sum_perm _ _ (Permutation_map _ Hp)), Z.add_0_r.
    rewrite (arrival_work q g g 0)
      by (intros k Hk; unfold get_proc; rewrite Z.add_0_l, Nat2Z.id; reflexivity).
    f_equal. apply map_ext_in. intros pc Hin. apply future_work_fresh.
    rewrite Forall_forall in Hfresh. auto. }
  pose proof (fold_max_nonneg (map arrival_time g)) as Hmax.
  constructor; rewrite ?El; cbn [g_processes eventQ current_time]; unfold horizon.
  - eapply Forall_impl; [|exact Hfresh]. cbv beta.
    intros pc (Hc & Hr & _). rewrite Hc, Hr. lia.
  - lia.
  - eapply Permutation_Forall; [symmetry; exact Hp|].
    apply Forall_forall. intros e Hin.
    destruct (arrival_events_nth _ _ _ Hin) as (k & Hk & ->). cbn [time].
    pose proof (fold_max_ge (map arrival_time g) (arrival_time (nth k g PCB_zero))
                  (in_map _ _ _ (nth_In g PCB_zero Hk))). lia.
Qed.

(** Every state of a run over the integers on a non-negative input
    lies within the horizon of the input. *)
Lemma reachable_exact_hz input q n g s :
  read_input_file input = Some (n, g) -> nonneg_input g -> 0 <= q ->
  reachable_exact input q s -> hz_inv (horizon g) q 0 s.
Proof.
  intros E Hnn Hq Hr.
  induction Hr as [n' g' E' Hn | n' g' s E' Hr IH Hc];
    rewrite E in E'; injection E' as <- <-.
  - pose proof (read_input_file_length _ _ _ E Hn).
    apply init_sim_hz; auto. eapply read_input_file_fresh; eassumption.
  - destruct (reachable_exact_acct _ _ _ _ _ E Hnn Hq Hr) as (Hs & Ht & Ha).
    eapply loop_body_exact_hz; eassumption.
Qed.

(* ------------------------------------------------------------------ *)
(** ** Within the horizon the program runs over the integers *)

Lemma fits_within H x : H <= INT_MAX -> - H <= x <= H -> fits x.
Proof. unfold fits, INT_MIN, INT_MAX. lia. Qed.

Lemma enqueue_state_same s p :
  fits (current_time s) -> enqueue_state s p = enqueue_state_exact s p.
Proof.
  intros H. unfold enqueue_state, enqueue_state_exact.
  rewrite to_int_fits by assumption. reflexivity.
Qed.

Lemma dispatch_table_same g p now :
  fits now ->
  fits (wait_time (get_proc g p) + (now - last_ready_time (get_proc g p))) ->
  dispatch_table g p now = dispatch_table_exact g p now.
Proof.
  intros Hn Hw. unfold dispatch_table, dispatch_table_exact, upd_proc. cbv beta.
  rewrite !to_int_fits by assumption. reflexivity.
Qed.

Lemma dispatch_event_same rem q now p :
  fits (now + dispatch_slice rem q) ->
  dispatch_event rem q now p = dispatch_event_exact rem q now p.
Proof.
  intros H. unfold dispatch_event, dispatch_event_exact.
  rewrite to_int_fits by assumption. reflexivity.
Qed.

Lemma schedule_next_same s q :
  (running_pid s < 0 -> count (readyQ s) <> 0 ->
   forall p rq, RQ_dequeue (readyQ s) = (p, rq) ->
     fits (current_time s) /\
     fits (wait_time (get_proc (g_processes s) p)
           + (current_time s - last_ready_time (get_proc (g_processes s) p))) /\
     fits (current_time s
           + dispatch_slice (remaining_cpu (get_proc (g_processes s) p)) q)) ->
  schedule_next s q = schedule_next_exact s q.
Proof.
  intros H.
  destruct (Z.le_gt_cases 0 (running_pid s)) as [Hb|Hfree];
    [rewrite schedule_next_busy, schedule_next_exact_busy by assumption;
     reflexivity|].
  destruct (Z.eq_dec (count (readyQ s)) 0) as [Hz|Hnz];
    [rewrite schedule_next_idle, schedule_next_exact_idle by assumption;
     reflexivity|].
  destruct (RQ_dequeue (readyQ s)) as [p rq] eqn:Edq.
  destruct (H ltac:(lia) Hnz p rq eq_refl) as (Hn & Hw & He).
  destruct (eventHeap_push (dispatch_table (g_processes s) p (current_time s))
              (eventQ s)
              (dispatch_event (remaining_cpu (get_proc (g_processes s) p)) q
                              (current_time s) p)) as [mh o] eqn:Epush.
  rewrite (schedule_next_dispatch s q p rq mh o ltac:(lia) Hnz Edq Epush).
  rewrite dispatch_table_same, dispatch_event_same in Epush by assumption.
  rewrite (schedule_next_exact_dispatch s q p rq mh o ltac:(lia) Hnz Edq Epush).
  rewrite dispatch_table_same by assumption. reflexivity.
Qed.

Lemma release_cpu_same s p :
  fits (current_time s - start_run_time (get_proc (g_processes s) p)) ->
  fits (remaining_cpu (get_proc (g_processes s) p)
        - Z.max 0 (current_time s - start_run_time (get_proc (g_processes s) p))) ->
  release_cpu s p = release_cpu_exact s p.
Proof.
  intros Hu Hr.
  transitivity (mkSim (g_processes (release_cpu s p)) (eventQ s) (readyQ s)
                      (current_time s) (cpu_idle_time s)
                      (if current_time s <? cpu_busy_until s
                       then current_time s else cpu_busy_until s)
                      (-1) (running_end_time s) (finished_count s) (trace s));
    [reflexivity|].
  transitivity (mkSim (g_processes (release_cpu_exact s p)) (eventQ s) (readyQ s)
                      (current_time s) (cpu_idle_time s)
                      (if current_time s <? cpu_busy_until s
                       then current_time s else cpu_busy_until s)
                      (-1) (running_end_time s) (finished_count s) (trace s));
    [|reflexivity].
  rewrite release_cpu_table, release_cpu_exact_table. unfold upd_proc. cbv beta.
  unfold rem_after, used_time, used_time_exact.
  rewrite (to_int_fits _ Hu), (to_int_fits _ Hr). reflexivity.
Qed.

Lemma burst_done_same s p :
  fits (current_time s) ->
  (num_bursts (get_proc (g_processes s) p)
   <= current_burst (get_proc (g_processes s) p) + 1 ->
   let g := upd_proc (g_processes s) p
                     (fun pc => set_finish_time pc (current_time s)) in
   fits (finish_time (get_proc g p) - arrival_time (get_proc g p)) /\
   fits (finish_time (get_proc g p) - arrival_time (get_proc g p)
         - total_cpu_io (get_proc g p))) ->
  (current_burst (get_proc (g_processes s) p) + 1
   < num_bursts (get_proc (g_processes s) p) ->
   fits (current_time s
         + burst_at (io_bursts (get_proc (g_processes s) p))
                    (current_burst (get_proc (g_processes s) p) + 1 - 1))) ->
  burst_done s p = burst_done_exact s p.
Proof.
  intros Hn Hlast Hio. unfold burst_done, burst_done_exact.
  rewrite (to_int_fits _ Hn).
  destruct (Z.leb_spec (num_bursts (get_proc (g_processes s) p))
                       (current_burst (get_proc (g_processes s) p) + 1)) as [Hl|Hm].
  - destruct (Hlast Hl) as [Ht Hw]. cbv zeta in Ht, Hw.
    unfold print_per_process_metrics, print_per_process_metrics_exact.
    rewrite (to_int_fits _ Ht), (to_int_fits _ Hw). reflexivity.
  - rewrite (to_int_fits _ (Hio Hm)). reflexivity.
Qed.

Lemma prefix_sum_nonneg arr k : Forall (fun b => 0 <= b) arr -> 0 <= prefix_sum arr k.
Proof. intros H. unfold prefix_sum. apply sum_nonneg, Forall_firstn, H. Qed.

(** A process whose bursts are not negative and that has no more left of
    its burst than the burst is, at its clock, past its arrival and past
    all it has waited. *)
Lemma local_clock_bounds pc :
  time_ok pc ->
  remaining_cpu pc <= burst_at (cpu_bursts pc) (current_burst pc) ->
  arrival_time pc + wait_time pc <= local_clock pc.
Proof.
  intros [[Hc Hi] Hr] Hle. unfold local_clock, exec_before.
  pose proof (prefix_sum_nonneg _ (current_burst pc) Hc).
  pose proof (prefix_sum_nonneg _ (current_burst pc) Hi). lia.
Qed.

(** What the bound on the horizon asks of the input. *)
Definition input_ok (H : Z) (g0 : list PCB) : Prop :=
  Forall (fun pc => 0 <= arrival_time pc /\ 0 <= total_cpu_io pc <= H) g0.

Lemma input_ok_get H g0 G p :
  0 <= H -> input_ok H g0 -> frozen g0 G ->
  0 <= arrival_time (get_proc G p) /\ 0 <= total_cpu_io (get_proc G p) <= H.
Proof.
  intros HH Hok Hfr.
  pose proof (frozen_static _ _ p Hfr) as Hst. unfold static in Hst.
  injection Hst as _ E2 _ _ _ E6. rewrite E2, E6.
  apply (get_proc_Forall _ _ p Hok). cbn. lia.
Qed.

Lemma sum_map_ge {A} (f : A -> Z) (l : list A) x :
  Forall (fun y => 0 <= f y) l -> In x l -> f x <= sum (map f l).
Proof.
  induction 1 as [|y l Hy Hl IH]; intros Hin; [destruct Hin|].
  cbn [map]. rewrite sum_cons.
  pose proof (sum_nonneg _ (proj2 (Forall_map f (fun v => 0 <= v) l) Hl)).
  destruct Hin as [->|Hin]; [lia|]. specialize (IH Hin). lia.
Qed.

Lemma horizon_nonneg g : nonneg_input g -> 0 <= horizon g.
Proof.
  intros Hnn. unfold horizon.
  pose proof (fold_max_nonneg (map arrival_time g)).
  assert (0 <= sum (map (fun pc => sum (cpu_bursts pc) + sum (io_bursts pc)) g)); [|lia].
  apply sum_nonneg, Forall_map. eapply Forall_impl; [|exact Hnn]. cbv beta.
  intros pc [_ [Hc Hi]]. pose proof (sum_nonneg _ Hc). pose proof (sum_nonneg _ Hi). lia.
Qed.

(** On a non-negative input whose horizon fits an [int], the total the
    reader accumulated for a process is the sum of its bursts. *)
Lemma read_input_ok input n g :
  read_input_file input = Some (n, g) -> nonneg_input g ->
  horizon g <= INT_MAX ->
  input_ok (horizon g) g /\ Forall total_ok g.
Proof.
  intros E Hnn Hmax.
  pose proof (read_input_file_total _ _ _ E) as Htot.
  pose proof (fold_max_nonneg (map arrival_time g)) as Hm.
  assert (Hall : Forall (fun pc => 0 <= sum (cpu_bursts pc) + sum (io_bursts pc)) g).
  { eapply Forall_impl; [|exact Hnn]. cbv beta. intros pc [_ [Hc Hi]].
    pose proof (sum_nonneg _ Hc). pose proof (sum_nonneg _ Hi). lia. }
  assert (Hpc : forall pc, In pc g ->
            0 <= arrival_time pc /\
            0 <= sum (cpu_bursts pc) + sum (io_bursts pc) <= horizon g /\
            total_cpu_io pc = sum (cpu_bursts pc) + sum (io_bursts pc) /\
            total_ok pc).
  { intros pc Hin.
    pose proof (sum_map_ge (fun pc => sum (cpu_bursts pc) + sum (io_bursts pc)) g pc
                  Hall Hin) as Hle.
    unfold nonneg_input in Hnn. rewrite Forall_forall in Htot, Hnn, Hall.
    destruct (Htot pc Hin) as [Ht Hs]. destruct (Hnn pc Hin) as [Ha _].
    pose proof (Hall pc Hin) as H0.
    cbv beta in Hle.
    assert (Hh : sum (cpu_bursts pc) + sum (io_bursts pc) <= horizon g)
      by (unfold horizon; lia).
    assert (Et : total_cpu_io pc = sum (cpu_bursts pc) + sum (io_bursts pc)).
    { rewrite Ht, <- Hs. apply to_int_fits. unfold fits, INT_MIN, INT_MAX in *. lia. }
    split; [exact Ha|]. split; [lia|]. split; [exact Et|].
    unfold total_ok. lia. }
  split; apply Forall_forall; intros pc Hin; destruct (Hpc pc Hin) as (? & ? & ? & ?);
    [split; [assumption | lia] | assumption].
Qed.

(** The dispatcher, at a state within the horizon. *)
Lemma schedule_next_same_inv n g0 H q s :
  0 <= q -> H <= INT_MAX -> input_ok H g0 ->
  sim_inv n g0 [] s -> time_inv s -> acct_inv n g0 q s -> hz_inv H q 0 s ->
  schedule_next s q = schedule_next_exact s q.
Proof.
  intros Hq HH Hok Hs Ht Ha Hz. apply schedule_next_same.
  intros Hrun Hnz p rq Edq.
  assert (Hcnt : 0 < count (readyQ s))
    by (destruct (inv_rq _ _ _ _ Hs) as (_ & _ & _ & ? & _); lia).
  destruct (RQ_dequeue_spec _ (inv_rq _ _ _ _ Hs) Hcnt)
    as (p' & rq' & Edq' & _ & _ & _ & Hl).
  rewrite Edq in Edq'. injection Edq' as <- <-.
  destruct (head_apart _ _ _ _ _ Hs Hl) as (Hpv & _ & _).
  pose proof (sim_inv_table_length _ _ _ _ Hs) as Hlen.
  set (pc := get_proc (g_processes s) p) in *.
  assert (Hin : In pc (g_processes s)) by (apply get_proc_In; lia).
  assert (Hpc : time_ok pc)
    by (pose proof (ti_procs _ Ht) as Hp; rewrite Forall_forall in Hp; auto).
  assert (Hpo : proc_ok pc)
    by (pose proof (ai_procs _ _ _ _ Ha) as Hp; rewrite Forall_forall in Hp; auto).
  assert (Hle : remaining_cpu pc <= burst_at (cpu_bursts pc) (current_burst pc))
    by (pose proof (hz_procs _ _ _ _ Hz) as Hp; rewrite Forall_forall in Hp;
        apply (Hp pc Hin)).
  assert (Hrd : ready_ok (current_time s) (g_processes s) p).
  { pose proof (ai_ready _ _ _ _ Ha) as Hr. rewrite Hl in Hr.
    apply (Forall_inv Hr). }
  destruct Hrd as [Hlr Hnow]. fold pc in Hlr, Hnow.
  destruct Hpo as (_ & Hrem & Hwait & _).
  pose proof (local_clock_bounds pc Hpc Hle) as Hlc.
  pose proof (ti_now _ Ht) as H0.
  assert (H00 : 0 <= H)
    by (pose proof (hz_inv_now _ _ _ _ Hz (ti_procs _ Ht) ltac:(lia)); lia).
  destruct (input_ok_get H g0 (g_processes s) p H00 Hok (inv_frozen _ _ _ _ Hs))
    as (Harr & _). fold pc in Harr.
  destruct (future_work_bounds _ Hpc) as (_ & Hfw & _).
  destruct (load_parts q s (ti_procs _ Ht)) as [Hev Hrq].
  assert (Hload : future_work pc <= load q s).
  { unfold load. rewrite Hl in *. cbn [map] in *. rewrite sum_cons in *.
    fold pc.
    assert (0 <= sum (map (fun p0 => future_work (get_proc (g_processes s) p0))
                          (rq_list rq))).
    { apply sum_nonneg, Forall_map, Forall_forall. intros p0 _.
      destruct (future_work_bounds _
                  (get_proc_Forall _ _ p0 (ti_procs _ Ht) time_ok_zero))
        as (? & ? & _). lia. }
    lia. }
  pose proof (hz_now _ _ _ _ Hz) as Hzn.
  pose proof (dispatch_slice_min (remaining_cpu pc) q) as Hmin.
  split; [|split]; apply (fits_within H); auto; lia.
Qed.

(** The end of a slice, at a state within the horizon. *)
Lemma release_cpu_same_inv n g0 H q s e :
  0 <= q -> H <= INT_MAX -> input_ok H g0 ->
  sim_inv n g0 [pid e] s -> time_inv s -> acct_inv n g0 q s ->
  event_ok q (g_processes s) e -> type e <> EVT_ARRIVE ->
  time e = current_time s ->
  hz_inv H q (work_after q (g_processes s) e) s ->
  release_cpu s (pid e) = release_cpu_exact s (pid e).
Proof.
  intros Hq HH Hok Hs Ht Ha Hev Hty Htime Hz.
  destruct (hand_apart _ _ _ _ Hs) as (Hv & _ & _).
  pose proof (sim_inv_table_length _ _ _ _ Hs) as Hlen.
  set (pc := get_proc (g_processes s) (pid e)) in *.
  assert (Hin : In pc (g_processes s)) by (apply get_proc_In; lia).
  assert (Hpc : time_ok pc)
    by (pose proof (ti_procs _ Ht) as Hp; rewrite Forall_forall in Hp; auto).
  assert (Hpo : proc_ok pc)
    by (pose proof (ai_procs _ _ _ _ Ha) as Hp; rewrite Forall_forall in Hp; auto).
  assert (Hle : remaining_cpu pc <= burst_at (cpu_bursts pc) (current_burst pc))
    by (pose proof (hz_procs _ _ _ _ Hz) as Hp; rewrite Forall_forall in Hp;
        apply (Hp pc Hin)).
  destruct Hpo as (_ & Hrem & Hwait & _).
  pose proof (local_clock_bounds pc Hpc Hle) as Hlc.
  assert (H00 : 0 <= H).
  { pose proof (hz_inv_now _ _ _ _ Hz (ti_procs _ Ht)
                  (work_after_nonneg q _ e (ti_procs _ Ht))).
    pose proof (ti_now _ Ht). lia. }
  destruct (input_ok_get H g0 (g_processes s) (pid e) H00 Hok
              (inv_frozen _ _ _ _ Hs)) as (Harr0 & _).
  fold pc in Harr0.
  assert (Hev' : start_run_time pc = local_clock pc /\
                 e = dispatch_event_exact (remaining_cpu pc) q (start_run_time pc)
                                          (pid e)).
  { unfold event_ok, event_ok_pc in Hev. fold pc in Hev.
    destruct (type e); [congruence | exact Hev | exact Hev]. }
  destruct Hev' as [Hstart Hevt].
  pose proof (dispatch_slice_min (remaining_cpu pc) q) as Hmin.
  assert (Hte : time e = start_run_time pc + dispatch_slice (remaining_cpu pc) q)
    by (rewrite Hevt at 1; reflexivity).
  destruct (future_work_bounds _ Hpc) as (_ & Hfw & _).
  pose proof (load_nonneg q s (ti_procs _ Ht)) as Hl0.
  pose proof (hz_now _ _ _ _ Hz) as Hzn.
  assert (Hx : work_after q (g_processes s) e
               = future_work pc - dispatch_slice (remaining_cpu pc) q).
  { unfold work_after. fold pc. destruct (type e); [congruence | |]; reflexivity. }
  pose proof (ti_now _ Ht) as H0.
  assert (Hst0 : 0 <= start_run_time pc) by lia.
  apply release_cpu_same; fold pc.
  - replace (current_time s - start_run_time pc)
      with (dispatch_slice (remaining_cpu pc) q) by lia.
    apply (fits_within H); auto. lia.
  - replace (current_time s - start_run_time pc)
      with (dispatch_slice (remaining_cpu pc) q) by lia.
    apply (fits_within H); auto. lia.
Qed.

(** The end of a burst, at a state within the horizon. *)
Lemma burst_done_same_inv n g0 H q s p :
  H <= INT_MAX -> input_ok H g0 ->
  sim_inv n g0 [p] s -> time_inv s -> acct_inv n g0 q s ->
  local_clock (get_proc (g_processes s) p) = current_time s ->
  hz_inv H q (future_work (get_proc (g_processes s) p)) s ->
  burst_done s p = burst_done_exact s p.
Proof.
  intros HH Hok Hs Ht Ha Hclock Hz.
  destruct (hand_apart _ _ _ _ Hs) as (Hv & _ & _).
  pose proof (sim_inv_table_length _ _ _ _ Hs) as Hlen.
  set (pc := get_proc (g_processes s) p) in *.
  assert (Hin : In pc (g_processes s)) by (apply get_proc_In; lia).
  assert (Hpc : time_ok pc)
    by (pose proof (ti_procs _ Ht) as Hp; rewrite Forall_forall in Hp; auto).
  assert (Hpo : proc_ok pc)
    by (pose proof (ai_procs _ _ _ _ Ha) as Hp; rewrite Forall_forall in Hp; auto).
  assert (Hle : remaining_cpu pc <= burst_at (cpu_bursts pc) (current_burst pc))
    by (pose proof (hz_procs _ _ _ _ Hz) as Hp; rewrite Forall_forall in Hp;
        apply (Hp pc Hin)).
  destruct Hpo as (_ & Hrem & Hwait & _).
  pose proof (local_clock_bounds pc Hpc Hle) as Hlc.
  destruct (future_work_bounds _ Hpc) as (_ & Hfw & Hio).
  pose proof (load_nonneg q s (ti_procs _ Ht)) as Hl0.
  pose proof (hz_now _ _ _ _ Hz) as Hzn.
  pose proof (ti_now _ Ht) as H0.
  assert (H00 : 0 <= H) by lia.
  destruct (input_ok_get H g0 (g_processes s) p H00 Hok (inv_frozen _ _ _ _ Hs))
    as (Harr & Htot). fold pc in Harr, Htot.
  pose proof (burst_at_nonneg (io_bursts pc) (current_burst pc)
                (proj2 (proj1 Hpc))) as Hio0.
  apply burst_done_same; fold pc.
  - apply (fits_within H); auto. lia.
  - intros _. cbv zeta. rewrite get_upd_proc_same by lia. fold pc. pcb_simpl.
    split; apply (fits_within H); auto; lia.
  - intros _. replace (current_burst pc + 1 - 1) with (current_burst pc) by lia.
    apply (fits_within H); auto. lia.
Qed.

(** Within the horizon a handler of the program does what the handler
    over the integers does. *)
Lemma handle_event_same n g0 H q s e :
  0 <= q -> H <= INT_MAX -> input_ok H g0 ->
  sim_inv n g0 [pid e] s -> time_inv s -> acct_inv n g0 q s ->
  event_ok q (g_processes s) e -> time e = current_time s ->
  hz_inv H q (work_after q (g_processes s) e) s ->
  handle_event q s e = handle_event_exact q s e.
Proof.
  intros Hq HH Hok Hs Ht Ha Hev Htime Hz.
  destruct (hand_apart _ _ _ _ Hs) as (Hv & _ & _).
  pose proof (ti_now _ Ht) as H0.
  pose proof (hz_inv_now _ _ _ _ Hz (ti_procs _ Ht)
                (work_after_nonneg q _ e (ti_procs _ Ht))) as HnH.
  assert (Hfit : fits (current_time s)) by (apply (fits_within H); auto; lia).
  destruct (type e) eqn:Et.
  - rewrite handle_event_arrive, handle_event_exact_arrive by assumption.
    rewrite enqueue_state_same by assumption.
    pose proof (enqueue_state_exact_inv _ _ _ _ Hs) as H2.
    pose proof (enqueue_state_exact_time _ _ _ _ Hs Ht) as Ht2.
    assert (Hz2 : hz_inv H q 0 (enqueue_state_exact s (pid e))).
    { apply (enqueue_state_exact_hz n g0); [assumption|].
      unfold work_after in Hz. rewrite Et in Hz. exact Hz. }
    assert (Ha2 : acct_inv n g0 q (enqueue_state_exact s (pid e))).
    { apply enqueue_state_exact_acct; auto.
      unfold event_ok, event_ok_pc in Hev. rewrite Et in Hev. lia. }
    destruct (_ <? 0); [|reflexivity].
    apply (schedule_next_same_inv n g0 H); assumption.
  - rewrite handle_event_complete, handle_event_exact_complete by assumption.
    rewrite (release_cpu_same_inv n g0 H q s e) by (auto; congruence).
    destruct (release_cpu_exact_acct n g0 q s e Hq Hs Ha Hev ltac:(congruence) Htime)
      as (Ha1 & Hclock & Hc & _).
    specialize (Hc Et).
    pose proof (release_cpu_exact_inv _ _ _ _ (pid e) Hs) as H1.
    pose proof (release_cpu_exact_time _ (pid e) Ht) as Ht1.
    pose proof (release_cpu_exact_hz n g0 H q s e Hq Hs Ha Hev ltac:(congruence)
                  Htime Hz) as Hz1.
    assert (Hcur : 0 <= current_burst
                          (get_proc (g_processes (release_cpu_exact s (pid e))) (pid e))).
    { pose proof (ai_procs _ _ _ _ Ha1) as Hp. rewrite Forall_forall in Hp.
      apply (Hp (get_proc (g_processes (release_cpu_exact s (pid e))) (pid e))),
            get_proc_In.
      pose proof (sim_inv_table_length _ _ _ _ H1). lia. }
    rewrite (burst_done_same_inv n g0 H q) by assumption.
    apply (schedule_next_same_inv n g0 H); auto.
    + apply burst_done_exact_inv; assumption.
    + eapply burst_done_exact_time; eassumption.
    + apply burst_done_exact_acct; assumption.
    + apply (burst_done_exact_hz n g0); auto. apply (ti_procs _ Ht1).
  - rewrite handle_event_timeout, handle_event_exact_timeout by assumption.
    rewrite (release_cpu_same_inv n g0 H q s e) by (auto; congruence).
    destruct (release_cpu_exact_acct n g0 q s e Hq Hs Ha Hev ltac:(congruence) Htime)
      as (Ha1 & Hclock & _ & Hto).
    specialize (Hto Et).
    pose proof (release_cpu_exact_inv _ _ _ _ (pid e) Hs) as H1.
    pose proof (release_cpu_exact_time _ (pid e) Ht) as Ht1.
    pose proof (release_cpu_exact_hz n g0 H q s e Hq Hs Ha Hev ltac:(congruence)
                  Htime Hz) as Hz1.
    destruct (Z.ltb_spec 0 (remaining_cpu
                (get_proc (g_processes (release_cpu_exact s (pid e))) (pid e)))); [|lia].
    rewrite enqueue_state_same by assumption.
    apply (schedule_next_same_inv n g0 H); auto.
    + apply enqueue_state_exact_inv; assumption.
    + eapply enqueue_state_exact_time; eassumption.
    + apply enqueue_state_exact_acct; assumption.
    + apply (enqueue_state_exact_hz n g0); assumption.
Qed.

Lemma loop_body_same n g0 H q s :
  0 <= q -> H <= INT_MAX -> input_ok H g0 ->
  sim_inv n g0 [] s -> time_inv s -> acct_inv n g0 q s ->
  hz_inv H q 0 s -> loop_cond n s = true ->
  loop_body q s = loop_body_exact q s.
Proof.
  intros Hq HH Hok Hs Ht Ha Hz Hc. apply loop_cond_true in Hc.
  destruct Hc as [_ Hsz].
  destruct (eventHeap_pop (g_processes s) (eventQ s)) as [e mh] eqn:Epop.
  rewrite (loop_body_eq q s e mh Epop), (loop_body_exact_eq q s e mh Epop).
  destruct (pop_state_acct _ _ _ _ _ _ Hs Ht Ha Hsz Epop) as (Ha1 & Hev & _).
  apply (handle_event_same n g0 H q (pop_state s e mh) e Hq HH Hok);
    [ eapply pop_state_inv; eassumption
    | eapply pop_state_time; eassumption
    | exact Ha1 | exact Hev | reflexivity
    | apply (pop_state_hz n g0 H q s e mh); assumption ].
Qed.

(** On a non-negative input whose horizon fits an [int], no store of a
    run narrows: the states of the program are those of the handlers over
    the integers. *)
Lemma reachable_is_exact input q n g s :
  read_input_file input = Some (n, g) -> nonneg_input g -> 0 <= q ->
  horizon g <= INT_MAX ->
  reachable input q s -> reachable_exact input q s.
Proof.
  intros E Hnn Hq Hmax Hr.
  destruct (read_input_ok _ _ _ E Hnn Hmax) as [Hok _].
  induction Hr as [n' g' E' Hn | n' g' s E' Hr IH Hc];
    rewrite E in E'; injection E' as <- <-.
  - apply reach_exact_init; assumption.
  - destruct (reachable_exact_acct _ _ _ _ _ E Hnn Hq IH) as (Hs & Ht & Ha).
    pose proof (reachable_exact_hz _ _ _ _ _ E Hnn Hq IH) as Hz.
    rewrite (loop_body_same n g (horizon g) q s) by assumption.
    eapply reach_exact_step; eassumption.
Qed.


(* ================================================================== *)
(** * Runs within the horizon *)

(** What a run of the program keeps on a non-negative input whose
    horizon fits an [int]. *)
Lemma reachable_bounded input q n g s :
  read_input_file input = Some (n, g) -> nonneg_input g -> 0 <= q ->
  horizon g <= INT_MAX ->
  reachable input q s ->
  run_inv n g q s /\ rr_inv n q s /\ hz_inv (horizon g) q 0 s.
Proof.
  intros E Hnn Hq Hmax Hr.
  pose proof (reachable_is_exact _ _ _ _ _ E Hnn Hq Hmax Hr) as Hx.
  split; [apply (reachable_exact_run _ _ _ _ _ E Hnn Hq Hx)|].
  split; [apply (reachable_exact_rr _ _ _ _ _ E Hnn Hq Hx)|].
  apply (reachable_exact_hz _ _ _ _ _ E Hnn Hq Hx).
Qed.

Lemma loop_body_is_exact input q n g s :
  read_input_file input = Some (n, g) -> nonneg_input g -> 0 <= q ->
  horizon g <= INT_MAX ->
  reachable input q s -> loop_cond n s = true ->
  loop_body q s = loop_body_exact q s.
Proof.
  intros E Hnn Hq Hmax Hr Hc.
  destruct (read_input_ok _ _ _ E Hnn Hmax) as [Hok _].
  destruct (reachable_bounded _ _ _ _ _ E Hnn Hq Hmax Hr) as (Hri & _ & Hz).
  apply (loop_body_same n g (horizon g)); auto.
  - apply (ri_sim _ _ _ _ Hri).
  - apply (ri_time _ _ _ _ Hri).
  - apply (ri_acct _ _ _ _ Hri).
Qed.

Lemma horizon_table_one : horizon table_one <= INT_MAX.
Proof. vm_compute. discriminate. Qed.

Lemma horizon_table_two : horizon table_two <= INT_MAX.
Proof. vm_compute. discriminate. Qed.

(* ------------------------------------------------------------------ *)
(** ** A run beyond the horizon *)

(** Two processes that arrive at 0, each with one CPU burst of
    2000000000: no time of the input is negative, each fits an [int], and
    the horizon of the input, 4000000000, does not. *)
Definition input_wrap : list Z := [2; 1; 0; 2000000000; -1; 2; 0; 2000000000; -1].

Definition table_wrap : list PCB :=
  Eval vm_compute in
    match read_input_file input_wrap with Some (_, g) => g | None => [] end.

Lemma read_input_wrap : read_input_file input_wrap = Some (2, table_wrap).
Proof. vm_compute. reflexivity. Qed.

Lemma nonneg_table_wrap : nonneg_input table_wrap.
Proof.
  repeat constructor; cbn; try lia;
    apply Forall_forall; intros x Hx; cbn in Hx;
    repeat (destruct Hx as [<-|Hx]; [lia|]); destruct Hx.
Qed.

Lemma horizon_table_wrap : horizon table_wrap = 4000000000.
Proof. vm_compute. reflexivity. Qed.

(** The run of [input_wrap] under the quantum of FCFS after three turns:
    P1 has run from 0 to 1000000000, P2 runs since and P1 is ready. *)
Definition sim_wrap3 : Sim :=
  loop_body 1000000000
    (loop_body 1000000000 (loop_body 1000000000 (init_sim 2 table_wrap))).

(** The fourth turn, up to the call of the dispatcher: the slice of P2
    has ended at 2000000000 and P2 has joined the ready queue behind P1. *)
Definition sim_wrap_dispatch : Sim :=
  let '(e, mh) := eventHeap_pop (g_processes sim_wrap3) (eventQ sim_wrap3) in
  enqueue_state (release_cpu (pop_state sim_wrap3 e mh) (pid e)) (pid e).

(** After five turns. *)
Definition sim_wrap5 : Sim :=
  loop_body 1000000000 (loop_body 1000000000 sim_wrap3).

Lemma sim_wrap5_reachable : reachable input_wrap 1000000000 sim_wrap5.
Proof.
  unfold sim_wrap5, sim_wrap3.
  do 5 (apply (reach_step _ _ 2 table_wrap);
        [exact read_input_wrap | | vm_compute; reflexivity]).
  apply reach_init; [exact read_input_wrap | lia].
Qed.

(** The whole run: the end of the third slice, 3000000000, is stored in
    the [int] field of its event as -1294967296, and the clock follows. *)
Lemma run_wrap_pops :
  option_map (fun s => pop_times (trace s))
             (run_loop 6 2 1000000000 (init_sim 2 table_wrap))
  = Some [0; 0; 1000000000; 2000000000; -1294967296; -294967296].
Proof. vm_compute. reflexivity. Qed.

(** C1 as stated fails where the end of the slice does not fit the
    [int] field of the event: the dispatcher is called at 2000000000
    with nobody running and P1 at the head of the ready queue with
    1000000000 left of its burst; the event it pushes is not at
    [current_time + slice] = 3000000000 but at -1294967296. *)
Lemma C1_counterexample :
  running_pid sim_wrap_dispatch = -1 /\
  rq_list (readyQ sim_wrap_dispatch) = [0; 1] /\
  current_time sim_wrap_dispatch = 2000000000 /\
  Z.min (remaining_cpu (get_proc (g_processes sim_wrap_dispatch) 0)) 1000000000
  = 1000000000 /\
  trace (schedule_next sim_wrap_dispatch 1000000000)
  = trace sim_wrap_dispatch
    ++ [ObsDispatch 0 2000000000 1000000000 1000000000;
        ObsPush (mkEvent (-1294967296) EVT_CPU_COMPLETE 0)] /\
  ~ (exists e, In (ObsPush e)
                 [ObsDispatch 0 2000000000 1000000000 1000000000;
                  ObsPush (mkEvent (-1294967296) EVT_CPU_COMPLETE 0)] /\
               time e = current_time sim_wrap_dispatch + 1000000000).
Proof.
  split; [vm_compute; reflexivity|]. split; [vm_compute; reflexivity|].
  split; [vm_compute; reflexivity|]. split; [vm_compute; reflexivity|].
  split; [vm_compute; reflexivity|].
  intros (e & [Hin|[Hin|[]]] & Ht); [discriminate Hin|].
  injection Hin as <-. vm_compute in Ht. discriminate Ht.
Qed.

(* ------------------------------------------------------------------ *)
(** ** The clock *)

(** C8 (as amended): in a run on an input whose arrival times and burst
    durations are not negative and whose horizon fits an [int] (with a
    quantum that is not negative either), the times of the events popped
    so far are in non-decreasing order and not negative; one more turn of
    the loop moves the clock to the time of the event it pops, which is
    not before the current time. *)
Theorem C8_event_times_monotone input q n g s :
  read_input_file input = Some (n, g) -> nonneg_input g -> 0 <= q ->
  horizon g <= INT_MAX ->
  reachable input q s ->
  StronglySorted Z.le (pop_times (trace s)) /\
  Forall (fun t => 0 <= t) (pop_times (trace s)) /\
  (loop_cond n s = true ->
   current_time (loop_body q s)
     = time (fst (eventHeap_pop (g_processes s) (eventQ s))) /\
   current_time s <= current_time (loop_body q s)).
Proof.
  intros E Hnn Hq Hmax Hr.
  pose proof (reachable_is_exact _ _ _ _ _ E Hnn Hq Hmax Hr) as Hx.
  destruct (event_times_monotone_exact _ _ _ _ _ E Hnn Hq Hx) as (Hs & Hp & Hstep).
  split; [exact Hs|]. split; [exact Hp|].
  intros Hc. rewrite (loop_body_is_exact _ _ _ _ _ E Hnn Hq Hmax Hr Hc).
  apply Hstep. exact Hc.
Qed.

Lemma C8_witness :
  exists s, run_loop 8 2 3 (init_sim 2 table_two) = Some s /\
            pop_times (trace s) = [0; 1; 3; 6; 9; 10; 13; 14] /\
            StronglySorted Z.le (pop_times (trace s)) /\
            Forall (fun t => 0 <= t) (pop_times (trace s)).
Proof.
  destruct run_two_exit as (s & E & Hr & _).
  exists s. split; [exact E|]. split.
  - assert (E1 : option_map (fun s => pop_times (trace s))
                            (run_loop 8 2 3 (init_sim 2 table_two))
                 = Some [0; 1; 3; 6; 9; 10; 13; 14])
      by (vm_compute; reflexivity).
    rewrite E in E1. injection E1 as E1. exact E1.
  - destruct (C8_event_times_monotone input_two 3 2 table_two s eq_refl
                nonneg_table_two ltac:(lia) horizon_table_two Hr) as (H1 & H2 & _).
    split; assumption.
Defined.

(** C8 as stated, for every non-negative input, fails: in the run on
    [input_wrap] the fifth event is popped at -1294967296, after one
    popped at 2000000000. *)
Lemma C8_counterexample :
  ~ (forall input q n g s,
       read_input_file input = Some (n, g) -> nonneg_input g -> 0 <= q ->
       reachable input q s ->
       StronglySorted Z.le (pop_times (trace s)) /\
       Forall (fun t => 0 <= t) (pop_times (trace s))).
Proof.
  intros H.
  destruct (H input_wrap 1000000000 2 table_wrap sim_wrap5 read_input_wrap
              nonneg_table_wrap ltac:(lia) sim_wrap5_reachable) as [_ Hpos].
  assert (E : pop_times (trace sim_wrap5)
              = [0; 0; 1000000000; 2000000000; -1294967296])
    by (vm_compute; reflexivity).
  rewrite E in Hpos.
  do 4 apply Forall_inv_tail in Hpos. apply Forall_inv in Hpos. lia.
Qed.

(* ------------------------------------------------------------------ *)
(** ** The exit of the main loop *)

(** The run on the one-process input with quantum 3, after its two
    turns. *)
Definition sim_one_end : Sim := loop_body 3 (loop_body 3 (init_sim 1 table_one)).

Lemma sim_one_end_reachable : reachable input_one 3 sim_one_end.
Proof.
  unfold sim_one_end.
  apply (reach_step _ _ 1 table_one); [reflexivity | | vm_compute; reflexivity].
  apply (reach_step _ _ 1 table_one); [reflexivity | | vm_compute; reflexivity].
  apply reach_init; [reflexivity | lia].
Qed.

Lemma nonneg_table_one : nonneg_input table_one.
Proof.
  repeat constructor; cbn; try lia;
    apply Forall_forall; intros x Hx; cbn in Hx;
    repeat (destruct Hx as [<-|Hx]; [lia|]); destruct Hx.
Qed.


(* ------------------------------------------------------------------ *)
(** ** The accounts of a run within the horizon *)





(** X3.  The slices on the time axis.  In a run on a non-negative input whose
    horizon fits an [int], the starts and the ends of the slices, taken
    in the order of the dispatches, never decrease: no slice has a
    negative length and no slice begins before the one before it has
    ended, so the CPU runs one process at a time.  Every slice is at most
    the quantum, every wait charged at a dispatch is non-negative, and
    every dispatched pid is one of the table. *)
Theorem slices_never_overlap input q n g s :
  read_input_file input = Some (n, g) -> nonneg_input g -> 0 <= q ->
  horizon g <= INT_MAX ->
  reachable input q s ->
  StronglySorted Z.le (slice_bounds (trace s)) /\
  Forall (fun t => 0 <= t <= cpu_busy_until s) (slice_bounds (trace s)) /\
  Forall (dispatch_ok n q) (trace s).
Proof.
  intros E Hnn Hq Hmax Hr.
  destruct (reachable_bounded _ _ _ _ _ E Hnn Hq Hmax Hr) as ([_ _ _ _ Hw _ _] & _).
  split; [apply (wi_sorted _ _ _ Hw)|].
  split; [apply (wi_before _ _ _ Hw) | apply (wi_disp _ _ _ Hw)].
Qed.

Lemma slices_never_overlap_witness :
  exists s, run_loop 8 2 3 (init_sim 2 table_two) = Some s /\
            slice_bounds (trace s) = [0; 3; 3; 6; 6; 9; 9; 10; 10; 13; 13; 14] /\
            StronglySorted Z.le (slice_bounds (trace s)).
Proof.
  destruct run_two_exit as (s & E & Hr & _).
  exists s. split; [exact E|]. split.
  - assert (E1 : option_map (fun s => slice_bounds (trace s))
                            (run_loop 8 2 3 (init_sim 2 table_two))
                 = Some [0; 3; 3; 6; 6; 9; 9; 10; 10; 13; 13; 14])
      by (vm_compute; reflexivity).
    rewrite E in E1. injection E1 as E1. exact E1.
  - apply (slices_never_overlap input_two 3 2 table_two s eq_refl nonneg_table_two
             ltac:(lia) horizon_table_two Hr).
Defined.

(** X10.  The completion records of a run on a non-negative input whose
    horizon fits an [int].  The record of process [p], printed at [now],
    shows the turnaround [now - arrival_time], which is the time of the
    bursts [p] executed plus the waits charged to [p] at its dispatches;
    so [p] does not finish before it arrives.  The wait it shows is the
    sum of those waits less the I/O burst the reader found after the last
    CPU burst: the two agree, and the turnaround is at least
    [total_cpu_io], as soon as the burst list of [p] ends with a CPU
    burst. *)
Theorem completion_records_accounted input q n g s :
  read_input_file input = Some (n, g) -> nonneg_input g -> 0 <= q ->
  horizon g <= INT_MAX ->
  reachable input q s ->
  forall tr1 tr2 now ext tat perc w,
    trace s = tr1 ++ ObsExit now ext tat perc w :: tr2 ->
    exists p,
      0 <= p < n /\ ext = id (get_proc g p) /\
      tat = now - arrival_time (get_proc g p) /\
      arrival_time (get_proc g p) <= now /\
      0 <= sum (dispatch_waits p tr1) /\
      tat = exec_total (get_proc g p) + sum (dispatch_waits p tr1) /\
      w = sum (dispatch_waits p tr1) - trailing_io (get_proc g p) /\
      (trailing_io (get_proc g p) = 0 ->
       w = sum (dispatch_waits p tr1) /\ total_cpu_io (get_proc g p) <= tat).
Proof.
  intros E Hnn Hq Hmax Hr.
  destruct (read_input_ok _ _ _ E Hnn Hmax) as [_ Htot].
  apply (completion_records_accounted_exact input q n g s E Hnn Hq Htot).
  apply (reachable_is_exact _ _ _ _ _ E Hnn Hq Hmax Hr).
Qed.

Lemma completion_records_witness :
  exists p, 0 <= p < 1 /\ 1 = id (get_proc table_one p) /\
            2 = 7 - arrival_time (get_proc table_one p).
Proof.
  destruct (completion_records_accounted input_one 3 1 table_one sim_one_end
              eq_refl nonneg_table_one ltac:(lia) horizon_table_one
              sim_one_end_reachable
              (firstn 5 (trace sim_one_end)) (skipn 6 (trace sim_one_end))
              7 1 2 (Some (100 * inject_Z 2 / inject_Z 2)%Q) 0
              ltac:(vm_compute; reflexivity))
    as (p & Hp & Hid & Htat & _).
  exists p. auto.
Defined.

(** X11.  The wait times of a run on a non-negative input whose horizon fits
    an [int]: the [wait_time] field of every process is the sum of the
    waits charged at its dispatches, and the total the aggregator reports
    sums these over the processes. *)
Theorem wait_times_accounted input q n g s :
  read_input_file input = Some (n, g) -> nonneg_input g -> 0 <= q ->
  horizon g <= INT_MAX ->
  reachable input q s ->
  (forall p, 0 <= p < n ->
     wait_time (get_proc (g_processes s) p) = sum (dispatch_waits p (trace s))) /\
  total_wait (g_processes s)
  = sum (map (fun k => sum (dispatch_waits (Z.of_nat k) (trace s)))
             (seq 0 (Z.to_nat n))).
Proof.
  intros E Hnn Hq Hmax Hr.
  apply (wait_times_accounted_exact input q n g s E Hnn Hq).
  apply (reachable_is_exact _ _ _ _ _ E Hnn Hq Hmax Hr).
Qed.

Lemma wait_times_witness :
  exists s, run_loop 8 2 3 (init_sim 2 table_two) = Some s /\
            wait_time (get_proc (g_processes s) 1) = 5 /\
            wait_time (get_proc (g_processes s) 1)
            = sum (dispatch_waits 1 (trace s)).
Proof.
  destruct run_two_exit as (s & E & Hr & _).
  exists s. split; [exact E|]. split.
  - assert (E1 : option_map (fun s => wait_time (get_proc (g_processes s) 1))
                            (run_loop 8 2 3 (init_sim 2 table_two)) = Some 5)
      by (vm_compute; reflexivity).
    rewrite E in E1. injection E1 as E1. exact E1.
  - apply (wait_times_accounted input_two 3 2 table_two s eq_refl nonneg_table_two
             ltac:(lia) horizon_table_two Hr). lia.
Defined.

(** X2.  The wait Round Robin allows.  In a run on a non-negative input with
    [n] processes whose horizon fits an [int], the wait charged at any
    dispatch, the time the process spent in the ready queue since it last
    joined it, is at most [n - 1] quanta: each of the other processes
    runs at most once, for a quantum at most, before the turn of the
    process comes. *)
Theorem round_robin_wait_bound input q n g s :
  read_input_file input = Some (n, g) -> nonneg_input g -> 0 <= q ->
  horizon g <= INT_MAX ->
  reachable input q s ->
  forall p now w sl,
    In (ObsDispatch p now w sl) (trace s) -> 0 <= w <= (n - 1) * q.
Proof.
  intros E Hnn Hq Hmax Hr p now w sl Hin.
  destruct (reachable_bounded _ _ _ _ _ E Hnn Hq Hmax Hr) as (Hri & Hrr & _).
  pose proof (rr_trace _ _ _ Hrr) as Hw.
  pose proof (wi_disp _ _ _ (ri_work _ _ _ _ Hri)) as Hd.
  rewrite Forall_forall in Hw, Hd.
  specialize (Hw _ Hin). specialize (Hd _ Hin).
  cbn [wait_ok dispatch_ok] in Hw, Hd. lia.
Qed.

Lemma round_robin_wait_bound_witness :
  exists s, run_loop 8 2 3 (init_sim 2 table_two) = Some s /\
            In (ObsDispatch 1 9 3 1) (trace s) /\ 0 <= 3 <= (2 - 1) * 3.
Proof.
  destruct run_two_exit as (s & E & Hr & _).
  assert (Hin : In (ObsDispatch 1 9 3 1) (trace s)).
  { assert (E1 : match run_loop 8 2 3 (init_sim 2 table_two) with
                 | Some s' => nth_error (trace s') 13
                 | None => None
                 end = Some (ObsDispatch 1 9 3 1))
      by (vm_compute; reflexivity).
    rewrite E in E1. apply (nth_error_In _ _ E1). }
  exists s. split; [exact E|]. split; [exact Hin|].
  apply (round_robin_wait_bound input_two 3 2 table_two s eq_refl nonneg_table_two
           ltac:(lia) horizon_table_two Hr 1 9 3 1 Hin).
Defined.

(* ------------------------------------------------------------------ *)
(** ** The program *)






